(** * Subsets: a shallow embedding of [subsets.c]

    The board model, the validator, the constraint-propagation solver, the
    generator, the description codec and the move engine of the Subsets
    puzzle, followed by the properties established about them.

    Conventions.  A C [unsigned int] is a [Z] in [[0, 2^32)]; stores that can
    leave that range are wrapped with [to_uint].  A C array is a [list],
    read with [get]/[bget] and written with [set]/[bset] (instances of
    [aget] and [aset]); an access outside
    the array (undefined in C) reads the default and writes nothing, and the
    theorems carry the hypotheses under which no such access happens.
    For-loops are folds over the list of their index values, loops with an
    early exit are recursive functions over that list. *)

From Stdlib Require Import ZArith List Bool Lia String Ascii Permutation FinFun.
Import ListNotations.
Local Open Scope Z_scope.

(** ** Machine integers and arrays *)

Definition to_uint (z : Z) : Z := z mod 2 ^ 32.

(** [%d] applied to an [unsigned int] argument prints its signed reading. *)
Definition to_int (z : Z) : Z := if z <? 2 ^ 31 then z else z - 2 ^ 32.

Definition zrange (k : Z) : list Z := map Z.of_nat (seq 0 (Z.to_nat k)).

Fixpoint upd {A : Type} (i : nat) (v : A) (l : list A) : list A :=
  match l, i with
  | [], _ => []
  | _ :: t, O => v :: t
  | a :: t, S j => a :: upd j v t
  end.

Definition aget {A : Type} (d : A) (l : list A) (i : Z) : A :=
  if i <? 0 then d else nth (Z.to_nat i) l d.

Definition aset {A : Type} (l : list A) (i : Z) (v : A) : list A :=
  if i <? 0 then l else upd (Z.to_nat i) v l.

Abbreviation get := (aget 0).
Abbreviation bget := (aget false).
Abbreviation set := aset.
Abbreviation bset := aset.

Definition zlen {A : Type} (l : list A) : Z := Z.of_nat (List.length l).

(** ** Constants of the source *)

Definition ALL_BITS (n : Z) : Z := Z.shiftl 1 n - 1.
Definition F_ADJ_UP : Z := 1.
Definition F_ADJ_RIGHT : Z := 2.
Definition F_ADJ_DOWN : Z := 4.
Definition F_ADJ_LEFT : Z := 8.

Record adj : Type := mkAdj
  { adj_f : Z; adj_fo : Z; adj_dx : Z; adj_dy : Z; adj_c : ascii; adj_enc : ascii }.

Definition adjthan : list adj :=
  [ mkAdj F_ADJ_UP F_ADJ_DOWN 0 (-1) "^" "U";
    mkAdj F_ADJ_RIGHT F_ADJ_LEFT 1 0 ">" "R";
    mkAdj F_ADJ_DOWN F_ADJ_UP 0 1 "v" "D";
    mkAdj F_ADJ_LEFT F_ADJ_RIGHT (-1) 0 "<" "L" ]%char.

(** The C test [a & b] used as a condition. *)
Definition has (a b : Z) : bool := negb (Z.land a b =? 0).

(** ** The board *)

Record game_params : Type := mkParams { p_w : Z; p_h : Z; p_n : Z }.

Record game_state : Type := mkState
  { w : Z; h : Z; n : Z;
    clues : list Z;
    immutable : list Z;
    known : list Z;
    mask : list Z;
    completed : bool;
    cheated : bool }.

Definition set_clues (st : game_state) (l : list Z) : game_state :=
  mkState (w st) (h st) (n st) l (immutable st) (known st) (mask st)
          (completed st) (cheated st).
Definition set_immutable (st : game_state) (l : list Z) : game_state :=
  mkState (w st) (h st) (n st) (clues st) l (known st) (mask st)
          (completed st) (cheated st).
Definition set_known (st : game_state) (l : list Z) : game_state :=
  mkState (w st) (h st) (n st) (clues st) (immutable st) l (mask st)
          (completed st) (cheated st).
Definition set_mask (st : game_state) (l : list Z) : game_state :=
  mkState (w st) (h st) (n st) (clues st) (immutable st) (known st) l
          (completed st) (cheated st).
Definition set_completed (st : game_state) (b : bool) : game_state :=
  mkState (w st) (h st) (n st) (clues st) (immutable st) (known st) (mask st)
          b (cheated st).

Definition default_params : game_params := mkParams 4 4 4.

Definition validate_params (params : game_params) : option string :=
  if negb (p_w params =? 4) || negb (p_h params =? 4) || negb (p_n params =? 4)
  then Some "Currently only 4x4 puzzles are supported"%string
  else None.

Definition blank_game (params : game_params) : game_state :=
  let s := Z.to_nat (p_w params * p_h params) in
  mkState (p_w params) (p_h params) (p_n params)
          (repeat 0 s) (repeat 0 s) (repeat 0 s)
          (repeat (ALL_BITS (p_n params)) s) false false.

(** [dup_game] copies the first [w*h] entries of each of the four arrays. *)
Definition dup_game (st : game_state) : game_state :=
  let s := Z.to_nat (w st * h st) in
  mkState (w st) (h st) (n st)
          (firstn s (clues st)) (firstn s (immutable st))
          (firstn s (known st)) (firstn s (mask st))
          (completed st) (cheated st).

(** ** The validator *)

Inductive status : Type := STATUS_COMPLETE | STATUS_UNFINISHED | STATUS_INVALID.

Definition status_eqb (a b : status) : bool :=
  match a, b with
  | STATUS_COMPLETE, STATUS_COMPLETE => true
  | STATUS_UNFINISHED, STATUS_UNFINISHED => true
  | STATUS_INVALID, STATUS_INVALID => true
  | _, _ => false
  end.

(** [known[i] == mask[i]] *)
Definition resolved (st : game_state) (i : Z) : bool :=
  get (known st) i =? get (mask st) i.

(** First loop: demote to UNFINISHED; with neither buffer, return at once
    ([inl] is the early return). *)
Fixpoint validate_unresolved (st : game_state) (nobuf : bool) (cells : list Z)
    (ret : status) : status + status :=
  match cells with
  | [] => inr ret
  | i :: rest =>
      if negb (resolved st i) then
        if nobuf then inl STATUS_UNFINISHED
        else validate_unresolved st nobuf rest STATUS_UNFINISHED
      else validate_unresolved st nobuf rest ret
  end.

(** Second loop: count the resolved values; [break] on the first duplicate
    when there is no flags buffer. *)
Fixpoint validate_counts (st : game_state) (noflags : bool) (cells : list Z)
    (counts : list Z) (ret : status) : list Z * status :=
  match cells with
  | [] => (counts, ret)
  | i :: rest =>
      if resolved st i then
        let v := get (known st) i in
        let counts := set counts v (get counts v + 1) in
        let ret := if 1 <? get counts v then STATUS_INVALID else ret in
        if noflags && status_eqb ret STATUS_INVALID then (counts, ret)
        else validate_counts st noflags rest counts ret
      else validate_counts st noflags rest counts ret
  end.

(** [flags[i] |= f] when a flags buffer is present. *)
Definition flag_edge (flags : option (list Z)) (i f : Z) : option (list Z) :=
  match flags with
  | Some fl => Some (set fl i (Z.lor (get fl i) f))
  | None => None
  end.

(** Body of the direction loop for the cell [(x, y)]. *)
Definition validate_dir (st : game_state) (x y : Z)
    (acc : status * option (list Z)) (a : adj) : status * option (list Z) :=
  let i := y * w st + x in
  let x2 := x + adj_dx a in
  let y2 := y + adj_dy a in
  if (x2 <? 0) || (x2 >=? w st) || (y2 <? 0) || (y2 >=? h st) then acc else
  let i2 := y2 * w st + x2 in
  if negb (resolved st i2) then acc else
  if negb (has (get (clues st) i) (adj_f a)) && ((x2 <? x) || (y2 <? y)) then acc else
  let intersect := Z.land (get (known st) i) (get (known st) i2) in
  if has (get (clues st) i) (adj_f a) then
    if negb (intersect =? get (known st) i2)
    then (STATUS_INVALID, flag_edge (snd acc) i (adj_f a))
    else acc
  else if negb (has (get (clues st) i2) (adj_fo a)) then
    if (intersect =? get (known st) i2) || (intersect =? get (known st) i)
    then (STATUS_INVALID, flag_edge (snd acc) i (adj_f a))
    else acc
  else acc.

Definition is_none {A : Type} (o : option A) : bool :=
  match o with None => true | Some _ => false end.

(** The [x] loop of one row; its [break] leaves the row. *)
Fixpoint validate_row (st : game_state) (y : Z) (xs : list Z)
    (acc : status * option (list Z)) : status * option (list Z) :=
  match xs with
  | [] => acc
  | x :: rest =>
      if status_eqb (fst acc) STATUS_INVALID && is_none (snd acc) then acc
      else if negb (resolved st (y * w st + x)) then validate_row st y rest acc
      else validate_row st y rest (fold_left (validate_dir st x y) adjthan acc)
  end.

Definition validate_arrows (st : game_state)
    (acc : status * option (list Z)) : status * option (list Z) :=
  fold_left (fun acc y => validate_row st y (zrange (w st)) acc)
            (zrange (h st)) acc.

(** [subsets_validate state flags counts]: the two buffers are optional;
    the result is the status and the buffers as the call leaves them. *)
Definition subsets_validate (st : game_state) (flags counts : option (list Z))
    : status * option (list Z) * option (list Z) :=
  let s := w st * h st in
  let hascounts := negb (is_none counts) in
  match validate_unresolved st (is_none flags && negb hascounts) (zrange s)
                            STATUS_COMPLETE with
  | inl r => (r, flags, counts)
  | inr ret =>
      let flags := match flags with
                   | Some _ => Some (repeat 0 (Z.to_nat s))
                   | None => None
                   end in
      let '(cnt, ret) :=
        validate_counts st (is_none flags) (zrange s) (repeat 0 (Z.to_nat s)) ret in
      let '(ret, flags) := validate_arrows st (ret, flags) in
      (ret, flags, if hascounts then Some cnt else None)
  end.

(** ** The solver *)

(** The three nested loops [for y, for x, for d] shared by the arrow rules,
    the incomparability rule and the generator. *)
Definition for_grid {S : Type} (wd ht : Z) (body : Z -> Z -> S -> adj -> S)
    (s0 : S) : S :=
  fold_left (fun s y =>
    fold_left (fun s x => fold_left (body x y) adjthan s) (zrange wd) s)
    (zrange ht) s0.

Definition sync_cell (st : game_state) (n2 : Z) (cube : list bool) (i nj : Z)
    : list bool :=
  if negb (bget cube (i * n2 + nj)) then cube else
  let cube :=
    if negb (Z.land (get (mask st) i) nj =? nj)
    then bset cube (i * n2 + nj) false else cube in
  if negb (Z.land (get (known st) i) nj =? get (known st) i)
  then bset cube (i * n2 + nj) false else cube.

Definition subsets_sync_cube (st : game_state) (cube : list bool) : list bool :=
  let s := w st * h st in
  let n2 := Z.shiftl 1 (n st) in
  fold_left (fun cube i =>
    fold_left (fun cube nj => sync_cell st n2 cube i nj) (zrange n2) cube)
    (zrange s) cube.

Definition single_count_cell (st : game_state) (n2 ni : Z) (cube : list bool)
    (j : Z) : list bool :=
  if get (mask st) j =? get (known st) j then cube
  else if negb (bget cube (j * n2 + ni)) then cube
  else bset cube (j * n2 + ni) false.

Definition subsets_cube_single_count (st : game_state) (counts : list Z)
    (cube : list bool) : list bool :=
  let s := w st * h st in
  let n2 := Z.shiftl 1 (n st) in
  fold_left (fun cube ni =>
    if negb (get counts ni =? 1) then cube
    else fold_left (single_count_cell st n2 ni) (zrange s) cube)
    (zrange n2) cube.

Definition apply_arrows_step (x y : Z) (acc : Z * game_state) (a : adj)
    : Z * game_state :=
  let '(ret, st) := acc in
  let i1 := y * w st + x in
  if negb (has (get (clues st) i1) (adj_f a)) then acc else
  let i2 := i1 + adj_dy a * w st + adj_dx a in
  let prev := get (known st) i1 in
  let st := set_known st
              (set (known st) i1 (Z.lor (get (known st) i1) (get (known st) i2))) in
  let ret := if negb (prev =? get (known st) i1) then ret + 1 else ret in
  let prev := get (mask st) i2 in
  let st := set_mask st
              (set (mask st) i2 (Z.land (get (mask st) i2) (get (mask st) i1))) in
  let ret := if negb (prev =? get (mask st) i2) then ret + 1 else ret in
  (ret, st).

Definition subsets_solve_apply_arrows (st : game_state) : Z * game_state :=
  for_grid (w st) (h st) apply_arrows_step (0, st).

(** The scan [for (i = 0; i < s && found != -2; i++)]. *)
Fixpoint find_single (cube : list bool) (n2 nj : Z) (cells : list Z)
    (found : Z) : Z :=
  match cells with
  | [] => found
  | i :: rest =>
      if found =? -2 then found
      else if negb (bget cube (i * n2 + nj)) then find_single cube n2 nj rest found
      else find_single cube n2 nj rest (if found =? -1 then i else -2)
  end.

Definition single_position_step (counts : list Z) (cube : list bool)
    (acc : Z * game_state) (nj : Z) : Z * game_state :=
  let '(ret, st) := acc in
  let s := w st * h st in
  let n2 := Z.shiftl 1 (n st) in
  if negb (get counts nj =? 0) then acc else
  let found := find_single cube n2 nj (zrange s) (-1) in
  if found <? 0 then acc else
  let st := set_known st (set (known st) found nj) in
  let st := set_mask st (set (mask st) found nj) in
  (ret + 1, st).

Definition subsets_solve_single_position (st : game_state) (counts : list Z)
    (cube : list bool) : Z * game_state :=
  fold_left (single_position_step counts cube)
            (zrange (Z.shiftl 1 (n st))) (0, st).

(** The inner loop of [subsets_bits_from_cube]: [(newmask, newknown)],
    starting from [(0, ~0)]. *)
Definition cube_bounds (cube : list bool) (n2 i : Z) : Z * Z :=
  fold_left (fun (acc : Z * Z) nj =>
    if bget cube (i * n2 + nj)
    then (Z.lor (fst acc) nj, Z.land (snd acc) nj) else acc)
    (zrange n2) (0, Z.lnot 0).

Definition bits_from_cube_step (cube : list bool) (acc : Z * game_state) (i : Z)
    : Z * game_state :=
  let '(ret, st) := acc in
  let n2 := Z.shiftl 1 (n st) in
  let '(newmask, newknown) := cube_bounds cube n2 i in
  let prev := get (known st) i in
  let st := set_known st
              (set (known st) i (Z.lor (get (known st) i) (to_uint newknown))) in
  let ret := if negb (prev =? get (known st) i) then ret + 1 else ret in
  let prev := get (mask st) i in
  let st := set_mask st
              (set (mask st) i (Z.land (get (mask st) i) (to_uint newmask))) in
  let ret := if negb (prev =? get (mask st) i) then ret + 1 else ret in
  (ret, st).

Definition subsets_bits_from_cube (st : game_state) (cube : list bool)
    : Z * game_state :=
  fold_left (bits_from_cube_step cube) (zrange (w st * h st)) (0, st).

(** Is there [sub < super], contained in [super], still possible at [i2]? *)
Definition sub_witness (cube : list bool) (n2 i2 super : Z) : bool :=
  existsb (fun sub => (Z.land super sub =? sub) && bget cube (i2 * n2 + sub))
          (zrange super).

Definition arrows_advanced_step (st : game_state) (x y : Z)
    (acc : Z * list bool) (a : adj) : Z * list bool :=
  let n2 := Z.shiftl 1 (n st) in
  let i1 := y * w st + x in
  if negb (has (get (clues st) i1) (adj_f a)) then acc else
  let i2 := i1 + adj_dy a * w st + adj_dx a in
  fold_left (fun (acc : Z * list bool) super =>
    let '(ret, cube) := acc in
    if negb (bget cube (i1 * n2 + super)) then acc
    else if negb (sub_witness cube n2 i2 super)
         then (ret + 1, bset cube (i1 * n2 + super) false)
         else acc)
    (zrange n2) acc.

Definition subsets_solve_apply_arrows_advanced (st : game_state)
    (cube : list bool) : Z * list bool :=
  for_grid (w st) (h st) (arrows_advanced_step st) (0, cube).

(** The C test [(known[i1] & opt) != opt && (known[i1] & opt) != known[i1]],
    negated: [opt] and [v] are comparable under inclusion. *)
Definition comparable (v opt : Z) : bool :=
  (Z.land v opt =? opt) || (Z.land v opt =? v).

Definition disjoint_step (st : game_state) (x y : Z) (acc : Z * list bool)
    (a : adj) : Z * list bool :=
  let n2 := Z.shiftl 1 (n st) in
  let i1 := y * w st + x in
  if has (get (clues st) i1) (adj_f a) then acc else
  if (x + adj_dx a <? 0) || (x + adj_dx a >=? w st)
     || (y + adj_dy a <? 0) || (y + adj_dy a >=? h st) then acc else
  let i2 := i1 + adj_dy a * w st + adj_dx a in
  if has (get (clues st) i2) (adj_fo a) then acc else
  if negb (resolved st i1) then
    if bget (snd acc) (i1 * n2) || bget (snd acc) (i1 * n2 + (n2 - 1))
    then (fst acc + 1,
          bset (bset (snd acc) (i1 * n2) false) (i1 * n2 + (n2 - 1)) false)
    else acc
  else if negb (resolved st i2) then
    fold_left (fun (acc : Z * list bool) opt =>
      if negb (bget (snd acc) (i2 * n2 + opt)) then acc
      else if negb (comparable (get (known st) i1) opt) then acc
      else (fst acc + 1, bset (snd acc) (i2 * n2 + opt) false))
      (zrange n2) acc
  else acc.

Definition subsets_disjoint (st : game_state) (cube : list bool)
    : Z * list bool :=
  for_grid (w st) (h st) (disjoint_step st) (0, cube).

(** The reset at the entry of [subsets_solve_game]. *)
Definition solve_reset (st : game_state) : game_state :=
  fold_left (fun st i =>
    if negb (get (immutable st) i =? 0) then st
    else set_mask (set_known st (set (known st) i 0))
                  (set (mask st) i (ALL_BITS (n st))))
    (zrange (w st * h st)) st.

Definition counts_of (r : status * option (list Z) * option (list Z)) : list Z :=
  match snd r with Some c => c | None => [] end.

(** One evaluation of the loop condition and, when it holds, of the loop
    body: [inl] when the loop goes round again, [inr] when it is left. *)
Definition solve_iteration (st : game_state) (cube : list bool)
    : (game_state * list bool) + (status * game_state) :=
  let r := subsets_validate st None (Some []) in
  let ret := fst (fst r) in
  let counts := counts_of r in
  if negb (status_eqb ret STATUS_UNFINISHED) then inr (ret, st) else
  let cube := subsets_sync_cube st cube in
  let cube := subsets_cube_single_count st counts cube in
  let '(k, st1) := subsets_solve_apply_arrows st in
  if negb (k =? 0) then inl (st1, cube) else
  let '(k, cube2) := subsets_disjoint st1 cube in
  if negb (k =? 0) then inl (st1, cube2) else
  let '(k, st3) := subsets_bits_from_cube st1 cube2 in
  if negb (k =? 0) then inl (st3, cube2) else
  let '(k, st4) := subsets_solve_single_position st3 counts cube2 in
  if negb (k =? 0) then inl (st4, cube2) else
  let '(k, cube5) := subsets_solve_apply_arrows_advanced st4 cube2 in
  if negb (k =? 0) then inl (st4, cube5) else
  inr (ret, st4).

Fixpoint solve_loop (fuel : nat) (st : game_state) (cube : list bool)
    : option (status * game_state) :=
  match fuel with
  | O => None
  | S fuel =>
      match solve_iteration st cube with
      | inl (st', cube') => solve_loop fuel st' cube'
      | inr r => Some r
      end
  end.

(** Every round of the loop but the last clears a cube entry or moves a bit
    of a bound, of which there are [s * n2] and [64 * s]. *)
Definition solve_fuel (st : game_state) : nat :=
  Z.to_nat (w st * h st * Z.shiftl 1 (n st) + 64 * (w st * h st) + 1).

Definition subsets_solve_game (st : game_state) : option (status * game_state) :=
  let s := w st * h st in
  let n2 := Z.shiftl 1 (n st) in
  solve_loop (solve_fuel st) (solve_reset st) (repeat true (Z.to_nat (s * n2))).

(** ** The description codec *)

Definition is_digit (c : ascii) : bool :=
  ((48 <=? nat_of_ascii c) && (nat_of_ascii c <=? 57))%nat.

Definition is_space (c : ascii) : bool :=
  ((nat_of_ascii c =? 32) || ((9 <=? nat_of_ascii c) && (nat_of_ascii c <=? 13)))%nat.

(** The C test [*p == c] for a character [c] other than the terminator. *)
Definition head_is (p : string) (c : ascii) : bool :=
  match p with
  | String c' _ => (c' =? c)%char
  | EmptyString => false
  end.

Definition string_tl (p : string) : string :=
  match p with String _ r => r | EmptyString => EmptyString end.

Fixpoint skip_digits (p : string) : string :=
  match p with
  | String c r => if is_digit c then skip_digits r else p
  | EmptyString => p
  end.

Fixpoint skip_spaces (p : string) : string :=
  match p with
  | String c r => if is_space c then skip_spaces r else p
  | EmptyString => p
  end.

Fixpoint digits_value (p : string) (acc : Z) : Z :=
  match p with
  | String c r =>
      if is_digit c
      then digits_value r (10 * acc + (Z.of_nat (nat_of_ascii c) - 48))
      else acc
  | EmptyString => acc
  end.

(** The C library reads a decimal number with [strtol], whose result is a
    [long] of 64 bits: a number that does not fit is replaced by the
    nearest of [LONG_MIN] and [LONG_MAX]. *)
Definition LONG_MAX : Z := 2 ^ 63 - 1.
Definition LONG_MIN : Z := - 2 ^ 63.

Definition clamp_long (v : Z) : Z := Z.max LONG_MIN (Z.min LONG_MAX v).

(** The conversion of a [long] to [int]: its low 32 bits, read as signed. *)
Definition int_of_long (v : Z) : Z := to_int (to_uint v).

(** libc's [atoi], [(int) strtol(p, NULL, 10)]: blanks, an optional sign,
    then the digits. *)
Definition atoi (p : string) : Z :=
  let q := skip_spaces p in
  int_of_long
    (clamp_long
       (if head_is q "-" then - digits_value (string_tl q) 0
        else if head_is q "+" then digits_value (string_tl q) 0
        else digits_value q 0)).

(** [sprintf("%d", v)] *)
Fixpoint print_digits (fuel : nat) (v : Z) (acc : string) : string :=
  match fuel with
  | O => acc
  | S fuel =>
      let acc := String (ascii_of_nat (Z.to_nat (48 + v mod 10))) acc in
      if v / 10 =? 0 then acc else print_digits fuel (v / 10) acc
  end.

Definition print_int (v : Z) : string :=
  if v <? 0 then String "-"%char (print_digits 11 (- v) ""%string)
  else print_digits 11 v ""%string.

Definition E_TOO_MUCH : string := "Too much data to fill grid"%string.
Definition E_RANGE : string := "Out-of-range number in game description"%string.
Definition E_NUMBER : string := "Expecting number in game description"%string.
Definition E_FLAG : string := "Expecting flag URDL in game description"%string.
Definition E_SEPARATOR : string := "Missing separator"%string.
Definition E_NOT_ENOUGH : string := "Not enough data to fill grid"%string.
Definition E_OFF_GRID : string := "Flags go off grid"%string.
Definition E_CONTRADICT : string := "Flags contradicting each other"%string.

(** The flag loop over the letters U, R, D, L with its switch, for cell [i]:
    [inl] is a returned error, [inr] the board and the rest of the text. *)
Fixpoint load_flags (st : game_state) (i : Z) (p : string)
    : string + (game_state * string) :=
  match p with
  | String c r =>
      if (c =? "U")%char || (c =? "R")%char || (c =? "D")%char || (c =? "L")%char
      then
        let add f := set_clues st (set (clues st) i (Z.lor (get (clues st) i) f)) in
        if (c =? "U")%char then load_flags (add F_ADJ_UP) i r
        else if (c =? "R")%char then load_flags (add F_ADJ_RIGHT) i r
        else if (c =? "D")%char then load_flags (add F_ADJ_DOWN) i r
        else if (c =? "L")%char then load_flags (add F_ADJ_LEFT) i r
        else inl E_FLAG
      else inr (st, p)
  | EmptyString => inr (st, p)
  end.

(** The value of cell [i] at the head of [p]: a number, which makes the
    cell immutable, or an underscore. *)
Definition load_value (st : game_state) (i : Z) (p : string)
    : string + (game_state * string) :=
  match p with
  | String c r =>
      if is_digit c then
        let num := to_uint (atoi p) in
        if (num <? 0) || (num >? ALL_BITS (n st)) then inl E_RANGE
        else
          let st := set_known st (set (known st) i num) in
          let st := set_mask st (set (mask st) i num) in
          let st := set_immutable st (set (immutable st) i (ALL_BITS (n st))) in
          inr (st, skip_digits p)
      else if (c =? "_")%char then inr (st, r)
      else inl E_NUMBER
  | EmptyString => inl E_NUMBER
  end.

(** The cell loop [while ( *p )]; [None] when [fuel] gives out. *)
Fixpoint load_cells (fuel : nat) (wh : Z) (st : game_state) (i : Z) (p : string)
    : option (string + (game_state * Z)) :=
  match p with
  | EmptyString => Some (inr (st, i))
  | String _ _ =>
      match fuel with
      | O => None
      | S fuel =>
          if i >=? wh then Some (inl E_TOO_MUCH) else
          match load_value st i p with
          | inl e => Some (inl e)
          | inr (st, p) =>
              match load_flags st i p with
              | inl e => Some (inl e)
              | inr (st, p) =>
                  let i := i + 1 in
                  if (i <? wh) && negb (head_is p ",")
                  then Some (inl E_SEPARATOR)
                  else load_cells fuel wh st i
                         (if head_is p "," then string_tl p else p)
              end
          end
      end
  end.

Definition flag_check (st : game_state) (wd ht y x : Z) (a : adj)
    : option string :=
  if has (get (clues st) (y * wd + x)) (adj_f a) then
    let nx := x + adj_dx a in
    let ny := y + adj_dy a in
    if (nx <? 0) || (ny <? 0) || (nx >=? wd) || (ny >=? ht) then Some E_OFF_GRID
    else if has (get (clues st) (ny * wd + nx)) (adj_fo a) then Some E_CONTRADICT
    else None
  else None.

Fixpoint first_error {A : Type} (f : A -> option string) (l : list A)
    : option string :=
  match l with
  | [] => None
  | a :: rest => match f a with Some e => Some e | None => first_error f rest end
  end.

Definition grid_triples (wd ht : Z) : list (Z * Z * adj) :=
  flat_map (fun y => flat_map (fun x => map (fun a => (y, x, a)) adjthan)
                              (zrange wd)) (zrange ht).

(** [attempt_load_game]: the returned message ([inl]), or for NULL the
    board as loaded ([inr]); a board left half-written by a failed call is
    freed by the caller and is not modelled.  The source reads both [w] and
    [h] from [state->w]. *)
Definition attempt_load_game (st : game_state) (desc : string)
    : option (string + game_state) :=
  let wd := w st in
  let ht := w st in
  match load_cells (S (String.length desc)) (wd * ht) st 0 desc with
  | None => None
  | Some (inl e) => Some (inl e)
  | Some (inr (st, i)) =>
      if i <? wd * ht then Some (inl E_NOT_ENOUGH)
      else match first_error (fun t : Z * Z * adj =>
                                let '(y, x, a) := t in flag_check st wd ht y x a)
                             (grid_triples wd ht) with
           | Some e => Some (inl e)
           | None => Some (inr st)
           end
  end.

(** [load_game]: the failure message, or the board. *)
Definition load_game (params : game_params) (desc : string)
    : option (string + game_state) :=
  attempt_load_game (blank_game params) desc.

Local Infix "+++" := String.append (at level 60, right associativity).

(** ** The generator *)

Section Generator.

(** The random source is taken as given: [shuffle l rs] is the array [l]
    after [shuffle(l, length l, ...)] and the source after the call. *)
Variable random_state : Type.
Variable shuffle : list Z -> random_state -> list Z * random_state.

(** [for (i = 0; i < n2; i++) { known[i] = i; immutable[i] = true; }] *)
Definition gen_fill (st : game_state) : game_state :=
  fold_left (fun st i =>
    set_immutable (set_known st (set (known st) i i))
                  (set (immutable st) i 1))
    (zrange (Z.shiftl 1 (n st))) st.

(** [shuffle] applied to the first [k] elements of [l]. *)
Definition shuffle_prefix (l : list Z) (k : Z) (rs : random_state)
    : list Z * random_state :=
  let '(l', rs') := shuffle (firstn (Z.to_nat k) l) rs in
  (l' ++ skipn (Z.to_nat k) l, rs').

(** [for (i = 0; i < n2; i++) mask[i] = known[i];] *)
Definition gen_masks (st : game_state) : game_state :=
  fold_left (fun st i => set_mask st (set (mask st) i (get (known st) i)))
    (zrange (Z.shiftl 1 (n st))) st.

Definition gen_clue_step (x y : Z) (st : game_state) (a : adj) : game_state :=
  if (x + adj_dx a <? 0) || (x + adj_dx a >=? w st)
     || (y + adj_dy a <? 0) || (y + adj_dy a >=? h st) then st else
  let i := y * w st + x in
  let i2 := i + adj_dy a * w st + adj_dx a in
  if Z.land (get (known st) i) (get (known st) i2) =? get (known st) i2
  then set_clues st (set (clues st) i (Z.lor (get (clues st) i) (adj_f a)))
  else st.

Definition gen_clues (st : game_state) : game_state :=
  for_grid (w st) (h st) gen_clue_step st.

(** The un-fixing loop over the shuffled cells. *)
Fixpoint gen_minify (st : game_state) (spaces : list Z) : option game_state :=
  match spaces with
  | [] => Some st
  | i :: rest =>
      let st := set_immutable st (set (immutable st) i 0) in
      match subsets_solve_game (dup_game st) with
      | None => None
      | Some (r, _) =>
          if negb (status_eqb r STATUS_COMPLETE)
          then gen_minify (set_immutable st (set (immutable st) i 1)) rest
          else gen_minify st rest
      end
  end.

Definition clue_letters (c : Z) : string :=
  fold_left (fun s a =>
               if has c (adj_f a) then s +++ String (adj_enc a) EmptyString else s)
            adjthan EmptyString.

Definition desc_cell (st : game_state) (i : Z) : string :=
  (if negb (get (immutable st) i =? 0)
   then print_int (to_int (get (known st) i)) else "_"%string)
  +++ clue_letters (get (clues st) i) +++ ","%string.

(** The text written by the output loop, its last comma replaced by the
    terminator. *)
Definition encode_desc (st : game_state) : string :=
  let full := fold_left (fun s i => s +++ desc_cell st i)
                        (zrange (w st * h st)) EmptyString in
  substring 0 (String.length full - 1) full.

(** The full board of the generator, before any cell is un-fixed. *)
Definition gen_solution (params : game_params) (rs : random_state)
    : game_state * random_state :=
  let st := gen_fill (blank_game params) in
  let '(kn, rs) := shuffle_prefix (known st) (Z.shiftl 1 (n st)) rs in
  (gen_clues (gen_masks (set_known st kn)), rs).

Definition new_game_desc (params : game_params) (rs : random_state)
    : option string :=
  let '(st, rs) := gen_solution params rs in
  let '(spaces, rs) := shuffle (zrange (w st * h st)) rs in
  match gen_minify st spaces with
  | None => None
  | Some st => Some (encode_desc st)
  end.

End Generator.

(** ** The move engine *)

(** [solve_game]: the returned move and the message stored in [*error]. *)
Definition solve_move_text (solved : game_state) : string :=
  fold_left (fun p i =>
    p +++ print_int (to_int (get (known solved) i)) +++ ","%string
      +++ print_int (to_int (get (mask solved) i))
      +++ (if i =? w solved * h solved - 1 then ""%string else ","%string))
    (zrange (w solved * h solved)) "S"%string.

Definition solve_game (st : game_state)
    : option (option string * option string) :=
  match subsets_solve_game (dup_game st) with
  | None => None
  | Some (result, solved) =>
      if negb (status_eqb result STATUS_INVALID)
      then Some (Some (solve_move_text solved), None)
      else Some (None, Some "Puzzle is invalid."%string)
  end.

(** [sscanf(move, "%c%d,%d", ...)]: [%d] skips blanks, takes an optional
    sign and needs a digit, and stores the number read by [strtol] in an
    [int]; anything short of three conversions is [None]. *)
Definition scan_int (p : string) : option (Z * string) :=
  let q := skip_spaces p in
  let neg := head_is q "-" in
  let q := if head_is q "-" || head_is q "+" then string_tl q else q in
  match q with
  | String c _ =>
      if is_digit c
      then Some (int_of_long
                   (clamp_long
                      (if neg then - digits_value q 0 else digits_value q 0)),
                 skip_digits q)
      else None
  | EmptyString => None
  end.

Definition sscanf_move (move : string) : option (ascii * Z * Z) :=
  match move with
  | EmptyString => None
  | String type p =>
      match scan_int p with
      | Some (pos, q) =>
          if head_is q "," then
            match scan_int (string_tl q) with
            | Some (n, _) => Some (type, pos, n)
            | None => None
            end
          else None
      | None => None
      end
  end.

(** Game states live in a store; a pointer is an index into it, and
    [dup_game] allocates at its end. *)
Definition store : Type := list game_state.

Definition null_state : game_state := mkState 0 0 0 [] [] [] [] false false.

Definition deref (m : store) (p : nat) : game_state := nth p m null_state.

Definition alloc_dup (m : store) (p : nat) : store * nat :=
  (m ++ [dup_game (deref m p)], List.length m).

(** A pointer that walks along the text of a move: [Some s] while it
    points at the characters [s] still to come, the terminator behind
    them; [None] once [p++] has taken it past the terminator, where
    nothing may be read. *)
Definition ptr_next (p : string) : option string :=
  match p with
  | String _ r => Some r
  | EmptyString => None
  end.

(** The loop of the solve move, writing through the pointer [ret]; [None]
    when the loop reads the text past its terminator.  Both [p++] are
    unconditional, so a text that ends right behind a number takes [p]
    past the terminator, and the [atoi(p)] or the [*p] that comes next
    reads there.  Only behind the second number of the last cell is
    nothing read any more: the loop test stops at [pos]. *)
Fixpoint solve_move_cells (m : store) (ret : nat) (cells : list Z)
    (p : option string) : option store :=
  match cells with
  | [] => Some m
  | pos :: rest =>
      match p with
      | None => None
      | Some EmptyString => Some m
      | Some p =>
          let k := atoi p in
          match ptr_next (skip_digits p) with
          | None => None
          | Some p =>
              let m := upd ret (set_known (deref m ret)
                                  (set (known (deref m ret)) pos (to_uint k))) m in
              let k := atoi p in
              let p := ptr_next (skip_digits p) in
              let m := upd ret (set_mask (deref m ret)
                                  (set (mask (deref m ret)) pos (to_uint k))) m in
              solve_move_cells m ret rest p
          end
      end
  end.

Definition move_bit (type : ascii) (bit : Z) (r : game_state) (pos : Z)
    : game_state :=
  if (type =? "K")%char then
    let r := set_known r (set (known r) pos (Z.lor (get (known r) pos) bit)) in
    set_mask r (set (mask r) pos (Z.lor (get (mask r) pos) bit))
  else if (type =? "C")%char then
    let r := set_known r (set (known r) pos
               (Z.land (get (known r) pos) (to_uint (Z.lnot bit)))) in
    set_mask r (set (mask r) pos
               (Z.land (get (mask r) pos) (to_uint (Z.lnot bit))))
  else if (type =? "U")%char then
    let r := set_known r (set (known r) pos
               (Z.land (get (known r) pos) (to_uint (Z.lnot bit)))) in
    set_mask r (set (mask r) pos (Z.lor (get (mask r) pos) bit))
  else r.

(** [execute_move state move]: the store after the call and the returned
    pointer (its [None] is NULL).  The result is [None] when the call
    reads the text of the move past its terminator. *)
Definition execute_move (m : store) (state : nat) (move : string)
    : option (store * option nat) :=
  let st := deref m state in
  if head_is move "S" then
      let '(m, ret) := alloc_dup m state in
      match solve_move_cells m ret (zrange (w st * h st))
                             (Some (string_tl move)) with
      | Some m => Some (m, Some ret)
      | None => None
      end
  else
      match sscanf_move move with
      | None => Some (m, None)
      | Some (type, pos, n') =>
          if (pos <? 0) || (pos >=? w st * h st) then Some (m, None)
          else if (n' <? 0) || (n' >=? n st) then Some (m, None)
          else if has (get (immutable st) pos) (Z.shiftl 1 n')
          then Some (m, None)
          else
            let '(m, ret) := alloc_dup m state in
            let m := upd ret (move_bit type (Z.shiftl 1 n') (deref m ret) pos) m in
            let m :=
              if status_eqb (fst (fst (subsets_validate (deref m ret) None None)))
                            STATUS_COMPLETE
              then upd ret (set_completed (deref m ret) true) m else m in
            Some (m, Some ret)
      end.

(** ** Well-formed boards and the vocabulary of the statements *)

(** Inclusion of bit sets, as the source tests it: [(a & b) == a]. *)
Definition subset (a b : Z) : Prop := Z.land a b = a.

Definition is_uint (v : Z) : bool := (0 <=? v) && (v <? 2 ^ 32).

(** Every arrow of the board points at a cell of the grid. *)
Definition clues_in_grid (st : game_state) : bool :=
  forallb (fun t : Z * Z * adj =>
    let '(y, x, a) := t in
    negb (has (get (clues st) (y * w st + x)) (adj_f a))
    || ((0 <=? x + adj_dx a) && (x + adj_dx a <? w st)
        && (0 <=? y + adj_dy a) && (y + adj_dy a <? h st)))
    (grid_triples (w st) (h st)).

(** What [blank_game], [attempt_load_game], the solver and the move engine
    maintain: a grid of [2^n] cells, four arrays of that size holding
    machine words, upper bounds within [ALL_BITS(n)], arrows inside the
    grid. *)
Definition wf_boardb (st : game_state) : bool :=
  (0 <? w st) && (0 <? h st) && (0 <=? n st) && (n st <=? 30)
  && (w st * h st =? 2 ^ n st)
  && (zlen (clues st) =? w st * h st)
  && (zlen (immutable st) =? w st * h st)
  && (zlen (known st) =? w st * h st)
  && (zlen (mask st) =? w st * h st)
  && forallb is_uint (clues st)
  && forallb is_uint (immutable st)
  && forallb is_uint (known st)
  && forallb (fun v => (0 <=? v) && (v <=? ALL_BITS (n st))) (mask st)
  && clues_in_grid st.

Definition wf_board (st : game_state) : Prop := wf_boardb st = true.

(** The bounds of cell [pos] after the switch of [execute_move], for the
    three player operations. *)
Definition moved_known (op : ascii) (bit k : Z) : Z :=
  if (op =? "K")%char then Z.lor k (Z.shiftl 1 bit)
  else Z.land k (to_uint (Z.lnot (Z.shiftl 1 bit))).

Definition moved_mask (op : ascii) (bit m : Z) : Z :=
  if (op =? "C")%char then Z.land m (to_uint (Z.lnot (Z.shiftl 1 bit)))
  else Z.lor m (Z.shiftl 1 bit).

(** The last step of [execute_move]: latch [completed]. *)
Definition latch_completed (r : game_state) : game_state :=
  if status_eqb (fst (fst (subsets_validate r None None))) STATUS_COMPLETE
  then set_completed r true else r.

(** ** Boards used as examples *)

(** Scenario T1 of the specification: the values 0..15 in row-major order,
    all given, with the arrows the generator draws for them. *)
Definition board_T1 : game_state :=
  mkState 4 4 4
    [0; 8; 0; 8; 1; 9; 1; 9; 0; 8; 0; 8; 1; 9; 1; 9]
    [15; 15; 15; 15; 15; 15; 15; 15; 15; 15; 15; 15; 15; 15; 15; 15]
    [0; 1; 2; 3; 4; 5; 6; 7; 8; 9; 10; 11; 12; 13; 14; 15]
    [0; 1; 2; 3; 4; 5; 6; 7; 8; 9; 10; 11; 12; 13; 14; 15]
    false false.

(** The same board with cell 5 left to the player, who has settled every
    bit of it but bit 0. *)
Definition board_T1_open5 : game_state :=
  mkState 4 4 4
    [0; 8; 0; 8; 1; 9; 1; 9; 0; 8; 0; 8; 1; 9; 1; 9]
    [15; 15; 15; 15; 15; 0; 15; 15; 15; 15; 15; 15; 15; 15; 15; 15]
    [0; 1; 2; 3; 4; 4; 6; 7; 8; 9; 10; 11; 12; 13; 14; 15]
    [0; 1; 2; 3; 4; 5; 6; 7; 8; 9; 10; 11; 12; 13; 14; 15]
    false false.

(** A board that [load_game] accepts and that has no solution: the values
    3 and 5 are the two that are not given, the blank cell 0 can hold
    neither (it has no arrow to or from its neighbours 7 and 6), and so
    the blank cell 15 is the only place left for both. *)
Definition desc_two_claims : string :=
  "_,7RD,0,2L,6R,4,8U,9DL,10,11L,12U,1,13,14,15URL,_U"%string.

Definition board_two_claims : game_state :=
  mkState 4 4 4
    [0; 6; 0; 8; 2; 0; 1; 12; 0; 8; 1; 0; 0; 0; 11; 1]
    [0; 15; 15; 15; 15; 15; 15; 15; 15; 15; 15; 15; 15; 15; 15; 0]
    [0; 7; 0; 2; 6; 4; 8; 9; 10; 11; 12; 1; 13; 14; 15; 0]
    [15; 7; 0; 2; 6; 4; 8; 9; 10; 11; 12; 1; 13; 14; 15; 15]
    false false.

(** ** The validator's verdict, in the words of the specification *)

(** The number of resolved cells among [cells] whose value is [v]. *)
Definition count_value (st : game_state) (cells : list Z) (v : Z) : Z :=
  zlen (filter (fun i => resolved st i && (get (known st) i =? v)) cells).

Definition has_duplicate (st : game_state) : bool :=
  existsb (fun v => 2 <=? count_value st (zrange (w st * h st)) v)
          (zrange (w st * h st)).

Definition all_resolved (st : game_state) : bool :=
  forallb (resolved st) (zrange (w st * h st)).

Definition in_grid (st : game_state) (x y : Z) : bool :=
  (0 <=? x) && (x <? w st) && (0 <=? y) && (y <? h st).

(** The edge from the cell [(x, y)] in direction [a] joins two resolved
    cells and breaks its constraint: an arrow whose target is not
    contained in its source, or no arrow either way between comparable
    values. *)
Definition edge_violated (st : game_state) (y x : Z) (a : adj) : bool :=
  let i := y * w st + x in
  let i2 := (y + adj_dy a) * w st + (x + adj_dx a) in
  let vi := get (known st) i in
  let vj := get (known st) i2 in
  in_grid st (x + adj_dx a) (y + adj_dy a)
  && resolved st i && resolved st i2
  && (if has (get (clues st) i) (adj_f a) then negb (Z.land vi vj =? vj)
      else if has (get (clues st) i2) (adj_fo a) then false
      else (Z.land vi vj =? vj) || (Z.land vi vj =? vi)).

(** The neighbour precedes the cell in row-major order. *)
Definition neighbour_earlier (x y : Z) (a : adj) : bool :=
  (x + adj_dx a <? x) || (y + adj_dy a <? y).

(** The violated edges the validator marks: those with an arrow on the
    cell that carries it, those without on the earlier of their cells. *)
Definition edge_flagged (st : game_state) (y x : Z) (a : adj) : bool :=
  edge_violated st y x a
  && (has (get (clues st) (y * w st + x)) (adj_f a)
      || negb (neighbour_earlier x y a)).

Definition on_triple {A : Type} (f : Z -> Z -> adj -> A) (t : Z * Z * adj) : A :=
  f (fst (fst t)) (snd (fst t)) (snd t).

Definition has_edge_violation (st : game_state) : bool :=
  existsb (on_triple (edge_violated st)) (grid_triples (w st) (h st)).

Definition worst_status (st : game_state) : status :=
  if has_duplicate st || has_edge_violation st then STATUS_INVALID
  else if all_resolved st then STATUS_COMPLETE
  else STATUS_UNFINISHED.

Definition status_of (r : status * option (list Z) * option (list Z)) : status :=
  fst (fst r).

Definition flags_of (r : status * option (list Z) * option (list Z))
    : option (list Z) := snd (fst r).

(** Three resolved cells, two of them with the same value, and thirteen
    blank ones; no arrows. *)
Definition board_duplicate : game_state :=
  mkState 4 4 4
    [0; 0; 0; 0; 0; 0; 0; 0; 0; 0; 0; 0; 0; 0; 0; 0]
    [15; 15; 15; 0; 0; 0; 0; 0; 0; 0; 0; 0; 0; 0; 0; 0]
    [3; 3; 5; 0; 0; 0; 0; 0; 0; 0; 0; 0; 0; 0; 0; 0]
    [3; 3; 5; 15; 15; 15; 15; 15; 15; 15; 15; 15; 15; 15; 15; 15]
    false false.

(** Scenario T4 of the specification: an arrow from cell 0 to cell 1 whose
    values are 3 and 4; the other cells are blank. *)
Definition board_T4 : game_state :=
  mkState 4 4 4
    [2; 0; 0; 0; 0; 0; 0; 0; 0; 0; 0; 0; 0; 0; 0; 0]
    [15; 15; 0; 0; 0; 0; 0; 0; 0; 0; 0; 0; 0; 0; 0; 0]
    [3; 4; 0; 0; 0; 0; 0; 0; 0; 0; 0; 0; 0; 0; 0; 0]
    [3; 4; 15; 15; 15; 15; 15; 15; 15; 15; 15; 15; 15; 15; 15; 15]
    false false.

(** One edge check of the validator, as a function of [edge_flagged]. *)
Definition edge_step (st : game_state) (acc : status * option (list Z))
    (t : Z * Z * adj) : status * option (list Z) :=
  let '(y, x, a) := t in
  if edge_flagged st y x a
  then (STATUS_INVALID, flag_edge (snd acc) (y * w st + x) (adj_f a))
  else acc.

(** The entry of [adjthan] for the direction back. *)
Definition opposite (a : adj) : adj :=
  match find (fun b => adj_f b =? adj_fo a) adjthan with
  | Some b => b
  | None => a
  end.

(** The index of the cell of a triple [(y, x, a)]. *)
Definition triple_cell (st : game_state) (t : Z * Z * adj) : Z :=
  fst (fst t) * w st + snd (fst t).

(** Scenario T3 of the specification: cell 0 holds 0b1100, every other
    cell is blank, and there is no arrow anywhere. *)
Definition board_T3 : game_state :=
  mkState 4 4 4
    [0; 0; 0; 0; 0; 0; 0; 0; 0; 0; 0; 0; 0; 0; 0; 0]
    [15; 0; 0; 0; 0; 0; 0; 0; 0; 0; 0; 0; 0; 0; 0; 0]
    [12; 0; 0; 0; 0; 0; 0; 0; 0; 0; 0; 0; 0; 0; 0; 0]
    [12; 15; 15; 15; 15; 15; 15; 15; 15; 15; 15; 15; 15; 15; 15; 15]
    false false.

(** The body of the candidate loop of [subsets_disjoint] for the resolved
    value [v] and the row of cell [i2]. *)
Definition disjoint_opt (n2 i2 v : Z) (acc : Z * list bool) (opt : Z)
    : Z * list bool :=
  if negb (bget (snd acc) (i2 * n2 + opt)) then acc
  else if negb (comparable v opt) then acc
  else (fst acc + 1, bset (snd acc) (i2 * n2 + opt) false).

(** ** Vocabulary for the solver *)

(** The two primitive writes of the bound rules, [known[i] |= v] and
    [mask[i] &= v], and the indicator of [prev != new]. *)
Definition or_known (st : game_state) (i v : Z) : game_state :=
  set_known st (set (known st) i (Z.lor (get (known st) i) v)).

Definition and_mask (st : game_state) (i v : Z) : game_state :=
  set_mask st (set (mask st) i (Z.land (get (mask st) i) v)).

Definition changed (prev new : Z) : Z := if negb (prev =? new) then 1 else 0.

(** Everything but the bounds is the same in both states. *)
Definition same_frame (st st' : game_state) : Prop :=
  w st' = w st /\ h st' = h st /\ n st' = n st
  /\ clues st' = clues st /\ immutable st' = immutable st
  /\ completed st' = completed st /\ cheated st' = cheated st
  /\ zlen (known st') = zlen (known st) /\ zlen (mask st') = zlen (mask st).

(** [st'] has the bounds of [st], tightened: lower bounds grow, upper
    bounds shrink. *)
Definition tightens (st st' : game_state) : Prop :=
  same_frame st st'
  /\ forall i, subset (get (known st) i) (get (known st') i)
               /\ subset (get (mask st') i) (get (mask st) i).

Definition same_bounds (st st' : game_state) : Prop :=
  forall i, get (known st') i = get (known st) i
            /\ get (mask st') i = get (mask st) i.

Definition bounds_differ (st st' : game_state) : Prop :=
  exists i, get (known st') i <> get (known st) i
            \/ get (mask st') i <> get (mask st) i.

(** Every candidate left in the cube fits between the bounds of its cell. *)
Definition cube_synced (st : game_state) (cube : list bool) : Prop :=
  forall i nj, 0 <= i < w st * h st -> 0 <= nj < Z.shiftl 1 (n st) ->
    bget cube (i * Z.shiftl 1 (n st) + nj) = true ->
    subset (get (known st) i) nj /\ subset nj (get (mask st) i).

(** [cube'] has no candidate that [cube] has not. *)
Definition cube_shrinks (cube cube' : list bool) : Prop :=
  zlen cube' = zlen cube
  /\ forall idx, bget cube' idx = true -> bget cube idx = true.

(** What a bound rule does, as seen from its result [(ret, st')]: it
    tightens, and it reports 0 exactly when no bound has moved. *)
Definition rule_effect (st0 : game_state) (r : Z * game_state) : Prop :=
  tightens st0 (snd r) /\ 0 <= fst r
  /\ (fst r = 0 -> same_bounds st0 (snd r))
  /\ (0 < fst r -> bounds_differ st0 (snd r)).

(** One pass of a loop body from [acc] to [acc']. *)
Definition step_effect (acc acc' : Z * game_state) : Prop :=
  tightens (snd acc) (snd acc')
  /\ ((fst acc' = fst acc /\ same_bounds (snd acc) (snd acc'))
      \/ (fst acc < fst acc' /\ bounds_differ (snd acc) (snd acc'))).

(** What a cube rule does, as seen from its result [(ret, cube')]: it only
    clears candidates, and it reports more than 0 only if it cleared one. *)
Definition cube_cleared (cube cube' : list bool) : Prop :=
  exists idx, bget cube idx = true /\ bget cube' idx = false.

Definition cube_effect (cube0 : list bool) (r : Z * list bool) : Prop :=
  cube_shrinks cube0 (snd r) /\ 0 <= fst r
  /\ (0 < fst r -> cube_cleared cube0 (snd r)).

Definition cube_step_effect (acc acc' : Z * list bool) : Prop :=
  cube_shrinks (snd acc) (snd acc')
  /\ (acc' = acc
      \/ (fst acc < fst acc' /\ cube_cleared (snd acc) (snd acc'))).

(** The bound arrays have one entry per cell. *)
Definition sized (st : game_state) : Prop :=
  zlen (known st) = w st * h st /\ zlen (mask st) = w st * h st.

(** Cell [i] of [st'] has been set by the unique-location rule: to a
    candidate [nj] of its cube row that no resolved cell was counted for. *)
Definition placed (st : game_state) (counts : list Z) (cube : list bool)
    (st' : game_state) (i : Z) : Prop :=
  exists nj,
    0 <= i < w st * h st /\ 0 <= nj < Z.shiftl 1 (n st)
    /\ bget cube (i * Z.shiftl 1 (n st) + nj) = true
    /\ get counts nj = 0
    /\ (forall i', 0 <= i' < w st * h st ->
                   bget cube (i' * Z.shiftl 1 (n st) + nj) = true -> i' = i)
    /\ get (known st') i = nj /\ get (mask st') i = nj.

Definition placement_effect (st : game_state) (counts : list Z)
    (cube : list bool) (r : Z * game_state) : Prop :=
  same_frame st (snd r) /\ 0 <= fst r
  /\ (forall i, (get (known (snd r)) i = get (known st) i
                 /\ get (mask (snd r)) i = get (mask st) i)
                \/ placed st counts cube (snd r) i)
  /\ (fst r = 0 -> same_bounds st (snd r))
  /\ (0 < fst r -> exists i, placed st counts cube (snd r) i).

(** The ways through one round of the solver loop: the validator ends the
    loop, or the first rule in priority order that reports progress sends
    it round again, or no rule does and the loop is left. *)
Inductive iteration_path (st : game_state) (cube : list bool)
    : (game_state * list bool) + (status * game_state) -> Prop :=
| path_verdict :
    let r := subsets_validate st None (Some []) in
    status_of r <> STATUS_UNFINISHED ->
    iteration_path st cube (inr (status_of r, st))
| path_rule :
    let r := subsets_validate st None (Some []) in
    let counts := counts_of r in
    let cube0 := subsets_cube_single_count st counts (subsets_sync_cube st cube) in
    let a := subsets_solve_apply_arrows st in
    let d := subsets_disjoint (snd a) cube0 in
    let b := subsets_bits_from_cube (snd a) (snd d) in
    let p := subsets_solve_single_position (snd b) counts (snd d) in
    let v := subsets_solve_apply_arrows_advanced (snd p) (snd d) in
    forall res,
      status_of r = STATUS_UNFINISHED ->
      (fst a <> 0 /\ res = inl (snd a, cube0))
      \/ (fst a = 0 /\ fst d <> 0 /\ res = inl (snd a, snd d))
      \/ (fst a = 0 /\ fst d = 0 /\ fst b <> 0 /\ res = inl (snd b, snd d))
      \/ (fst a = 0 /\ fst d = 0 /\ fst b = 0 /\ fst p <> 0
          /\ res = inl (snd p, snd d))
      \/ (fst a = 0 /\ fst d = 0 /\ fst b = 0 /\ fst p = 0 /\ fst v <> 0
          /\ res = inl (snd p, snd v))
      \/ (fst a = 0 /\ fst d = 0 /\ fst b = 0 /\ fst p = 0 /\ fst v = 0
          /\ res = inr (STATUS_UNFINISHED, snd p)) ->
      iteration_path st cube res.

(** ** The termination measure of the solver loop *)

(** The number of bits set among the 32 of a machine word. *)
Definition popcount (v : Z) : Z := zlen (filter (Z.testbit v) (zrange 32)).

Definition sum_map {A : Type} (f : A -> Z) (l : list A) : Z :=
  fold_right (fun x acc => f x + acc) 0 l.

(** Bits that the lower bounds may still gain and the upper bounds may
    still lose, plus candidates that the cube may still lose. *)
Definition slack (st : game_state) : Z :=
  sum_map (fun k => 32 - popcount k) (known st) + sum_map popcount (mask st).

Definition cube_count (cube : list bool) : Z :=
  sum_map (fun b : bool => if b then 1 else 0) cube.

Definition measure (st : game_state) (cube : list bool) : Z :=
  slack st + cube_count cube.

(** The bounds are machine words, the upper ones within [ALL_BITS(n)]. *)
Definition typed (st : game_state) : Prop :=
  0 <= n st <= 30
  /\ forall i, 0 <= get (known st) i < 2 ^ 32
               /\ 0 <= get (mask st) i <= ALL_BITS (n st).

(** A solve move in the words of the specification: the letter S, then
    one pair [known,mask] per cell in row-major order, separated by
    commas. *)
Definition solve_move_pairs (solved : game_state) : list string :=
  map (fun i => print_int (to_int (get (known solved) i)) +++ ","%string
                +++ print_int (to_int (get (mask solved) i)))
      (zrange (w solved * h solved)).

Definition solve_move_spec (solved : game_state) : string :=
  "S"%string +++ String.concat ","%string (solve_move_pairs solved).

(** ** Solutions *)

(** [sol] places every value of [[0, 2^n)] in exactly one cell, and the
    arrows of the board are those that hold of it: the cell [(x, y)]
    carries the arrow of direction [a] exactly when it has a neighbour
    there whose value is contained in its own. *)
Definition solution (st : game_state) (sol : list Z) : Prop :=
  zlen sol = w st * h st
  /\ (forall i, 0 <= i < w st * h st -> 0 <= get sol i < Z.shiftl 1 (n st))
  /\ (forall i j, 0 <= i < w st * h st -> 0 <= j < w st * h st ->
                  get sol i = get sol j -> i = j)
  /\ (forall v, 0 <= v < Z.shiftl 1 (n st) ->
                exists i, 0 <= i < w st * h st /\ get sol i = v)
  /\ (forall x y a, 0 <= x < w st -> 0 <= y < h st -> In a adjthan ->
        has (get (clues st) (y * w st + x)) (adj_f a)
        = in_grid st (x + adj_dx a) (y + adj_dy a)
          && (Z.land (get sol (y * w st + x))
                     (get sol ((y + adj_dy a) * w st + (x + adj_dx a)))
              =? get sol ((y + adj_dy a) * w st + (x + adj_dx a)))).

(** The bounds of every cell enclose its value in [sol]. *)
Definition bounds_sound (st : game_state) (sol : list Z) : Prop :=
  forall i, 0 <= i < w st * h st ->
    subset (get (known st) i) (get sol i)
    /\ subset (get sol i) (get (mask st) i).

(** The cube still has the value of every cell in [sol]. *)
Definition cube_sound (st : game_state) (sol : list Z) (cube : list bool)
    : Prop :=
  forall i, 0 <= i < w st * h st ->
    bget cube (i * Z.shiftl 1 (n st) + get sol i) = true.

(** ** Vocabulary for the generator and its descriptions *)

(** The generator draws the arrow of direction [a] on the cell [(x, y)]:
    the neighbour is on the grid and its value is contained in the
    cell's. *)
Definition gen_edge (st : game_state) (y x : Z) (a : adj) : bool :=
  in_grid st (x + adj_dx a) (y + adj_dy a)
  && (Z.land (get (known st) (y * w st + x))
             (get (known st) ((y + adj_dy a) * w st + (x + adj_dx a)))
      =? get (known st) ((y + adj_dy a) * w st + (x + adj_dx a))).

(** A cell fixed to the value [v], and a blank cell. *)
Definition fixed_cell (board : game_state) (i v : Z) : Prop :=
  get (immutable board) i <> 0
  /\ get (known board) i = v /\ get (mask board) i = v.

Definition blank_cell (board : game_state) (i : Z) : Prop :=
  get (immutable board) i = 0
  /\ get (known board) i = 0 /\ get (mask board) i = ALL_BITS (n board).

(** [board] is what the description written from [src] says: the arrows
    of [src], the cells that [src] prints as a number fixed to that
    number, the cells that it prints as an underscore blank. *)
Definition denotes (src board : game_state) : Prop :=
  w board = w src /\ h board = h src /\ n board = n src
  /\ completed board = false /\ cheated board = false
  /\ zlen (clues board) = w src * h src
  /\ zlen (immutable board) = w src * h src
  /\ zlen (known board) = w src * h src
  /\ zlen (mask board) = w src * h src
  /\ forall i, 0 <= i < w src * h src ->
       get (clues board) i = get (clues src) i
       /\ (if get (immutable src) i =? 0 then blank_cell board i
           else fixed_cell board i (get (known src) i)).

Definition head_digit (p : string) : bool :=
  match p with String c _ => is_digit c | EmptyString => false end.

Definition is_flag_letter (c : ascii) : bool :=
  ((c =? "U") || (c =? "R") || (c =? "D") || (c =? "L"))%char.

Definition head_flag (p : string) : bool :=
  match p with String c _ => is_flag_letter c | EmptyString => false end.

Definition letter_flag (c : ascii) : Z :=
  if (c =? "U")%char then F_ADJ_UP
  else if (c =? "R")%char then F_ADJ_RIGHT
  else if (c =? "D")%char then F_ADJ_DOWN
  else if (c =? "L")%char then F_ADJ_LEFT
  else 0.

Fixpoint letters_flags (s : string) : Z :=
  match s with
  | String c r => Z.lor (letter_flag c) (letters_flags r)
  | EmptyString => 0
  end.

Fixpoint all_chars (P : ascii -> bool) (s : string) : bool :=
  match s with
  | String c r => P c && all_chars P r
  | EmptyString => true
  end.

(** The text of one cell of a description, and of a run of cells with
    commas between them. *)
Definition value_text (st : game_state) (i : Z) : string :=
  if negb (get (immutable st) i =? 0)
  then print_int (to_int (get (known st) i)) else "_"%string.

Definition cell_text (st : game_state) (i : Z) : string :=
  String.append (value_text st i) (clue_letters (get (clues st) i)).

Fixpoint desc_text (st : game_state) (l : list Z) : string :=
  match l with
  | [] => EmptyString
  | i :: rest =>
      String.append (cell_text st i)
        match rest with
        | [] => EmptyString
        | _ :: _ => String ","%char (desc_text st rest)
        end
  end.

(** [st] is the full board [G] of the generator with some of its cells
    un-fixed, and the solver still completes it. *)
Definition unfixed_from (G st : game_state) : Prop :=
  wf_board st
  /\ w st = w G /\ h st = h G /\ n st = n G /\ clues st = clues G
  /\ known st = known G /\ mask st = mask G
  /\ completed st = completed G /\ cheated st = cheated G
  /\ (forall i, get (immutable st) i = 0 \/ get (immutable st) i = 1)
  /\ exists solved,
       subsets_solve_game (dup_game st) = Some (STATUS_COMPLETE, solved).

(** The parser has read the cells before [k] of the description written
    from [src] into [cur], and has not touched the others. *)
Definition loaded_upto (src cur : game_state) (k : Z) : Prop :=
  w cur = w src /\ h cur = h src /\ n cur = n src
  /\ completed cur = false /\ cheated cur = false
  /\ zlen (clues cur) = w src * h src
  /\ zlen (immutable cur) = w src * h src
  /\ zlen (known cur) = w src * h src
  /\ zlen (mask cur) = w src * h src
  /\ forall i, 0 <= i < w src * h src ->
       if i <? k
       then get (clues cur) i = get (clues src) i
            /\ (if get (immutable src) i =? 0 then blank_cell cur i
                else fixed_cell cur i (get (known src) i))
       else get (clues cur) i = 0 /\ blank_cell cur i.

(** [print_int] writes [v] as a run of digits that [digits_value] reads
    back. *)
Definition digits_round_trip (v : Z) : bool :=
  match print_int (to_int v) with
  | String c r =>
      is_digit c && all_chars is_digit r && (digits_value (String c r) 0 =? v)
  | EmptyString => false
  end.

(** [clue_letters] writes [c] as a run of letters that stand for the
    flags of [c]. *)
Definition letters_round_trip (c : Z) : bool :=
  all_chars is_flag_letter (clue_letters c)
  && (letters_flags (clue_letters c) =? c).

(** ** Parameters as text *)

(** [encode_params]: [sprintf(data, "%dx%dn%d", w, h, n)]. *)
Definition encode_params (params : game_params) : string :=
  print_int (p_w params) +++ "x"%string +++ print_int (p_h params)
  +++ "n"%string +++ print_int (p_n params).

(** [decode_params]: the width, which is also the height unless an [x] and
    a second number follow, then an optional [n] and a number. *)
Definition decode_params (params : game_params) (s : string) : game_params :=
  let p := mkParams (atoi s) (atoi s) (p_n params) in
  let s := skip_digits s in
  let p := if head_is s "x"
           then mkParams (p_w p) (atoi (string_tl s)) (p_n p) else p in
  let s := if head_is s "x" then string_tl s else s in
  let s := skip_digits s in
  if head_is s "n" then mkParams (p_w p) (p_h p) (atoi (string_tl s)) else p.

(** ** Boards as the loader leaves them *)



(** ** The board as text *)

Definition CELL_WIDTH : Z := 2.
Definition CELL_HEIGHT : Z := 2.

(** [*p++ = c] *)
Definition put (p : string) (c : ascii) : string :=
  p +++ String c EmptyString.

(** The character for bit [cn] of cell [i]: a letter when the bit is
    known, a dot when it is ruled out, a question mark otherwise. *)
Definition text_bit (st : game_state) (i cn : Z) : ascii :=
  if cn >=? n st then " "%char
  else if has (get (known st) i) (Z.shiftl 1 cn)
       then ascii_of_nat (Z.to_nat (65 + cn))
  else if negb (has (get (mask st) i) (Z.shiftl 1 cn)) then "."%char
  else "?"%char.

(** The [x] loop of line [cy] of the row [y] of cells. *)
Definition text_cell_row (st : game_state) (y cy : Z) (p : string) : string :=
  fold_left (fun p x =>
    let p := fold_left (fun p cx =>
                          put p (text_bit st (y * w st + x)
                                          (cy * CELL_WIDTH + cx)))
                       (zrange CELL_WIDTH) p in
    if x <? w st - 1
    then put p (if negb (cy =? 0) then " "%char
                else if has (get (clues st) (y * w st + x)) F_ADJ_RIGHT
                     then ">"%char
                else if has (get (clues st) (y * w st + x + 1)) F_ADJ_LEFT
                     then "<"%char
                else " "%char)
    else p)
    (zrange (w st)) p.

(** The [x] loop of the line between the rows [y] and [y + 1]. *)
Definition text_gap_row (st : game_state) (y : Z) (p : string) : string :=
  fold_left (fun p x =>
    let p := put p (if has (get (clues st) (y * w st + x)) F_ADJ_DOWN
                    then "v"%char
                    else if has (get (clues st) ((y + 1) * w st + x)) F_ADJ_UP
                         then "^"%char
                    else " "%char) in
    let p := fold_left (fun p (_ : Z) => put p " "%char)
                       (map (Z.add 1) (zrange (CELL_WIDTH - 1))) p in
    if x <? w st - 1 then put p " "%char else p)
    (zrange (w st)) p.

(** [game_text_format]: the characters written before the terminator. *)
Definition game_text_format (st : game_state) : string :=
  fold_left (fun p y =>
    let p := fold_left (fun p cy => put (text_cell_row st y cy p) "010"%char)
                       (zrange CELL_HEIGHT) p in
    if y <? h st - 1 then put (text_gap_row st y p) "010"%char else p)
    (zrange (h st)) EmptyString.

(** The size that [game_text_format] allocates. *)
Definition text_format_size (st : game_state) : Z :=
  (w st * (CELL_WIDTH + 1)) * (((CELL_HEIGHT + 1) * h st) - 1) + 1.

(** ** Bounds closed under the arrows *)

(** The bounds of the target of every arrow are included in those of its
    source. *)
Definition arrows_closed (st : game_state) : Prop :=
  forall x y a,
    0 <= x < w st -> 0 <= y < h st -> In a adjthan ->
    has (get (clues st) (y * w st + x)) (adj_f a) = true ->
    subset (get (known st) ((y + adj_dy a) * w st + (x + adj_dx a)))
           (get (known st) (y * w st + x))
    /\ subset (get (mask st) ((y + adj_dy a) * w st + (x + adj_dx a)))
              (get (mask st) (y * w st + x)).

(** ** The user interface *)

Record game_ui : Type := mkUi { cshow : bool; cx : Z; cy : Z }.

Definition new_ui : game_ui := mkUi false 0 0.

(** What [interpret_move] returns: NULL, the framework's MOVE_NO_EFFECT,
    another value handed back by the framework's [move_cursor], or the
    text of a move. *)
Inductive move_result : Type :=
| MOVE_NULL
| MOVE_NO_EFFECT
| MOVE_FRAMEWORK (tag : Z)
| MOVE_TEXT (s : string).

(** The state of bit [num] of cell [pos]: [K]nown, [U]nknown or [C]leared. *)
Definition bit_type (st : game_state) (pos num : Z) : ascii :=
  if has (get (known st) pos) (Z.shiftl 1 num) then "K"%char
  else if has (get (mask st) pos) (Z.shiftl 1 num) then "U"%char
  else "C"%char.

Section InterpretMove.

(** The button codes and the three tests on them, and [move_cursor], are
    the framework's: they are taken as given.  [move_cursor button ui maxw
    maxh] is the returned value and the cursor after the call. *)
Variables LEFT_BUTTON MIDDLE_BUTTON RIGHT_BUTTON CURSOR_SELECT CURSOR_SELECT2 : Z.
Variables IS_CURSOR_MOVE IS_CURSOR_SELECT IS_MOUSE_DOWN : Z -> bool.
Variable move_cursor : Z -> game_ui -> Z -> Z -> move_result * game_ui.

(** The [switch (button)]. *)
Definition new_type (button : Z) (oldtype : ascii) : ascii :=
  if (button =? LEFT_BUTTON) || (button =? CURSOR_SELECT) then
    (if (oldtype =? "U")%char then "K"
     else if (oldtype =? "K")%char then "C" else "U")%char
  else if (button =? RIGHT_BUTTON) || (button =? CURSOR_SELECT2) then
    (if (oldtype =? "U")%char then "C"
     else if (oldtype =? "C")%char then "K" else "U")%char
  else if (button =? MIDDLE_BUTTON) || (button =? 8) then "U"%char
  else oldtype.

(** The [do ... while] that moves the cursor until it is on a bit; [None]
    when [fuel] gives out. *)
Fixpoint cursor_loop (fuel : nat) (st : game_state) (button : Z)
    (ui : game_ui) (ret : move_result) : option (move_result * game_ui) :=
  match fuel with
  | O => None
  | S fuel =>
      let '(result, ui) :=
        move_cursor button ui (w st * (CELL_WIDTH + 1) - 1)
                    (h st * (CELL_HEIGHT + 1) - 1) in
      let ret := match ret with MOVE_NULL => result | _ => ret end in
      if (Z.rem (cx ui) (CELL_WIDTH + 1) =? CELL_WIDTH)
         || (Z.rem (cy ui) (CELL_HEIGHT + 1) =? CELL_HEIGHT)
      then cursor_loop fuel st button ui ret
      else Some (ret, ui)
  end.

(** [interpret_move]: the returned value and the [game_ui] after the
    call. *)
Definition interpret_move (fuel : nat) (st : game_state) (ui : game_ui)
    (tilesize ox oy button : Z) : option (move_result * game_ui) :=
  if IS_CURSOR_MOVE button then cursor_loop fuel st button ui MOVE_NULL else
  let coords :=
    if (IS_CURSOR_SELECT button || (button =? 8)) && cshow ui
    then Some (cx ui, cy ui)
    else if negb (IS_MOUSE_DOWN button) || (ox <? Z.quot tilesize 2)
            || (oy <? Z.quot tilesize 2)
         then None
    else Some (Z.quot (ox - Z.quot tilesize 2) tilesize,
               Z.quot (oy - Z.quot tilesize 2) tilesize) in
  match coords with
  | None => Some (MOVE_NULL, ui)
  | Some (gx, gy) =>
      let cellx := Z.quot gx (CELL_WIDTH + 1) in
      let celly := Z.quot gy (CELL_HEIGHT + 1) in
      let numx := Z.rem gx (CELL_WIDTH + 1) in
      let numy := Z.rem gy (CELL_HEIGHT + 1) in
      if (cellx >=? w st) || (celly >=? h st) then Some (MOVE_NULL, ui) else
      if (numx >=? CELL_WIDTH) || (numy >=? CELL_HEIGHT)
      then Some (MOVE_NULL, ui) else
      let pos := celly * w st + cellx in
      let num := numy * CELL_WIDTH + numx in
      if has (get (immutable st) pos) (Z.shiftl 1 num)
      then Some (MOVE_NO_EFFECT, ui) else
      let oldtype := bit_type st pos num in
      let newtype := new_type button oldtype in
      if (oldtype =? newtype)%char then Some (MOVE_NO_EFFECT, ui) else
      let ui := if IS_MOUSE_DOWN button then mkUi false (cx ui) (cy ui)
                else ui in
      Some (MOVE_TEXT (String newtype
                         (print_int pos +++ ","%string +++ print_int num)),
            ui)
  end.

End InterpretMove.

(** * Properties *)

(** ** Arrays and index ranges *)

Lemma in_zrange (k i : Z) : In i (zrange k) <-> 0 <= i < k.
Proof.
  unfold zrange. rewrite in_map_iff. split.
  - intros [j [<- Hj]]. apply in_seq in Hj. lia.
  - intros Hi. exists (Z.to_nat i). split; [lia | apply in_seq; lia].
Qed.

Lemma zrange_length (k : Z) : List.length (zrange k) = Z.to_nat k.
Proof. unfold zrange. now rewrite length_map, length_seq. Qed.

Lemma zrange_succ (k : Z) : 0 <= k -> zrange (k + 1) = zrange k ++ [k].
Proof.
  intros Hk. unfold zrange.
  replace (Z.to_nat (k + 1)) with (Z.to_nat k + 1)%nat by lia.
  rewrite seq_app, map_app. simpl. now rewrite Z2Nat.id.
Qed.

Lemma zrange_nodup (k : Z) : NoDup (zrange k).
Proof.
  unfold zrange. apply Injective_map_NoDup; [| apply seq_NoDup].
  intros a b Hab. lia.
Qed.

Lemma upd_length {A : Type} (i : nat) (v : A) (l : list A) :
  List.length (upd i v l) = List.length l.
Proof.
  revert i; induction l as [|a l IH]; intros [|i]; simpl; auto.
Qed.

Lemma nth_upd_eq {A : Type} (i : nat) (v d : A) (l : list A) :
  (i < List.length l)%nat -> nth i (upd i v l) d = v.
Proof.
  revert i; induction l as [|a l IH]; intros [|i]; simpl; intros H;
    try lia; auto. apply IH; lia.
Qed.

Lemma nth_upd_neq {A : Type} (i j : nat) (v d : A) (l : list A) :
  i <> j -> nth j (upd i v l) d = nth j l d.
Proof.
  revert i j; induction l as [|a l IH]; intros [|i] [|j]; simpl; intros H;
    try congruence; auto.
Qed.

Lemma upd_out {A : Type} (i : nat) (v : A) (l : list A) :
  (List.length l <= i)%nat -> upd i v l = l.
Proof.
  revert i; induction l as [|a l IH]; intros [|i]; simpl; intros H;
    try lia; auto. f_equal. apply IH; lia.
Qed.

Lemma aset_length {A : Type} (l : list A) (i : Z) (v : A) :
  List.length (aset l i v) = List.length l.
Proof. unfold aset. destruct (i <? 0); auto using upd_length. Qed.

Lemma zlen_aset {A : Type} (l : list A) (i : Z) (v : A) :
  zlen (aset l i v) = zlen l.
Proof. unfold zlen. now rewrite aset_length. Qed.

Lemma aget_aset_eq {A : Type} (d : A) (l : list A) (i : Z) (v : A) :
  0 <= i < zlen l -> aget d (aset l i v) i = v.
Proof.
  unfold aget, aset, zlen. intros H.
  destruct (Z.ltb_spec i 0); [lia |]. apply nth_upd_eq. lia.
Qed.

Lemma aget_aset_neq {A : Type} (d : A) (l : list A) (i j : Z) (v : A) :
  i <> j -> aget d (aset l i v) j = aget d l j.
Proof.
  unfold aget, aset. intros H.
  destruct (Z.ltb_spec j 0); auto.
  destruct (Z.ltb_spec i 0); auto.
  apply nth_upd_neq. lia.
Qed.

Lemma aset_out {A : Type} (l : list A) (i : Z) (v : A) :
  ~ (0 <= i < zlen l) -> aset l i v = l.
Proof.
  unfold aset, zlen. intros H.
  destruct (Z.ltb_spec i 0); auto. apply upd_out. lia.
Qed.

Lemma aget_out {A : Type} (d : A) (l : list A) (i : Z) :
  ~ (0 <= i < zlen l) -> aget d l i = d.
Proof.
  unfold aget, zlen. intros H.
  destruct (Z.ltb_spec i 0); auto. apply nth_overflow. lia.
Qed.

(** A store either lands or is dropped. *)
Lemma aget_aset_cases {A : Type} (d : A) (l : list A) (i j : Z) (v : A) :
  (j = i /\ 0 <= i < zlen l /\ aget d (aset l i v) j = v)
  \/ ((j <> i \/ ~ (0 <= i < zlen l)) /\ aget d (aset l i v) j = aget d l j).
Proof.
  destruct (Z.eq_dec j i) as [->|Hne].
  - destruct (Z_lt_dec i 0) as [Hn|Hn].
    + right. split; [right; lia |]. rewrite aset_out by lia. reflexivity.
    + destruct (Z_lt_dec i (zlen l)) as [Hl|Hl].
      * left. repeat split; try lia. apply aget_aset_eq. lia.
      * right. split; [right; lia |]. rewrite aset_out by lia. reflexivity.
  - right. split; [now left |]. apply aget_aset_neq. congruence.
Qed.

Lemma aget_repeat {A : Type} (d v : A) (k : nat) (i : Z) :
  0 <= i < Z.of_nat k -> aget d (repeat v k) i = v.
Proof.
  unfold aget. intros H. destruct (Z.ltb_spec i 0); [lia |].
  apply nth_repeat_lt. lia.
Qed.

(** ** Loops *)

Lemma fold_left_inv {A B : Type} (P : A -> Prop) (f : A -> B -> A)
    (l : list B) (a : A) :
  P a -> (forall s b, In b l -> P s -> P (f s b)) -> P (fold_left f l a).
Proof.
  revert a; induction l as [|b l IH]; simpl; intros a Ha Hstep;
    [assumption |].
  apply IH; [apply Hstep | intros; apply Hstep]; auto.
Qed.

Lemma for_grid_inv {S : Type} (P : S -> Prop) (wd ht : Z)
    (body : Z -> Z -> S -> adj -> S) (s0 : S) :
  P s0 ->
  (forall x y s a, 0 <= x < wd -> 0 <= y < ht -> In a adjthan ->
                   P s -> P (body x y s a)) ->
  P (for_grid wd ht body s0).
Proof.
  intros H0 Hstep. unfold for_grid.
  apply fold_left_inv; auto. intros s y Hy Hs.
  apply fold_left_inv; auto. intros s' x Hx Hs'.
  apply fold_left_inv; auto. intros s'' a Ha Hs''.
  apply in_zrange in Hx, Hy. apply Hstep; auto.
Qed.

Lemma fold_left_ext_in {A B : Type} (f g : A -> B -> A) (l : list B) (a : A) :
  (forall s b, In b l -> f s b = g s b) -> fold_left f l a = fold_left g l a.
Proof.
  revert a; induction l as [|b l IH]; simpl; intros a H; [reflexivity |].
  rewrite H by auto. apply IH. intros; apply H; auto.
Qed.

(** ** The description parser *)

Lemma skip_digits_length (p : string) :
  (String.length (skip_digits p) <= String.length p)%nat.
Proof.
  induction p as [|c r IH]; simpl; [lia |].
  destruct (is_digit c); simpl; lia.
Qed.

(** The flag loop never reaches the [default] of its switch. *)
Lemma load_flags_total (p : string) : forall (st : game_state) (i : Z),
  exists st' p', load_flags st i p = inr (st', p')
                 /\ (String.length p' <= String.length p)%nat.
Proof.
  induction p as [|c r IH]; intros st i; simpl.
  - exists st, EmptyString. split; [reflexivity | simpl; lia].
  - destruct (c =? "U")%char eqn:EU; simpl.
    { destruct (IH (set_clues st (set (clues st) i (Z.lor (get (clues st) i) F_ADJ_UP))) i)
        as (st' & p' & -> & Hl). exists st', p'. split; [reflexivity | lia]. }
    destruct (c =? "R")%char eqn:ER; simpl.
    { destruct (IH (set_clues st (set (clues st) i (Z.lor (get (clues st) i) F_ADJ_RIGHT))) i)
        as (st' & p' & -> & Hl). exists st', p'. split; [reflexivity | lia]. }
    destruct (c =? "D")%char eqn:ED; simpl.
    { destruct (IH (set_clues st (set (clues st) i (Z.lor (get (clues st) i) F_ADJ_DOWN))) i)
        as (st' & p' & -> & Hl). exists st', p'. split; [reflexivity | lia]. }
    destruct (c =? "L")%char eqn:EL; simpl.
    { destruct (IH (set_clues st (set (clues st) i (Z.lor (get (clues st) i) F_ADJ_LEFT))) i)
        as (st' & p' & -> & Hl). exists st', p'. split; [reflexivity | lia]. }
    exists st, (String c r). split; [reflexivity | simpl; lia].
Qed.

Lemma load_value_cases (st : game_state) (i : Z) (p : string) :
  load_value st i p = inl E_RANGE \/ load_value st i p = inl E_NUMBER
  \/ exists st' p', load_value st i p = inr (st', p')
                    /\ (String.length p' < String.length p)%nat.
Proof.
  destruct p as [|c r]; simpl; auto.
  destruct (is_digit c) eqn:Ed.
  - destruct ((to_uint (atoi (String c r)) <? 0)
              || (to_uint (atoi (String c r)) >? ALL_BITS (n st))); auto.
    right; right. eexists; eexists; split; [reflexivity |].
    pose proof (skip_digits_length r). simpl; lia.
  - destruct (c =? "_")%char; auto.
    right; right. eexists; eexists; split; [reflexivity | simpl; lia].
Qed.

Lemma string_tl_length (p : string) :
  (String.length (string_tl p) <= String.length p)%nat.
Proof. destruct p; simpl; lia. Qed.

Lemma load_cells_never_flag_error (fuel : nat) :
  forall (wh : Z) (st : game_state) (i : Z) (p e : string),
    load_cells fuel wh st i p = Some (inl e) -> e <> E_FLAG.
Proof.
  induction fuel as [|fuel IH]; intros wh st i p e H.
  - destruct p; simpl in H; discriminate.
  - destruct p as [|c r]; [discriminate |].
    cbn [load_cells] in H.
    destruct (i >=? wh); [injection H as <-; discriminate |].
    destruct (load_value_cases st i (String c r)) as [E|[E|(st1 & p1 & E & _)]];
      rewrite E in H; try (injection H as <-; discriminate).
    destruct (load_flags_total p1 st1 i) as (st2 & p2 & E2 & _).
    rewrite E2 in H.
    destruct ((i + 1 <? wh) && negb (head_is p2 ","));
      [injection H as <-; discriminate | now apply IH in H].
Qed.

(** The fuel handed to the cell loop by [attempt_load_game] suffices. *)
Lemma load_cells_fuel (fuel : nat) :
  forall (wh : Z) (st : game_state) (i : Z) (p : string),
    (String.length p < fuel)%nat -> load_cells fuel wh st i p <> None.
Proof.
  induction fuel as [|fuel IH]; intros wh st i p Hlen; [lia |].
  destruct p as [|c r]; [discriminate |].
  cbn [load_cells].
  destruct (i >=? wh); [discriminate |].
  destruct (load_value_cases st i (String c r)) as [E|[E|(st1 & p1 & E & L1)]];
    rewrite E; try discriminate.
  destruct (load_flags_total p1 st1 i) as (st2 & p2 & E2 & L2).
  rewrite E2.
  destruct ((i + 1 <? wh) && negb (head_is p2 ",")); [discriminate |].
  apply IH.
  pose proof (string_tl_length p2).
  destruct (head_is p2 ","); lia.
Qed.

Lemma attempt_load_game_total (st : game_state) (desc : string) :
  attempt_load_game st desc <> None.
Proof.
  unfold attempt_load_game.
  pose proof (load_cells_fuel (S (String.length desc)) (w st * w st) st 0 desc) as H.
  destruct (load_cells (S (String.length desc)) (w st * w st) st 0 desc)
    as [[e|[st' i]]|]; [discriminate | | exfalso; apply H; [lia | reflexivity]].
  destruct (i <? w st * w st); [discriminate |].
  destruct (first_error _ _); discriminate.
Qed.

Lemma first_error_in {A : Type} (f : A -> option string) (l : list A) (e : string) :
  first_error f l = Some e -> exists a, In a l /\ f a = Some e.
Proof.
  induction l as [|a l IH]; simpl; [discriminate |].
  destruct (f a) eqn:E.
  - intros [= <-]. exists a; auto.
  - intros H. destruct (IH H) as (b & Hb & Hf). exists b; auto.
Qed.

Lemma attempt_load_game_never_flag_error (st : game_state) (desc e : string) :
  attempt_load_game st desc = Some (inl e) -> e <> E_FLAG.
Proof.
  unfold attempt_load_game.
  destruct (load_cells (S (String.length desc)) (w st * w st) st 0 desc)
    as [[e'|[st1 i]]|] eqn:E; [| | discriminate].
  - intros [= <-]. eapply load_cells_never_flag_error; eauto.
  - destruct (i <? w st * w st); [intros [= <-]; discriminate |].
    destruct (first_error _ _) as [e'|] eqn:H; [| discriminate].
    intros [= <-]. apply first_error_in in H.
    destruct H as ([[y x] a] & _ & H). unfold flag_check in H.
    destruct (has (get (clues st1) (y * w st + x)) (adj_f a)); [| discriminate].
    destruct ((x + adj_dx a <? 0) || (y + adj_dy a <? 0)
              || (x + adj_dx a >=? w st) || (y + adj_dy a >=? w st));
      [injection H as <-; discriminate |].
    destruct (has (get (clues st1) ((y + adj_dy a) * w st + (x + adj_dx a)))
                  (adj_fo a)); [injection H as <-; discriminate | discriminate].
Qed.

(** C7 (as amended).  A character that cannot start a cell value is
    reported as "Expecting number in game description"; a character that
    cannot follow a cell's value and flags is reported as "Missing
    separator" before the last cell and as "Too much data to fill grid"
    after it; and no description at all is answered with "Expecting flag
    URDL in game description". *)
Theorem unexpected_character_errors :
  (forall fuel wh st i c r,
      i < wh -> is_digit c = false -> c <> "_"%char ->
      load_cells (S fuel) wh st i (String c r) = Some (inl E_NUMBER))
  /\ (forall fuel wh st i p st1 p1 st2 c r,
      i < wh -> p <> EmptyString ->
      load_value st i p = inr (st1, p1) ->
      load_flags st1 i p1 = inr (st2, String c r) ->
      c <> ","%char ->
      load_cells (S (S fuel)) wh st i p
      = Some (inl (if i + 1 <? wh then E_SEPARATOR else E_TOO_MUCH)))
  /\ (forall st desc e,
      attempt_load_game st desc = Some (inl e) -> e <> E_FLAG).
Proof.
  split; [| split].
  - intros fuel wh st i c r Hi Hd Hu. cbn [load_cells].
    destruct (Z.geb_spec i wh); [lia |]. simpl. rewrite Hd.
    destruct (Ascii.eqb_spec c "_"); [contradiction | reflexivity].
  - intros fuel wh st i p st1 p1 st2 c r Hi Hp Hv Hf Hc.
    destruct p as [|c0 r0]; [contradiction |]. cbn [load_cells].
    destruct (Z.geb_spec i wh); [lia |]. rewrite Hv, Hf.
    cbn [head_is]. destruct (Ascii.eqb_spec c ","); [contradiction |].
    destruct (Z.ltb_spec (i + 1) wh); simpl; [reflexivity |].
    destruct (Z.geb_spec (i + 1) wh); [reflexivity | lia].
  - intros st desc e. apply attempt_load_game_never_flag_error.
Qed.

Lemma unexpected_character_errors_witness :
  load_cells 1 16 (blank_game default_params) 0 "X" = Some (inl E_NUMBER)
  /\ load_cells 2 16 (blank_game default_params) 0 "_X"
     = Some (inl E_SEPARATOR)
  /\ E_RANGE <> E_FLAG.
Proof.
  destruct unexpected_character_errors as (H1 & H2 & H3).
  split; [| split].
  - apply H1; [lia | reflexivity | discriminate].
  - apply (H2 0%nat 16 (blank_game default_params) 0 "_X"%string
              (blank_game default_params) "X"%string
              (blank_game default_params) "X"%char ""%string);
      [lia | discriminate | reflexivity | reflexivity | discriminate].
  - apply (H3 (blank_game default_params)
              "16,_,_,_,_,_,_,_,_,_,_,_,_,_,_,_"%string).
    vm_compute. reflexivity.
Defined.

(** C7 as stated fails twice: an unexpected character after a cell value is
    answered with "Missing separator", and no description is answered with
    "Expecting flag URDL in game description". *)
Lemma flag_error_never_returned :
  load_game default_params "0X,_,_,_,_,_,_,_,_,_,_,_,_,_,_,_"
  = Some (inl E_SEPARATOR)
  /\ ~ (exists st desc, attempt_load_game st desc = Some (inl E_FLAG)).
Proof.
  split; [vm_compute; reflexivity |].
  intros (st & desc & H).
  now apply attempt_load_game_never_flag_error in H.
Qed.

(** ** Bit sets *)

Lemma subset_spec (a b : Z) :
  subset a b <->
  (forall k, 0 <= k -> Z.testbit a k = true -> Z.testbit b k = true).
Proof.
  unfold subset. split.
  - intros H k Hk Ha. rewrite <- H, Z.land_spec in Ha.
    now apply andb_true_iff in Ha.
  - intros H. apply Z.bits_inj'. intros k Hk. rewrite Z.land_spec.
    destruct (Z.testbit a k) eqn:Ea; [| reflexivity].
    now rewrite (H k Hk Ea).
Qed.

Lemma subset_refl (a : Z) : subset a a.
Proof. unfold subset. apply Z.land_diag. Qed.

Lemma subset_trans (a b c : Z) : subset a b -> subset b c -> subset a c.
Proof. rewrite !subset_spec. intros H1 H2 k Hk Ha. auto. Qed.

Lemma subset_antisym (a b : Z) : subset a b -> subset b a -> a = b.
Proof. unfold subset. intros H1 H2. rewrite <- H1 at 1. now rewrite Z.land_comm. Qed.

Lemma subset_lor_l (a b : Z) : subset a (Z.lor a b).
Proof.
  apply subset_spec. intros k Hk Ha. rewrite Z.lor_spec, Ha. reflexivity.
Qed.

Lemma subset_land_l (a b : Z) : subset (Z.land a b) a.
Proof.
  apply subset_spec. intros k Hk Ha. rewrite Z.land_spec in Ha.
  now apply andb_true_iff in Ha.
Qed.

Lemma subset_eqb (a b : Z) : (Z.land a b =? a) = true <-> subset a b.
Proof. unfold subset. apply Z.eqb_eq. Qed.

Lemma has_bit (a b : Z) : 0 <= b -> has a (Z.shiftl 1 b) = Z.testbit a b.
Proof.
  intros Hb. unfold has. rewrite Z.shiftl_1_l.
  destruct (Z.testbit a b) eqn:E.
  - apply negb_true_iff, Z.eqb_neq. intros H0.
    assert (T : Z.testbit (Z.land a (2 ^ b)) b = true).
    { rewrite Z.land_spec, E, Z.pow2_bits_true; auto. }
    rewrite H0, Z.bits_0 in T. discriminate.
  - apply negb_false_iff, Z.eqb_eq, Z.bits_inj'. intros k Hk.
    rewrite Z.land_spec, Z.bits_0, Z.pow2_bits_eqb by auto.
    destruct (Z.eqb_spec b k); [subst; now rewrite E | apply andb_false_r].
Qed.

Lemma testbit_uint_high (a k : Z) :
  0 <= a < 2 ^ 32 -> 32 <= k -> Z.testbit a k = false.
Proof.
  intros Ha Hk. rewrite <- (Z.mod_small a (2 ^ 32)) by lia.
  apply Z.mod_pow2_bits_high. lia.
Qed.

Lemma testbit_to_uint (x k : Z) :
  0 <= k -> Z.testbit (to_uint x) k = (k <? 32) && Z.testbit x k.
Proof.
  intros Hk. unfold to_uint. destruct (Z.ltb_spec k 32); cbn [andb].
  - apply Z.mod_pow2_bits_low. lia.
  - apply Z.mod_pow2_bits_high. lia.
Qed.

Lemma to_uint_range (x : Z) : 0 <= to_uint x < 2 ^ 32.
Proof. unfold to_uint. apply Z.mod_pos_bound. lia. Qed.

Lemma uint_of_bits (a : Z) :
  0 <= a -> (forall k, 32 <= k -> Z.testbit a k = false) -> 0 <= a < 2 ^ 32.
Proof.
  intros Ha Hhigh.
  assert (E : to_uint a = a).
  { apply Z.bits_inj'. intros k Hk. rewrite testbit_to_uint by assumption.
    destruct (Z.ltb_spec k 32); cbn [andb]; [reflexivity |].
    symmetry. apply Hhigh. lia. }
  rewrite <- E. apply to_uint_range.
Qed.

Lemma lor_uint (a b : Z) :
  0 <= a < 2 ^ 32 -> 0 <= b < 2 ^ 32 -> 0 <= Z.lor a b < 2 ^ 32.
Proof.
  intros Ha Hb. apply uint_of_bits; [apply Z.lor_nonneg; lia |].
  intros k Hk. rewrite Z.lor_spec, !testbit_uint_high by assumption.
  reflexivity.
Qed.

Lemma land_uint (a b : Z) : 0 <= a < 2 ^ 32 -> 0 <= Z.land a b < 2 ^ 32.
Proof.
  intros Ha. apply uint_of_bits; [apply Z.land_nonneg; lia |].
  intros k Hk. rewrite Z.land_spec, (testbit_uint_high a) by assumption.
  reflexivity.
Qed.

(** ** Well-formed boards *)

Lemma forallb_aget {A : Type} (P : A -> bool) (d : A) (l : list A) (i : Z) :
  forallb P l = true -> P d = true -> P (aget d l i) = true.
Proof.
  unfold aget. intros Hl Hd. destruct (i <? 0); [assumption |].
  destruct (nth_in_or_default (Z.to_nat i) l d) as [Hin | ->]; [| assumption].
  rewrite forallb_forall in Hl. now apply Hl.
Qed.

Lemma forallb_aset {A : Type} (P : A -> bool) (l : list A) (i : Z) (v : A) :
  forallb P l = true -> P v = true -> forallb P (aset l i v) = true.
Proof.
  unfold aset. intros Hl Hv. destruct (i <? 0); [assumption |].
  revert l Hl. generalize (Z.to_nat i) as k.
  induction k as [|k IH]; intros [|a l]; simpl; auto;
    intros H; apply andb_true_iff in H as [Ha Hl]; apply andb_true_iff; auto.
Qed.

Lemma is_uint_spec (v : Z) : is_uint v = true <-> 0 <= v < 2 ^ 32.
Proof. unfold is_uint. rewrite andb_true_iff, Z.leb_le, Z.ltb_lt. tauto. Qed.

Lemma wf_board_unfold (st : game_state) :
  wf_board st ->
  (0 < w st /\ 0 < h st /\ 0 <= n st <= 30 /\ w st * h st = 2 ^ n st)
  /\ (zlen (clues st) = w st * h st /\ zlen (immutable st) = w st * h st
      /\ zlen (known st) = w st * h st /\ zlen (mask st) = w st * h st)
  /\ (forallb is_uint (clues st) = true /\ forallb is_uint (immutable st) = true
      /\ forallb is_uint (known st) = true
      /\ forallb (fun v => (0 <=? v) && (v <=? ALL_BITS (n st))) (mask st) = true)
  /\ clues_in_grid st = true.
Proof.
  unfold wf_board, wf_boardb. rewrite !andb_true_iff.
  rewrite !Z.ltb_lt, !Z.leb_le, !Z.eqb_eq. tauto.
Qed.

Lemma ALL_BITS_pow (k : Z) : 0 <= k -> ALL_BITS k = 2 ^ k - 1.
Proof. intros Hk. unfold ALL_BITS. now rewrite Z.shiftl_1_l. Qed.

Lemma wf_known_uint (st : game_state) (i : Z) :
  wf_board st -> 0 <= get (known st) i < 2 ^ 32.
Proof.
  intros H. apply wf_board_unfold in H as (_ & _ & (_ & _ & H & _) & _).
  apply is_uint_spec. now apply forallb_aget.
Qed.

Lemma wf_mask_range (st : game_state) (i : Z) :
  wf_board st -> 0 <= get (mask st) i <= ALL_BITS (n st).
Proof.
  intros H. apply wf_board_unfold in H as ((_ & _ & Hn & _) & _ & (_ & _ & _ & H) & _).
  pose proof (forallb_aget (fun v => (0 <=? v) && (v <=? ALL_BITS (n st)))
                0 (mask st) i H) as T.
  cbv beta in T.
  assert (T0 : (0 <=? 0) && (0 <=? ALL_BITS (n st)) = true).
  { rewrite ALL_BITS_pow by lia. apply andb_true_iff. split; [reflexivity |].
    apply Z.leb_le.
    assert (0 < 2 ^ n st) by (apply Z.pow_pos_nonneg; lia). lia. }
  specialize (T T0). apply andb_true_iff in T. rewrite !Z.leb_le in T.
  exact T.
Qed.

Lemma wf_mask_uint (st : game_state) (i : Z) :
  wf_board st -> 0 <= get (mask st) i < 2 ^ 32.
Proof.
  intros H. pose proof (wf_mask_range st i H) as Hm.
  apply wf_board_unfold in H as ((_ & _ & Hn & _) & _).
  rewrite ALL_BITS_pow in Hm by lia.
  assert (2 ^ n st <= 2 ^ 32) by (apply Z.pow_le_mono_r; lia). lia.
Qed.

Lemma dup_game_wf (st : game_state) : wf_board st -> dup_game st = st.
Proof.
  intros H. apply wf_board_unfold in H as (_ & (H1 & H2 & H3 & H4) & _).
  unfold dup_game, zlen in *. destruct st as [w0 h0 n0 c i k m co ch]; simpl in *.
  rewrite !firstn_all2 by lia. reflexivity.
Qed.

(** ** The move engine *)

Lemma deref_app_old (m : store) (x : game_state) (p : nat) :
  (p < List.length m)%nat -> deref (m ++ [x]) p = deref m p.
Proof. intros H. unfold deref. now apply app_nth1. Qed.

Lemma deref_app_last (m : store) (x : game_state) :
  deref (m ++ [x]) (List.length m) = x.
Proof. unfold deref. now rewrite nth_middle. Qed.

Lemma upd_app_last {A : Type} (m : list A) (x y : A) :
  upd (List.length m) y (m ++ [x]) = m ++ [y].
Proof. induction m as [|a m IH]; simpl; [reflexivity | now rewrite IH]. Qed.

Lemma sscanf_move_head (move : string) (op : ascii) (pos bit : Z) :
  sscanf_move move = Some (op, pos, bit) -> head_is move op = true.
Proof.
  destruct move as [|c r]; simpl; [discriminate |].
  destruct (scan_int r) as [[p q]|]; [| discriminate].
  destruct (head_is q ","); [| discriminate].
  destruct (scan_int (string_tl q)) as [[k q']|]; [| discriminate].
  intros [= -> _ _]. apply Ascii.eqb_refl.
Qed.

Lemma player_op_not_solve (move : string) (op : ascii) (pos bit : Z) :
  sscanf_move move = Some (op, pos, bit) ->
  op = "K"%char \/ op = "C"%char \/ op = "U"%char ->
  head_is move "S" = false.
Proof.
  intros H Hop. apply sscanf_move_head in H.
  destruct move as [|c r]; [reflexivity |]. simpl in *.
  apply Ascii.eqb_eq in H. subst c.
  destruct Hop as [-> | [-> | ->]]; reflexivity.
Qed.

(** The numbers of a move are the [int]s that [sscanf] stores: a number
    written beyond the range of [int] is read as its low 32 bits. *)
Lemma sscanf_move_wraps :
  sscanf_move "K4294967301,0" = Some ("K"%char, 5, 0)
  /\ exists st',
       execute_move [board_T1_open5] 0 "K4294967301,0"
       = Some ([board_T1_open5; st'], Some 1%nat).
Proof. split; [reflexivity |]. eexists. vm_compute. reflexivity. Qed.



Lemma testbit_set_bit (a bit b : Z) :
  0 <= bit -> 0 <= b ->
  Z.testbit (Z.lor a (Z.shiftl 1 bit)) b = Z.testbit a b || (bit =? b).
Proof.
  intros Hbit Hb. now rewrite Z.lor_spec, Z.shiftl_1_l, Z.pow2_bits_eqb.
Qed.

Lemma testbit_clear_bit (a bit b : Z) :
  0 <= a < 2 ^ 32 -> 0 <= bit -> 0 <= b ->
  Z.testbit (Z.land a (to_uint (Z.lnot (Z.shiftl 1 bit)))) b
  = Z.testbit a b && negb (bit =? b).
Proof.
  intros Ha Hbit Hb.
  rewrite Z.land_spec, testbit_to_uint, Z.lnot_spec, Z.shiftl_1_l,
    Z.pow2_bits_eqb by assumption.
  destruct (Z.ltb_spec b 32); cbn [andb]; [reflexivity |].
  rewrite testbit_uint_high by lia. reflexivity.
Qed.

Lemma move_bit_player (op : ascii) (bit : Z) (st : game_state) (pos : Z) :
  op = "K"%char \/ op = "C"%char \/ op = "U"%char ->
  move_bit op (Z.shiftl 1 bit) st pos
  = set_mask (set_known st (set (known st) pos
                              (moved_known op bit (get (known st) pos))))
             (set (mask st) pos (moved_mask op bit (get (mask st) pos))).
Proof. intros [-> | [-> | ->]]; reflexivity. Qed.

Lemma moved_bits (op : ascii) (bit k m b : Z) :
  op = "K"%char \/ op = "C"%char \/ op = "U"%char ->
  0 <= k < 2 ^ 32 -> 0 <= m < 2 ^ 32 -> 0 <= bit -> 0 <= b ->
  Z.testbit (moved_known op bit k) b
  = (if bit =? b then (op =? "K")%char else Z.testbit k b)
  /\ Z.testbit (moved_mask op bit m) b
     = (if bit =? b then negb (op =? "C")%char else Z.testbit m b).
Proof.
  intros Hop Hk Hm Hbit Hb. unfold moved_known, moved_mask.
  destruct Hop as [-> | [-> | ->]]; cbn [Ascii.eqb Bool.eqb negb];
    rewrite ?testbit_set_bit, ?testbit_clear_bit by assumption;
    destruct (bit =? b), (Z.testbit k b), (Z.testbit m b); auto.
Qed.

Lemma execute_move_accepted (m : store) (state : nat) (move : string)
    (op : ascii) (pos bit : Z) :
  sscanf_move move = Some (op, pos, bit) ->
  op = "K"%char \/ op = "C"%char \/ op = "U"%char ->
  0 <= pos < w (deref m state) * h (deref m state) ->
  0 <= bit < n (deref m state) ->
  Z.testbit (get (immutable (deref m state)) pos) bit = false ->
  execute_move m state move
  = Some (m ++ [latch_completed
                  (move_bit op (Z.shiftl 1 bit) (dup_game (deref m state)) pos)],
          Some (List.length m)).
Proof.
  intros Hscan Hop Hpos Hbit Himm. unfold execute_move.
  rewrite (player_op_not_solve move op pos bit Hscan Hop), Hscan.
  destruct (Z.ltb_spec pos 0); [lia |].
  destruct (Z.geb_spec pos (w (deref m state) * h (deref m state))); [lia |].
  destruct (Z.ltb_spec bit 0); [lia |].
  destruct (Z.geb_spec bit (n (deref m state))); [lia |].
  cbn [orb]. rewrite has_bit by lia. rewrite Himm.
  unfold alloc_dup. rewrite deref_app_last, upd_app_last, deref_app_last.
  unfold latch_completed.
  destruct (status_eqb _ _); [now rewrite upd_app_last | reflexivity].
Qed.

(** C10 (as amended).  An accepted player move returns a fresh state and
    leaves the input state alone.  The new state has the clues, the
    immutable masks and every other cell's bounds of the input; in cell
    [pos] only bit [bit] of the bounds moves (K: set in both, C: cleared in
    both, U: cleared in [known], set in [mask]); [known] stays included in
    [mask]; and
    the [completed] flag is set when the validator finds the new board
    complete. *)
Theorem execute_move_frame :
  forall (m : store) (state : nat) (move : string) (op : ascii) (pos bit : Z),
    (state < List.length m)%nat ->
    wf_board (deref m state) ->
    sscanf_move move = Some (op, pos, bit) ->
    op = "K"%char \/ op = "C"%char \/ op = "U"%char ->
    0 <= pos < w (deref m state) * h (deref m state) ->
    0 <= bit < n (deref m state) ->
    Z.testbit (get (immutable (deref m state)) pos) bit = false ->
    let st := deref m state in
    exists st',
      execute_move m state move = Some (m ++ [st'], Some (List.length m))
      /\ (forall m' r,
            execute_move m state move = Some (m', r) -> deref m' state = st)
      /\ (w st' = w st /\ h st' = h st /\ n st' = n st
          /\ clues st' = clues st /\ immutable st' = immutable st
          /\ cheated st' = cheated st)
      /\ (forall j, j <> pos ->
            get (known st') j = get (known st) j
            /\ get (mask st') j = get (mask st) j)
      /\ (forall b, 0 <= b ->
            Z.testbit (get (known st') pos) b
            = (if bit =? b then (op =? "K")%char
               else Z.testbit (get (known st) pos) b)
            /\ Z.testbit (get (mask st') pos) b
               = (if bit =? b then negb (op =? "C")%char
                  else Z.testbit (get (mask st) pos) b))
      /\ completed st'
         = completed st
           || status_eqb
                (fst (fst (subsets_validate (set_completed st' (completed st))
                                            None None)))
                STATUS_COMPLETE
      /\ ((forall i, subset (get (known st) i) (get (mask st) i)) ->
          forall i, subset (get (known st') i) (get (mask st') i)).
Proof.
  intros m state move op pos bit Hstate Hwf Hscan Hop Hpos Hbit Himm st.
  pose proof (execute_move_accepted m state move op pos bit
                Hscan Hop Hpos Hbit Himm) as E.
  rewrite (dup_game_wf _ Hwf), (move_bit_player op bit _ pos Hop) in E.
  fold st in E.
  set (r := set_mask (set_known st (set (known st) pos
                        (moved_known op bit (get (known st) pos))))
                     (set (mask st) pos (moved_mask op bit (get (mask st) pos))))
    in E.
  exists (latch_completed r).
  pose proof (wf_board_unfold _ Hwf) as (_ & (_ & _ & Lk & Lm) & _).
  fold st in Lk, Lm.
  assert (Hk : get (known r) pos = moved_known op bit (get (known st) pos)).
  { subst r; cbn [known set_mask set_known]. apply aget_aset_eq.
    subst st; lia. }
  assert (Hm : get (mask r) pos = moved_mask op bit (get (mask st) pos)).
  { subst r; cbn [mask set_mask set_known]. apply aget_aset_eq.
    subst st; lia. }
  assert (Ho : forall j, j <> pos ->
                 get (known r) j = get (known st) j
                 /\ get (mask r) j = get (mask st) j).
  { intros j Hj. subst r; cbn [known mask set_mask set_known].
    split; apply aget_aset_neq; congruence. }
  assert (Hb : forall b, 0 <= b ->
            Z.testbit (get (known r) pos) b
            = (if bit =? b then (op =? "K")%char
               else Z.testbit (get (known st) pos) b)
            /\ Z.testbit (get (mask r) pos) b
               = (if bit =? b then negb (op =? "C")%char
                  else Z.testbit (get (mask st) pos) b)).
  { intros b Hb0. rewrite Hk, Hm. apply moved_bits; try assumption; try lia.
    - apply wf_known_uint, Hwf.
    - apply wf_mask_uint, Hwf. }
  assert (Hfields : forall x : game_state,
            known (latch_completed x) = known x
            /\ mask (latch_completed x) = mask x
            /\ w (latch_completed x) = w x /\ h (latch_completed x) = h x
            /\ n (latch_completed x) = n x
            /\ clues (latch_completed x) = clues x
            /\ immutable (latch_completed x) = immutable x
            /\ cheated (latch_completed x) = cheated x).
  { intros x. unfold latch_completed. destruct (status_eqb _ _); cbn; tauto. }
  destruct (Hfields r) as (Fk & Fm & Fw & Fh & Fn & Fc & Fi & Fch).
  rewrite Fk, Fm, Fw, Fh, Fn, Fc, Fi, Fch.
  split; [exact E |]. split.
  { intros m' r0 E'. rewrite E in E'. injection E' as <- _.
    now apply deref_app_old. }
  split; [subst r; cbn; tauto |].
  split; [exact Ho |]. split; [exact Hb |]. split.
  - assert (Ec : set_completed (latch_completed r) (completed st) = r).
    { unfold latch_completed. destruct (status_eqb _ _); subst r; reflexivity. }
    rewrite Ec. unfold latch_completed.
    destruct (status_eqb _ _); subst r; cbn;
      [now rewrite orb_true_r | now rewrite orb_false_r].
  - intros Hinv i. destruct (Z.eq_dec i pos) as [-> | Hne].
    + apply subset_spec. intros b Hb0.
      destruct (Hb b Hb0) as [-> ->].
      specialize (Hinv pos). rewrite subset_spec in Hinv.
      specialize (Hinv b Hb0).
      destruct (bit =? b); [| assumption].
      destruct Hop as [-> | [-> | ->]]; cbn; auto; discriminate.
    + destruct (Ho i Hne) as [-> ->]. apply Hinv.
Qed.

Lemma execute_move_frame_witness :
  let m := [board_T1_open5] in
  exists st',
    execute_move m 0 "C5,1" = Some (m ++ [st'], Some 1%nat)
    /\ (forall m' r,
          execute_move m 0 "C5,1" = Some (m', r) ->
          deref m' 0 = board_T1_open5)
    /\ clues st' = clues board_T1_open5
    /\ get (known st') 5 = 4 /\ get (mask st') 5 = 5.
Proof.
  destruct (execute_move_frame [board_T1_open5] 0 "C5,1" "C"%char 5 1)
    as (st' & E & Hin & (_ & _ & _ & Hc & _) & _);
    [ simpl; lia | reflexivity | reflexivity | auto | vm_compute; split; congruence
    | vm_compute; split; congruence | reflexivity | ].
  exists st'. split; [exact E |]. split; [exact Hin |]. split; [exact Hc |].
  rewrite (execute_move_accepted [board_T1_open5] 0 "C5,1" "C"%char 5 1) in E;
    [| reflexivity | auto | vm_compute; split; congruence
     | vm_compute; split; congruence | reflexivity].
  injection E as <-. vm_compute. split; reflexivity.
Defined.

(** C10 as stated fails on a move that completes the board: besides bit 0
    of cell 5, the [completed] flag of the returned state differs from the
    one of the input state. *)
Lemma completing_move_sets_completed :
  let m := [board_T1_open5] in
  exists st',
    execute_move m 0 "K5,0" = Some (m ++ [st'], Some 1%nat)
    /\ completed (deref m 0) = false
    /\ completed st' = true.
Proof.
  eexists. split; [vm_compute; reflexivity |]. split; reflexivity.
Qed.

(** ** The validator *)

Lemma status_eqb_eq (a b : status) : status_eqb a b = true <-> a = b.
Proof. destruct a, b; simpl; split; congruence. Qed.

Lemma status_eqb_neq (a b : status) : status_eqb a b = false <-> a <> b.
Proof. destruct a, b; simpl; split; congruence. Qed.

Lemma validate_unresolved_spec (st : game_state) (nobuf : bool) (cells : list Z) :
  forall ret,
    validate_unresolved st nobuf cells ret
    = if forallb (resolved st) cells then inr ret
      else if nobuf then inl STATUS_UNFINISHED else inr STATUS_UNFINISHED.
Proof.
  induction cells as [|i rest IH]; intros ret; simpl; [reflexivity |].
  destruct (resolved st i); simpl; [apply IH |].
  destruct nobuf; [reflexivity |]. rewrite IH.
  destruct (forallb (resolved st) rest); reflexivity.
Qed.

Lemma count_value_cons (st : game_state) (i : Z) (rest : list Z) (v : Z) :
  count_value st (i :: rest) v
  = (if resolved st i && (get (known st) i =? v) then 1 else 0)
    + count_value st rest v.
Proof.
  unfold count_value, zlen. cbn [filter].
  destruct (resolved st i && (get (known st) i =? v)); cbn [List.length]; lia.
Qed.

Lemma count_value_nonneg (st : game_state) (cells : list Z) (v : Z) :
  0 <= count_value st cells v.
Proof. unfold count_value, zlen. lia. Qed.

Lemma validate_counts_sticky (st : game_state) (nf : bool) (cells : list Z) :
  forall counts,
    snd (validate_counts st nf cells counts STATUS_INVALID) = STATUS_INVALID.
Proof.
  induction cells as [|i rest IH]; intros counts; simpl; [reflexivity |].
  destruct (resolved st i); [| apply IH].
  destruct (1 <? _); destruct nf; simpl; auto.
Qed.

(** The [break] of the counting loop changes neither the verdict nor,
    short of INVALID, the counts. *)
Lemma validate_counts_break (st : game_state) (cells : list Z) :
  forall counts ret,
    snd (validate_counts st true cells counts ret)
    = snd (validate_counts st false cells counts ret)
    /\ (snd (validate_counts st false cells counts ret) <> STATUS_INVALID ->
        validate_counts st true cells counts ret
        = validate_counts st false cells counts ret).
Proof.
  induction cells as [|i rest IH]; intros counts ret; simpl; [auto |].
  destruct (resolved st i); [| apply IH].
  set (c' := set counts (get (known st) i) (get counts (get (known st) i) + 1)).
  destruct (1 <? get c' (get (known st) i)); cbn [andb status_eqb].
  - rewrite validate_counts_sticky. split; [reflexivity | congruence].
  - destruct (status_eqb ret STATUS_INVALID) eqn:E; [| apply IH].
    apply status_eqb_eq in E. subst ret.
    rewrite validate_counts_sticky. split; [reflexivity | congruence].
Qed.

Lemma validate_counts_spec (st : game_state) (len : Z) (cells : list Z) :
  forall counts ret,
    zlen counts = len ->
    (forall i, In i cells -> resolved st i = true ->
               0 <= get (known st) i < len) ->
    let r := validate_counts st false cells counts ret in
    zlen (fst r) = len
    /\ (forall v, 0 <= v < len ->
          get (fst r) v = get counts v + count_value st cells v)
    /\ (snd r = STATUS_INVALID <->
        ret = STATUS_INVALID
        \/ exists v, 0 <= v < len /\ 1 <= count_value st cells v
                     /\ 2 <= get counts v + count_value st cells v)
    /\ (snd r <> STATUS_INVALID -> snd r = ret).
Proof.
  induction cells as [|i rest IH]; intros counts ret Hlen Hrange; cbn zeta.
  - simpl. split; [exact Hlen |]. split.
    { intros v Hv. unfold count_value; simpl. unfold zlen; simpl. lia. }
    split; [| auto]. split; [now left |].
    intros [H | (v & _ & H & _)]; [assumption |].
    unfold count_value, zlen in H; simpl in H. lia.
  - cbn [validate_counts]. destruct (resolved st i) eqn:Eres.
    + set (v0 := get (known st) i).
      assert (Hv0 : 0 <= v0 < len) by (apply Hrange; simpl; auto).
      set (c' := set counts v0 (get counts v0 + 1)).
      assert (Hc'v0 : get c' v0 = get counts v0 + 1)
        by (apply aget_aset_eq; lia).
      set (ret' := if 1 <? get c' v0 then STATUS_INVALID else ret).
      cbn [andb].
      destruct (IH c' ret') as (L & C & I & K).
      { subst c'. now rewrite zlen_aset. }
      { intros j Hj. apply Hrange. simpl; auto. }
      split; [exact L |]. split.
      { intros v Hv. rewrite C by assumption. rewrite count_value_cons, Eres.
        cbn [andb]. fold v0. destruct (Z.eqb_spec v0 v) as [<- | Hne].
        - rewrite Hc'v0. lia.
        - subst c'. rewrite aget_aset_neq by assumption. lia. }
      assert (Hcv : forall v, count_value st (i :: rest) v
                = (if v0 =? v then 1 else 0) + count_value st rest v).
      { intros v. rewrite count_value_cons, Eres. reflexivity. }
      split.
      { rewrite I. subst ret'. rewrite Hc'v0. split.
        - intros [H | (v & Hv & H1 & H2)].
          + destruct (Z.ltb_spec 1 (get counts v0 + 1)); [| now left].
            right. exists v0. rewrite Hcv, Z.eqb_refl.
            pose proof (count_value_nonneg st rest v0). repeat split; lia.
          + right. exists v. rewrite Hcv.
            destruct (Z.eqb_spec v0 v) as [<- | Hne].
            * rewrite Hc'v0 in H2. repeat split; lia.
            * subst c'. rewrite aget_aset_neq in H2 by assumption.
              repeat split; lia.
        - intros [H | (v & Hv & H1 & H2)].
          + left. rewrite H. destruct (1 <? get counts v0 + 1); reflexivity.
          + rewrite Hcv in H1, H2.
            destruct (Z.eqb_spec v0 v) as [<- | Hne].
            * destruct (Z_le_dec 1 (count_value st rest v0)).
              -- right. exists v0. rewrite Hc'v0. repeat split; lia.
              -- left. destruct (Z.ltb_spec 1 (get counts v0 + 1));
                   [reflexivity | lia].
            * right. exists v. subst c'.
              rewrite aget_aset_neq by assumption. repeat split; lia. }
      { intros Hn. rewrite (K Hn).
        destruct (1 <? get c' v0) eqn:E; [| reflexivity].
        exfalso. apply Hn. apply I. left. reflexivity. }
    + destruct (IH counts ret) as (L & C & I & K).
      { exact Hlen. }
      { intros j Hj. apply Hrange. simpl; auto. }
      split; [exact L |]. split.
      { intros v Hv. rewrite C by assumption.
        rewrite count_value_cons, Eres. reflexivity. }
      split; [| exact K].
      rewrite I. split; intros [H | (v & Hv & H1 & H2)]; auto; right; exists v;
        rewrite count_value_cons, Eres in *; cbn [andb] in *; repeat split; lia.
Qed.

Lemma in_grid_spec (st : game_state) (x y : Z) :
  in_grid st x y = negb ((x <? 0) || (x >=? w st) || (y <? 0) || (y >=? h st)).
Proof.
  unfold in_grid.
  destruct (Z.leb_spec 0 x), (Z.ltb_spec x 0), (Z.ltb_spec x (w st)),
    (Z.geb_spec x (w st)), (Z.leb_spec 0 y), (Z.ltb_spec y 0),
    (Z.ltb_spec y (h st)), (Z.geb_spec y (h st)); simpl; try reflexivity; lia.
Qed.

Lemma validate_dir_step (st : game_state) (x y : Z)
    (acc : status * option (list Z)) (a : adj) :
  resolved st (y * w st + x) = true ->
  validate_dir st x y acc a = edge_step st acc (y, x, a).
Proof.
  intros Hres. unfold validate_dir, edge_step, edge_flagged, edge_violated,
    neighbour_earlier.
  rewrite in_grid_spec, Hres.
  destruct ((x + adj_dx a <? 0) || (x + adj_dx a >=? w st)
            || (y + adj_dy a <? 0) || (y + adj_dy a >=? h st));
    cbn [negb andb]; [reflexivity |].
  destruct (resolved st ((y + adj_dy a) * w st + (x + adj_dx a)));
    cbn [negb andb]; [| reflexivity].
  destruct (has (get (clues st) (y * w st + x)) (adj_f a));
    cbn [negb andb orb].
  - rewrite andb_true_r.
    destruct (Z.land _ _ =? _); reflexivity.
  - destruct ((x + adj_dx a <? x) || (y + adj_dy a <? y)); cbn [negb].
    + rewrite andb_false_r. reflexivity.
    + rewrite andb_true_r.
      destruct (has (get (clues st) ((y + adj_dy a) * w st + (x + adj_dx a)))
                    (adj_fo a)); cbn [negb]; [reflexivity |].
      destruct ((Z.land _ _ =? _) || (Z.land _ _ =? _)); reflexivity.
Qed.

Lemma edge_flagged_resolved (st : game_state) (y x : Z) (a : adj) :
  edge_flagged st y x a = true -> resolved st (y * w st + x) = true.
Proof.
  unfold edge_flagged, edge_violated. intros H.
  repeat (apply andb_true_iff in H as [H ?]). assumption.
Qed.

Lemma fold_left_flat_map {A B C : Type} (f : A -> C -> A) (g : B -> list C)
    (l : list B) :
  forall a,
    fold_left f (flat_map g l) a
    = fold_left (fun a x => fold_left f (g x) a) l a.
Proof.
  induction l as [|b l IH]; intros a; simpl; [reflexivity |].
  now rewrite fold_left_app, IH.
Qed.

Lemma fold_left_map {A B C : Type} (f : A -> C -> A) (g : B -> C)
    (l : list B) :
  forall a, fold_left f (map g l) a = fold_left (fun a x => f a (g x)) l a.
Proof. induction l as [|b l IH]; intros a; simpl; auto. Qed.

Lemma edge_step_flags_some (st : game_state) (l : list (Z * Z * adj)) :
  forall r fl, exists fl',
    snd (fold_left (edge_step st) l (r, Some fl)) = Some fl'.
Proof.
  induction l as [|[[y x] a] l IH]; intros r fl; simpl; [eauto |].
  destruct (edge_flagged st y x a); simpl; apply IH.
Qed.

Lemma edge_dirs_step (st : game_state) (x y : Z) (acc : status * option (list Z)) :
  fold_left (fun acc a => edge_step st acc (y, x, a)) adjthan acc
  = if resolved st (y * w st + x)
    then fold_left (validate_dir st x y) adjthan acc else acc.
Proof.
  destruct (resolved st (y * w st + x)) eqn:E.
  - apply fold_left_ext_in. intros s a _. symmetry.
    now apply validate_dir_step.
  - apply fold_left_inv with (P := fun s => s = acc); [reflexivity |].
    intros s a _ ->. unfold edge_step.
    destruct (edge_flagged st y x a) eqn:F; [| reflexivity].
    apply edge_flagged_resolved in F. congruence.
Qed.

(** With a flags buffer the row loop never breaks. *)
Lemma validate_row_flags (st : game_state) (y : Z) (xs : list Z) :
  forall r fl,
    validate_row st y xs (r, Some fl)
    = fold_left (edge_step st)
        (flat_map (fun x => map (fun a => (y, x, a)) adjthan) xs) (r, Some fl).
Proof.
  induction xs as [|x xs IH]; intros r fl; [reflexivity |].
  cbn [validate_row flat_map]. rewrite fold_left_app, fold_left_map.
  cbn [fst snd is_none]. rewrite andb_false_r.
  rewrite edge_dirs_step.
  destruct (resolved st (y * w st + x)) eqn:E; cbn [negb]; [| apply IH].
  assert (Hsome : exists r' fl',
            fold_left (validate_dir st x y) adjthan (r, Some fl)
            = (r', Some fl')).
  { rewrite (fold_left_ext_in (validate_dir st x y)
               (fun acc a => edge_step st acc (y, x, a)))
      by (intros; now apply validate_dir_step).
    pose proof (edge_step_flags_some st (map (fun a => (y, x, a)) adjthan) r fl)
      as [fl' Hfl'].
    rewrite fold_left_map in Hfl'.
    destruct (fold_left _ adjthan (r, Some fl)) as [r' o'].
    simpl in Hfl'. subst o'. eauto. }
  destruct Hsome as (r' & fl' & ->). apply IH.
Qed.

Lemma validate_arrows_flags (st : game_state) (r : status) (fl : list Z) :
  validate_arrows st (r, Some fl)
  = fold_left (edge_step st) (grid_triples (w st) (h st)) (r, Some fl).
Proof.
  unfold validate_arrows, grid_triples. rewrite fold_left_flat_map.
  generalize (zrange (h st)) as ys. intros ys. revert r fl.
  induction ys as [|y ys IH]; intros r fl; [reflexivity |].
  cbn [fold_left]. rewrite validate_row_flags.
  pose proof (edge_step_flags_some st
                (flat_map (fun x => map (fun a => (y, x, a)) adjthan)
                          (zrange (w st))) r fl) as [fl' Hfl'].
  destruct (fold_left (edge_step st) _ (r, Some fl)) as [r' o'] eqn:Er.
  simpl in Hfl'. subst o'. apply IH.
Qed.

Lemma edge_step_status (st : game_state) (l : list (Z * Z * adj)) :
  forall r o,
    fst (fold_left (edge_step st) l (r, o))
    = if existsb (on_triple (edge_flagged st)) l then STATUS_INVALID else r.
Proof.
  induction l as [|[[y x] a] l IH]; intros r o; [reflexivity |].
  cbn [fold_left existsb edge_step]. unfold on_triple at 1. cbn [fst snd].
  destruct (edge_flagged st y x a); cbn [orb]; rewrite IH;
    [destruct (existsb _ l) |]; reflexivity.
Qed.

Lemma validate_dir_no_flags (st : game_state) (x y : Z) (a : adj)
    (r : status) (o : option (list Z)) :
  validate_dir st x y (r, None) a = (fst (validate_dir st x y (r, o) a), None).
Proof.
  unfold validate_dir. cbn [fst snd flag_edge].
  repeat match goal with
         | |- context [if ?b then _ else _] => destruct b
         end; reflexivity.
Qed.

Lemma validate_dir_some (st : game_state) (x y : Z) (a : adj)
    (r : status) (fl : list Z) :
  exists r' fl', validate_dir st x y (r, Some fl) a = (r', Some fl').
Proof.
  unfold validate_dir. cbn [fst snd flag_edge].
  repeat match goal with
         | |- context [if ?b then _ else _] => destruct b
         end; eauto.
Qed.

Lemma validate_dirs_no_flags (st : game_state) (x y : Z) (l : list adj) :
  forall r o,
    fold_left (validate_dir st x y) l (r, None)
    = (fst (fold_left (validate_dir st x y) l (r, o)), None).
Proof.
  induction l as [|a l IH]; intros r o; [reflexivity |].
  cbn [fold_left]. rewrite (validate_dir_no_flags st x y a r o).
  destruct (validate_dir st x y (r, o) a) as [r1 o1]. cbn [fst]. apply IH.
Qed.

Lemma validate_dirs_some (st : game_state) (x y : Z) (l : list adj) :
  forall r fl, exists r' fl',
    fold_left (validate_dir st x y) l (r, Some fl) = (r', Some fl').
Proof.
  induction l as [|a l IH]; intros r fl; cbn [fold_left]; [eauto |].
  destruct (validate_dir_some st x y a r fl) as (r1 & fl1 & ->). apply IH.
Qed.

(** Without a flags buffer the row loop breaks once INVALID; the verdict
    is that of the full run. *)
Lemma validate_row_no_flags (st : game_state) (y : Z) (xs : list Z) :
  forall r fl,
    validate_row st y xs (r, None)
    = (fst (validate_row st y xs (r, Some fl)), None).
Proof.
  induction xs as [|x xs IH]; intros r fl; [reflexivity |].
  destruct (status_eqb r STATUS_INVALID) eqn:Er.
  - apply status_eqb_eq in Er. subst r.
    rewrite validate_row_flags, edge_step_status.
    cbn [validate_row fst snd status_eqb is_none andb].
    destruct (existsb _ _); reflexivity.
  - cbn [validate_row fst snd is_none]. rewrite Er, andb_false_r. cbn [andb].
    destruct (resolved st (y * w st + x)); cbn [negb]; [| apply IH].
    rewrite (validate_dirs_no_flags st x y adjthan r (Some fl)).
    destruct (validate_dirs_some st x y adjthan r fl) as (r' & fl' & ->).
    cbn [fst]. apply IH.
Qed.

Lemma validate_arrows_no_flags (st : game_state) (r : status) (fl : list Z) :
  validate_arrows st (r, None)
  = (fst (validate_arrows st (r, Some fl)), None).
Proof.
  unfold validate_arrows. generalize (zrange (h st)) as ys. intros ys.
  revert r fl. induction ys as [|y ys IH]; intros r fl; [reflexivity |].
  cbn [fold_left]. rewrite (validate_row_no_flags st y (zrange (w st)) r fl).
  rewrite validate_row_flags.
  destruct (edge_step_flags_some st
              (flat_map (fun x => map (fun a => (y, x, a)) adjthan)
                        (zrange (w st))) r fl) as [fl' Hfl'].
  destruct (fold_left (edge_step st) _ (r, Some fl)) as [r' o'].
  simpl in Hfl'. subst o'. cbn [fst]. apply IH.
Qed.

Lemma in_grid_triples (wd ht y x : Z) (a : adj) :
  In (y, x, a) (grid_triples wd ht)
  <-> 0 <= y < ht /\ 0 <= x < wd /\ In a adjthan.
Proof.
  unfold grid_triples. rewrite in_flat_map. split.
  - intros (y' & Hy & H). apply in_flat_map in H as (x' & Hx & H).
    apply in_map_iff in H as (a' & [= -> -> ->] & Ha).
    apply in_zrange in Hy, Hx. auto.
  - intros (Hy & Hx & Ha). exists y. split; [now apply in_zrange |].
    apply in_flat_map. exists x. split; [now apply in_zrange |].
    apply in_map_iff. exists a. auto.
Qed.

Lemma opposite_spec (a : adj) :
  In a adjthan ->
  In (opposite a) adjthan
  /\ adj_f (opposite a) = adj_fo a /\ adj_fo (opposite a) = adj_f a
  /\ adj_dx (opposite a) = - adj_dx a /\ adj_dy (opposite a) = - adj_dy a.
Proof.
  intros [<- | [<- | [<- | [<- | []]]]]; cbn; repeat split; auto 6.
Qed.

Lemma edge_violated_reverse (st : game_state) (y x : Z) (a : adj) :
  In a adjthan -> 0 <= x < w st -> 0 <= y < h st ->
  edge_violated st y x a = true ->
  has (get (clues st) (y * w st + x)) (adj_f a) = false ->
  edge_violated st (y + adj_dy a) (x + adj_dx a) (opposite a) = true
  /\ neighbour_earlier (x + adj_dx a) (y + adj_dy a) (opposite a)
     = negb (neighbour_earlier x y a).
Proof.
  intros Ha Hx Hy Hv Hc.
  destruct (opposite_spec a Ha) as (_ & Ef & Efo & Edx & Edy).
  unfold edge_violated, neighbour_earlier in *.
  rewrite Ef, Efo, Edx, Edy.
  replace (y + adj_dy a + - adj_dy a) with y by lia.
  replace (x + adj_dx a + - adj_dx a) with x by lia.
  rewrite Hc in *.
  apply andb_true_iff in Hv as [Hv Hcmp].
  apply andb_true_iff in Hv as [Hv Hr2].
  apply andb_true_iff in Hv as [Hg Hr1].
  rewrite Hr1, Hr2.
  destruct (has (get (clues st) ((y + adj_dy a) * w st + (x + adj_dx a)))
                (adj_fo a)); [discriminate |].
  split.
  - assert (Hin : in_grid st x y = true).
    { unfold in_grid.
      destruct (Z.leb_spec 0 x), (Z.ltb_spec x (w st)),
        (Z.leb_spec 0 y), (Z.ltb_spec y (h st)); try lia; reflexivity. }
    rewrite Hin. cbn [andb].
    rewrite (Z.land_comm (get (known st) ((y + adj_dy a) * w st + (x + adj_dx a)))).
    rewrite orb_comm. exact Hcmp.
  - destruct Ha as [<- | [<- | [<- | [<- | []]]]]; cbn [adj_dx adj_dy];
      destruct (Z.ltb_spec (x + 0) x), (Z.ltb_spec (y + -1) y),
        (Z.ltb_spec (x + 0 + - 0) (x + 0)), (Z.ltb_spec (y + -1 + - -1) (y + -1)),
        (Z.ltb_spec (x + 1) x), (Z.ltb_spec (y + 0) y),
        (Z.ltb_spec (x + 1 + - (1)) (x + 1)), (Z.ltb_spec (y + 0 + - 0) (y + 0)),
        (Z.ltb_spec (y + 1) y), (Z.ltb_spec (y + 1 + - (1)) (y + 1)),
        (Z.ltb_spec (x + -1) x), (Z.ltb_spec (x + -1 + - -1) (x + -1));
      try lia; reflexivity.
Qed.

Lemma edge_violated_in_grid (st : game_state) (y x : Z) (a : adj) :
  edge_violated st y x a = true ->
  0 <= x + adj_dx a < w st /\ 0 <= y + adj_dy a < h st.
Proof.
  unfold edge_violated, in_grid. intros H.
  repeat (apply andb_true_iff in H as [H ?]).
  rewrite ?Z.leb_le, ?Z.ltb_lt in *. lia.
Qed.

(** Every violated edge is marked from one of its two cells. *)
Lemma edge_violation_flagged (st : game_state) :
  has_edge_violation st
  = existsb (on_triple (edge_flagged st)) (grid_triples (w st) (h st)).
Proof.
  unfold has_edge_violation. apply eq_true_iff_eq.
  rewrite !existsb_exists. split.
  - intros ([[y x] a] & Hin & Hv). unfold on_triple in Hv. cbn [fst snd] in Hv.
    destruct (edge_flagged st y x a) eqn:F.
    + exists (y, x, a). auto.
    + unfold edge_flagged in F. rewrite Hv in F. cbn [andb] in F.
      apply orb_false_iff in F as [Hc He]. apply negb_false_iff in He.
      apply in_grid_triples in Hin as (Hy & Hx & Ha).
      destruct (edge_violated_reverse st y x a Ha Hx Hy Hv Hc) as [Hv' He'].
      destruct (edge_violated_in_grid st y x a Hv) as [Hx2 Hy2].
      exists (y + adj_dy a, x + adj_dx a, opposite a). split.
      * apply in_grid_triples. repeat split; try lia.
        now apply opposite_spec.
      * unfold on_triple. cbn [fst snd]. unfold edge_flagged.
        rewrite Hv', He', He. cbn. apply orb_true_r.
  - intros ([[y x] a] & Hin & Hf). exists (y, x, a). split; [assumption |].
    unfold on_triple in *. cbn [fst snd] in *. unfold edge_flagged in Hf.
    now apply andb_true_iff in Hf.
Qed.

Lemma all_resolved_values (st : game_state) :
  wf_board st ->
  forall i, resolved st i = true -> 0 <= get (known st) i < w st * h st.
Proof.
  intros Hwf i Hres. unfold resolved in Hres. apply Z.eqb_eq in Hres.
  pose proof (wf_mask_range st i Hwf) as Hm.
  apply wf_board_unfold in Hwf as ((_ & _ & Hn & Hs) & _).
  rewrite ALL_BITS_pow in Hm by lia. lia.
Qed.

Lemma has_duplicate_spec (st : game_state) :
  has_duplicate st = true
  <-> exists v, 0 <= v < w st * h st
                /\ 2 <= count_value st (zrange (w st * h st)) v.
Proof.
  unfold has_duplicate. rewrite existsb_exists. split.
  - intros (v & Hv & H). apply in_zrange in Hv. apply Z.leb_le in H. eauto.
  - intros (v & Hv & H). exists v. rewrite in_zrange, Z.leb_le. auto.
Qed.

(** The verdict of the validator when it runs to its end. *)
Lemma validate_full_status (st : game_state) (flags counts : option (list Z)) :
  wf_board st ->
  is_none flags && is_none counts && negb (all_resolved st) = false ->
  status_of (subsets_validate st flags counts) = worst_status st.
Proof.
  intros Hwf Hrun. unfold subsets_validate, status_of.
  rewrite validate_unresolved_spec. fold (all_resolved st).
  replace (is_none flags && negb (negb (is_none counts)))
    with (is_none flags && is_none counts)
    by (now rewrite negb_involutive).
  set (ret1 := if all_resolved st then STATUS_COMPLETE else STATUS_UNFINISHED).
  assert (E1 : (if all_resolved st then inr STATUS_COMPLETE
                else if is_none flags && is_none counts
                     then inl STATUS_UNFINISHED else inr STATUS_UNFINISHED)
               = (inr ret1 : status + status)).
  { subst ret1. destruct (all_resolved st); [reflexivity |].
    destruct (is_none flags && is_none counts); [discriminate | reflexivity]. }
  rewrite E1. clear E1.
  set (s := w st * h st).
  assert (Hs : 0 <= s).
  { apply wf_board_unfold in Hwf as ((? & ? & _) & _). subst s. nia. }
  destruct (validate_counts_spec st s (zrange s) (repeat 0 (Z.to_nat s)) ret1)
    as (L & C & I & K).
  { unfold zlen. rewrite repeat_length. lia. }
  { intros i _ Hres. now apply all_resolved_values. }
  assert (Hret2 : snd (validate_counts st false (zrange s)
                         (repeat 0 (Z.to_nat s)) ret1)
                  = if has_duplicate st then STATUS_INVALID else ret1).
  { destruct (has_duplicate st) eqn:D.
    - apply I. right. apply has_duplicate_spec in D as (v & Hv & H).
      exists v. fold s in Hv, H. rewrite aget_repeat by lia.
      repeat split; lia.
    - apply K. intros H. apply I in H as [H | (v & Hv & _ & H)].
      + subst ret1. destruct (all_resolved st); discriminate.
      + rewrite aget_repeat in H by lia.
        assert (has_duplicate st = true); [| congruence].
        apply has_duplicate_spec. exists v. fold s. split; [lia | lia]. }
  assert (Hcnt : forall nf,
            snd (validate_counts st nf (zrange s) (repeat 0 (Z.to_nat s)) ret1)
            = if has_duplicate st then STATUS_INVALID else ret1).
  { intros [|]; [| exact Hret2].
    rewrite (proj1 (validate_counts_break st (zrange s) _ ret1)). exact Hret2. }
  assert (Harr : forall r o,
            fst (validate_arrows st (r, o))
            = if has_edge_violation st then STATUS_INVALID else r).
  { intros r [fl|].
    - rewrite validate_arrows_flags, edge_step_status.
      now rewrite edge_violation_flagged.
    - rewrite (validate_arrows_no_flags st r []). cbn [fst].
      rewrite validate_arrows_flags, edge_step_status.
      now rewrite edge_violation_flagged. }
  match goal with
  | |- context [validate_counts st ?nf ?c ?z ?r] =>
      specialize (Hcnt nf); destruct (validate_counts st nf c z r) as [cnt ret2]
  end.
  cbn [snd] in Hcnt. subst ret2.
  match goal with
  | |- context [validate_arrows st ?acc] =>
      pose proof (Harr (fst acc) (snd acc)) as H3;
        destruct (validate_arrows st acc) as [ret3 fl3] eqn:E3
  end.
  cbn [fst snd] in *. rewrite E3 in H3. cbn [fst] in H3. subst ret3.
  unfold worst_status. subst ret1.
  destruct (has_duplicate st), (has_edge_violation st), (all_resolved st);
    reflexivity.
Qed.

Lemma validate_early_return (st : game_state) :
  all_resolved st = false ->
  subsets_validate st None None = (STATUS_UNFINISHED, None, None).
Proof.
  intros H. unfold subsets_validate. rewrite validate_unresolved_spec.
  fold (all_resolved st). rewrite H. reflexivity.
Qed.

(** The counts left in a counts buffer. *)
Lemma validate_counts_result (st : game_state) (flags : option (list Z))
    (buf : list Z) :
  wf_board st ->
  is_none flags = false
  \/ status_of (subsets_validate st flags (Some buf)) <> STATUS_INVALID ->
  exists cnt,
    snd (subsets_validate st flags (Some buf)) = Some cnt
    /\ forall v, 0 <= v < w st * h st ->
         get cnt v = count_value st (zrange (w st * h st)) v.
Proof.
  intros Hwf Hok. unfold status_of, subsets_validate in *.
  rewrite validate_unresolved_spec in *. fold (all_resolved st) in *.
  cbn [is_none negb] in *. rewrite andb_false_r in *.
  set (ret1 := if all_resolved st then STATUS_COMPLETE else STATUS_UNFINISHED) in *.
  assert (E1 : (if all_resolved st then inr STATUS_COMPLETE
                else inr STATUS_UNFINISHED) = (inr ret1 : status + status)).
  { subst ret1. destruct (all_resolved st); reflexivity. }
  rewrite E1 in *. clear E1.
  set (s := w st * h st) in *.
  assert (Hs : 0 <= s).
  { apply wf_board_unfold in Hwf as ((? & ? & _) & _). subst s. nia. }
  destruct (validate_counts_spec st s (zrange s) (repeat 0 (Z.to_nat s)) ret1)
    as (L & C & I & K).
  { unfold zlen. rewrite repeat_length. lia. }
  { intros i _ Hres. now apply all_resolved_values. }
  assert (Hfull : forall v, 0 <= v < s ->
            get (fst (validate_counts st false (zrange s)
                        (repeat 0 (Z.to_nat s)) ret1)) v
            = count_value st (zrange s) v).
  { intros v Hv. rewrite C by assumption. rewrite aget_repeat by lia. lia. }
  destruct flags as [fl|]; cbn [is_none] in *.
  - destruct (validate_counts st false (zrange s) _ ret1) as [cnt ret2].
    destruct (validate_arrows st _) as [ret3 fl3]. cbn [snd fst] in *. eauto.
  - destruct Hok as [Hok | Hok]; [discriminate |].
    destruct (validate_counts_break st (zrange s) (repeat 0 (Z.to_nat s)) ret1)
      as [Bs Bc].
    destruct (status_eqb (snd (validate_counts st false (zrange s)
                                 (repeat 0 (Z.to_nat s)) ret1))
                         STATUS_INVALID) eqn:Einv.
    + exfalso. apply Hok. apply status_eqb_eq in Einv.
      rewrite <- Bs in Einv.
      destruct (validate_counts st true (zrange s) _ ret1) as [cnt ret2].
      cbn [snd] in Einv. subst ret2.
      rewrite (validate_arrows_no_flags st STATUS_INVALID []).
      rewrite validate_arrows_flags. cbn [fst]. rewrite edge_step_status.
      destruct (existsb _ _); reflexivity.
    + apply status_eqb_neq in Einv. rewrite (Bc Einv).
      destruct (validate_counts st false (zrange s) _ ret1) as [cnt ret2].
      destruct (validate_arrows st _) as [ret3 fl3]. cbn [snd fst] in *. eauto.
Qed.

(** C3 (as amended).  With a flags or a counts buffer, or on a board with
    every cell resolved, [subsets_validate] returns the worst status that
    holds of the board; with neither buffer it returns UNFINISHED as soon
    as it meets an unresolved cell.  A counts buffer passed together with a
    flags buffer, or on a board that is not found INVALID, is left holding
    for each value the number of resolved cells with that value. *)
Theorem subsets_validate_verdict :
  forall (st : game_state) (flags counts : option (list Z)),
    wf_board st ->
    status_of (subsets_validate st flags counts)
    = (if is_none flags && is_none counts && negb (all_resolved st)
       then STATUS_UNFINISHED else worst_status st)
    /\ (forall buf,
          counts = Some buf ->
          is_none flags = false
          \/ status_of (subsets_validate st flags counts) <> STATUS_INVALID ->
          exists cnt,
            snd (subsets_validate st flags counts) = Some cnt
            /\ forall v, 0 <= v < w st * h st ->
                 get cnt v = count_value st (zrange (w st * h st)) v).
Proof.
  intros st flags counts Hwf. split.
  - destruct (is_none flags && is_none counts && negb (all_resolved st)) eqn:E.
    + apply andb_true_iff in E as [E Hr]. apply andb_true_iff in E as [Ef Ec].
      destruct flags; [discriminate |]. destruct counts; [discriminate |].
      apply negb_true_iff in Hr. now rewrite validate_early_return.
    + now apply validate_full_status.
  - intros buf -> Hok. now apply validate_counts_result.
Qed.

Lemma subsets_validate_verdict_witness :
  status_of (subsets_validate board_duplicate (Some []) (Some []))
  = STATUS_INVALID
  /\ exists cnt,
       snd (subsets_validate board_duplicate (Some []) (Some [])) = Some cnt
       /\ get cnt 3 = 2.
Proof.
  destruct (subsets_validate_verdict board_duplicate (Some []) (Some []))
    as [Hs Hc]; [reflexivity |].
  split; [rewrite Hs; reflexivity |].
  destruct (Hc [] eq_refl) as (cnt & E & Hv); [now left |].
  exists cnt. split; [exact E |]. rewrite Hv by (vm_compute; split; congruence).
  reflexivity.
Defined.

(** C3 as stated fails on a board with a duplicated value and an
    unresolved cell: the verdict depends on the buffers (UNFINISHED with
    neither, INVALID with them), and with a counts buffer alone the count
    of value 5, held by one resolved cell, is left at 0. *)
Lemma verdict_depends_on_buffers :
  status_of (subsets_validate board_duplicate None None) = STATUS_UNFINISHED
  /\ status_of (subsets_validate board_duplicate (Some []) (Some []))
     = STATUS_INVALID
  /\ worst_status board_duplicate = STATUS_INVALID
  /\ count_value board_duplicate (zrange 16) 5 = 1
  /\ exists cnt,
       snd (subsets_validate board_duplicate None (Some [])) = Some cnt
       /\ get cnt 5 = 0.
Proof.
  repeat split; try (vm_compute; reflexivity).
  eexists. split; vm_compute; reflexivity.
Qed.

Lemma has_lor (u f g : Z) : has (Z.lor u f) g = has u g || has f g.
Proof.
  unfold has. rewrite Z.land_lor_distr_l.
  destruct (Z.eqb_spec (Z.land u g) 0) as [E1 | E1];
    destruct (Z.eqb_spec (Z.land f g) 0) as [E2 | E2]; cbn [negb orb].
  - rewrite E1, E2. reflexivity.
  - apply negb_true_iff, Z.eqb_neq. rewrite Z.lor_eq_0_iff. tauto.
  - apply negb_true_iff, Z.eqb_neq. rewrite Z.lor_eq_0_iff. tauto.
  - apply negb_true_iff, Z.eqb_neq. rewrite Z.lor_eq_0_iff. tauto.
Qed.

Lemma cell_index_range (wd ht x y : Z) :
  0 <= x < wd -> 0 <= y < ht -> 0 <= y * wd + x < wd * ht.
Proof. intros Hx Hy. nia. Qed.

Lemma cell_index_inj (wd x y x' y' : Z) :
  0 <= x < wd -> 0 <= x' < wd -> y * wd + x = y' * wd + x' ->
  x = x' /\ y = y'.
Proof. intros Hx Hx' E. assert (y = y') by nia. subst. lia. Qed.

Lemma adj_f_inj (a b : adj) :
  In a adjthan -> In b adjthan -> has (adj_f a) (adj_f b) = true -> a = b.
Proof.
  intros [<- | [<- | [<- | [<- | []]]]] [<- | [<- | [<- | [<- | []]]]];
    cbn; congruence.
Qed.

Lemma adj_f_self (a : adj) : In a adjthan -> has (adj_f a) (adj_f a) = true.
Proof. intros [<- | [<- | [<- | [<- | []]]]]; reflexivity. Qed.

(** The marks left in a flags buffer by a run of edge checks. *)
Lemma edge_step_flags (st : game_state) (l : list (Z * Z * adj)) :
  forall r fl,
    zlen fl = w st * h st ->
    (forall y x a, In (y, x, a) l -> 0 <= x < w st /\ 0 <= y < h st) ->
    exists fl',
      snd (fold_left (edge_step st) l (r, Some fl)) = Some fl'
      /\ zlen fl' = w st * h st
      /\ forall i g,
           has (get fl' i) g
           = has (get fl i) g
             || existsb (fun t => on_triple (edge_flagged st) t
                                  && (triple_cell st t =? i)
                                  && has (adj_f (snd t)) g) l.
Proof.
  induction l as [|[[y x] a] l IH]; intros r fl Hlen Hin.
  - exists fl. cbn. repeat split; auto. intros. now rewrite orb_false_r.
  - cbn [fold_left edge_step existsb]. unfold on_triple at 1, triple_cell at 1.
    cbn [fst snd].
    destruct (Hin y x a (or_introl eq_refl)) as [Hx Hy].
    pose proof (cell_index_range (w st) (h st) x y Hx Hy) as Hi.
    destruct (edge_flagged st y x a) eqn:F; cbn [andb flag_edge snd].
    + destruct (IH STATUS_INVALID
                  (set fl (y * w st + x)
                       (Z.lor (get fl (y * w st + x)) (adj_f a))))
        as (fl' & E & L & Hh).
      { now rewrite zlen_aset. }
      { intros y' x' a' H'. apply (Hin y' x' a'). now right. }
      exists fl'. split; [exact E |]. split; [exact L |].
      intros i g. rewrite Hh.
      destruct (Z.eqb_spec (y * w st + x) i) as [<- | Hne].
      * rewrite aget_aset_eq by lia. rewrite has_lor.
        cbn [andb]. now rewrite orb_assoc.
      * rewrite aget_aset_neq by assumption. reflexivity.
    + destruct (IH r fl Hlen) as (fl' & E & L & Hh).
      { intros y' x' a' H'. apply (Hin y' x' a'). now right. }
      exists fl'. auto.
Qed.

Lemma validate_flags_result (st : game_state) (buf : list Z)
    (counts : option (list Z)) :
  wf_board st ->
  exists fl',
    flags_of (subsets_validate st (Some buf) counts) = Some fl'
    /\ forall y x a,
         0 <= x < w st -> 0 <= y < h st -> In a adjthan ->
         has (get fl' (y * w st + x)) (adj_f a) = edge_flagged st y x a.
Proof.
  intros Hwf. unfold flags_of, subsets_validate.
  rewrite validate_unresolved_spec. cbn [is_none andb].
  set (ret1 := if forallb (resolved st) (zrange (w st * h st))
               then STATUS_COMPLETE else STATUS_UNFINISHED).
  assert (E1 : (if forallb (resolved st) (zrange (w st * h st))
                then inr STATUS_COMPLETE else inr STATUS_UNFINISHED)
               = (inr ret1 : status + status)).
  { subst ret1. destruct (forallb _ _); reflexivity. }
  rewrite E1. clear E1.
  destruct (validate_counts st false _ _ ret1) as [cnt ret2].
  rewrite validate_arrows_flags.
  assert (Hs : 0 <= w st * h st).
  { apply wf_board_unfold in Hwf as ((? & ? & _) & _). nia. }
  destruct (edge_step_flags st (grid_triples (w st) (h st)) ret2
              (repeat 0 (Z.to_nat (w st * h st)))) as (fl' & E & L & Hh).
  { unfold zlen. rewrite repeat_length. lia. }
  { intros y x a H. apply in_grid_triples in H. tauto. }
  destruct (fold_left (edge_step st) _ _) as [ret3 fl3]. cbn [snd fst] in *.
  exists fl'. split; [exact E |].
  intros y x a Hx Hy Ha. rewrite Hh.
  rewrite aget_repeat by (pose proof (cell_index_range _ _ x y Hx Hy); lia).
  change (has 0 (adj_f a)) with false. cbn [orb].
  apply eq_true_iff_eq. rewrite existsb_exists. split.
  - intros ([[y' x'] a'] & Hin & H).
    apply andb_true_iff in H as [H Hg]. apply andb_true_iff in H as [Hf Hc].
    unfold on_triple, triple_cell in *. cbn [fst snd] in *.
    apply in_grid_triples in Hin as (Hy' & Hx' & Ha').
    apply Z.eqb_eq in Hc.
    destruct (cell_index_inj (w st) x' y' x y Hx' Hx Hc) as [-> ->].
    now rewrite <- (adj_f_inj a' a Ha' Ha Hg).
  - intros Hf. exists (y, x, a). split.
    + apply in_grid_triples. auto.
    + unfold on_triple, triple_cell. cbn [fst snd].
      now rewrite Hf, Z.eqb_refl, adj_f_self.
Qed.

Lemma edge_violation_invalid (st : game_state) (y x : Z) (a : adj) :
  0 <= x < w st -> 0 <= y < h st -> In a adjthan ->
  edge_violated st y x a = true -> worst_status st = STATUS_INVALID.
Proof.
  intros Hx Hy Ha Hv. unfold worst_status.
  assert (E : has_edge_violation st = true).
  { unfold has_edge_violation. apply existsb_exists. exists (y, x, a).
    split; [apply in_grid_triples; auto | exact Hv]. }
  rewrite E, orb_true_r. reflexivity.
Qed.

(** C4 (as amended).  When the validator runs to its end (it has a buffer,
    or no cell is unresolved), for two adjacent resolved cells [i] and [j]
    with [x = value(i) & value(j)]: if [i] carries an arrow toward [j], the
    verdict is INVALID when [x <> value(j)] and the edge is flagged on [i]
    exactly then; if neither carries an arrow toward the other, the verdict
    is INVALID when [x] is one of the two values, and the edge is flagged
    on [i] exactly when that holds and [j] does not precede [i]. *)
Theorem validate_edge_checks :
  forall (st : game_state) (flags counts : option (list Z)) (x y : Z) (a : adj),
    wf_board st ->
    is_none flags && is_none counts && negb (all_resolved st) = false ->
    0 <= x < w st -> 0 <= y < h st -> In a adjthan ->
    in_grid st (x + adj_dx a) (y + adj_dy a) = true ->
    let i := y * w st + x in
    let j := (y + adj_dy a) * w st + (x + adj_dx a) in
    resolved st i = true -> resolved st j = true ->
    let vi := get (known st) i in
    let vj := get (known st) j in
    let r := subsets_validate st flags counts in
    (has (get (clues st) i) (adj_f a) = true ->
       (Z.land vi vj <> vj -> status_of r = STATUS_INVALID)
       /\ (forall fl', flags_of r = Some fl' ->
             has (get fl' i) (adj_f a) = negb (Z.land vi vj =? vj)))
    /\ (has (get (clues st) i) (adj_f a) = false ->
        has (get (clues st) j) (adj_fo a) = false ->
        (Z.land vi vj = vi \/ Z.land vi vj = vj -> status_of r = STATUS_INVALID)
        /\ (forall fl', flags_of r = Some fl' ->
              has (get fl' i) (adj_f a)
              = ((Z.land vi vj =? vj) || (Z.land vi vj =? vi))
                && negb (neighbour_earlier x y a)))
    /\ (flags <> None -> exists fl', flags_of r = Some fl').
Proof.
  intros st flags counts x y a Hwf Hrun Hx Hy Ha Hg i j Hri Hrj vi vj r.
  assert (Hst : status_of r = worst_status st)
    by (now apply validate_full_status).
  assert (Hfl : forall fl', flags_of r = Some fl' ->
                  has (get fl' i) (adj_f a) = edge_flagged st y x a).
  { intros fl' E. subst r. destruct flags as [buf|].
    - destruct (validate_flags_result st buf counts Hwf) as (fl'' & E' & H).
      rewrite E in E'. injection E' as <-. now apply H.
    - exfalso. unfold flags_of, subsets_validate in E.
      destruct (validate_unresolved st _ _ _); [discriminate |].
      destruct (validate_counts st _ _ _ _) as [c r2].
      rewrite (validate_arrows_no_flags st r2 []) in E. discriminate. }
  assert (Hev : edge_violated st y x a
            = if has (get (clues st) i) (adj_f a)
              then negb (Z.land vi vj =? vj)
              else if has (get (clues st) j) (adj_fo a) then false
                   else (Z.land vi vj =? vj) || (Z.land vi vj =? vi)).
  { unfold edge_violated. fold i j vi vj. now rewrite Hg, Hri, Hrj. }
  split; [| split].
  - intros Hc. split.
    + intros Hne. rewrite Hst. apply (edge_violation_invalid st y x a); auto.
      rewrite Hev, Hc.
      destruct (Z.eqb_spec (Z.land vi vj) vj); [contradiction | reflexivity].
    + intros fl' E. rewrite (Hfl fl' E). unfold edge_flagged.
      fold i. rewrite Hc, Hev, Hc. cbn [orb]. apply andb_true_r.
  - intros Hc Hc'. split.
    + intros Hcmp. rewrite Hst. apply (edge_violation_invalid st y x a); auto.
      rewrite Hev, Hc, Hc'. apply orb_true_iff.
      destruct Hcmp as [E | E]; [right | left]; now apply Z.eqb_eq.
    + intros fl' E. rewrite (Hfl fl' E). unfold edge_flagged.
      fold i. rewrite Hc, Hev, Hc, Hc'. reflexivity.
  - intros Hne. destruct flags as [buf|]; [| contradiction].
    destruct (validate_flags_result st buf counts Hwf) as (fl' & E & _).
    exists fl'. exact E.
Qed.

Lemma validate_edge_checks_witness :
  status_of (subsets_validate board_T4 (Some []) None) = STATUS_INVALID
  /\ exists fl',
       flags_of (subsets_validate board_T4 (Some []) None) = Some fl'
       /\ has (get fl' 0) F_ADJ_RIGHT = true.
Proof.
  destruct (validate_edge_checks board_T4 (Some []) None 0 0
              (mkAdj F_ADJ_RIGHT F_ADJ_LEFT 1 0 ">" "R"))
    as (Harrow & _ & Hsome);
    [ reflexivity | reflexivity | simpl; lia | simpl; lia
    | simpl; tauto | reflexivity | reflexivity | reflexivity | ].
  destruct (Harrow eq_refl) as [Hs Hf].
  split; [apply Hs; vm_compute; discriminate |].
  destruct Hsome as [fl' E]; [discriminate |].
  exists fl'. split; [exact E |]. exact (Hf fl' E).
Defined.

(** C4 as stated fails when the validator is called with neither buffer on
    a board that has an unresolved cell: in scenario T4, cell 0 carries an
    arrow toward cell 1, both are resolved and [3 & 4 <> 4], yet the
    verdict is UNFINISHED. *)
Lemma arrow_violation_unreported :
  resolved board_T4 0 = true /\ resolved board_T4 1 = true
  /\ has (get (clues board_T4) 0) F_ADJ_RIGHT = true
  /\ Z.land (get (known board_T4) 0) (get (known board_T4) 1)
     <> get (known board_T4) 1
  /\ status_of (subsets_validate board_T4 None None) = STATUS_UNFINISHED.
Proof.
  repeat split; try reflexivity. vm_compute. discriminate.
Qed.

(** ** The incomparability rule *)

Lemma bget_bset_false_same (c : list bool) (i : Z) :
  bget (bset c i false) i = false.
Proof.
  destruct (aget_aset_cases false c i i false) as [(_ & _ & E) | ([H | H] & E)];
    rewrite E; [reflexivity | congruence | now apply aget_out].
Qed.

Lemma bget_bset_false_mono (c : list bool) (i k : Z) :
  bget (bset c i false) k = true -> bget c k = true.
Proof.
  destruct (aget_aset_cases false c i k false) as [(_ & _ & E) | (_ & E)];
    rewrite E; [discriminate | auto].
Qed.

Lemma fold_left_establish {A B : Type} (Q : A -> Prop) (f : A -> B -> A)
    (l : list B) (t : B) :
  In t l -> (forall s, Q (f s t)) -> (forall s b, Q s -> Q (f s b)) ->
  forall a, Q (fold_left f l a).
Proof.
  intros Hin Ht Hkeep. induction l as [|b l IH]; [destruct Hin |].
  intros a. cbn [fold_left]. destruct Hin as [-> | Hin].
  - apply fold_left_inv; [apply Ht | intros; now apply Hkeep].
  - now apply IH.
Qed.

Lemma for_grid_establish {S : Type} (Q : S -> Prop) (wd ht : Z)
    (body : Z -> Z -> S -> adj -> S) (x y : Z) (a : adj) :
  0 <= x < wd -> 0 <= y < ht -> In a adjthan ->
  (forall s, Q (body x y s a)) ->
  (forall x' y' s a', Q s -> Q (body x' y' s a')) ->
  forall s0, Q (for_grid wd ht body s0).
Proof.
  intros Hx Hy Ha Ht Hkeep s0. unfold for_grid.
  assert (Hdirs : forall x' y' s, Q s -> Q (fold_left (body x' y') adjthan s)).
  { intros. apply fold_left_inv; [assumption | intros; now apply Hkeep]. }
  assert (Hrow : forall y' s l,
            Q s -> Q (fold_left (fun s x' => fold_left (body x' y') adjthan s) l s)).
  { intros. apply fold_left_inv; [assumption | intros; now apply Hdirs]. }
  apply fold_left_establish with (t := y).
  - now apply in_zrange.
  - intros s. apply fold_left_establish with (t := x).
    + now apply in_zrange.
    + intros s'. apply fold_left_establish with (t := a); auto.
    + intros; now apply Hdirs.
  - intros; now apply Hrow.
Qed.

Lemma disjoint_step_unfold (st : game_state) (x y : Z) (acc : Z * list bool)
    (a : adj) :
  disjoint_step st x y acc a
  = let n2 := Z.shiftl 1 (n st) in
    let i1 := y * w st + x in
    let i2 := (y + adj_dy a) * w st + (x + adj_dx a) in
    if has (get (clues st) i1) (adj_f a) then acc else
    if negb (in_grid st (x + adj_dx a) (y + adj_dy a)) then acc else
    if has (get (clues st) i2) (adj_fo a) then acc else
    if negb (resolved st i1) then
      if bget (snd acc) (i1 * n2) || bget (snd acc) (i1 * n2 + (n2 - 1))
      then (fst acc + 1,
            bset (bset (snd acc) (i1 * n2) false) (i1 * n2 + (n2 - 1)) false)
      else acc
    else if negb (resolved st i2) then
      fold_left (disjoint_opt n2 i2 (get (known st) i1)) (zrange n2) acc
    else acc.
Proof.
  unfold disjoint_step. cbn zeta. rewrite in_grid_spec, negb_involutive.
  replace (y * w st + x + adj_dy a * w st + adj_dx a)
    with ((y + adj_dy a) * w st + (x + adj_dx a)) by ring.
  reflexivity.
Qed.

Lemma disjoint_opts_spec (n2 i2 v : Z) (l : list Z) :
  forall acc idx,
    bget (snd (fold_left (disjoint_opt n2 i2 v) l acc)) idx
    = bget (snd acc) idx
      && negb (existsb (fun opt => (i2 * n2 + opt =? idx) && comparable v opt) l).
Proof.
  induction l as [|opt l IH]; intros acc idx; cbn [fold_left existsb].
  - now rewrite andb_true_r.
  - rewrite IH. unfold disjoint_opt.
    destruct (bget (snd acc) (i2 * n2 + opt)) eqn:Eb; cbn [negb].
    + destruct (comparable v opt) eqn:Ec; cbn [negb snd].
      * destruct (Z.eqb_spec (i2 * n2 + opt) idx) as [<- | Hne]; cbn [andb orb].
        -- rewrite bget_bset_false_same, Eb. reflexivity.
        -- now rewrite aget_aset_neq by assumption.
      * now rewrite andb_false_r.
    + destruct (Z.eqb_spec (i2 * n2 + opt) idx) as [<- | Hne]; cbn [andb orb].
      * rewrite Eb. reflexivity.
      * reflexivity.
Qed.

Lemma disjoint_opts_row (n2 i2 v c : Z) (acc : Z * list bool) :
  0 <= c < n2 ->
  bget (snd (fold_left (disjoint_opt n2 i2 v) (zrange n2) acc)) (i2 * n2 + c)
  = bget (snd acc) (i2 * n2 + c) && negb (comparable v c).
Proof.
  intros Hc. rewrite disjoint_opts_spec. f_equal. f_equal.
  apply eq_true_iff_eq. rewrite existsb_exists. split.
  - intros (opt & _ & H). apply andb_true_iff in H as [E H].
    apply Z.eqb_eq in E. now replace c with opt by lia.
  - intros H. exists c. rewrite in_zrange, Z.eqb_refl. auto.
Qed.

Lemma disjoint_opts_other (n2 i2 v idx : Z) (acc : Z * list bool) :
  (forall c, 0 <= c < n2 -> idx <> i2 * n2 + c) ->
  bget (snd (fold_left (disjoint_opt n2 i2 v) (zrange n2) acc)) idx
  = bget (snd acc) idx.
Proof.
  intros Hother. rewrite disjoint_opts_spec.
  replace (existsb _ _) with false; [now rewrite andb_true_r |].
  symmetry. apply not_true_iff_false. rewrite existsb_exists.
  intros (opt & Hin & H). apply in_zrange in Hin.
  apply andb_true_iff in H as [E _]. apply Z.eqb_eq in E.
  now apply (Hother opt Hin).
Qed.

Lemma disjoint_step_mono (st : game_state) (x y : Z) (acc : Z * list bool)
    (a : adj) (idx : Z) :
  bget (snd (disjoint_step st x y acc a)) idx = true ->
  bget (snd acc) idx = true.
Proof.
  rewrite disjoint_step_unfold. cbn zeta.
  repeat match goal with
         | |- context [if ?b then _ else _] => destruct b; auto
         end.
  - cbn [snd]. intros H. now apply bget_bset_false_mono, bget_bset_false_mono in H.
  - rewrite disjoint_opts_spec. intros H. now apply andb_true_iff in H.
Qed.

Lemma subsets_disjoint_mono (st : game_state) (cube : list bool) (idx : Z) :
  bget (snd (subsets_disjoint st cube)) idx = true -> bget cube idx = true.
Proof.
  unfold subsets_disjoint.
  apply (for_grid_inv
           (fun acc => bget (snd acc) idx = true -> bget cube idx = true));
    [auto |].
  intros x y s a _ _ _ IH H. apply IH. now apply disjoint_step_mono in H.
Qed.

(** C5.  For an adjacent pair with no arrow in either direction:
    an unresolved endpoint loses the candidates 0 and ALL_BITS(N); and
    when the cell [(x, y)] is resolved with value [v] and its neighbour is
    not, [subsets_disjoint] leaves no candidate comparable to [v] in the
    neighbour's cube row, the step of the pair clearing exactly the
    comparable candidates of that row and nothing else in the cube.  The
    rule never restores a candidate.  For [v = 0b1100] the comparable
    candidates are 0b0000, 0b0100, 0b1000, 0b1100, 0b1101, 0b1110, 0b1111. *)
Theorem subsets_disjoint_eliminates :
  forall (st : game_state) (cube : list bool) (x y : Z) (a : adj),
    0 <= x < w st -> 0 <= y < h st -> In a adjthan ->
    in_grid st (x + adj_dx a) (y + adj_dy a) = true ->
    let n2 := Z.shiftl 1 (n st) in
    let i := y * w st + x in
    let j := (y + adj_dy a) * w st + (x + adj_dx a) in
    has (get (clues st) i) (adj_f a) = false ->
    has (get (clues st) j) (adj_fo a) = false ->
    let cube' := snd (subsets_disjoint st cube) in
    (resolved st i = false ->
       bget cube' (i * n2) = false /\ bget cube' (i * n2 + (n2 - 1)) = false)
    /\ (resolved st i = true -> resolved st j = false ->
        (forall c, 0 <= c < n2 -> comparable (get (known st) i) c = true ->
                   bget cube' (j * n2 + c) = false)
        /\ (forall k cube0 c, 0 <= c < n2 ->
              bget (snd (disjoint_step st x y (k, cube0) a)) (j * n2 + c)
              = bget cube0 (j * n2 + c) && negb (comparable (get (known st) i) c))
        /\ (forall k cube0 idx,
              (forall c, 0 <= c < n2 -> idx <> j * n2 + c) ->
              bget (snd (disjoint_step st x y (k, cube0) a)) idx
              = bget cube0 idx))
    /\ (forall idx, bget cube' idx = true -> bget cube idx = true)
    /\ filter (comparable 12) (zrange 16) = [0; 4; 8; 12; 13; 14; 15].
Proof.
  intros st cube x y a Hx Hy Ha Hg n2 i j Hci Hcj cube'.
  assert (Hstep : forall acc,
            disjoint_step st x y acc a
            = if negb (resolved st i) then
                if bget (snd acc) (i * n2) || bget (snd acc) (i * n2 + (n2 - 1))
                then (fst acc + 1,
                      bset (bset (snd acc) (i * n2) false)
                           (i * n2 + (n2 - 1)) false)
                else acc
              else if negb (resolved st j) then
                fold_left (disjoint_opt n2 j (get (known st) i)) (zrange n2) acc
              else acc).
  { intros acc. rewrite disjoint_step_unfold. cbn zeta.
    fold i j n2. now rewrite Hci, Hg, Hcj. }
  assert (Hkeep : forall idx x' y' s a',
            bget (snd s) idx = false ->
            bget (snd (disjoint_step st x' y' s a')) idx = false).
  { intros idx x' y' s a' H. apply not_true_iff_false. intros T.
    apply disjoint_step_mono in T. congruence. }
  split; [| split; [| split]].
  - intros Hri. subst cube'. unfold subsets_disjoint.
    apply (for_grid_establish
             (fun acc => bget (snd acc) (i * n2) = false
                         /\ bget (snd acc) (i * n2 + (n2 - 1)) = false)
             (w st) (h st) (disjoint_step st) x y a); [assumption .. | |].
    + intros s. rewrite Hstep, Hri. cbn [negb].
      destruct (bget (snd s) (i * n2)) eqn:E1;
        destruct (bget (snd s) (i * n2 + (n2 - 1))) eqn:E2; cbn [orb snd]; auto.
      * split; [| apply bget_bset_false_same].
        apply not_true_iff_false. intros T.
        apply bget_bset_false_mono in T. now rewrite bget_bset_false_same in T.
      * split; [| apply bget_bset_false_same].
        apply not_true_iff_false. intros T.
        apply bget_bset_false_mono in T. now rewrite bget_bset_false_same in T.
      * split; [| apply bget_bset_false_same].
        apply not_true_iff_false. intros T.
        apply bget_bset_false_mono in T. now rewrite bget_bset_false_same in T.
    + intros x' y' s a' [H1 H2]. split; now apply Hkeep.
  - intros Hri Hrj.
    assert (Hpair : forall acc,
              disjoint_step st x y acc a
              = fold_left (disjoint_opt n2 j (get (known st) i)) (zrange n2) acc).
    { intros acc. now rewrite Hstep, Hri, Hrj. }
    split; [| split].
    + intros c Hc Hcmp. subst cube'. unfold subsets_disjoint.
      apply (for_grid_establish
               (fun acc => bget (snd acc) (j * n2 + c) = false)
               (w st) (h st) (disjoint_step st) x y a); [assumption .. | |].
      * intros s. rewrite Hpair, disjoint_opts_row by assumption.
        rewrite Hcmp. apply andb_false_r.
      * intros x' y' s a'. apply Hkeep.
    + intros k cube0 c Hc. rewrite Hpair. now apply disjoint_opts_row.
    + intros k cube0 idx Hother. rewrite Hpair. now apply disjoint_opts_other.
  - intros idx. apply subsets_disjoint_mono.
  - reflexivity.
Qed.

Lemma subsets_disjoint_eliminates_witness :
  let cube' := snd (subsets_disjoint board_T3 (repeat true 256)) in
  map (fun c => bget cube' (16 + c)) (zrange 16)
  = [false; true; true; true; false; true; true; true;
     false; true; true; true; false; false; false; false]
  /\ forall c, 0 <= c < 16 -> comparable 12 c = true ->
               bget cube' (16 + c) = false.
Proof.
  split; [vm_compute; reflexivity |].
  destruct (subsets_disjoint_eliminates board_T3 (repeat true 256) 0 0
              (mkAdj F_ADJ_RIGHT F_ADJ_LEFT 1 0 ">" "R"))
    as (_ & Hpair & _);
    [ simpl; lia | simpl; lia | simpl; tauto | reflexivity | reflexivity
    | reflexivity | ].
  destruct (Hpair eq_refl eq_refl) as (Hall & _).
  exact Hall.
Defined.

(** ** The bound rules only tighten *)

Lemma same_frame_refl (st : game_state) : same_frame st st.
Proof. unfold same_frame. tauto. Qed.

Lemma same_frame_trans (a b c : game_state) :
  same_frame a b -> same_frame b c -> same_frame a c.
Proof. unfold same_frame. intuition congruence. Qed.

Lemma tightens_refl (st : game_state) : tightens st st.
Proof. split; [apply same_frame_refl | intros; split; apply subset_refl]. Qed.

Lemma tightens_trans (a b c : game_state) :
  tightens a b -> tightens b c -> tightens a c.
Proof.
  intros [F1 H1] [F2 H2]. split; [eapply same_frame_trans; eauto |].
  intros i. destruct (H1 i), (H2 i). split; eapply subset_trans; eauto.
Qed.

Lemma same_bounds_refl (st : game_state) : same_bounds st st.
Proof. intros i. auto. Qed.

Lemma same_bounds_trans (a b c : game_state) :
  same_bounds a b -> same_bounds b c -> same_bounds a c.
Proof. intros H1 H2 i. destruct (H1 i), (H2 i). split; congruence. Qed.

(** A difference made after tightening is a difference from the start. *)
Lemma bounds_differ_later (a b c : game_state) :
  tightens a b -> tightens b c -> bounds_differ b c -> bounds_differ a c.
Proof.
  intros [_ H1] [_ H2] [i Hd]. exists i.
  destruct (H1 i) as [K1 M1], (H2 i) as [K2 M2].
  destruct Hd as [Hd | Hd]; [left | right]; intros E; apply Hd.
  - rewrite E in K2 |- *. now apply subset_antisym.
  - rewrite E in M2 |- *. now apply subset_antisym.
Qed.

Lemma or_known_tightens (st : game_state) (i v : Z) :
  tightens st (or_known st i v).
Proof.
  split.
  - unfold same_frame, or_known. cbn. rewrite zlen_aset. tauto.
  - intros j. unfold or_known. cbn [known mask set_known]. split;
      [| apply subset_refl].
    destruct (aget_aset_cases 0 (known st) i j (Z.lor (get (known st) i) v))
      as [(-> & _ & E) | (_ & E)]; rewrite E;
      [apply subset_lor_l | apply subset_refl].
Qed.

Lemma and_mask_tightens (st : game_state) (i v : Z) :
  tightens st (and_mask st i v).
Proof.
  split.
  - unfold same_frame, and_mask. cbn. rewrite zlen_aset. tauto.
  - intros j. unfold and_mask. cbn [known mask set_mask]. split;
      [apply subset_refl |].
    destruct (aget_aset_cases 0 (mask st) i j (Z.land (get (mask st) i) v))
      as [(-> & _ & E) | (_ & E)]; rewrite E;
      [apply subset_land_l | apply subset_refl].
Qed.

(** What a write that reports [changed = 0] has left, and what one that
    reports 1 has done. *)
Lemma or_known_changed (st : game_state) (i v : Z) :
  (changed (get (known st) i) (get (known (or_known st i v)) i) = 0
   /\ same_bounds st (or_known st i v))
  \/ (changed (get (known st) i) (get (known (or_known st i v)) i) = 1
      /\ bounds_differ st (or_known st i v)).
Proof.
  unfold changed.
  destruct (Z.eqb_spec (get (known st) i) (get (known (or_known st i v)) i))
    as [E | E]; cbn [negb]; [left | right]; (split; [reflexivity |]).
  - intros j. unfold or_known in *. cbn [known mask set_known] in *.
    split; [| reflexivity].
    destruct (Z.eq_dec i j) as [<- | Hne]; [congruence |].
    now apply aget_aset_neq.
  - exists i. left. congruence.
Qed.

Lemma and_mask_changed (st : game_state) (i v : Z) :
  (changed (get (mask st) i) (get (mask (and_mask st i v)) i) = 0
   /\ same_bounds st (and_mask st i v))
  \/ (changed (get (mask st) i) (get (mask (and_mask st i v)) i) = 1
      /\ bounds_differ st (and_mask st i v)).
Proof.
  unfold changed.
  destruct (Z.eqb_spec (get (mask st) i) (get (mask (and_mask st i v)) i))
    as [E | E]; cbn [negb]; [left | right]; (split; [reflexivity |]).
  - intros j. unfold and_mask in *. cbn [known mask set_mask] in *.
    split; [reflexivity |].
    destruct (Z.eq_dec i j) as [<- | Hne]; [congruence |].
    now apply aget_aset_neq.
  - exists i. right. congruence.
Qed.

Lemma step_effect_refl (acc : Z * game_state) : step_effect acc acc.
Proof.
  split; [apply tightens_refl |]. left. split; [reflexivity |].
  apply same_bounds_refl.
Qed.

Lemma bounds_differ_same_l (a b c : game_state) :
  same_bounds a b -> bounds_differ b c -> bounds_differ a c.
Proof.
  intros Hs [i Hd]. exists i. destruct (Hs i) as [<- <-]. exact Hd.
Qed.

Lemma bounds_differ_same_r (a b c : game_state) :
  bounds_differ a b -> same_bounds b c -> bounds_differ a c.
Proof.
  intros [i Hd] Hs. exists i. destruct (Hs i) as [-> ->]. exact Hd.
Qed.

Lemma step_effect_trans (a b c : Z * game_state) :
  step_effect a b -> step_effect b c -> step_effect a c.
Proof.
  intros [T1 H1] [T2 H2]. split; [eapply tightens_trans; eauto |].
  destruct H1 as [[E1 S1] | [L1 D1]], H2 as [[E2 S2] | [L2 D2]].
  - left. split; [congruence | eapply same_bounds_trans; eauto].
  - right. split; [lia | eapply bounds_differ_same_l; eauto].
  - right. split; [lia | eapply bounds_differ_same_r; eauto].
  - right. split; [lia | eapply bounds_differ_later; eauto].
Qed.

Lemma rule_effect_start (st : game_state) : rule_effect st (0, st).
Proof.
  repeat split; cbn; try lia; try apply same_frame_refl;
    try apply subset_refl; auto.
Qed.

Lemma rule_effect_step (st0 : game_state) (acc acc' : Z * game_state) :
  rule_effect st0 acc -> step_effect acc acc' -> rule_effect st0 acc'.
Proof.
  intros (T & Hpos & Hz & Hp) [T' H]. split; [eapply tightens_trans; eauto |].
  destruct H as [[E S] | [L D]].
  - rewrite E. split; [assumption |]. split.
    + intros H0. eapply same_bounds_trans; eauto.
    + intros H0. eapply bounds_differ_same_r; eauto.
  - split; [lia |]. split; [intros; lia |]. intros _.
    destruct (Z.eq_dec (fst acc) 0) as [E0 | Hne].
    + eapply bounds_differ_same_l; eauto.
    + eapply bounds_differ_later; eauto.
Qed.

Lemma or_known_step (ret : Z) (st : game_state) (i v : Z) :
  step_effect (ret, st)
    (ret + changed (get (known st) i) (get (known (or_known st i v)) i),
     or_known st i v).
Proof.
  split; [apply or_known_tightens |]. cbn [fst snd].
  destruct (or_known_changed st i v) as [[-> S] | [-> D]];
    [left | right]; split; auto; lia.
Qed.

Lemma and_mask_step (ret : Z) (st : game_state) (i v : Z) :
  step_effect (ret, st)
    (ret + changed (get (mask st) i) (get (mask (and_mask st i v)) i),
     and_mask st i v).
Proof.
  split; [apply and_mask_tightens |]. cbn [fst snd].
  destruct (and_mask_changed st i v) as [[-> S] | [-> D]];
    [left | right]; split; auto; lia.
Qed.

Lemma apply_arrows_step_eq (x y : Z) (ret : Z) (st : game_state) (a : adj) :
  apply_arrows_step x y (ret, st) a
  = let i1 := y * w st + x in
    let i2 := i1 + adj_dy a * w st + adj_dx a in
    if negb (has (get (clues st) i1) (adj_f a)) then (ret, st) else
    let st1 := or_known st i1 (get (known st) i2) in
    let st2 := and_mask st1 i2 (get (mask st1) i1) in
    (ret + changed (get (known st) i1) (get (known st1) i1)
         + changed (get (mask st1) i2) (get (mask st2) i2), st2).
Proof.
  unfold apply_arrows_step, changed, or_known, and_mask. cbn zeta.
  destruct (has _ _); cbn [negb]; [| reflexivity]. cbn.
  repeat match goal with
         | |- context [if ?b then _ else _] => destruct b
         end; f_equal; lia.
Qed.

Lemma apply_arrows_step_effect (x y : Z) (acc : Z * game_state) (a : adj) :
  step_effect acc (apply_arrows_step x y acc a).
Proof.
  destruct acc as [ret st]. rewrite apply_arrows_step_eq. cbn zeta.
  destruct (has _ _); cbn [negb]; [| apply step_effect_refl].
  eapply step_effect_trans; [apply or_known_step | apply and_mask_step].
Qed.

Lemma subsets_solve_apply_arrows_effect (st : game_state) :
  rule_effect st (subsets_solve_apply_arrows st).
Proof.
  unfold subsets_solve_apply_arrows.
  apply for_grid_inv; [apply rule_effect_start |].
  intros x y s a _ _ _ H. eapply rule_effect_step; [exact H |].
  apply apply_arrows_step_effect.
Qed.

Lemma bits_from_cube_step_eq (cube : list bool) (ret : Z) (st : game_state)
    (i : Z) :
  bits_from_cube_step cube (ret, st) i
  = let nb := cube_bounds cube (Z.shiftl 1 (n st)) i in
    let st1 := or_known st i (to_uint (snd nb)) in
    let st2 := and_mask st1 i (to_uint (fst nb)) in
    (ret + changed (get (known st) i) (get (known st1) i)
         + changed (get (mask st1) i) (get (mask st2) i), st2).
Proof.
  unfold bits_from_cube_step, changed, or_known, and_mask. cbn zeta.
  destruct (cube_bounds cube (Z.shiftl 1 (n st)) i) as [nm nk]. cbn.
  repeat match goal with
         | |- context [if ?b then _ else _] => destruct b
         end; f_equal; lia.
Qed.

Lemma bits_from_cube_step_effect (cube : list bool) (acc : Z * game_state)
    (i : Z) :
  step_effect acc (bits_from_cube_step cube acc i).
Proof.
  destruct acc as [ret st]. rewrite bits_from_cube_step_eq. cbn zeta.
  eapply step_effect_trans; [apply or_known_step | apply and_mask_step].
Qed.

Lemma subsets_bits_from_cube_effect (st : game_state) (cube : list bool) :
  rule_effect st (subsets_bits_from_cube st cube).
Proof.
  unfold subsets_bits_from_cube.
  apply fold_left_inv; [apply rule_effect_start |].
  intros s i _ H. eapply rule_effect_step; [exact H |].
  apply bits_from_cube_step_effect.
Qed.

(** ** The cube rules only clear candidates *)

Lemma cube_shrinks_refl (c : list bool) : cube_shrinks c c.
Proof. split; auto. Qed.

Lemma cube_shrinks_trans (a b c : list bool) :
  cube_shrinks a b -> cube_shrinks b c -> cube_shrinks a c.
Proof. intros [L1 H1] [L2 H2]. split; [congruence | auto]. Qed.

Lemma bset_false_shrinks (c : list bool) (i : Z) :
  cube_shrinks c (bset c i false).
Proof. split; [apply zlen_aset | intros idx; apply bget_bset_false_mono]. Qed.

Lemma cube_cleared_later (a b c : list bool) :
  cube_shrinks a b -> cube_shrinks b c -> cube_cleared b c -> cube_cleared a c.
Proof. intros [_ H1] _ (idx & Hb & Hc). exists idx. auto. Qed.

Lemma cube_cleared_earlier (a b c : list bool) :
  cube_cleared a b -> cube_shrinks b c -> cube_cleared a c.
Proof.
  intros (idx & Ha & Hb) [_ H]. exists idx. split; [assumption |].
  apply not_true_iff_false. intros T. apply H in T. congruence.
Qed.

Lemma cube_effect_start (cube : list bool) : cube_effect cube (0, cube).
Proof. split; [apply cube_shrinks_refl |]. cbn. split; lia. Qed.

Lemma cube_effect_step (cube0 : list bool) (acc acc' : Z * list bool) :
  cube_effect cube0 acc -> cube_step_effect acc acc' -> cube_effect cube0 acc'.
Proof.
  intros (S & Hpos & Hp) [S' H].
  destruct H as [-> | [L C]]; [repeat split; auto; apply S |].
  split; [eapply cube_shrinks_trans; eauto |]. split; [lia |].
  intros _. eapply cube_cleared_later; eauto.
Qed.

Lemma cube_step_effect_refl (acc : Z * list bool) : cube_step_effect acc acc.
Proof. split; [apply cube_shrinks_refl | now left]. Qed.

Lemma cube_step_effect_trans (a b c : Z * list bool) :
  cube_step_effect a b -> cube_step_effect b c -> cube_step_effect a c.
Proof.
  intros [S1 H1] [S2 H2]. split; [eapply cube_shrinks_trans; eauto |].
  destruct H1 as [-> | [L1 C1]]; [exact H2 |].
  destruct H2 as [-> | [L2 C2]]; [right; auto |].
  right. split; [lia |]. eapply cube_cleared_earlier; eauto.
Qed.

(** Clearing a candidate that is there. *)
Lemma clear_step (k : Z) (c : list bool) (idx : Z) :
  bget c idx = true ->
  cube_step_effect (k, c) (k + 1, bset c idx false).
Proof.
  intros H. split; [apply bset_false_shrinks |]. right. cbn [fst snd].
  split; [lia |]. exists idx. split; [assumption | apply bget_bset_false_same].
Qed.

Lemma cube_fold_step_effect {B : Type} (f : Z * list bool -> B -> Z * list bool)
    (l : list B) :
  (forall acc b, cube_step_effect acc (f acc b)) ->
  forall acc, cube_step_effect acc (fold_left f l acc).
Proof.
  intros Hf. induction l as [|b l IH]; intros acc; cbn [fold_left].
  - apply cube_step_effect_refl.
  - eapply cube_step_effect_trans; [apply Hf | apply IH].
Qed.

Lemma disjoint_opt_effect (n2 i2 v : Z) (acc : Z * list bool) (opt : Z) :
  cube_step_effect acc (disjoint_opt n2 i2 v acc opt).
Proof.
  unfold disjoint_opt.
  destruct (bget (snd acc) (i2 * n2 + opt)) eqn:E; cbn [negb];
    [| apply cube_step_effect_refl].
  destruct (comparable v opt); cbn [negb]; [| apply cube_step_effect_refl].
  destruct acc as [k c]. now apply clear_step.
Qed.

Lemma disjoint_step_effect (st : game_state) (x y : Z) (acc : Z * list bool)
    (a : adj) :
  cube_step_effect acc (disjoint_step st x y acc a).
Proof.
  rewrite disjoint_step_unfold. cbn zeta.
  repeat match goal with
         | |- context [if ?b then _ else _] =>
             destruct b eqn:?; try apply cube_step_effect_refl
         end.
  - destruct acc as [k c]. cbn [fst snd] in *.
    split; [eapply cube_shrinks_trans; apply bset_false_shrinks |].
    right. cbn [fst snd]. split; [lia |].
    match goal with
    | Hor : _ || _ = true |- _ => apply orb_true_iff in Hor; destruct Hor as [Hl | Hr]
    end.
    + eexists. split; [exact Hl |]. apply not_true_iff_false. intros T.
      apply bget_bset_false_mono in T. now rewrite bget_bset_false_same in T.
    + eexists. split; [exact Hr |]. apply bget_bset_false_same.
  - apply cube_fold_step_effect. intros; apply disjoint_opt_effect.
Qed.

Lemma for_grid_cube_effect (wd ht : Z)
    (body : Z -> Z -> Z * list bool -> adj -> Z * list bool) (cube : list bool) :
  (forall x y acc a, cube_step_effect acc (body x y acc a)) ->
  cube_effect cube (for_grid wd ht body (0, cube)).
Proof.
  intros H. apply for_grid_inv; [apply cube_effect_start |].
  intros x y s a _ _ _ Hs. eapply cube_effect_step; eauto.
Qed.

Lemma subsets_disjoint_effect (st : game_state) (cube : list bool) :
  cube_effect cube (subsets_disjoint st cube).
Proof.
  apply for_grid_cube_effect. intros. apply disjoint_step_effect.
Qed.

Lemma arrows_advanced_step_effect (st : game_state) (x y : Z)
    (acc : Z * list bool) (a : adj) :
  cube_step_effect acc (arrows_advanced_step st x y acc a).
Proof.
  unfold arrows_advanced_step.
  destruct (has _ _); cbn [negb]; [| apply cube_step_effect_refl].
  apply cube_fold_step_effect. intros [k c] super.
  destruct (bget c _) eqn:E; cbn [negb]; [| apply cube_step_effect_refl].
  destruct (sub_witness _ _ _ _); cbn [negb]; [apply cube_step_effect_refl |].
  now apply clear_step.
Qed.

Lemma subsets_solve_apply_arrows_advanced_effect (st : game_state)
    (cube : list bool) :
  cube_effect cube (subsets_solve_apply_arrows_advanced st cube).
Proof.
  apply for_grid_cube_effect. intros. apply arrows_advanced_step_effect.
Qed.

Lemma sync_cell_shrinks (st : game_state) (n2 : Z) (cube : list bool) (i nj : Z) :
  cube_shrinks cube (sync_cell st n2 cube i nj).
Proof.
  unfold sync_cell.
  repeat match goal with
         | |- context [if ?b then _ else _] => destruct b
         end;
    try apply cube_shrinks_refl; try apply bset_false_shrinks.
  eapply cube_shrinks_trans; apply bset_false_shrinks.
Qed.

Lemma subsets_sync_cube_shrinks (st : game_state) (cube : list bool) :
  cube_shrinks cube (subsets_sync_cube st cube).
Proof.
  unfold subsets_sync_cube.
  apply fold_left_inv; [apply cube_shrinks_refl |]. intros c i _ Hc.
  apply fold_left_inv; [assumption |]. intros c' nj _ Hc'.
  eapply cube_shrinks_trans; [exact Hc' | apply sync_cell_shrinks].
Qed.

Lemma subsets_cube_single_count_shrinks (st : game_state) (counts : list Z)
    (cube : list bool) :
  cube_shrinks cube (subsets_cube_single_count st counts cube).
Proof.
  unfold subsets_cube_single_count.
  apply fold_left_inv; [apply cube_shrinks_refl |]. intros c ni _ Hc.
  destruct (negb _); [assumption |].
  apply fold_left_inv; [assumption |]. intros c' j _ Hc'.
  eapply cube_shrinks_trans; [exact Hc' |]. unfold single_count_cell.
  repeat match goal with
         | |- context [if ?b then _ else _] => destruct b
         end;
    try apply cube_shrinks_refl; apply bset_false_shrinks.
Qed.

(** ** The cube after rule S0 *)

Lemma sync_cell_fits (st : game_state) (n2 : Z) (cube : list bool) (i nj : Z) :
  bget (sync_cell st n2 cube i nj) (i * n2 + nj) = true ->
  subset (get (known st) i) nj /\ subset nj (get (mask st) i).
Proof.
  unfold sync_cell, subset.
  destruct (bget cube (i * n2 + nj)) eqn:E; cbn [negb]; [| congruence].
  destruct (Z.eqb_spec (Z.land (get (mask st) i) nj) nj) as [E1 | E1];
    destruct (Z.eqb_spec (Z.land (get (known st) i) nj) (get (known st) i))
      as [E2 | E2]; cbn [negb]; rewrite ?bget_bset_false_same; try discriminate.
  intros _. split; [assumption |]. now rewrite Z.land_comm.
Qed.

Lemma subsets_sync_cube_synced (st : game_state) (cube : list bool) :
  cube_synced st (subsets_sync_cube st cube).
Proof.
  intros i nj Hi Hnj. unfold subsets_sync_cube.
  set (n2 := Z.shiftl 1 (n st)) in *.
  set (Q := fun c : list bool =>
              bget c (i * n2 + nj) = true ->
              subset (get (known st) i) nj /\ subset nj (get (mask st) i)).
  assert (Hkeep : forall c i' nj', Q c -> Q (sync_cell st n2 c i' nj')).
  { intros c i' nj' Hc H. apply Hc.
    now apply (proj2 (sync_cell_shrinks st n2 c i' nj')). }
  assert (Hrow : forall c i' l,
            Q c -> Q (fold_left (fun c nj' => sync_cell st n2 c i' nj') l c)).
  { intros c i' l Hc. apply fold_left_inv; [assumption |].
    intros; now apply Hkeep. }
  apply (fold_left_establish Q
           (fun c i' => fold_left (fun c nj' => sync_cell st n2 c i' nj')
                                  (zrange n2) c) (zrange (w st * h st)) i).
  - now apply in_zrange.
  - intros c. apply (fold_left_establish Q
                       (fun c nj' => sync_cell st n2 c i nj') (zrange n2) nj).
    + now apply in_zrange.
    + intros c'. unfold Q. apply sync_cell_fits.
    + intros; now apply Hkeep.
  - intros; now apply Hrow.
Qed.

Lemma cube_synced_shrinks (st : game_state) (c c' : list bool) :
  cube_synced st c -> cube_shrinks c c' -> cube_synced st c'.
Proof. intros H [_ S] i nj Hi Hnj Hb. apply H; auto. Qed.

Lemma cube_synced_same (st st' : game_state) (c : list bool) :
  cube_synced st c -> same_frame st st' -> same_bounds st st' ->
  cube_synced st' c.
Proof.
  intros H (Ew & Eh & En & _) S i nj Hi Hnj Hb.
  rewrite Ew, Eh in Hi. rewrite En in Hnj, Hb.
  destruct (S i) as [-> ->]. now apply H.
Qed.

(** ** The unique-location rule *)

Lemma find_single_spec (cube : list bool) (n2 nj : Z) (cells : list Z) :
  (forall i, In i cells -> 0 <= i) ->
  forall found,
    found = -2 \/ found = -1 \/ 0 <= found ->
    let r := find_single cube n2 nj cells found in
    r = -2
    \/ (r = found /\ forall i, In i cells -> bget cube (i * n2 + nj) = false)
    \/ (found = -1 /\ In r cells /\ bget cube (r * n2 + nj) = true
        /\ forall i, In i cells -> bget cube (i * n2 + nj) = true -> i = r).
Proof.
  induction cells as [|i rest IH]; intros Hnn found Hf; cbn zeta.
  - right; left. split; [reflexivity | intros ? []].
  - assert (Hi : 0 <= i) by (apply Hnn; now left).
    assert (Hrest : forall j, In j rest -> 0 <= j)
      by (intros; apply Hnn; now right).
    specialize (IH Hrest).
    cbn [find_single]. destruct (Z.eqb_spec found (-2)) as [-> | Hn2];
      [now left |].
    destruct (bget cube (i * n2 + nj)) eqn:Eb; cbn [negb].
    + destruct (Z.eqb_spec found (-1)) as [-> | Hn1].
      * destruct (IH i) as [H | [[H Hall] | [H _]]]; [lia | | |].
        -- now left.
        -- right; right. split; [reflexivity |]. rewrite H.
           split; [now left |]. split; [assumption |].
           intros j [<- | Hj] Hbj; [reflexivity |].
           rewrite Hall in Hbj by assumption. discriminate.
        -- lia.
      * left. destruct rest; reflexivity.
    + destruct (IH found Hf) as [H | [[H Hall] | (H & Hin & Hb & Hu)]].
      * now left.
      * right; left. split; [assumption |].
        intros j [<- | Hj]; auto.
      * right; right. split; [assumption |]. split; [now right |].
        split; [assumption |]. intros j [<- | Hj] Hbj; [congruence | auto].
Qed.

Lemma single_position_step_effect (st : game_state) (counts : list Z)
    (cube : list bool) (acc : Z * game_state) (nj : Z) :
  sized st -> 0 <= nj < Z.shiftl 1 (n st) ->
  placement_effect st counts cube acc ->
  placement_effect st counts cube (single_position_step counts cube acc nj).
Proof.
  intros [Lk Lm] Hnj H0. destruct acc as [ret st1].
  pose proof H0 as (F & Hpos & Hcells & Hz & Hp). cbn [fst snd] in *.
  pose proof F as (Ew & Eh & En & Ec & Ei & Eco & Ech & Elk & Elm).
  unfold single_position_step. rewrite Ew, Eh, En.
  destruct (Z.eqb_spec (get counts nj) 0) as [Ecnt | Ecnt]; cbn [negb];
    [| exact H0].
  set (found := find_single cube (Z.shiftl 1 (n st)) nj
                            (zrange (w st * h st)) (-1)).
  destruct (Z.ltb_spec found 0) as [Hneg | Hfound]; [exact H0 |].
  pose proof (find_single_spec cube (Z.shiftl 1 (n st)) nj
                (zrange (w st * h st))
                (fun i Hi => proj1 (proj1 (in_zrange _ _) Hi)) (-1)
                (or_intror (or_introl eq_refl))) as Hspec.
  cbn zeta in Hspec. fold found in Hspec.
  destruct Hspec as [Hr | [[Hr _] | (_ & Hin & Hb & Hu)]]; try lia.
  apply in_zrange in Hin.
  assert (Hplaced : placed st counts cube
            (set_mask (set_known st1 (set (known st1) found nj))
                      (set (mask st1) found nj)) found).
  { exists nj. cbn [known mask set_mask set_known].
    rewrite !aget_aset_eq by lia. repeat split; try lia; auto.
    intros i' Hi' Hb'. apply Hu; [now apply in_zrange | assumption]. }
  split.
  { unfold same_frame. cbn. rewrite !zlen_aset. tauto. }
  cbn [fst snd]. split; [lia |]. split; [| split; [intros; lia |]].
  - intros i. destruct (Z.eq_dec i found) as [-> | Hne]; [now right |].
    cbn [known mask set_mask set_known].
    destruct (Hcells i) as [[E1 E2] | (nj' & H1 & H2 & H3 & H4 & H5 & H6 & H7)].
    + left. rewrite !aget_aset_neq by congruence. auto.
    + right. exists nj'. cbn [known mask set_mask set_known].
      rewrite !aget_aset_neq by congruence. repeat split; auto; lia.
  - intros _. exists found. exact Hplaced.
Qed.

Lemma subsets_solve_single_position_effect (st : game_state) (counts : list Z)
    (cube : list bool) :
  sized st ->
  placement_effect st counts cube (subsets_solve_single_position st counts cube).
Proof.
  intros Hs. unfold subsets_solve_single_position.
  apply fold_left_inv.
  - split; [apply same_frame_refl |]. cbn. repeat split; try lia; auto.
  - intros s nj Hnj H. apply in_zrange in Hnj.
    now apply single_position_step_effect.
Qed.

Lemma placement_tightens (st : game_state) (counts : list Z) (cube : list bool)
    (r : Z * game_state) :
  cube_synced st cube -> placement_effect st counts cube r ->
  tightens st (snd r).
Proof.
  intros Hsync (F & _ & Hcells & _). split; [exact F |].
  intros i. destruct (Hcells i) as [[-> ->] | (nj & Hi & Hnj & Hb & _ & _ & -> & ->)].
  - split; apply subset_refl.
  - now apply Hsync.
Qed.

(** ** One round of the solver loop *)

Lemma solve_iteration_path (st : game_state) (cube : list bool) :
  iteration_path st cube (solve_iteration st cube).
Proof.
  unfold solve_iteration.
  destruct (status_eqb (fst (fst (subsets_validate st None (Some []))))
                       STATUS_UNFINISHED) eqn:E; cbn [negb].
  - apply status_eqb_eq in E. apply path_rule; [exact E |].
    destruct (subsets_solve_apply_arrows st) as [k1 st1]. cbn [fst snd].
    destruct (Z.eqb_spec k1 0) as [-> | H1]; cbn [negb]; [| now left].
    right.
    destruct (subsets_disjoint st1 _) as [k2 c2]. cbn [fst snd].
    destruct (Z.eqb_spec k2 0) as [-> | H2]; cbn [negb]; [| now left].
    right.
    destruct (subsets_bits_from_cube st1 c2) as [k3 st3]. cbn [fst snd].
    destruct (Z.eqb_spec k3 0) as [-> | H3]; cbn [negb]; [| now left].
    right.
    destruct (subsets_solve_single_position st3 _ c2) as [k4 st4]. cbn [fst snd].
    destruct (Z.eqb_spec k4 0) as [-> | H4]; cbn [negb]; [| now left].
    right.
    destruct (subsets_solve_apply_arrows_advanced st4 c2) as [k5 c5].
    cbn [fst snd].
    destruct (Z.eqb_spec k5 0) as [-> | H5]; cbn [negb]; [| now left].
    right. rewrite E. auto 10.
  - apply status_eqb_neq in E. now apply path_verdict.
Qed.

Lemma sized_frame (st st' : game_state) :
  sized st -> same_frame st st' -> sized st'.
Proof.
  intros [Lk Lm] (Ew & Eh & _ & _ & _ & _ & _ & Elk & Elm).
  unfold sized. rewrite Ew, Eh. split; congruence.
Qed.

(** The facts about one round that the results below draw on. *)
Lemma iteration_facts (st : game_state) (cube : list bool) :
  sized st ->
  let r := subsets_validate st None (Some []) in
  let counts := counts_of r in
  let cube0 := subsets_cube_single_count st counts (subsets_sync_cube st cube) in
  let a := subsets_solve_apply_arrows st in
  let d := subsets_disjoint (snd a) cube0 in
  let b := subsets_bits_from_cube (snd a) (snd d) in
  let p := subsets_solve_single_position (snd b) counts (snd d) in
  let v := subsets_solve_apply_arrows_advanced (snd p) (snd d) in
  (cube_shrinks cube cube0 /\ cube_synced st cube0)
  /\ rule_effect st a
  /\ cube_effect cube0 d
  /\ rule_effect (snd a) b
  /\ placement_effect (snd b) counts (snd d) p
  /\ (fst a = 0 -> fst b = 0 ->
      cube_synced (snd b) (snd d) /\ tightens (snd b) (snd p))
  /\ cube_effect (snd d) v.
Proof.
  intros Hs r counts cube0 a d b p v.
  assert (Hc0 : cube_shrinks cube cube0 /\ cube_synced st cube0).
  { split.
    - eapply cube_shrinks_trans; [apply subsets_sync_cube_shrinks |].
      apply subsets_cube_single_count_shrinks.
    - eapply cube_synced_shrinks; [apply subsets_sync_cube_synced |].
      apply subsets_cube_single_count_shrinks. }
  pose proof (subsets_solve_apply_arrows_effect st) as Ha. fold a in Ha.
  pose proof (subsets_disjoint_effect (snd a) cube0) as Hd. fold d in Hd.
  pose proof (subsets_bits_from_cube_effect (snd a) (snd d)) as Hb. fold b in Hb.
  assert (Hsb : sized (snd b)).
  { eapply sized_frame; [| apply Hb]. eapply sized_frame; [exact Hs | apply Ha]. }
  pose proof (subsets_solve_single_position_effect (snd b) counts (snd d) Hsb)
    as Hp. fold p in Hp.
  pose proof (subsets_solve_apply_arrows_advanced_effect (snd p) (snd d)) as Hv.
  fold v in Hv.
  split; [exact Hc0 |]. split; [exact Ha |]. split; [exact Hd |].
  split; [exact Hb |]. split; [exact Hp |]. split; [| exact Hv].
  intros Ea Eb.
  assert (Hsync : cube_synced (snd b) (snd d)).
  { destruct Ha as ([Fa _] & _ & Sa & _), Hb as ([Fb _] & _ & Sb & _).
    eapply cube_synced_same; [| exact Fb | now apply Sb].
    eapply cube_synced_same; [| exact Fa | now apply Sa].
    eapply cube_synced_shrinks; [apply Hc0 | apply Hd]. }
  split; [exact Hsync |]. eapply placement_tightens; eauto.
Qed.

Lemma solve_iteration_tightens (st : game_state) (cube : list bool) :
  sized st ->
  match solve_iteration st cube with
  | inl (st', cube') => tightens st st' /\ cube_shrinks cube cube'
  | inr (_, st') => tightens st st'
  end.
Proof.
  intros Hs.
  pose proof (iteration_facts st cube Hs)
    as ((Hc0 & _) & Ha & Hd & Hb & Hp & Hsp & Hv). cbn zeta in *.
  destruct (solve_iteration_path st cube) as [r Hr | r counts cube0 a d b p v res Hr Hres].
  - apply tightens_refl.
  - fold r counts cube0 a d b p v in Hc0, Ha, Hd, Hb, Hp, Hsp, Hv.
    assert (Tab : tightens st (snd b))
      by (eapply tightens_trans; [apply Ha | apply Hb]).
    destruct Hres as [(_ & ->) | [(_ & _ & ->) | [(_ & _ & _ & ->)
                     | [(Ea & _ & Eb & _ & ->) | [(Ea & _ & Eb & _ & _ & ->)
                     | (Ea & _ & Eb & _ & _ & ->)]]]]].
    + split; [apply Ha | exact Hc0].
    + split; [apply Ha |]. eapply cube_shrinks_trans; [exact Hc0 | apply Hd].
    + split; [exact Tab |]. eapply cube_shrinks_trans; [exact Hc0 | apply Hd].
    + split; [eapply tightens_trans; [exact Tab | now apply Hsp] |].
      eapply cube_shrinks_trans; [exact Hc0 | apply Hd].
    + split; [eapply tightens_trans; [exact Tab | now apply Hsp] |].
      eapply cube_shrinks_trans; [exact Hc0 |].
      eapply cube_shrinks_trans; [apply Hd | apply Hv].
    + eapply tightens_trans; [exact Tab | now apply Hsp].
Qed.

Lemma solve_loop_tightens (fuel : nat) :
  forall st cube r st',
    sized st -> solve_loop fuel st cube = Some (r, st') -> tightens st st'.
Proof.
  induction fuel as [|fuel IH]; intros st cube r st' Hs H; [discriminate |].
  cbn [solve_loop] in H.
  pose proof (solve_iteration_tightens st cube Hs) as T.
  destruct (solve_iteration st cube) as [[st1 cube1] | [r1 st1]].
  - destruct T as [T _]. eapply tightens_trans; [exact T |].
    eapply IH; [| exact H]. eapply sized_frame; [exact Hs | apply T].
  - injection H as <- <-. exact T.
Qed.

Lemma solve_reset_frame (st : game_state) : same_frame st (solve_reset st).
Proof.
  unfold solve_reset. apply fold_left_inv; [apply same_frame_refl |].
  intros s i _ F. destruct (negb _); [assumption |].
  eapply same_frame_trans; [exact F |].
  unfold same_frame. cbn. rewrite !zlen_aset. tauto.
Qed.

Lemma single_position_prefix_tightens (st : game_state) (counts : list Z)
    (cube : list bool) (l : list Z) :
  sized st -> cube_synced st cube ->
  (forall nj, In nj l -> 0 <= nj < Z.shiftl 1 (n st)) ->
  tightens st (snd (fold_left (single_position_step counts cube) l (0, st))).
Proof.
  intros Hs Hsync Hl. eapply placement_tightens; [exact Hsync |].
  apply fold_left_inv.
  - split; [apply same_frame_refl |]. cbn. repeat split; try lia; auto.
  - intros s nj Hnj H. now apply single_position_step_effect; auto.
Qed.

(** C2 (as amended).  On a board whose bound arrays have one entry per
    cell, a round of the solver loop only tightens the bounds, whether the
    loop goes round again or is left: every [known[i]] includes its old
    value and every [mask[i]] is included in its old value.  So does a
    pass of the unique-location rule whenever the cube has been
    synchronised with the bounds, as it is when the loop reaches that
    rule, and so does every initial part of the pass: after any number of
    candidates processed, the bounds lie within those the pass started
    from.  (Two assignments of one pass may still hit the same cell, the
    second undoing part of the first.)  And so does the whole loop of
    [subsets_solve_game], from the reset board on. *)
Theorem solver_bounds_monotone :
  forall (st : game_state) (cube : list bool),
    sized st ->
    (forall st' cube',
        solve_iteration st cube = inl (st', cube') -> tightens st st')
    /\ (forall r st',
          solve_iteration st cube = inr (r, st') -> tightens st st')
    /\ (forall counts cube0,
          cube_synced st cube0 ->
          tightens st (snd (subsets_solve_single_position st counts cube0))
          /\ forall k,
               tightens st
                 (snd (fold_left (single_position_step counts cube0)
                                 (zrange (Z.min k (Z.shiftl 1 (n st))))
                                 (0, st))))
    /\ (forall r st',
          subsets_solve_game st = Some (r, st') ->
          tightens (solve_reset st) st').
Proof.
  intros st cube Hs.
  pose proof (solve_iteration_tightens st cube Hs) as T.
  split; [| split; [| split]].
  - intros st' cube' E. rewrite E in T. apply T.
  - intros r st' E. rewrite E in T. exact T.
  - intros counts cube0 Hsync. split.
    + eapply placement_tightens; [exact Hsync |].
      now apply subsets_solve_single_position_effect.
    + intros k. apply single_position_prefix_tightens; auto.
      intros nj Hnj. apply in_zrange in Hnj. lia.
  - intros r st' E. unfold subsets_solve_game in E.
    eapply solve_loop_tightens; [| exact E].
    eapply sized_frame; [exact Hs | apply solve_reset_frame].
Qed.

Lemma solver_bounds_monotone_witness :
  (exists st' cube',
     solve_iteration (solve_reset board_T1_open5) (repeat true 256)
     = inl (st', cube')
     /\ tightens (solve_reset board_T1_open5) st')
  /\ (let st := solve_reset board_T1_open5 in
      let cube := subsets_sync_cube st (repeat true 256) in
      let counts := counts_of (subsets_validate st None (Some [])) in
      get (known st) 5 = 0
      /\ get (known (snd (subsets_solve_single_position st counts cube))) 5 = 5
      /\ tightens st (snd (subsets_solve_single_position st counts cube)))
  /\ exists r st',
       subsets_solve_game board_T1_open5 = Some (r, st')
       /\ tightens (solve_reset board_T1_open5) st'.
Proof.
  split; [| split].
  - destruct (solve_iteration (solve_reset board_T1_open5) (repeat true 256))
      as [[st' cube'] | [r st']] eqn:E; [| vm_compute in E; discriminate].
    exists st', cube'. split; [reflexivity |].
    destruct (solver_bounds_monotone (solve_reset board_T1_open5)
                (repeat true 256)) as (Hround & _);
      [vm_compute; split; reflexivity |].
    exact (Hround st' cube' E).
  - cbv zeta. split; [vm_compute; reflexivity |].
    split; [vm_compute; reflexivity |].
    destruct (solver_bounds_monotone (solve_reset board_T1_open5)
                (repeat true 256)) as (_ & _ & Hrule & _);
      [vm_compute; split; reflexivity |].
    destruct (Hrule (counts_of (subsets_validate (solve_reset board_T1_open5)
                                                 None (Some [])))
                    (subsets_sync_cube (solve_reset board_T1_open5)
                                       (repeat true 256))
                    (subsets_sync_cube_synced _ _)) as [H _].
    exact H.
  - destruct (subsets_solve_game board_T1_open5) as [[r st'] |] eqn:E;
      [| vm_compute in E; discriminate].
    exists r, st'. split; [reflexivity |].
    destruct (solver_bounds_monotone board_T1_open5 (repeat true 256))
      as (_ & _ & _ & Hloop); [vm_compute; split; reflexivity |].
    exact (Hloop r st' E).
Defined.

(** C2 as stated fails on a board that [load_game] accepts and on which
    cell 15 is the only place left for the value 3 and for the value 5.
    The fourth round of the solver reaches the unique-location rule with
    the bounds [(1, 7)] for that cell; the rule then assigns the cell
    twice in one pass, 3 at the candidate 3 and 5 at the candidate 5, and
    the second assignment drops bit 1, which the first had confirmed, and
    reinstates bit 2, which the first had ruled out.  [after k] is the
    board once the pass has dealt with the candidates below [k]. *)
Lemma unique_location_overrides :
  load_game default_params desc_two_claims = Some (inr board_two_claims)
  /\ wf_board board_two_claims
  /\ exists (st1 st2 st : game_state) (c1 c2 cube cube2 : list bool)
            (counts : list Z),
       solve_iteration (solve_reset board_two_claims) (repeat true 256)
       = inl (st1, c1)
       /\ solve_iteration st1 c1 = inl (st2, c2)
       /\ solve_iteration st2 c2 = inl (st, cube)
       /\ counts = counts_of (subsets_validate st None (Some []))
       /\ subsets_solve_apply_arrows st = (0, st)
       /\ subsets_disjoint st (subsets_cube_single_count st counts
                                 (subsets_sync_cube st cube))
          = (0, cube2)
       /\ subsets_bits_from_cube st cube2 = (0, st)
       /\ (let after k :=
             snd (fold_left (single_position_step counts cube2) (zrange k)
                            (0, st)) in
           (get (known (after 3)) 15 = 1 /\ get (mask (after 3)) 15 = 7)
           /\ (get (known (after 4)) 15 = 3 /\ get (mask (after 4)) 15 = 3)
           /\ (get (known (after 6)) 15 = 5 /\ get (mask (after 6)) 15 = 5)
           /\ Z.testbit (get (known (after 4)) 15) 1 = true
           /\ Z.testbit (get (known (after 6)) 15) 1 = false
           /\ Z.testbit (get (mask (after 4)) 15) 2 = false
           /\ Z.testbit (get (mask (after 6)) 15) 2 = true
           /\ ~ tightens (after 4) (after 6)
           /\ snd (subsets_solve_single_position st counts cube2) = after 16
           /\ solve_iteration st cube = inl (after 16, cube2)).
Proof.
  split; [vm_compute; reflexivity |]. split; [reflexivity |].
  do 8 eexists.
  split; [vm_compute; reflexivity |].
  split; [vm_compute; reflexivity |].
  split; [vm_compute; reflexivity |].
  split; [reflexivity |].
  split; [vm_compute; reflexivity |].
  split; [vm_compute; reflexivity |].
  split; [vm_compute; reflexivity |].
  cbv zeta.
  split; [split; vm_compute; reflexivity |].
  split; [split; vm_compute; reflexivity |].
  split; [split; vm_compute; reflexivity |].
  split; [vm_compute; reflexivity |].
  split; [vm_compute; reflexivity |].
  split; [vm_compute; reflexivity |].
  split; [vm_compute; reflexivity |].
  split.
  - intros [_ H]. destruct (H 15) as [H1 _]. vm_compute in H1. discriminate.
  - split; vm_compute; reflexivity.
Qed.

(** ** The verdict does not depend on the buffers once the validator runs
    to its end *)

Lemma validate_counts_status (st : game_state) (nf : bool) (cells : list Z) :
  forall counts ret,
    snd (validate_counts st nf cells counts ret) = STATUS_INVALID
    \/ snd (validate_counts st nf cells counts ret) = ret.
Proof.
  induction cells as [|i rest IH]; intros counts ret; cbn [validate_counts];
    [now right |].
  destruct (resolved st i); [| apply IH].
  destruct (1 <? _); cbn [status_eqb].
  - destruct nf; cbn [andb]; [now left |].
    left. apply validate_counts_sticky.
  - destruct (nf && status_eqb ret STATUS_INVALID); [now right | apply IH].
Qed.

Lemma validate_status_formula (st : game_state) (flags counts : option (list Z)) :
  is_none flags && is_none counts && negb (all_resolved st) = false ->
  status_of (subsets_validate st flags counts)
  = fst (validate_arrows st
           (snd (validate_counts st false (zrange (w st * h st))
                   (repeat 0 (Z.to_nat (w st * h st)))
                   (if all_resolved st then STATUS_COMPLETE
                    else STATUS_UNFINISHED)),
            Some [])).
Proof.
  intros Hrun. unfold subsets_validate, status_of.
  rewrite validate_unresolved_spec. fold (all_resolved st).
  rewrite negb_involutive.
  set (ret1 := if all_resolved st then STATUS_COMPLETE else STATUS_UNFINISHED).
  assert (E1 : (if all_resolved st then inr STATUS_COMPLETE
                else if is_none flags && is_none counts
                     then inl STATUS_UNFINISHED else inr STATUS_UNFINISHED)
               = (inr ret1 : status + status)).
  { subst ret1. destruct (all_resolved st); [reflexivity |].
    destruct (is_none flags && is_none counts); [discriminate | reflexivity]. }
  rewrite E1. clear E1.
  set (s := w st * h st).
  assert (Hcnt : forall nf,
            snd (validate_counts st nf (zrange s) (repeat 0 (Z.to_nat s)) ret1)
            = snd (validate_counts st false (zrange s)
                     (repeat 0 (Z.to_nat s)) ret1)).
  { intros [|]; [| reflexivity]. apply validate_counts_break. }
  assert (Harr : forall r o,
            fst (validate_arrows st (r, o))
            = fst (validate_arrows st (r, Some []))).
  { intros r [fl|].
    - now rewrite !validate_arrows_flags, !edge_step_status.
    - now rewrite (validate_arrows_no_flags st r []). }
  match goal with
  | |- context [validate_counts st ?nf ?c ?z ?r] =>
      specialize (Hcnt nf); destruct (validate_counts st nf c z r) as [cnt ret2]
  end.
  cbn [snd] in Hcnt. rewrite <- Hcnt.
  match goal with
  | |- context [validate_arrows st (ret2, ?o)] =>
      rewrite <- (Harr ret2 o); destruct (validate_arrows st (ret2, o))
  end.
  reflexivity.
Qed.

Lemma validate_complete_all_resolved (st : game_state)
    (flags counts : option (list Z)) :
  status_of (subsets_validate st flags counts) = STATUS_COMPLETE ->
  all_resolved st = true.
Proof.
  intros H. destruct (all_resolved st) eqn:E; [reflexivity |]. exfalso.
  destruct (is_none flags && is_none counts) eqn:B.
  - apply andb_true_iff in B as [Bf Bc].
    destruct flags; [discriminate |]. destruct counts; [discriminate |].
    rewrite (validate_early_return st E) in H. discriminate.
  - rewrite validate_status_formula in H by (now rewrite B).
    rewrite E, validate_arrows_flags, edge_step_status in H.
    destruct (existsb _ _); [discriminate |].
    destruct (validate_counts_status st false (zrange (w st * h st))
                (repeat 0 (Z.to_nat (w st * h st))) STATUS_UNFINISHED)
      as [E' | E']; rewrite E' in H; discriminate.
Qed.

Lemma validate_complete_any (st : game_state) (f c f' c' : option (list Z)) :
  status_of (subsets_validate st f c) = STATUS_COMPLETE ->
  status_of (subsets_validate st f' c') = STATUS_COMPLETE.
Proof.
  intros H. pose proof (validate_complete_all_resolved st f c H) as Hall.
  rewrite validate_status_formula in * by (rewrite Hall; apply andb_false_r).
  exact H.
Qed.

Lemma solve_loop_complete (fuel : nat) :
  forall st cube st',
    solve_loop fuel st cube = Some (STATUS_COMPLETE, st') ->
    status_of (subsets_validate st' None (Some [])) = STATUS_COMPLETE.
Proof.
  induction fuel as [|fuel IH]; intros st cube st' H; [discriminate |].
  cbn [solve_loop] in H.
  destruct (solve_iteration_path st cube)
    as [r Hr | r counts cube0 a d b p v res Hr Hres].
  - injection H as H <-. exact H.
  - destruct Hres as [(_ & ->) | [(_ & _ & ->) | [(_ & _ & _ & ->)
                     | [(_ & _ & _ & _ & ->) | [(_ & _ & _ & _ & _ & ->)
                     | (_ & _ & _ & _ & _ & ->)]]]]];
      try (eapply IH; exact H).
    discriminate.
Qed.

(** C6.  When [subsets_solve_game] returns STATUS_COMPLETE, the validator
    returns STATUS_COMPLETE on the board the solver leaves, whichever
    buffers it is called with. *)
Theorem solver_complete_validates :
  forall (st st' : game_state) (flags counts : option (list Z)),
    subsets_solve_game st = Some (STATUS_COMPLETE, st') ->
    status_of (subsets_validate st' flags counts) = STATUS_COMPLETE.
Proof.
  intros st st' flags counts H. unfold subsets_solve_game in H.
  apply solve_loop_complete in H.
  eapply validate_complete_any; exact H.
Qed.

Lemma solver_complete_validates_witness :
  exists st',
    subsets_solve_game board_T1_open5 = Some (STATUS_COMPLETE, st')
    /\ status_of (subsets_validate st' None None) = STATUS_COMPLETE.
Proof.
  destruct (subsets_solve_game board_T1_open5) as [[[] st'] |] eqn:E;
    try (vm_compute in E; discriminate).
  exists st'. split; [reflexivity |].
  exact (solver_complete_validates board_T1_open5 st' None None E).
Defined.

(** ** Counting bits and candidates *)

Lemma filter_length_mono {A : Type} (f g : A -> bool) (l : list A) :
  (forall x, In x l -> f x = true -> g x = true) ->
  (List.length (filter f l) <= List.length (filter g l))%nat.
Proof.
  induction l as [|a l IH]; intros H; cbn [filter]; [lia |].
  assert (IH' := IH (fun x Hx => H x (or_intror Hx))).
  destruct (f a) eqn:Ef.
  - rewrite (H a (or_introl eq_refl) Ef). cbn [List.length]. lia.
  - destruct (g a); cbn [List.length]; lia.
Qed.

Lemma filter_length_strict {A : Type} (f g : A -> bool) (l : list A) (x : A) :
  (forall y, In y l -> f y = true -> g y = true) ->
  In x l -> f x = false -> g x = true ->
  (List.length (filter f l) < List.length (filter g l))%nat.
Proof.
  induction l as [|a l IH]; intros H Hin Hf Hg; [destruct Hin |].
  cbn [filter].
  pose proof (filter_length_mono f g l (fun y Hy => H y (or_intror Hy))) as Hle.
  destruct Hin as [-> | Hin].
  - rewrite Hf, Hg. cbn [List.length]. lia.
  - assert (IH' := IH (fun y Hy => H y (or_intror Hy)) Hin Hf Hg).
    destruct (f a) eqn:Ef.
    + rewrite (H a (or_introl eq_refl) Ef). cbn [List.length]. lia.
    + destruct (g a); cbn [List.length]; lia.
Qed.

Lemma popcount_range (v : Z) : 0 <= popcount v <= 32.
Proof.
  unfold popcount, zlen.
  pose proof (List.filter_length_le (Z.testbit v) (zrange 32)) as H.
  rewrite zrange_length in H. lia.
Qed.

Lemma popcount_subset (a b : Z) : subset a b -> popcount a <= popcount b.
Proof.
  intros H. rewrite subset_spec in H. unfold popcount, zlen.
  apply inj_le, filter_length_mono. intros k Hk. apply in_zrange in Hk.
  apply H. lia.
Qed.

Lemma uint_differ_bit (a b : Z) :
  0 <= a < 2 ^ 32 -> 0 <= b < 2 ^ 32 -> a <> b ->
  exists k, 0 <= k < 32 /\ Z.testbit a k <> Z.testbit b k.
Proof.
  intros Ha Hb Hne.
  destruct (forallb (fun k => Bool.eqb (Z.testbit a k) (Z.testbit b k))
                    (zrange 32)) eqn:E.
  - exfalso. apply Hne. apply Z.bits_inj'. intros k Hk.
    destruct (Z_lt_dec k 32) as [Hlt | Hge].
    + rewrite forallb_forall in E. apply Bool.eqb_prop, E, in_zrange. lia.
    + rewrite !testbit_uint_high by lia. reflexivity.
  - apply not_true_iff_false in E. rewrite forallb_forall in E.
    destruct (existsb (fun k => negb (Bool.eqb (Z.testbit a k) (Z.testbit b k)))
                      (zrange 32)) eqn:X.
    + apply existsb_exists in X as (k & Hk & Hd). apply in_zrange in Hk.
      exists k. split; [assumption |]. apply negb_true_iff in Hd.
      now apply Bool.eqb_false_iff.
    + exfalso. apply E. intros k Hk.
      apply not_true_iff_false in X. rewrite existsb_exists in X.
      destruct (Bool.eqb (Z.testbit a k) (Z.testbit b k)) eqn:Ek;
        [reflexivity |].
      exfalso. apply X. exists k. split; [assumption |]. now rewrite Ek.
Qed.

Lemma popcount_subset_strict (a b : Z) :
  0 <= a < 2 ^ 32 -> 0 <= b < 2 ^ 32 -> subset a b -> a <> b ->
  popcount a < popcount b.
Proof.
  intros Ha Hb Hs Hne.
  destruct (uint_differ_bit a b Ha Hb Hne) as (k & Hk & Hd).
  rewrite subset_spec in Hs. unfold popcount, zlen.
  apply inj_lt, (filter_length_strict _ _ _ k).
  - intros j Hj. apply in_zrange in Hj. apply Hs. lia.
  - apply in_zrange. lia.
  - destruct (Z.testbit a k) eqn:Ea; [| reflexivity].
    rewrite (Hs k (proj1 Hk) Ea) in Hd. congruence.
  - destruct (Z.testbit b k) eqn:Eb; [reflexivity |].
    destruct (Z.testbit a k) eqn:Ea; [| congruence].
    rewrite (Hs k (proj1 Hk) Ea) in Eb. discriminate.
Qed.

Lemma aget_nat {A : Type} (d : A) (l : list A) (k : nat) :
  aget d l (Z.of_nat k) = nth k l d.
Proof.
  unfold aget. destruct (Z.ltb_spec (Z.of_nat k) 0); [lia |].
  now rewrite Nat2Z.id.
Qed.

Lemma sum_map_le_nth {A : Type} (d : A) (f : A -> Z) (l : list A) :
  forall l',
    List.length l' = List.length l ->
    (forall k, f (nth k l' d) <= f (nth k l d)) ->
    sum_map f l' <= sum_map f l.
Proof.
  induction l as [|a l IH]; intros [|a' l'] Hlen H;
    cbn [List.length] in Hlen; try lia; cbn [sum_map fold_right].
  pose proof (H 0%nat) as H0. cbn in H0.
  assert (IH' : sum_map f l' <= sum_map f l).
  { apply IH; [lia |]. intros k. exact (H (S k)). }
  unfold sum_map in IH'. lia.
Qed.

Lemma sum_map_lt_nth {A : Type} (d : A) (f : A -> Z) (l : list A) :
  forall l' k,
    List.length l' = List.length l ->
    (forall j, f (nth j l' d) <= f (nth j l d)) ->
    (k < List.length l)%nat ->
    f (nth k l' d) < f (nth k l d) ->
    sum_map f l' < sum_map f l.
Proof.
  induction l as [|a l IH]; intros [|a' l'] k Hlen H Hk Hlt;
    cbn [List.length] in *; try lia.
  cbn [sum_map fold_right].
  pose proof (H 0%nat) as H0. cbn in H0.
  assert (Hle : sum_map f l' <= sum_map f l).
  { apply (sum_map_le_nth d); [lia |].
    intros j. exact (H (S j)). }
  destruct k as [|k].
  - cbn in Hlt. unfold sum_map in Hle. lia.
  - assert (IH' : sum_map f l' < sum_map f l).
    { apply (IH l' k); [lia | | lia | exact Hlt].
      intros j. exact (H (S j)). }
    unfold sum_map in IH'. lia.
Qed.

Lemma sum_map_le {A : Type} (d : A) (f : A -> Z) (l l' : list A) :
  zlen l' = zlen l ->
  (forall i, f (aget d l' i) <= f (aget d l i)) ->
  sum_map f l' <= sum_map f l.
Proof.
  intros Hlen H. apply (sum_map_le_nth d); [unfold zlen in Hlen; lia |].
  intros k. rewrite <- !aget_nat. apply H.
Qed.

Lemma sum_map_lt {A : Type} (d : A) (f : A -> Z) (l l' : list A) (i : Z) :
  zlen l' = zlen l ->
  (forall j, f (aget d l' j) <= f (aget d l j)) ->
  f (aget d l' i) < f (aget d l i) ->
  sum_map f l' < sum_map f l.
Proof.
  intros Hlen Hle Hlt.
  assert (Hi : 0 <= i < zlen l).
  { destruct (Z_lt_dec i 0) as [Hneg | Hpos].
    - rewrite !aget_out in Hlt by lia. lia.
    - destruct (Z_lt_dec i (zlen l)) as [Hin | Hout]; [lia |].
      rewrite !aget_out in Hlt by lia. lia. }
  apply (sum_map_lt_nth d f l l' (Z.to_nat i)).
  - unfold zlen in Hlen; lia.
  - intros k. rewrite <- !aget_nat. apply Hle.
  - unfold zlen in Hi; lia.
  - rewrite <- !aget_nat, Z2Nat.id by lia. exact Hlt.
Qed.

Lemma sum_map_bounds {A : Type} (f : A -> Z) (l : list A) (b : Z) :
  (forall x, 0 <= f x <= b) -> 0 <= sum_map f l <= b * zlen l.
Proof.
  intros H. unfold zlen. induction l as [|a l IH]; cbn [sum_map fold_right List.length].
  - lia.
  - specialize (H a). unfold sum_map in IH. nia.
Qed.

Lemma subset_range (a b : Z) : subset a b -> 0 <= b -> 0 <= a <= b.
Proof.
  intros H Hb. apply Z.ldiff_le; [assumption |].
  apply Z.bits_inj'. intros k Hk. rewrite Z.ldiff_spec, Z.bits_0.
  rewrite subset_spec in H.
  destruct (Z.testbit a k) eqn:Ea; [| reflexivity].
  now rewrite (H k Hk Ea).
Qed.

Lemma slack_le (st st' : game_state) : tightens st st' -> slack st' <= slack st.
Proof.
  intros [(_ & _ & _ & _ & _ & _ & _ & Lk & Lm) H]. unfold slack.
  assert (sum_map (fun k => 32 - popcount k) (known st')
          <= sum_map (fun k => 32 - popcount k) (known st)).
  { apply (sum_map_le 0); [assumption |]. intros i.
    pose proof (popcount_subset _ _ (proj1 (H i))). lia. }
  assert (sum_map popcount (mask st') <= sum_map popcount (mask st)).
  { apply (sum_map_le 0); [assumption |]. intros i.
    apply popcount_subset, H. }
  lia.
Qed.

Lemma typed_mask_uint (st : game_state) (i : Z) :
  typed st -> 0 <= get (mask st) i < 2 ^ 32.
Proof.
  intros [Hn T]. destruct (T i) as [_ Hr].
  rewrite ALL_BITS_pow in Hr by lia.
  assert (2 ^ n st <= 2 ^ 32) by (apply Z.pow_le_mono_r; lia). lia.
Qed.

Lemma slack_lt (st st' : game_state) :
  tightens st st' -> bounds_differ st st' -> typed st -> typed st' ->
  slack st' < slack st.
Proof.
  intros [(_ & _ & En & _ & _ & _ & _ & Lk & Lm) H] [i Hd] T T'. unfold slack.
  assert (Hk : forall j, 32 - popcount (get (known st') j)
                         <= 32 - popcount (get (known st) j)).
  { intros j. pose proof (popcount_subset _ _ (proj1 (H j))). lia. }
  assert (Hm : forall j, popcount (get (mask st') j)
                         <= popcount (get (mask st) j)).
  { intros j. apply popcount_subset, H. }
  pose proof (sum_map_le 0 (fun k => 32 - popcount k) _ _ Lk Hk) as Sk.
  pose proof (sum_map_le 0 popcount _ _ Lm Hm) as Sm.
  destruct Hd as [Hd | Hd].
  - assert (sum_map (fun k => 32 - popcount k) (known st')
            < sum_map (fun k => 32 - popcount k) (known st)); [| lia].
    apply (sum_map_lt 0 _ _ _ i); [assumption | assumption |].
    assert (popcount (get (known st) i) < popcount (get (known st') i)); [| lia].
    apply popcount_subset_strict; try apply T; try apply T'; try apply H.
    congruence.
  - assert (sum_map popcount (mask st') < sum_map popcount (mask st)); [| lia].
    apply (sum_map_lt 0 _ _ _ i); [assumption | assumption |].
    apply popcount_subset_strict; try (now apply typed_mask_uint);
      try apply H. congruence.
Qed.

Lemma cube_count_le (c c' : list bool) :
  cube_shrinks c c' -> cube_count c' <= cube_count c.
Proof.
  intros [L H]. apply (sum_map_le false); [assumption |]. intros i.
  specialize (H i). destruct (bget c' i); [rewrite H by reflexivity; lia |].
  destruct (bget c i); lia.
Qed.

Lemma cube_count_lt (c c' : list bool) :
  cube_shrinks c c' -> cube_cleared c c' -> cube_count c' < cube_count c.
Proof.
  intros [L H] (idx & Hc & Hc').
  apply (sum_map_lt false _ _ _ idx); [assumption | |].
  - intros i. specialize (H i).
    destruct (bget c' i); [rewrite H by reflexivity; lia |].
    destruct (bget c i); lia.
  - rewrite Hc, Hc'. lia.
Qed.

Lemma measure_bounds (st : game_state) (cube : list bool) :
  0 <= measure st cube
  <= 32 * zlen (known st) + 32 * zlen (mask st) + zlen cube.
Proof.
  unfold measure, slack, cube_count.
  pose proof (sum_map_bounds (fun k => 32 - popcount k) (known st) 32) as H1.
  pose proof (sum_map_bounds popcount (mask st) 32) as H2.
  pose proof (sum_map_bounds (fun b : bool => if b then 1 else 0) cube 1) as H3.
  assert (0 <= sum_map (fun k => 32 - popcount k) (known st)
          <= 32 * zlen (known st)).
  { apply H1. intros x. pose proof (popcount_range x). lia. }
  assert (0 <= sum_map popcount (mask st) <= 32 * zlen (mask st)).
  { apply H2. intros x. pose proof (popcount_range x). lia. }
  assert (0 <= sum_map (fun b : bool => if b then 1 else 0) cube
          <= 1 * zlen cube).
  { apply H3. intros []; lia. }
  lia.
Qed.

(** ** The rules keep the bounds well typed *)

Lemma or_known_typed (st : game_state) (i v : Z) :
  typed st -> 0 <= v < 2 ^ 32 -> typed (or_known st i v).
Proof.
  intros [Hn T] Hv. split; [exact Hn |]. intros j.
  unfold or_known. cbn [known mask n set_known].
  split; [| apply T].
  destruct (aget_aset_cases 0 (known st) i j (Z.lor (get (known st) i) v))
    as [(_ & _ & E) | (_ & E)]; rewrite E; [| apply T].
  apply lor_uint; [apply T | assumption].
Qed.

Lemma and_mask_typed (st : game_state) (i v : Z) :
  typed st -> typed (and_mask st i v).
Proof.
  intros [Hn T]. split; [exact Hn |]. intros j.
  unfold and_mask. cbn [known mask n set_mask].
  split; [apply T |].
  destruct (aget_aset_cases 0 (mask st) i j (Z.land (get (mask st) i) v))
    as [(_ & _ & E) | (_ & E)]; rewrite E; [| apply T].
  destruct (T i) as [_ Hm].
  pose proof (subset_range _ _ (subset_land_l (get (mask st) i) v)
                (proj1 Hm)). lia.
Qed.

Lemma subsets_solve_apply_arrows_typed (st : game_state) :
  typed st -> typed (snd (subsets_solve_apply_arrows st)).
Proof.
  intros T. unfold subsets_solve_apply_arrows.
  apply (for_grid_inv (fun acc => typed (snd acc))); [exact T |].
  intros x y [ret s] a _ _ _ Ts. rewrite apply_arrows_step_eq. cbn zeta.
  destruct (has _ _); cbn [negb]; [| exact Ts]. cbn [snd] in *.
  apply and_mask_typed, or_known_typed; [exact Ts | apply Ts].
Qed.

Lemma subsets_bits_from_cube_typed (st : game_state) (cube : list bool) :
  typed st -> typed (snd (subsets_bits_from_cube st cube)).
Proof.
  intros T. unfold subsets_bits_from_cube.
  apply (fold_left_inv (fun acc => typed (snd acc))); [exact T |].
  intros [ret s] i _ Ts. rewrite bits_from_cube_step_eq. cbn zeta.
  cbn [snd] in *.
  apply and_mask_typed, or_known_typed; [exact Ts | apply to_uint_range].
Qed.

Lemma placement_typed (st : game_state) (counts : list Z) (cube : list bool)
    (r : Z * game_state) :
  typed st -> placement_effect st counts cube r -> typed (snd r).
Proof.
  intros [Hn T] (F & _ & Hcells & _).
  pose proof F as (_ & _ & En & _). split; [now rewrite En |].
  intros i. rewrite En.
  destruct (Hcells i) as [[-> ->] | (nj & _ & Hnj & _ & _ & _ & -> & ->)];
    [apply T |].
  rewrite Z.shiftl_1_l in Hnj. rewrite ALL_BITS_pow by lia.
  assert (2 ^ n st <= 2 ^ 32) by (apply Z.pow_le_mono_r; lia). lia.
Qed.

Lemma forallb_of_aget {A : Type} (P : A -> bool) (d : A) (l : list A) :
  (forall i, P (aget d l i) = true) -> forallb P l = true.
Proof.
  intros H. apply forallb_forall. intros x Hx.
  destruct (In_nth l x d Hx) as (k & Hk & <-).
  rewrite <- aget_nat. apply H.
Qed.

Lemma wf_board_typed (st : game_state) : wf_board st -> typed st.
Proof.
  intros H. split.
  - apply wf_board_unfold in H. tauto.
  - intros i. split; [now apply wf_known_uint | now apply wf_mask_range].
Qed.

Lemma wf_board_sized (st : game_state) : wf_board st -> sized st.
Proof. intros H. apply wf_board_unfold in H. unfold sized. tauto. Qed.

Lemma clues_in_grid_frame (st st' : game_state) :
  w st' = w st -> h st' = h st -> clues st' = clues st ->
  clues_in_grid st' = clues_in_grid st.
Proof. intros Ew Eh Ec. unfold clues_in_grid. now rewrite Ew, Eh, Ec. Qed.

Lemma wf_board_frame (st st' : game_state) :
  wf_board st -> same_frame st st' -> typed st' -> wf_board st'.
Proof.
  intros H (Ew & Eh & En & Ec & Ei & _ & _ & Lk & Lm) [_ T].
  pose proof (wf_board_unfold st H)
    as ((W & Hh & Hn & Hs) & (L1 & L2 & L3 & L4) & (U1 & U2 & U3 & U4) & G).
  unfold wf_board, wf_boardb.
  rewrite (clues_in_grid_frame st st' Ew Eh Ec), G.
  rewrite Ew, Eh, En, Ec, Ei, Lk, Lm, L1, L2, L3, L4, U1, U2.
  rewrite (proj2 (Z.ltb_lt 0 (w st)) W), (proj2 (Z.ltb_lt 0 (h st)) Hh).
  rewrite (proj2 (Z.leb_le 0 (n st)) (proj1 Hn)).
  rewrite (proj2 (Z.leb_le (n st) 30) (proj2 Hn)).
  rewrite Hs, !Z.eqb_refl. cbn [andb].
  rewrite (forallb_of_aget is_uint 0 (known st')).
  - rewrite (forallb_of_aget _ 0 (mask st')); [reflexivity |].
    intros i. destruct (T i) as [_ Hm]. rewrite En in Hm.
    apply andb_true_iff. rewrite !Z.leb_le. exact Hm.
  - intros i. apply is_uint_spec, T.
Qed.

Lemma count_value_pos (st : game_state) (cells : list Z) (i v : Z) :
  In i cells -> resolved st i = true -> get (known st) i = v ->
  1 <= count_value st cells v.
Proof.
  induction cells as [|j rest IH]; intros Hin Hr Hv; [destruct Hin |].
  rewrite count_value_cons. pose proof (count_value_nonneg st rest v).
  destruct Hin as [-> | Hin].
  - rewrite Hr. subst v. rewrite Z.eqb_refl. cbn [andb]. lia.
  - specialize (IH Hin Hr Hv).
    destruct (resolved st j && (get (known st) j =? v)); lia.
Qed.

(** A value counted 0 by an UNFINISHED validation is held by no resolved
    cell. *)
Lemma uncounted_unresolved (st : game_state) (i nj : Z) :
  wf_board st ->
  status_of (subsets_validate st None (Some [])) = STATUS_UNFINISHED ->
  0 <= i < w st * h st -> 0 <= nj < w st * h st ->
  get (counts_of (subsets_validate st None (Some []))) nj = 0 ->
  ~ (get (known st) i = nj /\ get (mask st) i = nj).
Proof.
  intros Hwf Hst Hi Hnj Hc [Ek Em].
  destruct (validate_counts_result st None [] Hwf) as (cnt & E & Hcnt).
  { right. rewrite Hst. discriminate. }
  unfold counts_of in Hc. rewrite E in Hc. rewrite Hcnt in Hc by assumption.
  pose proof (count_value_pos st (zrange (w st * h st)) i nj) as Hp.
  assert (1 <= count_value st (zrange (w st * h st)) nj); [| lia].
  apply Hp; [now apply in_zrange | | assumption].
  unfold resolved. rewrite Ek, Em. apply Z.eqb_refl.
Qed.

(** ** Every round that goes round again makes progress *)

Lemma iteration_decreases (st : game_state) (cube : list bool)
    (st' : game_state) (cube' : list bool) :
  wf_board st ->
  solve_iteration st cube = inl (st', cube') ->
  wf_board st' /\ zlen cube' = zlen cube
  /\ measure st' cube' < measure st cube.
Proof.
  intros Hwf E.
  pose proof (wf_board_sized st Hwf) as Hs.
  pose proof (wf_board_typed st Hwf) as Ht.
  pose proof (iteration_facts st cube Hs)
    as ((Hc0 & Hsync0) & Ha & Hd & Hb & Hp & Hsp & Hv). cbn zeta in *.
  pose proof (solve_iteration_path st cube) as P. rewrite E in P.
  inversion P as [| r counts cube0 a d b p v res Hr Hres Eres]; subst res.
  fold r counts cube0 a d b p v in Hc0, Hsync0, Ha, Hd, Hb, Hp, Hsp, Hv.
  pose proof (subsets_solve_apply_arrows_typed st Ht) as Ta. fold a in Ta.
  pose proof (subsets_bits_from_cube_typed (snd a) (snd d) Ta) as Tb.
  fold b in Tb.
  pose proof (placement_typed (snd b) counts (snd d) p Tb Hp) as Tp.
  assert (Fab : same_frame st (snd b)).
  { eapply same_frame_trans; [apply Ha | apply Hb]. }
  assert (Fap : same_frame st (snd p)).
  { eapply same_frame_trans; [exact Fab | apply Hp]. }
  assert (Tab : tightens st (snd b)).
  { eapply tightens_trans; [apply Ha | apply Hb]. }
  assert (Hcd : cube_shrinks cube (snd d)).
  { eapply cube_shrinks_trans; [exact Hc0 | apply Hd]. }
  unfold measure.
  destruct Ha as (Ta' & Pa & Za & Da), Hb as (Tb' & Pb & Zb & Db).
  destruct Hd as (Sd & Pd & Cd), Hv as (Sv & Pv & Cv).
  destruct Hres as [(Na & Er) | [(Ea & Nd & Er) | [(Ea & Ed & Nb & Er)
                   | [(Ea & Ed & Eb & Np & Er) | [(Ea & Ed & Eb & Ep & Nv & Er)
                   | (_ & _ & _ & _ & _ & Er)]]]]]; try discriminate;
    injection Er as -> ->.
  - split; [eapply wf_board_frame; [exact Hwf | apply Ta' | exact Ta] |].
    split; [apply Hc0 |].
    pose proof (slack_lt st (snd a) Ta' (Da ltac:(lia)) Ht Ta).
    pose proof (cube_count_le _ _ Hc0). lia.
  - split; [eapply wf_board_frame; [exact Hwf | apply Ta' | exact Ta] |].
    split; [apply Hcd |].
    pose proof (slack_le st (snd a) Ta').
    pose proof (cube_count_lt _ _ Sd (Cd ltac:(lia))).
    pose proof (cube_count_le _ _ Hc0). lia.
  - split; [eapply wf_board_frame; [exact Hwf | exact Fab | exact Tb] |].
    split; [apply Hcd |].
    assert (bounds_differ st (snd b)).
    { eapply bounds_differ_later; [exact Ta' | exact Tb' |].
      apply Db. lia. }
    pose proof (slack_lt st (snd b) Tab H Ht Tb).
    pose proof (cube_count_le _ _ Hcd). lia.
  - split; [eapply wf_board_frame; [exact Hwf | exact Fap | exact Tp] |].
    split; [apply Hcd |].
    destruct (Hsp Ea Eb) as [_ Tbp].
    destruct Hp as (Fp & Pp & _ & _ & Dp).
    destruct Dp as (i & nj & Hi & Hnj & _ & Hc & _ & Ek & Em); [lia |].
    assert (Hdiff : bounds_differ st (snd p)).
    { eapply bounds_differ_later; [exact Tab | exact Tbp |].
      exists i.
      destruct (Z.eq_dec (get (known (snd p)) i) (get (known (snd b)) i))
        as [E1 | N1]; [| now left].
      destruct (Z.eq_dec (get (mask (snd p)) i) (get (mask (snd b)) i))
        as [E2 | N2]; [| now right].
      exfalso.
      pose proof Fab as (Ew & Eh & En & _).
      pose proof (wf_board_unfold st Hwf) as ((_ & _ & Hn & Hsz) & _).
      rewrite Ew, Eh in Hi. rewrite En, Z.shiftl_1_l, <- Hsz in Hnj.
      apply (uncounted_unresolved st i nj Hwf Hr Hi Hnj Hc).
      destruct (Za Ea i) as [<- <-], (Zb Eb i) as [<- <-]. split; congruence. }
    pose proof (slack_lt st (snd p)
                  (tightens_trans _ _ _ Tab Tbp) Hdiff Ht Tp).
    pose proof (cube_count_le _ _ Hcd). lia.
  - split; [eapply wf_board_frame; [exact Hwf | exact Fap | exact Tp] |].
    split; [destruct Sv as [-> _]; apply Hcd |].
    destruct (Hsp Ea Eb) as [_ Tbp].
    pose proof (slack_le st (snd p) (tightens_trans _ _ _ Tab Tbp)).
    pose proof (cube_count_lt _ _ Sv (Cv ltac:(lia))).
    pose proof (cube_count_le _ _ Hcd). lia.
Qed.

Lemma iteration_exit_wf (st : game_state) (cube : list bool) (r : status)
    (st' : game_state) :
  wf_board st -> solve_iteration st cube = inr (r, st') -> wf_board st'.
Proof.
  intros Hwf E.
  pose proof (wf_board_sized st Hwf) as Hs.
  pose proof (wf_board_typed st Hwf) as Ht.
  pose proof (iteration_facts st cube Hs)
    as (_ & Ha & _ & Hb & Hp & _ & _). cbn zeta in *.
  pose proof (solve_iteration_path st cube) as P. rewrite E in P.
  inversion P as [r0 Hr | r0 counts cube0 a d b p v res Hr Hres Eres].
  - subst. exact Hwf.
  - subst res. fold r0 counts cube0 a d b p v in Ha, Hb, Hp.
    destruct Hres as [(_ & Er) | [(_ & _ & Er) | [(_ & _ & _ & Er)
                     | [(_ & _ & _ & _ & Er) | [(_ & _ & _ & _ & _ & Er)
                     | (_ & _ & _ & _ & _ & Er)]]]]]; try discriminate.
    injection Er as -> ->.
    eapply wf_board_frame; [exact Hwf | |].
    + eapply same_frame_trans; [| apply Hp].
      eapply same_frame_trans; [apply Ha | apply Hb].
    + eapply placement_typed; [| exact Hp].
      apply subsets_bits_from_cube_typed, subsets_solve_apply_arrows_typed, Ht.
Qed.

(** The loop ends before a fuel larger than the measure gives out. *)
Lemma solve_loop_total (fuel : nat) :
  forall st cube,
    wf_board st -> measure st cube < Z.of_nat fuel ->
    exists r st', solve_loop fuel st cube = Some (r, st') /\ wf_board st'.
Proof.
  induction fuel as [|fuel IH]; intros st cube Hwf Hm.
  - pose proof (measure_bounds st cube). lia.
  - cbn [solve_loop].
    destruct (solve_iteration st cube) as [[st1 cube1] | [r st1]] eqn:E.
    + destruct (iteration_decreases st cube st1 cube1 Hwf E) as (Hwf1 & _ & Hlt).
      apply IH; [exact Hwf1 | lia].
    + exists r, st1. split; [reflexivity |].
      eapply iteration_exit_wf; eauto.
Qed.

Lemma solve_reset_typed (st : game_state) : typed st -> typed (solve_reset st).
Proof.
  intros T. unfold solve_reset. apply fold_left_inv; [exact T |].
  intros s i _ [Hn Ts]. destruct (negb _); [split; assumption |].
  split; [exact Hn |]. intros j. cbn [known mask n set_mask set_known].
  assert (0 <= ALL_BITS (n s)).
  { rewrite ALL_BITS_pow by lia.
    assert (0 < 2 ^ n s) by (apply Z.pow_pos_nonneg; lia). lia. }
  split.
  - destruct (aget_aset_cases 0 (known s) i j 0) as [(_ & _ & E) | (_ & E)];
      rewrite E; [lia | apply Ts].
  - destruct (aget_aset_cases 0 (mask s) i j (ALL_BITS (n s)))
      as [(_ & _ & E) | (_ & E)]; rewrite E; [lia | apply Ts].
Qed.

Lemma solve_reset_wf (st : game_state) : wf_board st -> wf_board (solve_reset st).
Proof.
  intros H. eapply wf_board_frame; [exact H | apply solve_reset_frame |].
  apply solve_reset_typed, wf_board_typed, H.
Qed.

(** [subsets_solve_game] returns on every well-formed board. *)
Lemma subsets_solve_game_total (st : game_state) :
  wf_board st ->
  exists r st', subsets_solve_game st = Some (r, st') /\ wf_board st'.
Proof.
  intros Hwf. unfold subsets_solve_game.
  apply solve_loop_total; [now apply solve_reset_wf |].
  pose proof (measure_bounds (solve_reset st)
                (repeat true (Z.to_nat (w st * h st * Z.shiftl 1 (n st))))) as Hb.
  pose proof (solve_reset_frame st) as (_ & _ & _ & _ & _ & _ & _ & Lk & Lm).
  pose proof (wf_board_unfold st Hwf)
    as ((W & Hh & Hn & Hs) & (_ & _ & L3 & L4) & _).
  rewrite Lk, Lm, L3, L4 in Hb. unfold zlen in Hb at 1.
  rewrite repeat_length in Hb. unfold solve_fuel.
  assert (0 <= Z.shiftl 1 (n st)) by (rewrite Z.shiftl_1_l; lia).
  assert (0 <= w st * h st) by lia.
  rewrite Z2Nat.id in Hb by nia. rewrite Z2Nat.id by nia. lia.
Qed.

(** ** The solve move *)

Lemma append_assoc (a b c : string) : (a +++ b) +++ c = a +++ (b +++ c).
Proof. induction a as [|x a IH]; cbn; [reflexivity | now rewrite IH]. Qed.

Lemma append_empty_r (a : string) : a +++ EmptyString = a.
Proof. induction a as [|x a IH]; cbn; [reflexivity | now rewrite IH]. Qed.

Lemma last_in {A : Type} (l : list A) (d : A) : l <> [] -> In (last l d) l.
Proof.
  induction l as [|x l IH]; intros Hne; [contradiction |].
  destruct l as [|y l]; [now left |].
  right. apply IH. discriminate.
Qed.

Lemma joined_fold (pair : Z -> string) (lst : Z) (l : list Z) :
  l <> [] -> NoDup l -> last l 0 = lst ->
  forall acc,
    fold_left (fun p i => p +++ pair i
                            +++ (if i =? lst then EmptyString else ","%string))
              l acc
    = acc +++ String.concat ","%string (map pair l).
Proof.
  induction l as [|x l IH]; intros Hne Hnd Hlast acc; [contradiction |].
  destruct l as [|y l].
  - cbn in Hlast. subst x. cbn [fold_left map String.concat].
    rewrite Z.eqb_refl. now rewrite append_empty_r.
  - change (last (x :: y :: l) 0) with (last (y :: l) 0) in Hlast.
    inversion Hnd as [| ? ? Hx Hnd']; subst.
    assert (Hxl : x <> last (y :: l) 0).
    { intros E. apply Hx. rewrite E. apply last_in. discriminate. }
    change (map pair (x :: y :: l)) with (pair x :: map pair (y :: l)).
    change (String.concat ","%string (pair x :: map pair (y :: l)))
      with (pair x +++ ","%string
            +++ String.concat ","%string (map pair (y :: l))).
    assert (Hne' : y :: l <> []) by discriminate.
    specialize (IH Hne' Hnd' eq_refl).
    remember (y :: l) as l' eqn:El'. cbn [fold_left].
    destruct (Z.eqb_spec x (last l' 0)); [contradiction |].
    rewrite IH. now rewrite !append_assoc.
Qed.

Lemma zrange_last (k : Z) : 0 < k -> last (zrange k) 0 = k - 1.
Proof.
  intros Hk. replace k with ((k - 1) + 1) at 1 by lia.
  rewrite zrange_succ by lia. apply last_last.
Qed.

Lemma solve_move_text_spec (solved : game_state) :
  0 < w solved * h solved -> solve_move_text solved = solve_move_spec solved.
Proof.
  intros Hs. unfold solve_move_text, solve_move_spec, solve_move_pairs.
  rewrite <- (joined_fold _ (w solved * h solved - 1)).
  - apply fold_left_ext_in. intros p i _. now rewrite !append_assoc.
  - intros E. apply (f_equal (@List.length Z)) in E.
    rewrite zrange_length in E. cbn in E. lia.
  - apply zrange_nodup.
  - now apply zrange_last.
Qed.



(** ** Soundness of the rules with respect to a solution *)

Lemma solution_frame (st st' : game_state) (sol : list Z) :
  same_frame st st' -> solution st sol -> solution st' sol.
Proof.
  intros (Ew & Eh & En & Ec & _) H. unfold solution, in_grid in *.
  rewrite Ew, Eh, En, Ec. exact H.
Qed.

Lemma bounds_sound_same (st st' : game_state) (sol : list Z) :
  same_frame st st' -> same_bounds st st' ->
  bounds_sound st sol -> bounds_sound st' sol.
Proof.
  intros (Ew & Eh & _) S H i Hi. rewrite Ew, Eh in Hi.
  destruct (S i) as [-> ->]. now apply H.
Qed.

Lemma cube_sound_frame (st st' : game_state) (sol : list Z) (cube : list bool) :
  same_frame st st' -> cube_sound st sol cube -> cube_sound st' sol cube.
Proof.
  intros (Ew & Eh & En & _) H i Hi. rewrite Ew, Eh in Hi. rewrite En.
  now apply H.
Qed.

Lemma row_index_inj (n2 i nj i' nj' : Z) :
  0 <= nj < n2 -> 0 <= nj' < n2 -> i * n2 + nj = i' * n2 + nj' ->
  i = i' /\ nj = nj'.
Proof. intros H H' E. assert (i = i') by nia. subst. lia. Qed.

(** Clearing an entry other than that of the solution keeps the cube
    sound. *)
Lemma cube_sound_clear (st : game_state) (sol : list Z) (cube : list bool)
    (i' nj : Z) :
  solution st sol -> cube_sound st sol cube ->
  0 <= nj < Z.shiftl 1 (n st) ->
  (0 <= i' < w st * h st -> get sol i' <> nj) ->
  cube_sound st sol (bset cube (i' * Z.shiftl 1 (n st) + nj) false).
Proof.
  intros (_ & Hr & _) Hc Hnj Hne i Hi.
  rewrite aget_aset_neq; [now apply Hc |].
  intros E. apply row_index_inj in E as [-> E]; [| assumption | now apply Hr].
  now apply Hne.
Qed.

Lemma sync_cell_sound (st : game_state) (sol : list Z) (cube : list bool)
    (i nj : Z) :
  solution st sol -> bounds_sound st sol -> cube_sound st sol cube ->
  0 <= nj < Z.shiftl 1 (n st) ->
  cube_sound st sol (sync_cell st (Z.shiftl 1 (n st)) cube i nj).
Proof.
  intros Hsol Hb Hc Hnj. unfold sync_cell.
  destruct (bget cube _); cbn [negb]; [| exact Hc].
  assert (Hfit : 0 <= i < w st * h st -> get sol i = nj ->
                 Z.land (get (mask st) i) nj = nj
                 /\ Z.land (get (known st) i) nj = get (known st) i).
  { intros Hi <-. destruct (Hb i Hi) as [Hk Hm]. unfold subset in *.
    split; [now rewrite Z.land_comm | assumption]. }
  destruct (Z.eqb_spec (Z.land (get (mask st) i) nj) nj) as [E1 | E1];
    destruct (Z.eqb_spec (Z.land (get (known st) i) nj) (get (known st) i))
      as [E2 | E2]; cbn [negb]; try exact Hc.
  - apply cube_sound_clear; auto. intros Hi E. now apply Hfit in E.
  - apply cube_sound_clear; auto. intros Hi E. now apply Hfit in E.
  - apply cube_sound_clear; auto.
    + apply cube_sound_clear; auto. intros Hi E. now apply Hfit in E.
    + intros Hi E. now apply Hfit in E.
Qed.

Lemma subsets_sync_cube_sound (st : game_state) (sol : list Z)
    (cube : list bool) :
  solution st sol -> bounds_sound st sol -> cube_sound st sol cube ->
  cube_sound st sol (subsets_sync_cube st cube).
Proof.
  intros Hsol Hb Hc. unfold subsets_sync_cube.
  apply fold_left_inv; [exact Hc |]. intros c i _ Hci.
  apply fold_left_inv; [exact Hci |]. intros c' nj Hnj Hc'.
  apply in_zrange in Hnj. now apply sync_cell_sound.
Qed.

Lemma count_value_witness (st : game_state) (cells : list Z) (v : Z) :
  1 <= count_value st cells v ->
  exists i, In i cells /\ resolved st i = true /\ get (known st) i = v.
Proof.
  induction cells as [|j rest IH]; intros H.
  - unfold count_value, zlen in H. cbn in H. lia.
  - rewrite count_value_cons in H.
    destruct (resolved st j && (get (known st) j =? v)) eqn:E.
    + apply andb_true_iff in E as [Er Ev]. apply Z.eqb_eq in Ev.
      exists j. split; [now left | auto].
    + destruct IH as (i & Hi & Hr & Hv); [lia |].
      exists i. split; [now right | auto].
Qed.

Lemma resolved_value (st : game_state) (sol : list Z) (i : Z) :
  bounds_sound st sol -> 0 <= i < w st * h st -> resolved st i = true ->
  get (known st) i = get sol i /\ get (mask st) i = get sol i.
Proof.
  intros Hb Hi Hr. unfold resolved in Hr. apply Z.eqb_eq in Hr.
  destruct (Hb i Hi) as [Hk Hm]. rewrite <- Hr in Hm.
  assert (get (known st) i = get sol i) by now apply subset_antisym.
  split; congruence.
Qed.

Lemma subsets_cube_single_count_sound (st : game_state) (sol : list Z)
    (cube : list bool) :
  wf_board st -> solution st sol -> bounds_sound st sol ->
  cube_sound st sol cube ->
  status_of (subsets_validate st None (Some [])) = STATUS_UNFINISHED ->
  cube_sound st sol
    (subsets_cube_single_count st
       (counts_of (subsets_validate st None (Some []))) cube).
Proof.
  intros Hwf Hsol Hb Hc Hst. unfold subsets_cube_single_count.
  destruct (validate_counts_result st None [] Hwf) as (cnt & E & Hcnt).
  { right. rewrite Hst. discriminate. }
  unfold counts_of. rewrite E.
  pose proof (wf_board_unfold st Hwf) as ((_ & _ & Hn & Hsz) & _).
  apply fold_left_inv; [exact Hc |]. intros c ni Hni Hci.
  apply in_zrange in Hni.
  destruct (Z.eqb_spec (get cnt ni) 1) as [E1 | E1]; cbn [negb];
    [| exact Hci].
  apply fold_left_inv; [exact Hci |]. intros c' j Hj Hc'.
  apply in_zrange in Hj. unfold single_count_cell.
  destruct (Z.eqb_spec (get (mask st) j) (get (known st) j)) as [Em | Em];
    [exact Hc' |].
  destruct (bget c' _); cbn [negb]; [| exact Hc'].
  apply cube_sound_clear; auto. intros _ Es.
  rewrite Hcnt in E1 by (rewrite Z.shiftl_1_l in Hni; lia).
  destruct (count_value_witness st (zrange (w st * h st)) ni) as (i & Hi & Hr & Hv);
    [lia |].
  apply in_zrange in Hi.
  destruct (resolved_value st sol i Hb Hi Hr) as [Ek Emk].
  assert (i = j).
  { destruct Hsol as (_ & _ & Hinj & _). apply Hinj; auto. congruence. }
  subst i. apply Em. unfold resolved in Hr. apply Z.eqb_eq in Hr. congruence.
Qed.

Lemma subset_lor (a b c : Z) : subset a c -> subset b c -> subset (Z.lor a b) c.
Proof.
  rewrite !subset_spec. intros Ha Hb k Hk H. rewrite Z.lor_spec in H.
  apply orb_true_iff in H as [H | H]; auto.
Qed.

Lemma subset_land (a b c : Z) : subset c a -> subset c b -> subset c (Z.land a b).
Proof.
  rewrite !subset_spec. intros Ha Hb k Hk H. rewrite Z.land_spec.
  apply andb_true_iff. auto.
Qed.

Lemma or_known_sound (st : game_state) (sol : list Z) (i v : Z) :
  bounds_sound st sol ->
  (0 <= i < w st * h st -> subset v (get sol i)) ->
  bounds_sound (or_known st i v) sol.
Proof.
  intros Hb Hv j Hj. unfold or_known in *. cbn [w h known mask set_known] in *.
  split; [| now apply Hb].
  destruct (aget_aset_cases 0 (known st) i j (Z.lor (get (known st) i) v))
    as [(-> & _ & E) | (_ & E)]; rewrite E; [| now apply Hb].
  apply subset_lor; [now apply Hb | now apply Hv].
Qed.

Lemma and_mask_sound (st : game_state) (sol : list Z) (i v : Z) :
  bounds_sound st sol ->
  (0 <= i < w st * h st -> subset (get sol i) v) ->
  bounds_sound (and_mask st i v) sol.
Proof.
  intros Hb Hv j Hj. unfold and_mask in *. cbn [w h known mask set_mask] in *.
  split; [now apply Hb |].
  destruct (aget_aset_cases 0 (mask st) i j (Z.land (get (mask st) i) v))
    as [(-> & _ & E) | (_ & E)]; rewrite E; [| now apply Hb].
  apply subset_land; [now apply Hb | now apply Hv].
Qed.

(** What an arrow of a board with solution [sol] says. *)
Lemma solution_arrow (st : game_state) (sol : list Z) (x y : Z) (a : adj) :
  solution st sol -> 0 <= x < w st -> 0 <= y < h st -> In a adjthan ->
  has (get (clues st) (y * w st + x)) (adj_f a) = true ->
  (0 <= x + adj_dx a < w st /\ 0 <= y + adj_dy a < h st)
  /\ subset (get sol ((y + adj_dy a) * w st + (x + adj_dx a)))
            (get sol (y * w st + x)).
Proof.
  intros (_ & _ & _ & _ & Hcl) Hx Hy Ha Hc.
  rewrite (Hcl x y a Hx Hy Ha) in Hc. apply andb_true_iff in Hc as [Hg He].
  unfold in_grid in Hg. rewrite !andb_true_iff, !Z.leb_le, !Z.ltb_lt in Hg.
  split; [lia |]. apply Z.eqb_eq in He. unfold subset.
  now rewrite Z.land_comm.
Qed.

Lemma subsets_solve_apply_arrows_sound (st : game_state) (sol : list Z) :
  solution st sol -> bounds_sound st sol ->
  bounds_sound (snd (subsets_solve_apply_arrows st)) sol.
Proof.
  intros Hsol Hb. unfold subsets_solve_apply_arrows.
  apply (for_grid_inv
           (fun acc => same_frame st (snd acc) /\ bounds_sound (snd acc) sol));
    [split; [apply same_frame_refl | exact Hb] |].
  intros x y [ret s] a Hx Hy Ha [F Hs]. cbn [snd] in *.
  rewrite apply_arrows_step_eq. cbn zeta.
  destruct (has (get (clues s) (y * w s + x)) (adj_f a)) eqn:Hc; cbn [negb];
    [| split; assumption].
  cbn [snd].
  pose proof F as (Ew & Eh & _).
  destruct (solution_arrow s sol x y a (solution_frame _ _ _ F Hsol)
              ltac:(lia) ltac:(lia) Ha Hc) as [[Hx2 Hy2] Hsub].
  replace (y * w s + x + adj_dy a * w s + adj_dx a)
    with ((y + adj_dy a) * w s + (x + adj_dx a)) by ring.
  set (i1 := y * w s + x) in *.
  set (i2 := (y + adj_dy a) * w s + (x + adj_dx a)) in *.
  assert (Hi1 : 0 <= i1 < w s * h s)
    by (apply cell_index_range; lia).
  assert (Hi2 : 0 <= i2 < w s * h s)
    by (apply cell_index_range; lia).
  split.
  - eapply same_frame_trans; [exact F |].
    eapply same_frame_trans; [apply or_known_tightens | apply and_mask_tightens].
  - apply and_mask_sound.
    + apply or_known_sound; [exact Hs |]. intros _.
      eapply subset_trans; [apply Hs; exact Hi2 | exact Hsub].
    + intros _. unfold or_known. cbn [mask set_known].
      eapply subset_trans; [exact Hsub | apply Hs; exact Hi1].
Qed.

Lemma cube_bounds_enclose (cube : list bool) (n2 i : Z) (l : list Z) :
  forall acc,
    let res := fold_left (fun (acc : Z * Z) nj =>
                 if bget cube (i * n2 + nj)
                 then (Z.lor (fst acc) nj, Z.land (snd acc) nj) else acc) l acc in
    (subset (fst acc) (fst res) /\ subset (snd res) (snd acc))
    /\ forall nj, In nj l -> bget cube (i * n2 + nj) = true ->
                  subset nj (fst res) /\ subset (snd res) nj.
Proof.
  induction l as [|x l IH]; intros acc; cbn zeta; cbn [fold_left].
  - split; [split; apply subset_refl | intros ? []].
  - destruct (bget cube (i * n2 + x)) eqn:E.
    + destruct (IH (Z.lor (fst acc) x, Z.land (snd acc) x)) as [[H1 H2] H3].
      cbn [fst snd] in *. split; [split |].
      * eapply subset_trans; [apply subset_lor_l | exact H1].
      * eapply subset_trans; [exact H2 | apply subset_land_l].
      * intros nj [<- | Hin] Hb; [| now apply H3]. split.
        -- eapply subset_trans; [| exact H1]. rewrite Z.lor_comm.
           apply subset_lor_l.
        -- eapply subset_trans; [exact H2 |]. rewrite Z.land_comm.
           apply subset_land_l.
    + destruct (IH acc) as [H12 H3]. split; [exact H12 |].
      intros nj [<- | Hin] Hb; [congruence | now apply H3].
Qed.

Lemma subset_to_uint_l (a b : Z) : subset a b -> subset (to_uint a) b.
Proof.
  rewrite !subset_spec. intros H k Hk Hb. rewrite testbit_to_uint in Hb by lia.
  apply andb_true_iff in Hb as [_ Hb]. auto.
Qed.

Lemma subset_to_uint_r (a b : Z) :
  0 <= a < 2 ^ 32 -> subset a b -> subset a (to_uint b).
Proof.
  rewrite !subset_spec. intros Ha H k Hk Hb. rewrite testbit_to_uint by lia.
  apply andb_true_iff. split; [| auto].
  apply Z.ltb_lt. destruct (Z_lt_dec k 32); [assumption |].
  rewrite testbit_uint_high in Hb by lia. discriminate.
Qed.

Lemma solution_value_uint (st : game_state) (sol : list Z) (i : Z) :
  0 <= n st <= 30 -> solution st sol -> 0 <= i < w st * h st ->
  0 <= get sol i < 2 ^ 32.
Proof.
  intros Hn (_ & Hr & _) Hi. specialize (Hr i Hi).
  rewrite Z.shiftl_1_l in Hr.
  assert (2 ^ n st <= 2 ^ 32) by (apply Z.pow_le_mono_r; lia). lia.
Qed.

Lemma subsets_bits_from_cube_sound (st : game_state) (sol : list Z)
    (cube : list bool) :
  0 <= n st <= 30 -> solution st sol -> bounds_sound st sol ->
  cube_sound st sol cube ->
  bounds_sound (snd (subsets_bits_from_cube st cube)) sol.
Proof.
  intros Hn Hsol Hb Hc. unfold subsets_bits_from_cube.
  apply (fold_left_inv
           (fun acc => same_frame st (snd acc) /\ bounds_sound (snd acc) sol));
    [split; [apply same_frame_refl | exact Hb] |].
  intros [ret s] i Hi [F Hs]. cbn [snd] in *. apply in_zrange in Hi.
  rewrite bits_from_cube_step_eq. cbn zeta. cbn [snd].
  pose proof F as (Ew & Eh & En & _).
  destruct (cube_bounds_enclose cube (Z.shiftl 1 (n s)) i
              (zrange (Z.shiftl 1 (n s))) (0, Z.lnot 0)) as [_ Hcb].
  cbn zeta in Hcb. fold (cube_bounds cube (Z.shiftl 1 (n s)) i) in Hcb.
  assert (Hsoli : 0 <= get sol i < Z.shiftl 1 (n st)) by (apply Hsol; exact Hi).
  destruct (Hcb (get sol i)) as [Hm Hk].
  { apply in_zrange. now rewrite En. }
  { rewrite En. now apply Hc. }
  split.
  - eapply same_frame_trans; [exact F |].
    eapply same_frame_trans; [apply or_known_tightens | apply and_mask_tightens].
  - apply and_mask_sound.
    + apply or_known_sound; [exact Hs |]. intros _.
      now apply subset_to_uint_l.
    + intros _. apply subset_to_uint_r; [| exact Hm].
      now apply (solution_value_uint st).
Qed.

Lemma placement_sound (st : game_state) (sol : list Z) (counts : list Z)
    (cube : list bool) (r : Z * game_state) :
  solution st sol -> bounds_sound st sol -> cube_sound st sol cube ->
  placement_effect st counts cube r -> bounds_sound (snd r) sol.
Proof.
  intros Hsol Hb Hc (F & _ & Hcells & _) i Hi.
  pose proof F as (Ew & Eh & _). rewrite Ew, Eh in Hi.
  destruct (Hcells i) as [[-> ->] | (nj & _ & Hnj & _ & _ & Hu & -> & ->)];
    [now apply Hb |].
  destruct Hsol as (_ & _ & _ & Hsur & _).
  destruct (Hsur nj Hnj) as (c & Hcr & Ec).
  assert (c = i) by (apply Hu; [exact Hcr |]; rewrite <- Ec; now apply Hc).
  subst c. rewrite Ec. split; apply subset_refl.
Qed.

(** What the absence of arrows both ways says of a board with solution
    [sol]: the two values are incomparable. *)
Lemma solution_no_arrow (st : game_state) (sol : list Z) (x y : Z) (a : adj) :
  solution st sol -> 0 <= x < w st -> 0 <= y < h st -> In a adjthan ->
  in_grid st (x + adj_dx a) (y + adj_dy a) = true ->
  has (get (clues st) (y * w st + x)) (adj_f a) = false ->
  has (get (clues st) ((y + adj_dy a) * w st + (x + adj_dx a))) (adj_fo a)
  = false ->
  comparable (get sol (y * w st + x))
             (get sol ((y + adj_dy a) * w st + (x + adj_dx a))) = false.
Proof.
  intros (_ & _ & _ & _ & Hcl) Hx Hy Ha Hg Hc Hc'.
  rewrite (Hcl x y a Hx Hy Ha), Hg in Hc. cbn [andb] in Hc.
  destruct (opposite_spec a Ha) as (Ho & Ef & _ & Edx & Edy).
  assert (Hg' : 0 <= x + adj_dx a < w st /\ 0 <= y + adj_dy a < h st).
  { unfold in_grid in Hg. rewrite !andb_true_iff, !Z.leb_le, !Z.ltb_lt in Hg.
    lia. }
  rewrite <- Ef in Hc'.
  rewrite (Hcl (x + adj_dx a) (y + adj_dy a) (opposite a)
               (proj1 Hg') (proj2 Hg') Ho) in Hc'.
  rewrite Edx, Edy in Hc'.
  replace (x + adj_dx a + - adj_dx a) with x in Hc' by lia.
  replace (y + adj_dy a + - adj_dy a) with y in Hc' by lia.
  assert (Hin : in_grid st x y = true).
  { unfold in_grid. rewrite !andb_true_iff, !Z.leb_le, !Z.ltb_lt. lia. }
  rewrite Hin in Hc'. cbn [andb] in Hc'.
  unfold comparable. rewrite Hc. cbn [orb].
  now rewrite Z.land_comm.
Qed.

Lemma land_all_bits (k v : Z) :
  0 <= k -> 0 <= v < 2 ^ k -> Z.land (2 ^ k - 1) v = v.
Proof.
  intros Hk Hv. replace (2 ^ k - 1) with (Z.ones k)
    by (rewrite Z.ones_equiv; lia).
  rewrite Z.land_comm, Z.land_ones by lia. apply Z.mod_small. lia.
Qed.

Lemma subsets_disjoint_sound (st : game_state) (sol : list Z)
    (cube : list bool) :
  0 <= n st -> solution st sol -> bounds_sound st sol ->
  cube_sound st sol cube ->
  cube_sound st sol (snd (subsets_disjoint st cube)).
Proof.
  intros Hn Hsol Hb Hc. unfold subsets_disjoint.
  apply (for_grid_inv (fun acc => cube_sound st sol (snd acc))); [exact Hc |].
  intros x y acc a Hx Hy Ha Hacc. rewrite disjoint_step_unfold. cbn zeta.
  set (n2 := Z.shiftl 1 (n st)).
  set (i := y * w st + x). set (j := (y + adj_dy a) * w st + (x + adj_dx a)).
  destruct (has (get (clues st) i) (adj_f a)) eqn:Hci; [exact Hacc |].
  destruct (in_grid st (x + adj_dx a) (y + adj_dy a)) eqn:Hg; cbn [negb];
    [| exact Hacc].
  destruct (has (get (clues st) j) (adj_fo a)) eqn:Hcj; [exact Hacc |].
  pose proof (solution_no_arrow st sol x y a Hsol Hx Hy Ha Hg Hci Hcj) as Hinc.
  fold i j in Hinc.
  assert (Hi : 0 <= i < w st * h st) by (apply cell_index_range; lia).
  assert (Hj : 0 <= j < w st * h st).
  { unfold in_grid in Hg. rewrite !andb_true_iff, !Z.leb_le, !Z.ltb_lt in Hg.
    apply cell_index_range; lia. }
  assert (Hn2 : n2 = 2 ^ n st) by (subst n2; apply Z.shiftl_1_l).
  assert (Hpos : 0 < 2 ^ n st) by (apply Z.pow_pos_nonneg; lia).
  pose proof Hsol as (_ & Hr & _).
  pose proof (Hr i Hi) as Hri. pose proof (Hr j Hj) as Hrj.
  fold n2 in Hri, Hrj. rewrite Hn2 in Hri, Hrj.
  destruct (resolved st i) eqn:Eri; cbn [negb].
  - destruct (resolved st j) eqn:Erj; cbn [negb]; [exact Hacc |].
    apply fold_left_inv; [exact Hacc |].
    intros c opt Hopt Hcs. apply in_zrange in Hopt. unfold disjoint_opt.
    destruct (bget (snd c) _); cbn [negb]; [| exact Hcs].
    destruct (comparable (get (known st) i) opt) eqn:Ecmp; cbn [negb];
      [| exact Hcs].
    cbn [snd]. apply cube_sound_clear; auto. intros _ Es.
    destruct (resolved_value st sol i Hb Hi Eri) as [Ek _].
    rewrite Ek, <- Es in Ecmp. congruence.
  - destruct (bget (snd acc) (i * n2) || bget (snd acc) (i * n2 + (n2 - 1)));
      [| exact Hacc].
    cbn [snd]. apply cube_sound_clear; auto; [| lia |].
    + replace (i * n2) with (i * n2 + 0) by lia.
      apply cube_sound_clear; auto; [fold n2; lia |].
      intros _ E0. unfold comparable in Hinc. rewrite E0 in Hinc.
      rewrite Z.land_0_l in Hinc. cbn in Hinc.
      apply orb_false_iff in Hinc as [_ Hinc]. discriminate.
    + intros _ E1. unfold comparable in Hinc. rewrite E1, Hn2 in Hinc.
      rewrite land_all_bits in Hinc by lia.
      rewrite Z.eqb_refl in Hinc. discriminate.
Qed.

Lemma neighbour_distinct (wd x y : Z) (a : adj) :
  In a adjthan -> 0 <= x < wd -> 0 <= x + adj_dx a < wd ->
  (y + adj_dy a) * wd + (x + adj_dx a) <> y * wd + x.
Proof.
  intros Ha Hx Hx2 E. apply cell_index_inj in E as [E1 E2]; try lia.
  destruct Ha as [<- | [<- | [<- | [<- | []]]]]; cbn in *; lia.
Qed.

Lemma subsets_solve_apply_arrows_advanced_sound (st : game_state)
    (sol : list Z) (cube : list bool) :
  solution st sol -> cube_sound st sol cube ->
  cube_sound st sol (snd (subsets_solve_apply_arrows_advanced st cube)).
Proof.
  intros Hsol Hc. unfold subsets_solve_apply_arrows_advanced.
  apply (for_grid_inv (fun acc => cube_sound st sol (snd acc))); [exact Hc |].
  intros x y acc a Hx Hy Ha Hacc. unfold arrows_advanced_step.
  destruct (has (get (clues st) (y * w st + x)) (adj_f a)) eqn:Hcl;
    cbn [negb]; [| exact Hacc].
  destruct (solution_arrow st sol x y a Hsol Hx Hy Ha Hcl) as [[Hx2 Hy2] Hsub].
  replace (y * w st + x + adj_dy a * w st + adj_dx a)
    with ((y + adj_dy a) * w st + (x + adj_dx a)) by ring.
  set (n2 := Z.shiftl 1 (n st)).
  set (i1 := y * w st + x) in *.
  set (i2 := (y + adj_dy a) * w st + (x + adj_dx a)) in *.
  assert (Hi1 : 0 <= i1 < w st * h st) by (apply cell_index_range; lia).
  assert (Hi2 : 0 <= i2 < w st * h st) by (apply cell_index_range; lia).
  assert (Hne : i2 <> i1) by (now apply neighbour_distinct).
  pose proof Hsol as (_ & Hr & Hinj & _).
  apply fold_left_inv; [exact Hacc |].
  intros [k c] super Hsuper Hcs. apply in_zrange in Hsuper. cbn [snd] in *.
  destruct (bget c (i1 * n2 + super)); cbn [negb]; [| exact Hcs].
  destruct (sub_witness c n2 i2 super) eqn:Ew; cbn [negb]; [exact Hcs |].
  cbn [snd]. apply cube_sound_clear; auto. intros _ Es.
  apply not_true_iff_false in Ew. apply Ew. unfold sub_witness.
  apply existsb_exists. exists (get sol i2). split.
  - apply in_zrange. pose proof (Hr i1 Hi1) as R1. pose proof (Hr i2 Hi2) as R2.
    pose proof (subset_range _ _ Hsub (proj1 R1)) as Hle.
    assert (get sol i2 <> get sol i1) by (intros E; apply Hne; now apply Hinj).
    lia.
  - apply andb_true_iff. split.
    + apply Z.eqb_eq. rewrite <- Es, Z.land_comm. exact Hsub.
    + now apply Hcs.
Qed.

(** ** Soundness of the solver loop *)

Lemma iteration_sound (st : game_state) (cube : list bool) (sol : list Z) :
  wf_board st -> solution st sol -> bounds_sound st sol ->
  cube_sound st sol cube ->
  match solve_iteration st cube with
  | inl (st', cube') => bounds_sound st' sol /\ cube_sound st' sol cube'
  | inr (_, st') => bounds_sound st' sol
  end.
Proof.
  intros Hwf Hsol Hb Hc.
  pose proof (wf_board_sized st Hwf) as Hs.
  pose proof (wf_board_typed st Hwf) as [Hn _].
  pose proof (iteration_facts st cube Hs)
    as (_ & Ha & _ & Hrb & Hp & _ & _). cbn zeta in *.
  destruct (solve_iteration_path st cube)
    as [r Hr | r counts cube0 a d b p v res Hr Hres]; [exact Hb |].
  fold r counts cube0 a d b p v in Ha, Hrb, Hp.
  assert (Fa : same_frame st (snd a)) by apply Ha.
  assert (Fb : same_frame st (snd b))
    by (eapply same_frame_trans; [exact Fa | apply Hrb]).
  assert (Fp : same_frame st (snd p))
    by (eapply same_frame_trans; [exact Fb | apply Hp]).
  assert (Sc0 : cube_sound st sol cube0).
  { subst cube0 counts r. apply subsets_cube_single_count_sound; auto.
    now apply subsets_sync_cube_sound. }
  assert (Sa : bounds_sound (snd a) sol)
    by (now apply subsets_solve_apply_arrows_sound).
  assert (Hna : 0 <= n (snd a) <= 30)
    by (destruct Fa as (_ & _ & -> & _); exact Hn).
  assert (Sd : cube_sound (snd a) sol (snd d)).
  { apply subsets_disjoint_sound; try lia; auto.
    - eapply solution_frame; eauto.
    - eapply cube_sound_frame; eauto. }
  assert (Sb : bounds_sound (snd b) sol).
  { apply subsets_bits_from_cube_sound; auto. eapply solution_frame; eauto. }
  assert (Sd' : cube_sound (snd b) sol (snd d)).
  { eapply cube_sound_frame; [apply Hrb | exact Sd]. }
  assert (Sp : bounds_sound (snd p) sol).
  { eapply placement_sound; [| exact Sb | exact Sd' | exact Hp].
    eapply solution_frame; eauto. }
  assert (Sv : cube_sound (snd p) sol (snd v)).
  { apply subsets_solve_apply_arrows_advanced_sound.
    - eapply solution_frame; eauto.
    - eapply cube_sound_frame; [apply Hp | exact Sd']. }
  destruct Hres as [(_ & ->) | [(_ & _ & ->) | [(_ & _ & _ & ->)
                   | [(_ & _ & _ & _ & ->) | [(_ & _ & _ & _ & _ & ->)
                   | (_ & _ & _ & _ & _ & ->)]]]]].
  - split; [exact Sa |]. eapply cube_sound_frame; eauto.
  - split; [exact Sa | exact Sd].
  - split; [exact Sb | exact Sd'].
  - split; [exact Sp |]. eapply cube_sound_frame; [apply Hp | exact Sd'].
  - split; [exact Sp | exact Sv].
  - exact Sp.
Qed.

Lemma solve_loop_sound (fuel : nat) (sol : list Z) :
  forall st cube r st',
    wf_board st -> solution st sol -> bounds_sound st sol ->
    cube_sound st sol cube ->
    solve_loop fuel st cube = Some (r, st') ->
    wf_board st' /\ bounds_sound st' sol.
Proof.
  induction fuel as [|fuel IH]; intros st cube r st' Hwf Hsol Hb Hc H;
    [discriminate |].
  cbn [solve_loop] in H.
  pose proof (iteration_sound st cube sol Hwf Hsol Hb Hc) as S.
  pose proof (solve_iteration_tightens st cube (wf_board_sized st Hwf)) as T.
  destruct (solve_iteration st cube) as [[st1 cube1] | [r1 st1]] eqn:E.
  - destruct (iteration_decreases st cube st1 cube1 Hwf E) as (Hwf1 & _).
    destruct S as [Sb Sc]. destruct T as [[F _] _].
    eapply IH; [exact Hwf1 | | exact Sb | exact Sc | exact H].
    eapply solution_frame; eauto.
  - injection H as <- <-. split; [| exact S].
    eapply iteration_exit_wf; eauto.
Qed.

Lemma list_get_ext (l l' : list Z) :
  zlen l = zlen l' ->
  (forall i, 0 <= i < zlen l -> get l i = get l' i) -> l = l'.
Proof.
  unfold zlen. intros Hlen H. apply (nth_ext l l' 0 0); [lia |].
  intros k Hk. rewrite <- !aget_nat. apply H. unfold zlen. lia.
Qed.

Lemma all_resolved_cell (st : game_state) (i : Z) :
  all_resolved st = true -> 0 <= i < w st * h st -> resolved st i = true.
Proof.
  unfold all_resolved. rewrite forallb_forall. intros H Hi. apply H.
  apply in_zrange. lia.
Qed.

(** A board with solution [sol] and bounds that enclose it after the reset
    can only be completed to [sol]. *)
Lemma solve_complete_solution (st st' : game_state) (sol : list Z) :
  wf_board st -> solution st sol -> bounds_sound (solve_reset st) sol ->
  subsets_solve_game st = Some (STATUS_COMPLETE, st') ->
  known st' = sol /\ mask st' = sol.
Proof.
  intros Hwf Hsol Hb H.
  pose proof (solve_reset_frame st) as F.
  pose proof (solve_reset_wf st Hwf) as Hwf0.
  pose proof H as Hrun. unfold subsets_solve_game in H.
  pose proof (solve_loop_complete _ _ _ _ H) as Hv.
  apply validate_complete_all_resolved in Hv.
  assert (Hn : 0 <= n st) by (apply wf_board_unfold in Hwf; lia).
  pose proof Hsol as (Hlen & Hr & _).
  apply solve_loop_sound with (sol := sol) in H as [Hwf' Hb']; auto.
  - pose proof (solve_loop_tightens _ _ _ _ _ (wf_board_sized _ Hwf0) Hrun)
      as [(Ew & Eh & _) _].
    destruct F as (Ew0 & Eh0 & _).
    apply wf_board_unfold in Hwf' as (_ & (_ & _ & Lk & Lm) & _).
    split; apply list_get_ext; try congruence; intros i Hi.
    + rewrite Lk in Hi.
      now destruct (resolved_value st' sol i Hb' Hi
                      (all_resolved_cell st' i Hv Hi)).
    + rewrite Lm in Hi.
      now destruct (resolved_value st' sol i Hb' Hi
                      (all_resolved_cell st' i Hv Hi)).
  - eapply solution_frame; eauto.
  - intros i Hi. destruct F as (Ew0 & Eh0 & En0 & _).
    rewrite Ew0, Eh0 in Hi. rewrite En0.
    set (n2 := Z.shiftl 1 (n st)).
    assert (Hidx : 0 <= i * n2 + get sol i < w st * h st * n2).
    { specialize (Hr i Hi). fold n2 in Hr. nia. }
    apply aget_repeat. lia.
Qed.

(** ** The solver does not read the fixed-cell flags after the reset *)

Lemma fold_left_rel {A A' B : Type} (R : A -> A' -> Prop)
    (f : A -> B -> A) (g : A' -> B -> A') (l : list B) :
  (forall s s' b, R s s' -> R (f s b) (g s' b)) ->
  forall a a', R a a' -> R (fold_left f l a) (fold_left g l a').
Proof.
  intros Hstep. induction l as [|b l IH]; intros a a' H; [exact H |].
  cbn [fold_left]. apply IH. now apply Hstep.
Qed.

Lemma for_grid_rel {S S' : Type} (R : S -> S' -> Prop) (wd ht : Z)
    (f : Z -> Z -> S -> adj -> S) (g : Z -> Z -> S' -> adj -> S') :
  (forall x y s s' a, R s s' -> R (f x y s a) (g x y s' a)) ->
  forall s s', R s s' -> R (for_grid wd ht f s) (for_grid wd ht g s').
Proof.
  intros Hstep s s' H. unfold for_grid.
  apply fold_left_rel; [| exact H]. intros s1 s1' y H1.
  apply fold_left_rel; [| exact H1]. intros s2 s2' x H2.
  apply fold_left_rel; [| exact H2]. intros s3 s3' a H3. now apply Hstep.
Qed.

Section Immutable.

Variable imm : list Z.

Lemma validate_unresolved_immutable (st : game_state) (nobuf : bool)
    (cells : list Z) :
  forall ret,
    validate_unresolved (set_immutable st imm) nobuf cells ret
    = validate_unresolved st nobuf cells ret.
Proof.
  induction cells as [|i rest IH]; intros ret; cbn [validate_unresolved];
    [reflexivity |].
  change (resolved (set_immutable st imm) i) with (resolved st i).
  now rewrite !IH.
Qed.

Lemma validate_counts_immutable (st : game_state) (nf : bool)
    (cells : list Z) :
  forall counts ret,
    validate_counts (set_immutable st imm) nf cells counts ret
    = validate_counts st nf cells counts ret.
Proof.
  induction cells as [|i rest IH]; intros counts ret; cbn [validate_counts];
    [reflexivity |].
  change (resolved (set_immutable st imm) i) with (resolved st i).
  change (known (set_immutable st imm)) with (known st).
  now rewrite !IH.
Qed.

Lemma validate_row_immutable (st : game_state) (y : Z) (xs : list Z) :
  forall acc,
    validate_row (set_immutable st imm) y xs acc = validate_row st y xs acc.
Proof.
  induction xs as [|x rest IH]; intros acc; cbn [validate_row];
    [reflexivity |].
  change (resolved (set_immutable st imm) (y * w (set_immutable st imm) + x))
    with (resolved st (y * w st + x)).
  change (validate_dir (set_immutable st imm) x y) with (validate_dir st x y).
  now rewrite !IH.
Qed.

Lemma subsets_validate_immutable (st : game_state)
    (flags counts : option (list Z)) :
  subsets_validate (set_immutable st imm) flags counts
  = subsets_validate st flags counts.
Proof.
  unfold subsets_validate, validate_arrows.
  cbn [w h set_immutable].
  rewrite validate_unresolved_immutable.
  destruct (validate_unresolved st _ _ _) as [r | ret]; [reflexivity |].
  rewrite validate_counts_immutable.
  destruct (validate_counts st _ _ _ _) as [cnt ret'].
  rewrite (fold_left_ext_in
             (fun acc y => validate_row (set_immutable st imm) y
                             (zrange (w st)) acc)
             (fun acc y => validate_row st y (zrange (w st)) acc))
    by (intros; apply validate_row_immutable).
  reflexivity.
Qed.

Lemma subsets_solve_apply_arrows_immutable (st : game_state) :
  subsets_solve_apply_arrows (set_immutable st imm)
  = (fst (subsets_solve_apply_arrows st),
     set_immutable (snd (subsets_solve_apply_arrows st)) imm).
Proof.
  unfold subsets_solve_apply_arrows. cbn [w h set_immutable].
  apply (for_grid_rel
           (fun (r r' : Z * game_state) =>
              r = (fst r', set_immutable (snd r') imm))); [| reflexivity].
  intros x y s [k s'] a ->. cbn [fst snd]. unfold apply_arrows_step.
  cbn [w h clues known mask set_immutable set_known set_mask].
  destruct (negb (has _ _)); reflexivity.
Qed.

Lemma subsets_bits_from_cube_immutable (st : game_state) (cube : list bool) :
  subsets_bits_from_cube (set_immutable st imm) cube
  = (fst (subsets_bits_from_cube st cube),
     set_immutable (snd (subsets_bits_from_cube st cube)) imm).
Proof.
  unfold subsets_bits_from_cube. cbn [w h set_immutable].
  apply (fold_left_rel
           (fun (r r' : Z * game_state) =>
              r = (fst r', set_immutable (snd r') imm))); [| reflexivity].
  intros s [k s'] i ->. cbn [fst snd]. unfold bits_from_cube_step.
  cbn [n known mask set_immutable set_known set_mask].
  destruct (cube_bounds cube _ i). reflexivity.
Qed.

Lemma subsets_solve_single_position_immutable (st : game_state)
    (counts : list Z) (cube : list bool) :
  subsets_solve_single_position (set_immutable st imm) counts cube
  = (fst (subsets_solve_single_position st counts cube),
     set_immutable (snd (subsets_solve_single_position st counts cube)) imm).
Proof.
  unfold subsets_solve_single_position. cbn [n set_immutable].
  apply (fold_left_rel
           (fun (r r' : Z * game_state) =>
              r = (fst r', set_immutable (snd r') imm))); [| reflexivity].
  intros s [k s'] nj ->. cbn [fst snd]. unfold single_position_step.
  cbn [w h n known mask set_immutable set_known set_mask].
  destruct (negb _); [reflexivity |]. destruct (_ <? 0); reflexivity.
Qed.

Lemma solve_iteration_immutable (st : game_state) (cube : list bool) :
  solve_iteration (set_immutable st imm) cube
  = match solve_iteration st cube with
    | inl (st', cube') => inl (set_immutable st' imm, cube')
    | inr (r, st') => inr (r, set_immutable st' imm)
    end.
Proof.
  unfold solve_iteration. rewrite subsets_validate_immutable.
  destruct (negb (status_eqb _ _)); [reflexivity |].
  change (subsets_sync_cube (set_immutable st imm) cube)
    with (subsets_sync_cube st cube).
  set (counts := counts_of _). set (c0 := subsets_sync_cube st cube).
  change (subsets_cube_single_count (set_immutable st imm) counts c0)
    with (subsets_cube_single_count st counts c0).
  rewrite subsets_solve_apply_arrows_immutable.
  destruct (subsets_solve_apply_arrows st) as [k1 st1]. cbn [fst snd].
  destruct (negb (k1 =? 0)); [reflexivity |].
  set (c1 := subsets_cube_single_count st counts c0).
  change (subsets_disjoint (set_immutable st1 imm) c1)
    with (subsets_disjoint st1 c1).
  destruct (subsets_disjoint st1 c1) as [k2 c2].
  destruct (negb (k2 =? 0)); [reflexivity |].
  rewrite subsets_bits_from_cube_immutable.
  destruct (subsets_bits_from_cube st1 c2) as [k3 st3]. cbn [fst snd].
  destruct (negb (k3 =? 0)); [reflexivity |].
  rewrite subsets_solve_single_position_immutable.
  destruct (subsets_solve_single_position st3 counts c2) as [k4 st4].
  cbn [fst snd].
  destruct (negb (k4 =? 0)); [reflexivity |].
  change (subsets_solve_apply_arrows_advanced (set_immutable st4 imm) c2)
    with (subsets_solve_apply_arrows_advanced st4 c2).
  destruct (subsets_solve_apply_arrows_advanced st4 c2) as [k5 c5].
  destruct (negb (k5 =? 0)); reflexivity.
Qed.

Lemma solve_loop_immutable (fuel : nat) :
  forall st cube,
    solve_loop fuel (set_immutable st imm) cube
    = match solve_loop fuel st cube with
      | Some (r, st') => Some (r, set_immutable st' imm)
      | None => None
      end.
Proof.
  induction fuel as [|fuel IH]; intros st cube; [reflexivity |].
  cbn [solve_loop]. rewrite solve_iteration_immutable.
  destruct (solve_iteration st cube) as [[st1 c1] | [r st1]];
    [apply IH | reflexivity].
Qed.

End Immutable.

(** ** Loops that write one cell per round *)

Lemma fold_zrange_prefix {A : Type} (P : Z -> A -> Prop) (f : A -> Z -> A)
    (k : Z) (a : A) :
  0 <= k -> P 0 a ->
  (forall j s, 0 <= j < k -> P j s -> P (j + 1) (f s j)) ->
  P k (fold_left f (zrange k) a).
Proof.
  intros Hk H0 Hstep.
  assert (H : forall m : nat, Z.of_nat m <= k ->
                P (Z.of_nat m) (fold_left f (zrange (Z.of_nat m)) a)).
  { induction m as [|m IH]; intros Hm; [exact H0 |].
    replace (Z.of_nat (S m)) with (Z.of_nat m + 1) by lia.
    rewrite zrange_succ, fold_left_app by lia. cbn [fold_left].
    apply Hstep; [lia | apply IH; lia]. }
  specialize (H (Z.to_nat k)). rewrite Z2Nat.id in H by lia. apply H. lia.
Qed.

Lemma state_ext (a b : game_state) :
  w a = w b -> h a = h b -> n a = n b -> clues a = clues b ->
  immutable a = immutable b -> known a = known b -> mask a = mask b ->
  completed a = completed b -> cheated a = cheated b -> a = b.
Proof.
  destruct a, b. cbn. intros. subst. reflexivity.
Qed.

(** The reset leaves the cells that are fixed and blanks the others. *)
Lemma solve_reset_spec (st : game_state) :
  sized st ->
  forall i, 0 <= i < w st * h st ->
    get (known (solve_reset st)) i
    = (if get (immutable st) i =? 0 then 0 else get (known st) i)
    /\ get (mask (solve_reset st)) i
       = (if get (immutable st) i =? 0 then ALL_BITS (n st)
          else get (mask st) i).
Proof.
  intros [Lk Lm].
  assert (Hs : 0 <= w st * h st) by (rewrite <- Lk; unfold zlen; lia).
  unfold solve_reset.
  pose (P := fun (j : Z) (s : game_state) =>
    same_frame st s
    /\ forall i, 0 <= i < w st * h st ->
         get (known s) i
         = (if (i <? j) && (get (immutable st) i =? 0) then 0
            else get (known st) i)
         /\ get (mask s) i
            = (if (i <? j) && (get (immutable st) i =? 0) then ALL_BITS (n st)
               else get (mask st) i)).
  assert (HP : P (w st * h st)
                 (fold_left (fun st0 i =>
                    if negb (get (immutable st0) i =? 0) then st0
                    else set_mask (set_known st0 (set (known st0) i 0))
                                  (set (mask st0) i (ALL_BITS (n st0))))
                    (zrange (w st * h st)) st)).
  { apply fold_zrange_prefix; [exact Hs | |].
    - split; [apply same_frame_refl |]. intros i Hi.
      destruct (Z.ltb_spec i 0); [lia |]. cbn [andb]. auto.
    - intros j s Hj [F Hp].
      pose proof F as (_ & _ & En & _ & Ei & _ & _ & Lk' & Lm').
      rewrite Ei, En.
      destruct (Z.eqb_spec (get (immutable st) j) 0) as [E0 | E0]; cbn [negb].
      + split.
        * eapply same_frame_trans; [exact F |].
          unfold same_frame. cbn. rewrite !zlen_aset. tauto.
        * intros i Hi. cbn [known mask set_mask set_known].
          destruct (Hp i Hi) as [Hk Hm].
          destruct (Z.eq_dec i j) as [-> | Hne].
          -- rewrite !aget_aset_eq by lia.
             destruct (Z.ltb_spec j (j + 1)); [| lia].
             destruct (Z.eqb_spec (get (immutable st) j) 0); [| lia].
             cbn [andb]. auto.
          -- rewrite !aget_aset_neq by lia. rewrite Hk, Hm.
             destruct (Z.ltb_spec i j), (Z.ltb_spec i (j + 1)); try lia; auto.
      + split; [exact F |]. intros i Hi. destruct (Hp i Hi) as [Hk Hm].
        rewrite Hk, Hm.
        destruct (Z.ltb_spec i j), (Z.ltb_spec i (j + 1)); try lia; auto.
        assert (i = j) by lia. subst i.
        destruct (Z.eqb_spec (get (immutable st) j) 0); [lia |]. auto. }
  destruct HP as [_ HP]. intros i Hi. destruct (HP i Hi) as [Hk Hm].
  rewrite Hk, Hm. destruct (Z.ltb_spec i (w st * h st)); [| lia]. auto.
Qed.

(** ** A board filled with its solution is complete *)

Lemma count_value_two (st : game_state) (cells : list Z) (v : Z) :
  NoDup cells -> 2 <= count_value st cells v ->
  exists i j, In i cells /\ In j cells /\ i <> j
              /\ get (known st) i = v /\ get (known st) j = v.
Proof.
  induction cells as [|c rest IH]; intros Hnd H.
  - cbn in H. lia.
  - rewrite count_value_cons in H. inversion Hnd as [| ? ? Hnotin Hnd']. subst.
    destruct (resolved st c && (get (known st) c =? v)) eqn:E.
    + apply andb_true_iff in E as [_ E]. apply Z.eqb_eq in E.
      destruct (count_value_witness st rest v) as (j & Hj & _ & Ej); [lia |].
      exists c, j. repeat split; auto; [now left | now right |].
      intros ->. contradiction.
    + destruct IH as (i & j & Hi & Hj & Hne & Ei & Ej); [assumption | lia |].
      exists i, j. repeat split; auto; now right.
Qed.

Lemma solved_board_complete (st : game_state) (sol : list Z) :
  solution st sol ->
  (forall i, 0 <= i < w st * h st ->
             get (known st) i = get sol i /\ get (mask st) i = get sol i) ->
  worst_status st = STATUS_COMPLETE.
Proof.
  intros Hsol Hv. unfold worst_status.
  assert (Hdup : has_duplicate st = false).
  { destruct (has_duplicate st) eqn:E; [exfalso | reflexivity].
    apply has_duplicate_spec in E as (v & _ & Hc).
    apply count_value_two in Hc as (i & j & Hi & Hj & Hne & Ei & Ej);
      [| apply zrange_nodup].
    apply in_zrange in Hi, Hj. destruct Hsol as (_ & _ & Hinj & _).
    apply Hne, Hinj; auto.
    destruct (Hv i Hi) as [<- _]. destruct (Hv j Hj) as [<- _]. congruence. }
  assert (Hedge : has_edge_violation st = false).
  { destruct (has_edge_violation st) eqn:E; [exfalso | reflexivity].
    unfold has_edge_violation in E. apply existsb_exists in E
      as ([[y x] a] & Hin & E).
    apply in_grid_triples in Hin as (Hy & Hx & Ha).
    unfold on_triple in E. cbn [fst snd] in E.
    pose proof (edge_violated_in_grid st y x a E) as [Hx2 Hy2].
    unfold edge_violated in E. cbn zeta in E.
    apply andb_true_iff in E as [E Hcase].
    apply andb_true_iff in E as [E _]. apply andb_true_iff in E as [E _].
    assert (Hi : 0 <= y * w st + x < w st * h st)
      by (apply cell_index_range; lia).
    assert (Hj : 0 <= (y + adj_dy a) * w st + (x + adj_dx a) < w st * h st)
      by (apply cell_index_range; lia).
    destruct (Hv _ Hi) as [Ei _]. destruct (Hv _ Hj) as [Ej _].
    rewrite Ei, Ej in *.
    destruct (has (get (clues st) (y * w st + x)) (adj_f a)) eqn:Hc.
    - destruct (solution_arrow st sol x y a Hsol Hx Hy Ha Hc) as [_ Hsub].
      unfold subset in Hsub. rewrite Z.land_comm in Hsub.
      rewrite Hsub, Z.eqb_refl in Hcase. discriminate.
    - destruct (has (get (clues st) ((y + adj_dy a) * w st + (x + adj_dx a)))
                    (adj_fo a)) eqn:Hc'; [discriminate |].
      pose proof (solution_no_arrow st sol x y a Hsol Hx Hy Ha E Hc Hc') as Hn.
      unfold comparable in Hn. congruence. }
  rewrite Hdup, Hedge. cbn [orb].
  assert (Hall : all_resolved st = true).
  { unfold all_resolved. apply forallb_forall. intros i Hi.
    apply in_zrange in Hi. unfold resolved. destruct (Hv i Hi) as [-> ->].
    apply Z.eqb_refl. }
  now rewrite Hall.
Qed.

(** The solver returns such a board at once, whatever cells are fixed in
    it as long as the reset leaves it alone. *)
Lemma solve_loop_solved (st : game_state) (cube : list bool) (fuel : nat) :
  wf_board st -> worst_status st = STATUS_COMPLETE ->
  solve_loop (S fuel) st cube = Some (STATUS_COMPLETE, st).
Proof.
  intros Hwf Hc. cbn [solve_loop]. unfold solve_iteration.
  assert (Hall : all_resolved st = true).
  { unfold worst_status in Hc. destruct (_ || _); [discriminate |].
    destruct (all_resolved st); [reflexivity | discriminate]. }
  pose proof (validate_full_status st None (Some []) Hwf) as E.
  unfold status_of in E. rewrite E by (rewrite Hall; reflexivity).
  rewrite Hc. reflexivity.
Qed.

(** ** The generator's full board *)

Lemma for_grid_triples {S : Type} (wd ht : Z) (body : Z -> Z -> S -> adj -> S)
    (s0 : S) :
  for_grid wd ht body s0
  = fold_left (fun s (t : Z * Z * adj) =>
                 body (snd (fst t)) (fst (fst t)) s (snd t))
              (grid_triples wd ht) s0.
Proof.
  unfold for_grid, grid_triples. rewrite fold_left_flat_map.
  apply fold_left_ext_in. intros s y _. rewrite fold_left_flat_map.
  apply fold_left_ext_in. intros s' x _. now rewrite fold_left_map.
Qed.

Lemma gen_clue_step_eq (st : game_state) (x y : Z) (a : adj) :
  gen_clue_step x y st a
  = if gen_edge st y x a
    then set_clues st (set (clues st) (y * w st + x)
                           (Z.lor (get (clues st) (y * w st + x)) (adj_f a)))
    else st.
Proof.
  unfold gen_clue_step, gen_edge. rewrite in_grid_spec.
  destruct (_ || _); cbn [negb andb]; [reflexivity |].
  replace (y * w st + x + adj_dy a * w st + adj_dx a)
    with ((y + adj_dy a) * w st + (x + adj_dx a)) by ring.
  reflexivity.
Qed.

(** The arrows left by a run of the generator's edge tests. *)
Lemma gen_clue_steps (l : list (Z * Z * adj)) :
  forall st,
    zlen (clues st) = w st * h st ->
    (forall y x a, In (y, x, a) l -> 0 <= x < w st /\ 0 <= y < h st) ->
    let st' := fold_left (fun s (t : Z * Z * adj) =>
                 gen_clue_step (snd (fst t)) (fst (fst t)) s (snd t)) l st in
    (w st' = w st /\ h st' = h st /\ n st' = n st
     /\ immutable st' = immutable st /\ known st' = known st
     /\ mask st' = mask st /\ completed st' = completed st
     /\ cheated st' = cheated st)
    /\ zlen (clues st') = w st * h st
    /\ forall i g,
         has (get (clues st') i) g
         = has (get (clues st) i) g
           || existsb (fun t => on_triple (gen_edge st) t
                                && (triple_cell st t =? i)
                                && has (adj_f (snd t)) g) l.
Proof.
  induction l as [|[[y x] a] l IH]; intros st Hlen Hin.
  - cbn. repeat split; auto. intros. now rewrite orb_false_r.
  - cbn [fold_left existsb fst snd]. unfold on_triple at 1, triple_cell at 1.
    cbn [fst snd]. rewrite gen_clue_step_eq.
    destruct (Hin y x a (or_introl eq_refl)) as [Hx Hy].
    pose proof (cell_index_range (w st) (h st) x y Hx Hy) as Hi.
    assert (Hin' : forall y' x' a', In (y', x', a') l ->
                     0 <= x' < w st /\ 0 <= y' < h st).
    { intros y' x' a' H'. apply (Hin y' x' a'). now right. }
    destruct (gen_edge st y x a) eqn:G; cbn [andb].
    + set (st1 := set_clues st _).
      destruct (IH st1) as (F & L & Hh).
      { subst st1. cbn [clues set_clues w h]. now rewrite zlen_aset. }
      { exact Hin'. }
      split; [exact F |]. split; [exact L |].
      intros i g. rewrite Hh. subst st1. cbn [clues set_clues].
      change (fun t : Z * Z * adj =>
                on_triple (gen_edge (set_clues st ?c)) t
                && (triple_cell (set_clues st ?c) t =? i)
                && has (adj_f (snd t)) g)
        with (fun t : Z * Z * adj =>
                on_triple (gen_edge st) t && (triple_cell st t =? i)
                && has (adj_f (snd t)) g).
      destruct (Z.eqb_spec (y * w st + x) i) as [<- | Hne].
      * rewrite aget_aset_eq by lia. rewrite has_lor.
        cbn [andb]. now rewrite orb_assoc.
      * rewrite aget_aset_neq by assumption. reflexivity.
    + destruct (IH st Hlen Hin') as (F & L & Hh). auto.
Qed.

Lemma lor_bound (k a b : Z) :
  0 <= k -> 0 <= a < 2 ^ k -> 0 <= b < 2 ^ k -> 0 <= Z.lor a b < 2 ^ k.
Proof.
  intros Hk Ha Hb.
  assert (Hn : 0 <= Z.lor a b) by (apply Z.lor_nonneg; lia).
  split; [exact Hn |].
  assert (E : Z.lor a b mod 2 ^ k = Z.lor a b).
  { apply Z.bits_inj'. intros i Hi.
    destruct (Z.ltb_spec i k).
    - apply Z.mod_pow2_bits_low. lia.
    - rewrite Z.mod_pow2_bits_high by lia.
      rewrite Z.lor_spec.
      rewrite <- (Z.mod_small a (2 ^ k)), <- (Z.mod_small b (2 ^ k)) by lia.
      now rewrite !Z.mod_pow2_bits_high by lia. }
  rewrite <- E. apply Z.mod_pos_bound. lia.
Qed.

Lemma adj_f_range (a : adj) : In a adjthan -> 0 <= adj_f a < 16.
Proof.
  intros [<- | [<- | [<- | [<- | []]]]]; cbn;
    unfold F_ADJ_UP, F_ADJ_RIGHT, F_ADJ_DOWN, F_ADJ_LEFT; lia.
Qed.

Lemma gen_clues_spec (st : game_state) :
  zlen (clues st) = w st * h st -> (forall i, get (clues st) i = 0) ->
  (w (gen_clues st) = w st /\ h (gen_clues st) = h st /\ n (gen_clues st) = n st
   /\ immutable (gen_clues st) = immutable st /\ known (gen_clues st) = known st
   /\ mask (gen_clues st) = mask st /\ completed (gen_clues st) = completed st
   /\ cheated (gen_clues st) = cheated st)
  /\ zlen (clues (gen_clues st)) = w st * h st
  /\ (forall x y a, 0 <= x < w st -> 0 <= y < h st -> In a adjthan ->
        has (get (clues (gen_clues st)) (y * w st + x)) (adj_f a)
        = gen_edge st y x a)
  /\ forall i, 0 <= get (clues (gen_clues st)) i < 16.
Proof.
  intros Hlen H0.
  assert (Hrange : forall i, 0 <= get (clues (gen_clues st)) i < 16).
  { unfold gen_clues.
    apply (for_grid_inv (fun s => forall i, 0 <= get (clues s) i < 16)).
    - intros i. rewrite H0. lia.
    - intros x y s a _ _ Ha Hs i. rewrite gen_clue_step_eq.
      destruct (gen_edge s y x a); [| apply Hs]. cbn [clues set_clues].
      destruct (aget_aset_cases 0 (clues s) (y * w s + x) i
                  (Z.lor (get (clues s) (y * w s + x)) (adj_f a)))
        as [(_ & _ & E) | (_ & E)]; rewrite E; [| apply Hs].
      apply (lor_bound 4); [lia | apply Hs | now apply adj_f_range]. }
  unfold gen_clues in *. rewrite for_grid_triples in *.
  destruct (gen_clue_steps (grid_triples (w st) (h st)) st Hlen)
    as (F & L & Hh).
  { intros y x a H. apply in_grid_triples in H. tauto. }
  split; [exact F |]. split; [exact L |]. split; [| exact Hrange].
  intros x y a Hx Hy Ha. rewrite Hh, H0.
  change (has 0 (adj_f a)) with false. cbn [orb].
  apply eq_true_iff_eq. rewrite existsb_exists. split.
  - intros ([[y' x'] a'] & Hin & H).
    apply andb_true_iff in H as [H Hg]. apply andb_true_iff in H as [Hf Hc].
    unfold on_triple, triple_cell in *. cbn [fst snd] in *.
    apply in_grid_triples in Hin as (Hy' & Hx' & Ha').
    apply Z.eqb_eq in Hc.
    destruct (cell_index_inj (w st) x' y' x y Hx' Hx Hc) as [-> ->].
    now rewrite <- (adj_f_inj a' a Ha' Ha Hg).
  - intros Hf. exists (y, x, a). split.
    + apply in_grid_triples. auto.
    + unfold on_triple, triple_cell. cbn [fst snd].
      rewrite Hf, Z.eqb_refl, adj_f_self by assumption. reflexivity.
Qed.

Lemma gen_masks_spec (st : game_state) :
  0 <= n st ->
  zlen (known st) = Z.shiftl 1 (n st) -> zlen (mask st) = Z.shiftl 1 (n st) ->
  gen_masks st = set_mask st (known st).
Proof.
  intros Hn Lk Lm. unfold gen_masks.
  set (k := Z.shiftl 1 (n st)) in *.
  assert (Hk : 0 <= k) by (rewrite <- Lk; unfold zlen; lia).
  pose (P := fun (j : Z) (s : game_state) =>
    w s = w st /\ h s = h st /\ n s = n st /\ clues s = clues st
    /\ immutable s = immutable st /\ known s = known st
    /\ completed s = completed st /\ cheated s = cheated st
    /\ zlen (mask s) = k
    /\ forall i, 0 <= i < k ->
         get (mask s) i = if i <? j then get (known st) i else get (mask st) i).
  assert (HP : P k (fold_left
                      (fun s i => set_mask s (set (mask s) i (get (known s) i)))
                      (zrange k) st)).
  { apply fold_zrange_prefix; [exact Hk | |].
    - unfold P. repeat split; auto. intros i Hi.
      destruct (Z.ltb_spec i 0); [lia | reflexivity].
    - intros j s Hj (Ew & Eh & En & Ec & Ei & Ekn & Eco & Ech & L & Hp).
      unfold P. cbn [w h n clues immutable known mask completed cheated set_mask].
      rewrite zlen_aset. repeat split; auto. intros i Hi. rewrite Ekn.
      destruct (Z.eq_dec i j) as [-> | Hne].
      + rewrite aget_aset_eq by lia.
        destruct (Z.ltb_spec j (j + 1)); [reflexivity | lia].
      + rewrite aget_aset_neq by lia. rewrite Hp by assumption.
        destruct (Z.ltb_spec i j), (Z.ltb_spec i (j + 1)); try lia; auto. }
  destruct HP as (Ew & Eh & En & Ec & Ei & Ekn & Eco & Ech & L & Hp).
  apply state_ext; cbn [w h n clues immutable known mask completed cheated
                         set_mask]; auto.
  apply list_get_ext; [congruence |]. intros i Hi. rewrite L in Hi.
  rewrite Hp by assumption. destruct (Z.ltb_spec i k); [reflexivity | lia].
Qed.

Lemma wf_board_intro (st : game_state) :
  (0 < w st /\ 0 < h st /\ 0 <= n st <= 30 /\ w st * h st = 2 ^ n st)
  /\ (zlen (clues st) = w st * h st /\ zlen (immutable st) = w st * h st
      /\ zlen (known st) = w st * h st /\ zlen (mask st) = w st * h st)
  /\ (forallb is_uint (clues st) = true /\ forallb is_uint (immutable st) = true
      /\ forallb is_uint (known st) = true
      /\ forallb (fun v => (0 <=? v) && (v <=? ALL_BITS (n st))) (mask st) = true)
  /\ clues_in_grid st = true ->
  wf_board st.
Proof.
  unfold wf_board, wf_boardb. rewrite !andb_true_iff.
  rewrite !Z.ltb_lt, !Z.leb_le, !Z.eqb_eq. tauto.
Qed.

(** An array that is a permutation of [0 .. k-1]. *)
Lemma perm_values (kn : list Z) (k : Z) :
  0 <= k -> Permutation kn (zrange k) ->
  zlen kn = k
  /\ (forall v, In v kn -> 0 <= v < k)
  /\ (forall i, 0 <= i < k -> 0 <= get kn i < k)
  /\ (forall i j, 0 <= i < k -> 0 <= j < k -> get kn i = get kn j -> i = j)
  /\ (forall v, 0 <= v < k -> exists i, 0 <= i < k /\ get kn i = v).
Proof.
  intros Hk Hp.
  assert (Hlen : zlen kn = k).
  { unfold zlen. rewrite (Permutation_length Hp), zrange_length. lia. }
  assert (Hin : forall v, In v kn -> 0 <= v < k).
  { intros v Hv. apply in_zrange. eapply Permutation_in; eauto. }
  assert (Hnd : NoDup kn).
  { eapply Permutation_NoDup; [apply Permutation_sym; exact Hp |].
    apply zrange_nodup. }
  unfold zlen in Hlen.
  split; [exact Hlen |]. split; [exact Hin |]. split; [| split].
  - intros i Hi. apply Hin. rewrite <- (Z2Nat.id i) by lia.
    rewrite aget_nat. apply nth_In. lia.
  - intros i j Hi Hj E.
    rewrite <- (Z2Nat.id i), <- (Z2Nat.id j), !aget_nat in E by lia.
    rewrite NoDup_nth in Hnd. apply Hnd in E; lia.
  - intros v Hv.
    assert (Hv' : In v kn).
    { eapply Permutation_in; [apply Permutation_sym; exact Hp |].
      now apply in_zrange. }
    apply (In_nth _ _ 0) in Hv' as (m & Hm & E).
    exists (Z.of_nat m). split; [lia |]. now rewrite aget_nat.
Qed.

(** The board on which the generator has drawn its arrows: well formed,
    and the shuffled values are a solution of it. *)
Lemma gen_board_facts (st : game_state) :
  w st = 4 -> h st = 4 -> n st = 4 ->
  clues st = repeat 0 16 -> immutable st = repeat 1 16 ->
  Permutation (known st) (zrange 16) -> mask st = known st ->
  wf_board (gen_clues st) /\ solution (gen_clues st) (known st)
  /\ (forall i, 0 <= get (clues (gen_clues st)) i < 16).
Proof.
  intros Ew Eh En Ec Ei Hp Em.
  destruct (perm_values (known st) 16) as (Lk & Hin & Hr & Hinj & Hsur);
    [lia | exact Hp |].
  destruct (gen_clues_spec st) as ((Ew' & Eh' & En' & Ei' & Ek' & Em' & _) & L & Hc & Hcr).
  { rewrite Ec, Ew, Eh. reflexivity. }
  { intros i. rewrite Ec. unfold aget. destruct (i <? 0); [reflexivity |].
    destruct (Nat.lt_ge_cases (Z.to_nat i) 16) as [Hlt | Hge].
    - now apply nth_repeat_lt.
    - apply nth_overflow. rewrite repeat_length. exact Hge. }
  rewrite Ew, Eh in *.
  split; [| split; [| exact Hcr]].
  - apply wf_board_intro. rewrite Ew', Eh', En', Ei', Ek', Em'.
    rewrite L, Ei, Em, Lk, En.
    split; [cbn; lia |]. split; [cbn; auto |]. split.
    + split; [| split; [| split]].
      * apply (forallb_of_aget is_uint 0). intros i. specialize (Hcr i).
        unfold is_uint. apply andb_true_iff. rewrite Z.leb_le, Z.ltb_lt. lia.
      * reflexivity.
      * apply forallb_forall. intros v Hv. apply Hin in Hv.
        unfold is_uint. apply andb_true_iff. rewrite Z.leb_le, Z.ltb_lt. lia.
      * apply forallb_forall. intros v Hv. apply Hin in Hv.
        apply andb_true_iff. rewrite Z.leb_le, Z.leb_le.
        change (ALL_BITS 4) with 15. lia.
    + unfold clues_in_grid. apply forallb_forall. intros [[y x] a] Ht.
      rewrite Ew', Eh' in *.
      apply in_grid_triples in Ht as (Hy & Hx & Ha).
      rewrite Hc by assumption. unfold gen_edge, in_grid. rewrite Ew, Eh.
      destruct ((0 <=? x + adj_dx a) && (x + adj_dx a <? 4)
                && (0 <=? y + adj_dy a) && (y + adj_dy a <? 4));
        [apply orb_true_r | reflexivity].
  - unfold solution, in_grid. rewrite Ew', Eh', En', En.
    change (Z.shiftl 1 4) with 16. change (4 * 4) with 16.
    split; [exact Lk |]. split; [exact Hr |]. split; [exact Hinj |].
    split; [exact Hsur |].
    intros x y a Hx Hy Ha. rewrite Hc by assumption.
    unfold gen_edge, in_grid. rewrite Ew, Eh. reflexivity.
Qed.

Lemma valid_params_default (params : game_params) :
  validate_params params = None -> params = default_params.
Proof.
  destruct params as [pw ph pn]. unfold validate_params. cbn [p_w p_h p_n].
  destruct (Z.eqb_spec pw 4), (Z.eqb_spec ph 4), (Z.eqb_spec pn 4);
    cbn [negb orb]; try discriminate.
  intros _. subst. reflexivity.
Qed.

Section GeneratorFacts.

Variable random_state : Type.
Variable shuffle : list Z -> random_state -> list Z * random_state.
Hypothesis shuffle_perm : forall l rs, Permutation (fst (shuffle l rs)) l.

Lemma gen_solution_facts (rs : random_state) :
  let G := fst (gen_solution random_state shuffle default_params rs) in
  (w G = 4 /\ h G = 4 /\ n G = 4)
  /\ wf_board G /\ solution G (known G)
  /\ mask G = known G /\ immutable G = repeat 1 16
  /\ completed G = false /\ cheated G = false
  /\ Permutation (known G) (zrange 16)
  /\ forall i, 0 <= get (clues G) i < 16.
Proof.
  unfold gen_solution.
  assert (E0 : gen_fill (blank_game default_params)
               = mkState 4 4 4 (repeat 0 16) (repeat 1 16) (zrange 16)
                         (repeat 15 16) false false)
    by (vm_compute; reflexivity).
  rewrite E0. unfold shuffle_prefix. cbn [known n].
  change (firstn (Z.to_nat (Z.shiftl 1 4)) (zrange 16)) with (zrange 16).
  change (skipn (Z.to_nat (Z.shiftl 1 4)) (zrange 16)) with (@nil Z).
  pose proof (shuffle_perm (zrange 16) rs) as Hp.
  destruct (shuffle (zrange 16) rs) as [kn rs']. cbn [fst] in *.
  rewrite app_nil_r.
  destruct (perm_values kn 16) as (Lk & _); [lia | exact Hp |].
  set (S1 := set_known _ kn).
  rewrite (gen_masks_spec S1)
    by (subst S1; cbn; first [lia | exact Lk | reflexivity]).
  set (S0 := set_mask S1 (known S1)).
  destruct (gen_board_facts S0) as (Hwf & Hsol & Hcr);
    try reflexivity; [exact Hp |].
  destruct (gen_clues_spec S0)
    as ((Ew & Eh & En & Ei & Ek & Em & Eco & Ech) & _); try reflexivity.
  { intros i. subst S0 S1. cbn [clues set_mask set_known].
    unfold aget. destruct (i <? 0); [reflexivity |].
    destruct (Nat.lt_ge_cases (Z.to_nat i) 16) as [Hlt | Hge].
    - now apply nth_repeat_lt.
    - apply nth_overflow. rewrite repeat_length. exact Hge. }
  change (known S0) with kn in *. change (mask S0) with kn in *.
  rewrite Ek.
  split; [split; [exact Ew | split; [exact Eh | exact En]] |].
  split; [exact Hwf |]. split; [exact Hsol |]. split; [exact Em |].
  split; [exact Ei |]. split; [exact Eco |]. split; [exact Ech |].
  split; [exact Hp | exact Hcr].
Qed.

End GeneratorFacts.

(** ** The un-fixing loop *)

Lemma aset_same (l : list Z) (i : Z) : aset l i (get l i) = l.
Proof.
  apply list_get_ext; [apply zlen_aset |]. intros j _.
  destruct (aget_aset_cases 0 l i j (get l i)) as [(-> & _ & E) | (_ & E)];
    exact E.
Qed.

Lemma aset_restore (l : list Z) (i u : Z) : aset (aset l i u) i (get l i) = l.
Proof.
  apply list_get_ext; [now rewrite !zlen_aset |]. intros j _.
  destruct (aget_aset_cases 0 (aset l i u) i j (get l i))
    as [(-> & _ & E) | ([Hne | Hout] & E)]; rewrite E; [reflexivity | |].
  - now apply aget_aset_neq.
  - rewrite zlen_aset in Hout. now rewrite aset_out.
Qed.

Lemma set_immutable_same (st : game_state) :
  set_immutable st (immutable st) = st.
Proof. now destruct st. Qed.

Lemma gen_minify_unfixed (G : game_state) (spaces : list Z) :
  forall st,
    unfixed_from G st ->
    exists st', gen_minify st spaces = Some st' /\ unfixed_from G st'.
Proof.
  induction spaces as [|i rest IH]; intros st Hinv; [now exists st |].
  cbn [gen_minify].
  pose proof Hinv as (Hwf & Ew & Eh & En & Ec & Ek & Em & Eco & Ech & Himm
                      & solved & Hsolved).
  set (st1 := set_immutable st (set (immutable st) i 0)).
  assert (Hwf1 : wf_board st1).
  { apply wf_board_unfold in Hwf as (Hd & (Lc & Li & Lk & Lm)
                                      & (Uc & Ui & Uk & Um) & Hg).
    apply wf_board_intro. subst st1.
    cbn [w h n clues immutable known mask set_immutable].
    rewrite zlen_aset. repeat split; try tauto.
    now apply forallb_aset. }
  rewrite (dup_game_wf st1 Hwf1).
  destruct (subsets_solve_game_total st1 Hwf1) as (r & st' & Hrun & _).
  rewrite Hrun.
  destruct (status_eqb r STATUS_COMPLETE) eqn:Er; cbn [negb].
  - apply status_eqb_eq in Er. subst r. apply IH.
    unfold unfixed_from. split; [exact Hwf1 |].
    subst st1. cbn [w h n clues immutable known mask completed cheated
                     set_immutable].
    repeat (split; [assumption |]). split.
    + intros j.
      destruct (aget_aset_cases 0 (immutable st) i j 0) as [(_ & _ & E) | (_ & E)];
        rewrite E; [now left | apply Himm].
    + exists st'. rewrite dup_game_wf; assumption.
  - assert (Hi : get (immutable st) i = 1).
    { destruct (Himm i) as [E0 | E1]; [exfalso | exact E1].
      assert (E : st1 = st).
      { subst st1. rewrite <- E0, aset_same. apply set_immutable_same. }
      rewrite E, <- (dup_game_wf st Hwf), Hsolved in Hrun.
      injection Hrun as <- _. discriminate. }
    assert (E : set_immutable st1 (set (immutable st1) i 1) = st).
    { subst st1. cbn [immutable set_immutable]. rewrite <- Hi, aset_restore.
      destruct st; reflexivity. }
    rewrite E. now apply IH.
Qed.

Lemma solve_reset_fixed (st : game_state) :
  (forall i, 0 <= i < w st * h st -> get (immutable st) i <> 0) ->
  solve_reset st = st.
Proof.
  intros H. unfold solve_reset.
  apply (fold_left_inv (fun s => s = st)); [reflexivity |].
  intros s i Hi ->. apply in_zrange in Hi.
  destruct (Z.eqb_spec (get (immutable st) i) 0) as [E | E]; [| reflexivity].
  now apply H in E.
Qed.

Lemma solve_fuel_succ (st : game_state) :
  wf_board st -> exists fuel, solve_fuel st = S fuel.
Proof.
  intros H. apply wf_board_unfold in H as ((Hw & Hh & Hn & Hs) & _).
  unfold solve_fuel. rewrite Z.shiftl_1_l.
  assert (0 < 2 ^ n st) by (apply Z.pow_pos_nonneg; lia).
  exists (Z.to_nat (w st * h st * 2 ^ n st + 64 * (w st * h st))).
  rewrite <- Z2Nat.inj_succ by nia. reflexivity.
Qed.

(** The solver completes a board whose cells are all fixed to a solution. *)
Lemma solve_full_board (st : game_state) (sol : list Z) :
  wf_board st -> solution st sol ->
  (forall i, 0 <= i < w st * h st ->
             get (known st) i = get sol i /\ get (mask st) i = get sol i) ->
  (forall i, 0 <= i < w st * h st -> get (immutable st) i <> 0) ->
  subsets_solve_game st = Some (STATUS_COMPLETE, st).
Proof.
  intros Hwf Hsol Hv Hi. unfold subsets_solve_game.
  rewrite (solve_reset_fixed st Hi).
  destruct (solve_fuel_succ st Hwf) as [fuel ->].
  apply solve_loop_solved; [exact Hwf |].
  eapply solved_board_complete; eauto.
Qed.

Lemma aget_repeat_cases (v : Z) (k : nat) (i : Z) :
  get (repeat v k) i = 0 \/ get (repeat v k) i = v.
Proof.
  destruct (Z_lt_dec i 0) as [Hn | Hn].
  - left. apply aget_out. unfold zlen. lia.
  - destruct (Z_lt_dec i (Z.of_nat k)) as [Hl | Hl].
    + right. apply aget_repeat. lia.
    + left. apply aget_out. unfold zlen. rewrite repeat_length. lia.
Qed.

(** ** Reading back a description *)

Lemma digits_value_stop (p : string) (acc : Z) :
  head_digit p = false -> digits_value p acc = acc.
Proof. destruct p as [|c r]; cbn; [reflexivity |]. now intros ->. Qed.

Lemma skip_digits_stop (p : string) :
  head_digit p = false -> skip_digits p = p.
Proof. destruct p as [|c r]; cbn; [reflexivity |]. now intros ->. Qed.

Lemma digits_value_app (s rest : string) :
  all_chars is_digit s = true -> head_digit rest = false ->
  forall acc, digits_value (s +++ rest) acc = digits_value s acc.
Proof.
  intros Hs Hr. induction s as [|c s IH]; intros acc; cbn.
  - now apply digits_value_stop.
  - cbn in Hs. apply andb_true_iff in Hs as [Hc Hs]. rewrite Hc. now apply IH.
Qed.

Lemma skip_digits_app (s rest : string) :
  all_chars is_digit s = true -> head_digit rest = false ->
  skip_digits (s +++ rest) = rest.
Proof.
  intros Hs Hr. induction s as [|c s IH]; cbn.
  - now apply skip_digits_stop.
  - cbn in Hs. apply andb_true_iff in Hs as [Hc Hs]. rewrite Hc. now apply IH.
Qed.

Lemma digit_code (c : ascii) :
  is_digit c = true -> (48 <= nat_of_ascii c <= 57)%nat.
Proof.
  unfold is_digit. rewrite andb_true_iff, !Nat.leb_le. tauto.
Qed.

(** A number within the range of [int] is read as it is written. *)
Lemma int_of_long_clamp_small (v : Z) :
  - 2 ^ 31 <= v < 2 ^ 31 -> int_of_long (clamp_long v) = v.
Proof.
  intros Hv. unfold clamp_long, LONG_MIN, LONG_MAX, int_of_long, to_int, to_uint.
  change (2 ^ 31) with 2147483648 in *.
  change (2 ^ 32) with 4294967296.
  change (2 ^ 63) with 9223372036854775808.
  rewrite Z.min_r, Z.max_r by lia.
  destruct (Z.ltb_spec (v mod 4294967296) 2147483648) as [H | H].
  - destruct (Z_lt_le_dec v 0) as [Hn | Hn].
    + replace v with (v + 4294967296 - 1 * 4294967296) in H by ring.
      rewrite Zminus_mod, Z_mod_mult, Z.sub_0_r, Z.mod_mod in H by lia.
      rewrite Z.mod_small in H by lia. lia.
    + apply Z.mod_small. lia.
  - destruct (Z_lt_le_dec v 0) as [Hn | Hn].
    + replace v with (v + 4294967296 - 1 * 4294967296) at 1 by ring.
      rewrite Zminus_mod, Z_mod_mult, Z.sub_0_r, Z.mod_mod by lia.
      rewrite Z.mod_small by lia. lia.
    + rewrite Z.mod_small in H by lia. lia.
Qed.

Lemma atoi_digit (c : ascii) (r : string) :
  is_digit c = true ->
  atoi (String c r) = int_of_long (clamp_long (digits_value (String c r) 0)).
Proof.
  intros Hc. apply digit_code in Hc. unfold atoi.
  assert (Hs : is_space c = false).
  { unfold is_space. apply orb_false_iff. split.
    - apply Nat.eqb_neq. lia.
    - apply andb_false_iff. right. apply Nat.leb_gt. lia. }
  cbn [skip_spaces]. rewrite Hs. cbn [head_is].
  destruct (Ascii.eqb_spec c "-") as [-> | _]; [cbn in Hc; lia |].
  destruct (Ascii.eqb_spec c "+") as [-> | _]; [cbn in Hc; lia |].
  reflexivity.
Qed.

Lemma digits_round_trip_16 : forallb digits_round_trip (zrange 16) = true.
Proof. vm_compute. reflexivity. Qed.

Lemma letters_round_trip_16 : forallb letters_round_trip (zrange 16) = true.
Proof. vm_compute. reflexivity. Qed.

(** A number of the description, read by [load_value]. *)
Lemma load_value_number (st : game_state) (i v : Z) (rest : string) :
  n st = 4 -> 0 <= v < 16 -> head_digit rest = false ->
  load_value st i (print_int (to_int v) +++ rest)
  = inr (set_immutable
           (set_mask (set_known st (set (known st) i v)) (set (mask st) i v))
           (set (immutable st) i 15),
         rest).
Proof.
  intros Hn Hv Hr.
  pose proof digits_round_trip_16 as H. rewrite forallb_forall in H.
  specialize (H v (proj2 (in_zrange 16 v) Hv)). unfold digits_round_trip in H.
  destruct (print_int (to_int v)) as [|c r]; [discriminate |].
  apply andb_true_iff in H as [H Hval]. apply andb_true_iff in H as [Hc Hds].
  apply Z.eqb_eq in Hval.
  assert (Hall : all_chars is_digit (String c r) = true)
    by (cbn; now rewrite Hc, Hds).
  assert (Hat : atoi (String c r +++ rest) = v).
  { change (String c r +++ rest) with (String c (r +++ rest)).
    rewrite atoi_digit by assumption.
    change (String c (r +++ rest)) with (String c r +++ rest).
    rewrite digits_value_app by assumption. rewrite Hval.
    apply int_of_long_clamp_small. change (2 ^ 31) with 2147483648. lia. }
  assert (Hsk : skip_digits (String c r +++ rest) = rest)
    by (now apply skip_digits_app).
  change (String c r +++ rest) with (String c (r +++ rest)) in *.
  unfold load_value. rewrite Hc, Hat, Hsk.
  cbn [n mask known immutable set_mask set_known set_immutable].
  rewrite Hn. change (ALL_BITS 4) with 15.
  assert (Eu : to_uint v = v) by (unfold to_uint; apply Z.mod_small; lia).
  rewrite Eu.
  destruct (Z.ltb_spec v 0); [lia |].
  destruct (Z.gtb_spec v 15); [lia |]. reflexivity.
Qed.

Lemma load_flags_stop (st : game_state) (i : Z) (p : string) :
  head_flag p = false -> load_flags st i p = inr (st, p).
Proof.
  destruct p as [|c r]; cbn [load_flags head_flag]; [reflexivity |].
  unfold is_flag_letter. now intros ->.
Qed.

(** A run of letters of the description, read by [load_flags]. *)
Lemma load_flags_letters (i : Z) (s rest : string) :
  all_chars is_flag_letter s = true -> head_flag rest = false ->
  forall st,
    0 <= i < zlen (clues st) ->
    exists st',
      load_flags st i (s +++ rest) = inr (st', rest)
      /\ (w st' = w st /\ h st' = h st /\ n st' = n st
          /\ immutable st' = immutable st /\ known st' = known st
          /\ mask st' = mask st /\ completed st' = completed st
          /\ cheated st' = cheated st)
      /\ zlen (clues st') = zlen (clues st)
      /\ forall j,
           get (clues st') j
           = if j =? i then Z.lor (get (clues st) i) (letters_flags s)
             else get (clues st) j.
Proof.
  intros Hs Hr. induction s as [|c s IH]; intros st Hi.
  - exists st. cbn [append letters_flags]. rewrite load_flags_stop by assumption.
    repeat split; auto. intros j. rewrite Z.lor_0_r.
    destruct (Z.eqb_spec j i); congruence.
  - cbn [all_chars] in Hs. apply andb_true_iff in Hs as [Hc Hs].
    specialize (IH Hs).
    assert (Hstep : forall f,
              letter_flag c = f ->
              exists st',
                load_flags (set_clues st (set (clues st) i
                                (Z.lor (get (clues st) i) f))) i (s +++ rest)
                = inr (st', rest)
                /\ (w st' = w st /\ h st' = h st /\ n st' = n st
                    /\ immutable st' = immutable st /\ known st' = known st
                    /\ mask st' = mask st /\ completed st' = completed st
                    /\ cheated st' = cheated st)
                /\ zlen (clues st') = zlen (clues st)
                /\ forall j,
                     get (clues st') j
                     = if j =? i
                       then Z.lor (get (clues st) i)
                                  (letters_flags (String c s))
                       else get (clues st) j).
    { intros f Ef.
      destruct (IH (set_clues st (set (clues st) i
                                      (Z.lor (get (clues st) i) f))))
        as (st' & E & F & L & Hj).
      { cbn [clues set_clues]. now rewrite zlen_aset. }
      exists st'. split; [exact E |]. split; [exact F |].
      cbn [clues set_clues] in L, Hj. rewrite zlen_aset in L.
      split; [exact L |]. intros j. rewrite Hj.
      destruct (Z.eqb_spec j i) as [-> | Hne].
      - rewrite aget_aset_eq by assumption. cbn [letters_flags].
        now rewrite Ef, Z.lor_assoc.
      - now rewrite aget_aset_neq by lia. }
    change (String c s +++ rest) with (String c (s +++ rest)).
    cbn [load_flags]. unfold is_flag_letter in Hc. rewrite Hc.
    unfold letter_flag in Hstep.
    destruct (c =? "U")%char; [now apply Hstep |].
    destruct (c =? "R")%char; [now apply Hstep |].
    destruct (c =? "D")%char; [now apply Hstep |].
    destruct (c =? "L")%char; [now apply Hstep | discriminate].
Qed.

Lemma flag_letter_not_digit (c : ascii) :
  is_flag_letter c = true -> is_digit c = false.
Proof.
  unfold is_flag_letter.
  destruct (Ascii.eqb_spec c "U") as [-> | _]; [reflexivity |].
  destruct (Ascii.eqb_spec c "R") as [-> | _]; [reflexivity |].
  destruct (Ascii.eqb_spec c "D") as [-> | _]; [reflexivity |].
  destruct (Ascii.eqb_spec c "L") as [-> | _]; [reflexivity | discriminate].
Qed.

Lemma head_digit_letters (s tail : string) :
  all_chars is_flag_letter s = true -> head_digit tail = false ->
  head_digit (s +++ tail) = false.
Proof.
  destruct s as [|c s]; cbn; [auto |]. intros H _.
  apply andb_true_iff in H as [H _]. now apply flag_letter_not_digit.
Qed.

Lemma string_length_append (a b : string) :
  String.length (a +++ b) = (String.length a + String.length b)%nat.
Proof. induction a as [|c a IH]; cbn; [reflexivity | now rewrite IH]. Qed.

Lemma substring_app (a b : string) :
  substring 0 (String.length a) (a +++ b) = a.
Proof.
  induction a as [|c a IH]; cbn.
  - destruct b; reflexivity.
  - now rewrite IH.
Qed.

Lemma desc_cell_text (st : game_state) (i : Z) (rest : string) :
  desc_cell st i +++ rest = cell_text st i +++ String "," rest.
Proof.
  unfold desc_cell, cell_text. fold (value_text st i).
  now rewrite !append_assoc.
Qed.

Lemma encode_fold (st : game_state) (l : list Z) :
  l <> [] ->
  forall acc,
    fold_left (fun s i => s +++ desc_cell st i) l acc
    = acc +++ desc_text st l +++ ","%string.
Proof.
  induction l as [|i l IH]; intros Hne acc; [contradiction |].
  destruct l as [|j l].
  - cbn [fold_left desc_text]. rewrite append_empty_r.
    rewrite <- (append_empty_r (desc_cell st i)), desc_cell_text.
    reflexivity.
  - change (desc_text st (i :: j :: l))
      with (cell_text st i +++ String "," (desc_text st (j :: l))).
    remember (j :: l) as l' eqn:El. cbn [fold_left].
    rewrite IH by (subst l'; discriminate).
    now rewrite !append_assoc, desc_cell_text.
Qed.

Lemma encode_desc_text (st : game_state) :
  0 < w st * h st -> encode_desc st = desc_text st (zrange (w st * h st)).
Proof.
  intros Hs. unfold encode_desc.
  assert (Hne : zrange (w st * h st) <> []).
  { intros E. apply (f_equal (@List.length Z)) in E.
    rewrite zrange_length in E. cbn in E. lia. }
  rewrite (encode_fold st _ Hne EmptyString). cbn [append].
  rewrite string_length_append. cbn [String.length].
  replace (String.length (desc_text st (zrange (w st * h st))) + 1 - 1)%nat
    with (String.length (desc_text st (zrange (w st * h st)))) by lia.
  apply substring_app.
Qed.

(** One cell of a description, read by [load_value] and [load_flags]. *)
Lemma load_cell (src cur : game_state) (i : Z) (tail : string) :
  n cur = 4 -> 0 <= get (known src) i < 16 -> 0 <= get (clues src) i < 16 ->
  0 <= i < zlen (clues cur) -> 0 <= i < zlen (immutable cur) ->
  0 <= i < zlen (known cur) -> 0 <= i < zlen (mask cur) ->
  get (clues cur) i = 0 ->
  head_flag tail = false -> head_digit tail = false ->
  exists c r cur1 cur2,
    cell_text src i +++ tail = String c r
    /\ load_value cur i (String c r)
       = inr (cur1, clue_letters (get (clues src) i) +++ tail)
    /\ load_flags cur1 i (clue_letters (get (clues src) i) +++ tail)
       = inr (cur2, tail)
    /\ (w cur2 = w cur /\ h cur2 = h cur /\ n cur2 = n cur
        /\ completed cur2 = completed cur /\ cheated cur2 = cheated cur)
    /\ (zlen (clues cur2) = zlen (clues cur)
        /\ zlen (immutable cur2) = zlen (immutable cur)
        /\ zlen (known cur2) = zlen (known cur)
        /\ zlen (mask cur2) = zlen (mask cur))
    /\ (forall j, get (clues cur2) j
                  = if j =? i then get (clues src) i else get (clues cur) j)
    /\ (forall j, j <> i ->
          get (immutable cur2) j = get (immutable cur) j
          /\ get (known cur2) j = get (known cur) j
          /\ get (mask cur2) j = get (mask cur) j)
    /\ (if get (immutable src) i =? 0
        then get (immutable cur2) i = get (immutable cur) i
             /\ get (known cur2) i = get (known cur) i
             /\ get (mask cur2) i = get (mask cur) i
        else fixed_cell cur2 i (get (known src) i)).
Proof.
  intros Hn Hv Hc Lc Li Lk Lm Hc0 Hft Hdt.
  pose proof letters_round_trip_16 as HL. rewrite forallb_forall in HL.
  specialize (HL _ (proj2 (in_zrange 16 _) Hc)).
  unfold letters_round_trip in HL. apply andb_true_iff in HL as [Hall Hfl].
  apply Z.eqb_eq in Hfl.
  set (letters := clue_letters (get (clues src) i)) in *.
  assert (Hdl : head_digit (letters +++ tail) = false)
    by (now apply head_digit_letters).
  unfold cell_text. fold letters. rewrite append_assoc. unfold value_text.
  destruct (Z.eqb_spec (get (immutable src) i) 0) as [E0 | E0]; cbn [negb].
  - destruct (load_flags_letters i letters tail Hall Hft cur Lc)
      as (cur2 & E2 & (Ew & Eh & En & Ei & Ek & Em & Eco & Ech) & L & Hj).
    exists "_"%char, (letters +++ tail), cur, cur2.
    split; [reflexivity |]. split; [reflexivity |]. split; [exact E2 |].
    split; [tauto |]. rewrite Ei, Ek, Em. split; [tauto |].
    split; [| split; [tauto | tauto]].
    intros j. rewrite Hj, Hc0, Hfl. reflexivity.
  - pose proof (load_value_number cur i (get (known src) i) (letters +++ tail)
                  Hn Hv Hdl) as E1.
    set (cur1 := set_immutable _ _) in E1.
    destruct (load_flags_letters i letters tail Hall Hft cur1)
      as (cur2 & E2 & (Ew & Eh & En & Ei & Ek & Em & Eco & Ech) & L & Hj).
    { subst cur1. exact Lc. }
    destruct (print_int (to_int (get (known src) i)) +++ letters +++ tail)
      as [|c r] eqn:Ep; [discriminate |].
    exists c, r, cur1, cur2.
    split; [reflexivity |]. split; [exact E1 |]. split; [exact E2 |].
    split; [subst cur1; cbn in *; tauto |].
    rewrite Ei, Ek, Em. subst cur1.
    cbn [w h n clues immutable known mask completed cheated
         set_immutable set_mask set_known] in *.
    rewrite !zlen_aset. split; [tauto |]. split; [| split].
    + intros j. rewrite Hj, Hc0, Hfl. reflexivity.
    + intros j Hne. rewrite !aget_aset_neq by lia. auto.
    + unfold fixed_cell. rewrite Ei, Ek, Em.
      cbn [immutable known mask set_immutable set_mask set_known].
      rewrite !aget_aset_eq by assumption. repeat split. lia.
Qed.

Lemma load_cells_mono (fuel : nat) :
  forall fuel' wh st i p r,
    load_cells fuel wh st i p = Some r -> (fuel <= fuel')%nat ->
    load_cells fuel' wh st i p = Some r.
Proof.
  induction fuel as [|fuel IH]; intros fuel' wh st i p r H Hle.
  - destruct p; [| discriminate]. destruct fuel'; exact H.
  - destruct fuel' as [|fuel']; [lia |].
    destruct p as [|c p]; [exact H |].
    cbn [load_cells] in *.
    destruct (i >=? wh); [exact H |].
    destruct (load_value st i (String c p)) as [e | [st1 p1]]; [exact H |].
    destruct (load_flags st1 i p1) as [e | [st2 p2]]; [exact H |].
    destruct ((i + 1 <? wh) && negb (head_is p2 ",")); [exact H |].
    apply IH; [exact H | lia].
Qed.

Lemma loaded_upto_step (src cur cur2 : game_state) (a : Z) :
  loaded_upto src cur a -> 0 <= a < w src * h src ->
  (w cur2 = w cur /\ h cur2 = h cur /\ n cur2 = n cur
   /\ completed cur2 = completed cur /\ cheated cur2 = cheated cur) ->
  (zlen (clues cur2) = zlen (clues cur)
   /\ zlen (immutable cur2) = zlen (immutable cur)
   /\ zlen (known cur2) = zlen (known cur)
   /\ zlen (mask cur2) = zlen (mask cur)) ->
  (forall j, get (clues cur2) j
             = if j =? a then get (clues src) a else get (clues cur) j) ->
  (forall j, j <> a ->
     get (immutable cur2) j = get (immutable cur) j
     /\ get (known cur2) j = get (known cur) j
     /\ get (mask cur2) j = get (mask cur) j) ->
  (if get (immutable src) a =? 0
   then get (immutable cur2) a = get (immutable cur) a
        /\ get (known cur2) a = get (known cur) a
        /\ get (mask cur2) a = get (mask cur) a
   else fixed_cell cur2 a (get (known src) a)) ->
  loaded_upto src cur2 (a + 1).
Proof.
  intros (Ew & Eh & En & Eco & Ech & Lc & Li & Lk & Lm & Hcells) Ha
         (Ew2 & Eh2 & En2 & Eco2 & Ech2) (Lc2 & Li2 & Lk2 & Lm2) Hcl Hoth Hat.
  unfold loaded_upto.
  repeat (split; [congruence |]).
  intros j Hj. specialize (Hcells j Hj). rewrite Hcl.
  unfold blank_cell, fixed_cell in *. rewrite En2.
  destruct (Z.eqb_spec j a) as [-> | Hne].
  - destruct (Z.ltb_spec a (a + 1)); [| lia].
    destruct (Z.ltb_spec a a); [lia |]. split; [reflexivity |].
    destruct (get (immutable src) a =? 0); [| exact Hat].
    destruct Hat as (-> & -> & ->). tauto.
  - destruct (Hoth j Hne) as (-> & -> & ->).
    destruct (Z.ltb_spec j a), (Z.ltb_spec j (a + 1)); try lia; exact Hcells.
Qed.

(** The cells from [a] on, read by the cell loop. *)
Lemma load_cells_desc (src : game_state) :
  w src = 4 -> h src = 4 -> n src = 4 ->
  (forall i, 0 <= i < 16 ->
             0 <= get (known src) i < 16 /\ 0 <= get (clues src) i < 16) ->
  forall (m a : nat) (cur : game_state) (fuel : nat),
    (a + S m = 16)%nat -> (S m <= fuel)%nat ->
    loaded_upto src cur (Z.of_nat a) ->
    exists st',
      load_cells fuel 16 cur (Z.of_nat a)
                 (desc_text src (map Z.of_nat (seq a (S m))))
      = Some (inr (st', 16))
      /\ loaded_upto src st' 16.
Proof.
  intros Ew Eh En Hsrc.
  induction m as [|m IH]; intros a cur fuel Ha Hfuel Hinv.
  - destruct fuel as [|fuel]; [lia |].
    pose proof Hinv as (Ew1 & Eh1 & En1 & _ & _ & Lc & Li & Lk & Lm & Hcells).
    rewrite Ew, Eh in *. change (4 * 4) with 16 in *.
    assert (Hr : 0 <= Z.of_nat a < 16) by lia.
    destruct (Hsrc _ Hr) as [Hv Hc].
    pose proof (Hcells _ Hr) as Hcell.
    destruct (Z.ltb_spec (Z.of_nat a) (Z.of_nat a)); [lia |].
    destruct Hcell as [Hc0 _].
    destruct (load_cell src cur (Z.of_nat a) EmptyString)
      as (c & r & cur1 & cur2 & Et & E1 & E2 & F & L & Hcl & Hoth & Hat);
      try lia; try reflexivity; try congruence.
    cbn [seq map desc_text]. rewrite Et. cbn [load_cells].
    destruct (Z.geb_spec (Z.of_nat a) 16); [lia |].
    rewrite E1, E2.
    destruct (Z.ltb_spec (Z.of_nat a + 1) 16); [lia |]. cbn [andb head_is].
    exists cur2. split.
    + destruct fuel; cbn [load_cells]; do 3 f_equal; lia.
    + replace 16 with (Z.of_nat a + 1) by lia.
      eapply loaded_upto_step; eauto. rewrite Ew, Eh. lia.
  - destruct fuel as [|fuel]; [lia |].
    pose proof Hinv as (Ew1 & Eh1 & En1 & _ & _ & Lc & Li & Lk & Lm & Hcells).
    rewrite Ew, Eh in *. change (4 * 4) with 16 in *.
    assert (Hr : 0 <= Z.of_nat a < 16) by lia.
    destruct (Hsrc _ Hr) as [Hv Hc].
    pose proof (Hcells _ Hr) as Hcell.
    destruct (Z.ltb_spec (Z.of_nat a) (Z.of_nat a)); [lia |].
    destruct Hcell as [Hc0 _].
    change (seq a (S (S m))) with (a :: seq (S a) (S m)).
    remember (seq (S a) (S m)) as l eqn:El.
    cbn [map desc_text].
    assert (Et0 : match map Z.of_nat l with
                  | [] => EmptyString
                  | _ :: _ => String "," (desc_text src (map Z.of_nat l))
                  end = String "," (desc_text src (map Z.of_nat l))).
    { subst l. reflexivity. }
    rewrite Et0.
    destruct (load_cell src cur (Z.of_nat a)
                (String "," (desc_text src (map Z.of_nat l))))
      as (c & r & cur1 & cur2 & Et & E1 & E2 & F & L & Hcl & Hoth & Hat);
      try lia; try reflexivity; try congruence.
    rewrite Et. cbn [load_cells].
    destruct (Z.geb_spec (Z.of_nat a) 16); [lia |].
    rewrite E1, E2. cbn [head_is string_tl].
    change (("," =? ",")%char) with true. cbn [negb].
    rewrite andb_false_r.
    replace (Z.of_nat a + 1) with (Z.of_nat (S a)) by lia.
    subst l. apply IH; [lia | lia |].
    replace (Z.of_nat (S a)) with (Z.of_nat a + 1) by lia.
    eapply loaded_upto_step; eauto. rewrite Ew, Eh. lia.
Qed.

Lemma first_error_none {A : Type} (f : A -> option string) (l : list A) :
  (forall a, In a l -> f a = None) -> first_error f l = None.
Proof.
  induction l as [|a l IH]; intros H; cbn; [reflexivity |].
  rewrite (H a) by now left. apply IH. intros b Hb. apply H. now right.
Qed.

(** The arrows of a board that has a solution pass the loader's checks. *)
Lemma solution_flag_check (st board : game_state) (sol : list Z)
    (y x : Z) (a : adj) :
  solution st sol ->
  (forall i, 0 <= i < w st * h st -> get (clues board) i = get (clues st) i) ->
  0 <= x < w st -> 0 <= y < h st -> In a adjthan ->
  flag_check board (w st) (h st) y x a = None.
Proof.
  intros Hsol Hcl Hx Hy Ha. unfold flag_check.
  rewrite Hcl by (apply cell_index_range; lia).
  destruct (has (get (clues st) (y * w st + x)) (adj_f a)) eqn:Hc;
    [| reflexivity].
  destruct (solution_arrow st sol x y a Hsol Hx Hy Ha Hc) as [[Hx2 Hy2] Hsub].
  destruct (Z.ltb_spec (x + adj_dx a) 0); [lia |].
  destruct (Z.ltb_spec (y + adj_dy a) 0); [lia |].
  destruct (Z.geb_spec (x + adj_dx a) (w st)); [lia |].
  destruct (Z.geb_spec (y + adj_dy a) (h st)); [lia |]. cbn [orb].
  rewrite Hcl by (apply cell_index_range; lia).
  destruct (has (get (clues st) ((y + adj_dy a) * w st + (x + adj_dx a)))
                (adj_fo a)) eqn:Hc'; [exfalso | reflexivity].
  destruct (opposite_spec a Ha) as (Ho & Ef & _ & Edx & Edy).
  rewrite <- Ef in Hc'.
  destruct (solution_arrow st sol _ _ _ Hsol Hx2 Hy2 Ho Hc') as [_ Hsub'].
  rewrite Edx, Edy in Hsub'.
  replace (x + adj_dx a + - adj_dx a) with x in Hsub' by lia.
  replace (y + adj_dy a + - adj_dy a) with y in Hsub' by lia.
  pose proof (subset_antisym _ _ Hsub Hsub') as E.
  destruct Hsol as (_ & _ & Hinj & _).
  apply Hinj in E; try (apply cell_index_range; lia).
  now apply (neighbour_distinct (w st) x y a).
Qed.

Lemma blank_loaded_upto (src : game_state) :
  w src = 4 -> h src = 4 -> n src = 4 ->
  loaded_upto src (blank_game default_params) 0.
Proof.
  intros Ew Eh En. unfold loaded_upto. rewrite Ew, Eh, En.
  repeat (split; [reflexivity |]).
  intros i Hi. destruct (Z.ltb_spec i 0); [lia |].
  unfold blank_cell, blank_game. cbn [clues immutable known mask n p_w p_h p_n
                                      default_params].
  change (Z.to_nat (4 * 4)) with 16%nat.
  rewrite !aget_repeat by (change (Z.of_nat 16) with 16; lia). auto.
Qed.

(** The description written from a board with a solution loads, and the
    loaded board is the one it denotes. *)
Lemma load_game_desc (src : game_state) :
  w src = 4 -> h src = 4 -> n src = 4 ->
  solution src (known src) ->
  (forall i, 0 <= get (clues src) i < 16) ->
  exists board,
    load_game default_params (encode_desc src) = Some (inr board)
    /\ denotes src board.
Proof.
  intros Ew Eh En Hsol Hcr.
  assert (Hsrc : forall i, 0 <= i < 16 ->
            0 <= get (known src) i < 16 /\ 0 <= get (clues src) i < 16).
  { intros i Hi. split; [| apply Hcr].
    destruct Hsol as (_ & Hr & _). rewrite Ew, Eh, En in Hr. now apply Hr. }
  unfold load_game, attempt_load_game.
  rewrite encode_desc_text by (rewrite Ew, Eh; lia).
  rewrite Ew, Eh. change (4 * 4) with 16.
  change (w (blank_game default_params)) with 4. change (4 * 4) with 16.
  change (zrange 16) with (map Z.of_nat (seq 0 (S 15))).
  set (desc := desc_text src _).
  destruct (load_cells_desc src Ew Eh En Hsrc 15 0 (blank_game default_params)
              (Nat.max 16 (S (String.length desc))))
    as (board & Eload & Hinv); [reflexivity | lia | |].
  { now apply blank_loaded_upto. }
  fold desc in Eload. change (Z.of_nat 0) with 0 in Eload.
  pose proof (load_cells_fuel (S (String.length desc)) 16
                (blank_game default_params) 0 desc) as Hsome.
  destruct (load_cells (S (String.length desc)) 16
              (blank_game default_params) 0 desc) as [res |] eqn:Eres;
    [| exfalso; apply Hsome; [lia | reflexivity]].
  apply (load_cells_mono _ (Nat.max 16 (S (String.length desc)))) in Eres;
    [| lia].
  rewrite Eload in Eres. injection Eres as <-.
  change (16 <? 16) with false. cbn iota.
  pose proof Hinv as (Ew1 & Eh1 & En1 & Eco & Ech & Lc & Li & Lk & Lm & Hcells).
  rewrite Ew, Eh in *. change (4 * 4) with 16 in *.
  assert (Hcl : forall i, 0 <= i < 16 ->
                  get (clues board) i = get (clues src) i).
  { intros i Hi. specialize (Hcells i Hi).
    destruct (Z.ltb_spec i 16); [| lia]. tauto. }
  rewrite first_error_none.
  - exists board. split; [reflexivity |]. unfold denotes.
    rewrite Ew, Eh. change (4 * 4) with 16.
    repeat (split; [congruence |]).
    intros i Hi. specialize (Hcells i Hi).
    destruct (Z.ltb_spec i 16); [exact Hcells | lia].
  - intros [[y x] a] Ht. apply in_grid_triples in Ht as (Hy & Hx & Ha).
    rewrite <- Ew at 1. rewrite <- Eh at 1.
    apply (solution_flag_check src board (known src)); auto; try lia.
    rewrite Ew, Eh. exact Hcl.
Qed.

(** ** From the generator's board to the board of the description *)

Lemma reset_bounds_sound (st : game_state) (sol : list Z) :
  wf_board st -> solution st sol ->
  (forall i, 0 <= i < w st * h st ->
             get (known st) i = get sol i /\ get (mask st) i = get sol i) ->
  bounds_sound (solve_reset st) sol.
Proof.
  intros Hwf Hsol Hv i Hi.
  destruct (solve_reset_frame st) as (Ew & Eh & _). rewrite Ew, Eh in Hi.
  destruct (solve_reset_spec st (wf_board_sized st Hwf) i Hi) as [-> ->].
  destruct (Hv i Hi) as [-> ->].
  pose proof Hsol as (_ & Hr & _). specialize (Hr i Hi).
  apply wf_board_unfold in Hwf as ((_ & _ & Hn & _) & _).
  rewrite Z.shiftl_1_l in Hr.
  destruct (get (immutable st) i =? 0).
  - split; [apply Z.land_0_l |].
    unfold subset. rewrite ALL_BITS_pow, Z.land_comm by lia.
    apply land_all_bits; lia.
  - split; apply subset_refl.
Qed.

(** The solver runs on the board of the description as it does on the
    generator's copy. *)
Lemma denotes_solver (src board solved : game_state) (r : status) :
  wf_board src -> mask src = known src ->
  completed src = false -> cheated src = false ->
  denotes src board ->
  subsets_solve_game src = Some (r, solved) ->
  subsets_solve_game board
  = Some (r, set_immutable solved (immutable board)).
Proof.
  intros Hwf Emk Eco Ech
         (Ew & Eh & En & Bco & Bch & Lc & Li & Lk & Lm & Hcells) Hrun.
  pose proof (wf_board_sized src Hwf) as Hs.
  assert (Hsb : sized board) by (unfold sized; rewrite Ew, Eh; auto).
  pose proof (solve_reset_frame src)
    as (Ew1 & Eh1 & En1 & Ec1 & Ei1 & Eco1 & Ech1 & Lk1 & Lm1).
  pose proof (solve_reset_frame board)
    as (Ew2 & Eh2 & En2 & Ec2 & Ei2 & Eco2 & Ech2 & Lk2 & Lm2).
  pose proof Hwf as (_ & (Lcs & _ & Lks & Lms) & _)%wf_board_unfold.
  assert (E : solve_reset board
              = set_immutable (solve_reset src) (immutable board)).
  { apply state_ext;
      cbn [w h n clues immutable known mask completed cheated set_immutable];
      try congruence.
    - rewrite Ec1, Ec2. apply list_get_ext; [congruence |].
      intros i Hi. rewrite Lc in Hi. now destruct (Hcells i Hi).
    - apply list_get_ext; [congruence |]. intros i Hi.
      rewrite Lk2, Lk in Hi. pose proof Hi as Hi'. rewrite <- Ew, <- Eh in Hi'.
      destruct (solve_reset_spec board Hsb i Hi') as [-> _].
      destruct (solve_reset_spec src Hs i Hi) as [-> _].
      destruct (Hcells i Hi) as [_ Hcell].
      destruct (get (immutable src) i =? 0).
      + destruct Hcell as (-> & _). reflexivity.
      + destruct Hcell as (Hne & -> & _).
        destruct (Z.eqb_spec (get (immutable board) i) 0); [contradiction |].
        reflexivity.
    - apply list_get_ext; [congruence |]. intros i Hi.
      rewrite Lm2, Lm in Hi. pose proof Hi as Hi'. rewrite <- Ew, <- Eh in Hi'.
      destruct (solve_reset_spec board Hsb i Hi') as [_ ->].
      destruct (solve_reset_spec src Hs i Hi) as [_ ->].
      destruct (Hcells i Hi) as [_ Hcell]. rewrite Emk, En.
      destruct (get (immutable src) i =? 0).
      + destruct Hcell as (-> & _). reflexivity.
      + destruct Hcell as (Hne & _ & ->).
        destruct (Z.eqb_spec (get (immutable board) i) 0); [contradiction |].
        reflexivity. }
  unfold subsets_solve_game in *. rewrite E.
  unfold solve_fuel. rewrite Ew, Eh, En. fold (solve_fuel src).
  now rewrite solve_loop_immutable, Hrun.
Qed.

Lemma unfixed_from_full (G : game_state) :
  wf_board G -> solution G (known G) -> mask G = known G ->
  immutable G = repeat 1 16 -> w G * h G = 16 ->
  unfixed_from G G.
Proof.
  intros Hwf Hsol Em Ei Hs. unfold unfixed_from.
  split; [exact Hwf |]. repeat (split; [reflexivity |]). split.
  - intros i. rewrite Ei. apply aget_repeat_cases.
  - exists G. rewrite (dup_game_wf G Hwf).
    apply (solve_full_board G (known G)); auto.
    + intros i _. now rewrite Em.
    + intros i Hi. rewrite Ei, aget_repeat by (change (Z.of_nat 16) with 16; lia).
      discriminate.
Qed.

(** C1.  Take [shuffle] to return a permutation of the array it is given,
    and parameters that [validate_params] accepts.  Then [new_game_desc]
    returns a description, written from the last board [final] of its
    un-fixing loop; [load_game] turns that description into a board, on
    which the cells that [final] prints as a number are fixed to that
    number, the others are blank, and the arrows are those of [final];
    [subsets_solve_game] returns STATUS_COMPLETE on that board; and the
    bounds it leaves are, cell by cell, the values that the generator
    shuffled before it un-fixed any cell, which are a permutation of
    [0 .. 2^n - 1]. *)
Theorem generated_puzzle_solvable :
  forall (random_state : Type)
         (shuffle : list Z -> random_state -> list Z * random_state),
    (forall l rs, Permutation (fst (shuffle l rs)) l) ->
    forall (params : game_params) (rs : random_state),
      validate_params params = None ->
      exists (desc : string) (final board solved : game_state),
        new_game_desc random_state shuffle params rs = Some desc
        /\ desc = encode_desc final
        /\ known final
           = known (fst (gen_solution random_state shuffle params rs))
        /\ load_game params desc = Some (inr board)
        /\ denotes final board
        /\ subsets_solve_game board = Some (STATUS_COMPLETE, solved)
        /\ known solved
           = known (fst (gen_solution random_state shuffle params rs))
        /\ mask solved
           = known (fst (gen_solution random_state shuffle params rs))
        /\ Permutation
             (known (fst (gen_solution random_state shuffle params rs)))
             (zrange (Z.shiftl 1 (p_n params))).
Proof.
  intros random_state shuffle Hshuffle params rs Hvalid.
  apply valid_params_default in Hvalid. subst params.
  pose proof (gen_solution_facts random_state shuffle Hshuffle rs)
    as ((Ew & Eh & En) & Hwf & Hsol & Em & Ei & Eco & Ech & Hperm & Hcr).
  cbn zeta in *. unfold new_game_desc.
  destruct (gen_solution random_state shuffle default_params rs) as [G rs1].
  cbn [fst] in *.
  destruct (shuffle (zrange (w G * h G)) rs1) as [spaces rs2].
  destruct (gen_minify_unfixed G spaces G) as (final & Emin & Hfinal).
  { apply unfixed_from_full; auto. rewrite Ew, Eh. reflexivity. }
  rewrite Emin.
  destruct Hfinal as (Hwff & Ewf & Ehf & Enf & Ecf & Ekf & Emf & Ecof & Echf
                      & _ & solved0 & Hrun).
  rewrite (dup_game_wf final Hwff) in Hrun.
  assert (Hsolf : solution final (known G)).
  { unfold solution, in_grid in *. rewrite Ewf, Ehf, Enf, Ecf. exact Hsol. }
  destruct (load_game_desc final) as (board & Eload & Hden); try congruence.
  { intros i. rewrite Ecf. apply Hcr. }
  exists (encode_desc final), final, board,
         (set_immutable solved0 (immutable board)).
  split; [reflexivity |]. split; [reflexivity |]. split; [exact Ekf |].
  split; [exact Eload |]. split; [exact Hden |].
  destruct (solve_complete_solution final solved0 (known G))
    as [Eks Ems]; auto.
  { apply reset_bounds_sound; auto. intros i _. now rewrite Emf, Em, Ekf. }
  split; [| split; [exact Eks | split; [exact Ems | exact Hperm]]].
  apply (denotes_solver final board solved0); auto; congruence.
Qed.

Lemma generated_puzzle_solvable_witness :
  exists (desc : string) (final board solved : game_state),
    new_game_desc unit (fun l rs => (l, rs)) default_params tt = Some desc
    /\ desc = encode_desc final
    /\ known final
       = known (fst (gen_solution unit (fun l rs => (l, rs)) default_params tt))
    /\ load_game default_params desc = Some (inr board)
    /\ denotes final board
    /\ subsets_solve_game board = Some (STATUS_COMPLETE, solved)
    /\ known solved
       = known (fst (gen_solution unit (fun l rs => (l, rs)) default_params tt))
    /\ mask solved
       = known (fst (gen_solution unit (fun l rs => (l, rs)) default_params tt))
    /\ Permutation
         (known (fst (gen_solution unit (fun l rs => (l, rs))
                        default_params tt)))
         (zrange (Z.shiftl 1 (p_n default_params))).
Proof.
  apply (generated_puzzle_solvable unit (fun l rs => (l, rs))).
  - intros l rs. apply Permutation_refl.
  - reflexivity.
Defined.

(** * Further properties of the solver *)

Lemma same_state (st st' : game_state) :
  same_frame st st' -> same_bounds st st' -> st' = st.
Proof.
  intros (Ew & Eh & En & Ec & Ei & Eco & Ech & Lk & Lm) S.
  apply state_ext; auto.
  - apply list_get_ext; [exact Lk |]. intros i _. apply S.
  - apply list_get_ext; [exact Lm |]. intros i _. apply S.
Qed.

Lemma solve_iteration_exit_verdict (st : game_state) (cube : list bool)
    (r : status) (st' : game_state) :
  sized st -> solve_iteration st cube = inr (r, st') ->
  status_of (subsets_validate st' None (Some [])) = r.
Proof.
  intros Hs E.
  pose proof (iteration_facts st cube Hs)
    as (_ & Ha & _ & Hb & Hp & _ & _). cbn zeta in *.
  pose proof (solve_iteration_path st cube) as P. rewrite E in P.
  inversion P as [r0 Hr | r0 counts cube0 a d b p v res Hr Hres Eres].
  - subst r0. subst. reflexivity.
  - subst res. fold r0 counts cube0 a d b p v in Ha, Hb, Hp.
    destruct Hres as [(_ & Er) | [(_ & _ & Er) | [(_ & _ & _ & Er)
                     | [(_ & _ & _ & _ & Er) | [(_ & _ & _ & _ & _ & Er)
                     | (Ea & _ & Eb & Ep & _ & Er)]]]]]; try discriminate.
    injection Er as -> ->.
    destruct Ha as ([Fa _] & _ & Sa & _), Hb as ([Fb _] & _ & Sb & _),
             Hp as (Fp & _ & _ & Sp & _).
    rewrite (same_state _ _ Fp (Sp Ep)), (same_state _ _ Fb (Sb Eb)),
            (same_state _ _ Fa (Sa Ea)).
    exact Hr.
Qed.

Lemma solve_loop_verdict (fuel : nat) :
  forall st cube r st',
    sized st -> solve_loop fuel st cube = Some (r, st') ->
    status_of (subsets_validate st' None (Some [])) = r.
Proof.
  induction fuel as [|fuel IH]; intros st cube r st' Hs H; [discriminate |].
  cbn [solve_loop] in H.
  pose proof (solve_iteration_tightens st cube Hs) as T.
  destruct (solve_iteration st cube) as [[st1 cube1] | [r1 st1]] eqn:E.
  - eapply IH; [| exact H]. eapply sized_frame; [exact Hs | apply T].
  - injection H as <- <-. eapply solve_iteration_exit_verdict; eauto.
Qed.

(** X1.  On every well-formed board the loop of [subsets_solve_game]
    comes to an end within [w*h*2^n + 64*w*h + 1] rounds, and the board it
    leaves is well formed, with the size, the arrows, the fixed-cell flags
    and the two status flags of the board it was given. *)
Theorem solver_terminates :
  forall st : game_state,
    wf_board st ->
    exists (r : status) (st' : game_state),
      subsets_solve_game st = Some (r, st')
      /\ wf_board st' /\ same_frame st st'.
Proof.
  intros st Hwf.
  destruct (subsets_solve_game_total st Hwf) as (r & st' & E & Hwf').
  exists r, st'. split; [exact E |]. split; [exact Hwf' |].
  eapply same_frame_trans; [apply solve_reset_frame |].
  unfold subsets_solve_game in E.
  eapply solve_loop_tightens; [| exact E].
  eapply sized_frame; [apply wf_board_sized, Hwf | apply solve_reset_frame].
Qed.

Lemma solver_terminates_witness :
  exists (r : status) (st' : game_state),
    subsets_solve_game board_T1_open5 = Some (r, st')
    /\ wf_board st' /\ same_frame board_T1_open5 st'.
Proof.
  apply (solver_terminates board_T1_open5). reflexivity.
Defined.

(** X2.  The status that [subsets_solve_game] returns is the status that
    [subsets_validate] gives for the board the solver leaves, for each of
    the three statuses and whichever buffers the validator is given, as
    long as it is given one. *)
Theorem solver_status_is_verdict :
  forall (st st' : game_state) (r : status) (flags counts : option (list Z)),
    sized st ->
    subsets_solve_game st = Some (r, st') ->
    is_none flags && is_none counts = false ->
    status_of (subsets_validate st' flags counts) = r.
Proof.
  intros st st' r flags counts Hs H Hbuf. unfold subsets_solve_game in H.
  apply solve_loop_verdict in H;
    [| eapply sized_frame; [exact Hs | apply solve_reset_frame]].
  rewrite validate_status_formula in * by (now rewrite ?Hbuf).
  exact H.
Qed.

Lemma solver_status_is_verdict_witness :
  exists st',
    subsets_solve_game board_T4 = Some (STATUS_INVALID, st')
    /\ status_of (subsets_validate st' (Some []) None) = STATUS_INVALID.
Proof.
  destruct (subsets_solve_game board_T4) as [[[] st'] |] eqn:E;
    try (vm_compute in E; discriminate).
  exists st'. split; [reflexivity |].
  apply (solver_status_is_verdict board_T4 st' STATUS_INVALID (Some []) None);
    [split; reflexivity | exact E | reflexivity].
Defined.

Lemma count_value_pair (st : game_state) (cells : list Z) (v : Z) :
  NoDup cells -> 2 <= count_value st cells v ->
  exists i j, In i cells /\ In j cells /\ i <> j
              /\ resolved st i = true /\ resolved st j = true
              /\ get (known st) i = v /\ get (known st) j = v.
Proof.
  induction cells as [|c rest IH]; intros Hnd H.
  - cbn in H. lia.
  - rewrite count_value_cons in H. inversion Hnd as [| ? ? Hnotin Hnd']. subst.
    destruct (resolved st c && (get (known st) c =? v)) eqn:E.
    + apply andb_true_iff in E as [Er E]. apply Z.eqb_eq in E.
      destruct (count_value_witness st rest v) as (j & Hj & Hrj & Ej); [lia |].
      exists c, j. repeat split; auto; [now left | now right |].
      intros ->. contradiction.
    + destruct IH as (i & j & Hi & Hj & Hne & Hri & Hrj & Ei & Ej);
        [assumption | lia |].
      exists i, j. repeat split; auto; now right.
Qed.

(** Bounds that enclose a solution hold no contradiction that the
    validator could report. *)
Lemma sound_not_invalid (st : game_state) (sol : list Z) :
  solution st sol -> bounds_sound st sol ->
  worst_status st <> STATUS_INVALID.
Proof.
  intros Hsol Hb. unfold worst_status.
  assert (Hdup : has_duplicate st = false).
  { destruct (has_duplicate st) eqn:E; [exfalso | reflexivity].
    apply has_duplicate_spec in E as (v & _ & Hc).
    apply count_value_pair in Hc
      as (i & j & Hi & Hj & Hne & Hri & Hrj & Ei & Ej); [| apply zrange_nodup].
    apply in_zrange in Hi, Hj.
    destruct (resolved_value st sol i Hb Hi Hri) as [Ei' _].
    destruct (resolved_value st sol j Hb Hj Hrj) as [Ej' _].
    destruct Hsol as (_ & _ & Hinj & _).
    apply Hne, Hinj; auto. congruence. }
  assert (Hedge : has_edge_violation st = false).
  { destruct (has_edge_violation st) eqn:E; [exfalso | reflexivity].
    unfold has_edge_violation in E. apply existsb_exists in E
      as ([[y x] a] & Hin & E).
    apply in_grid_triples in Hin as (Hy & Hx & Ha).
    unfold on_triple in E. cbn [fst snd] in E.
    pose proof (edge_violated_in_grid st y x a E) as [Hx2 Hy2].
    unfold edge_violated in E. cbn zeta in E.
    apply andb_true_iff in E as [E Hcase].
    apply andb_true_iff in E as [E Hr2]. apply andb_true_iff in E as [E Hr1].
    assert (Hi : 0 <= y * w st + x < w st * h st)
      by (apply cell_index_range; lia).
    assert (Hj : 0 <= (y + adj_dy a) * w st + (x + adj_dx a) < w st * h st)
      by (apply cell_index_range; lia).
    destruct (resolved_value st sol _ Hb Hi Hr1) as [Ei _].
    destruct (resolved_value st sol _ Hb Hj Hr2) as [Ej _].
    rewrite Ei, Ej in *.
    destruct (has (get (clues st) (y * w st + x)) (adj_f a)) eqn:Hc.
    - destruct (solution_arrow st sol x y a Hsol Hx Hy Ha Hc) as [_ Hsub].
      unfold subset in Hsub. rewrite Z.land_comm in Hsub.
      rewrite Hsub, Z.eqb_refl in Hcase. discriminate.
    - destruct (has (get (clues st) ((y + adj_dy a) * w st + (x + adj_dx a)))
                    (adj_fo a)) eqn:Hc'; [discriminate |].
      pose proof (solution_no_arrow st sol x y a Hsol Hx Hy Ha E Hc Hc') as Hn.
      unfold comparable in Hn. congruence. }
  rewrite Hdup, Hedge. cbn [orb]. destruct (all_resolved st); discriminate.
Qed.

Lemma reset_bounds_sound_fixed (st : game_state) (sol : list Z) :
  wf_board st -> solution st sol ->
  (forall i, 0 <= i < w st * h st -> get (immutable st) i <> 0 ->
             get (known st) i = get sol i /\ get (mask st) i = get sol i) ->
  bounds_sound (solve_reset st) sol.
Proof.
  intros Hwf Hsol Hv i Hi.
  destruct (solve_reset_frame st) as (Ew & Eh & _). rewrite Ew, Eh in Hi.
  destruct (solve_reset_spec st (wf_board_sized st Hwf) i Hi) as [-> ->].
  pose proof Hsol as (_ & Hr & _). specialize (Hr i Hi).
  apply wf_board_unfold in Hwf as ((_ & _ & Hn & _) & _).
  rewrite Z.shiftl_1_l in Hr.
  destruct (Z.eqb_spec (get (immutable st) i) 0) as [E | E].
  - split; [apply Z.land_0_l |].
    unfold subset. rewrite ALL_BITS_pow, Z.land_comm by lia.
    apply land_all_bits; lia.
  - destruct (Hv i Hi E) as [-> ->]. split; apply subset_refl.
Qed.

(** X3.  Take a well-formed board and an assignment [sol] of the values
    [0 .. 2^n - 1] to its cells that is injective, draws exactly the
    arrows of the board and agrees with its fixed cells.  Then the bounds
    that [subsets_solve_game] leaves enclose [sol], the status it returns
    is not STATUS_INVALID, and when it is STATUS_COMPLETE the board left
    is [sol] itself: a board that the solver completes has no other
    solution. *)
Theorem solver_sound :
  forall (st st' : game_state) (sol : list Z) (r : status),
    wf_board st -> solution st sol ->
    (forall i, 0 <= i < w st * h st -> get (immutable st) i <> 0 ->
               get (known st) i = get sol i /\ get (mask st) i = get sol i) ->
    subsets_solve_game st = Some (r, st') ->
    bounds_sound st' sol
    /\ r <> STATUS_INVALID
    /\ (r = STATUS_COMPLETE -> known st' = sol /\ mask st' = sol).
Proof.
  intros st st' sol r Hwf Hsol Hfix H.
  pose proof (reset_bounds_sound_fixed st sol Hwf Hsol Hfix) as Hb.
  pose proof (solve_reset_frame st) as F.
  pose proof (solve_reset_wf st Hwf) as Hwf0.
  assert (Hsol0 : solution (solve_reset st) sol)
    by (eapply solution_frame; eauto).
  assert (Hcube : cube_sound (solve_reset st) sol
                    (repeat true (Z.to_nat (w st * h st * Z.shiftl 1 (n st))))).
  { intros i Hi. destruct F as (Ew0 & Eh0 & En0 & _).
    rewrite Ew0, Eh0 in Hi. rewrite En0.
    destruct Hsol as (_ & Hr & _). specialize (Hr i Hi).
    assert (0 <= n st) by (apply wf_board_unfold in Hwf; lia).
    apply aget_repeat. nia. }
  pose proof H as Hrun. unfold subsets_solve_game in H.
  pose proof (solve_loop_tightens _ _ _ _ _ (wf_board_sized _ Hwf0) H)
    as [F' _].
  pose proof (solve_loop_verdict _ _ _ _ _ (wf_board_sized _ Hwf0) H) as Hv.
  destruct (solve_loop_sound _ sol _ _ _ _ Hwf0 Hsol0 Hb Hcube H)
    as [Hwf' Hb'].
  split; [exact Hb' |]. split.
  - intros ->.
    rewrite (validate_full_status st' None (Some []) Hwf') in Hv
      by reflexivity.
    apply (sound_not_invalid st' sol); auto.
    eapply solution_frame; eauto.
  - intros ->. now apply (solve_complete_solution st st' sol).
Qed.

Lemma forallb_zrange (P : Z -> bool) (k i : Z) :
  forallb P (zrange k) = true -> 0 <= i < k -> P i = true.
Proof.
  intros H Hi. rewrite forallb_forall in H. apply H. now apply in_zrange.
Qed.

Lemma solver_sound_witness :
  exists st',
    subsets_solve_game board_T1_open5 = Some (STATUS_COMPLETE, st')
    /\ bounds_sound st' (zrange 16)
    /\ known st' = zrange 16 /\ mask st' = zrange 16.
Proof.
  destruct (subsets_solve_game board_T1_open5) as [[r st'] |] eqn:E;
    [| vm_compute in E; discriminate].
  assert (Er : r = STATUS_COMPLETE)
    by (vm_compute in E; injection E as <- _; reflexivity).
  subst r. exists st'. split; [reflexivity |].
  destruct (solver_sound board_T1_open5 st' (zrange 16) STATUS_COMPLETE)
    as (Hb & _ & Hc).
  - reflexivity.
  - destruct (gen_board_facts
                (mkState 4 4 4 (repeat 0 16) (repeat 1 16) (zrange 16)
                         (zrange 16) false false)) as (_ & Hsol & _);
      try reflexivity.
    assert (Eg : gen_clues (mkState 4 4 4 (repeat 0 16) (repeat 1 16)
                                    (zrange 16) (zrange 16) false false)
                 = set_immutable board_T1 (repeat 1 16))
      by (vm_compute; reflexivity).
    rewrite Eg in Hsol. exact Hsol.
  - intros i Hi Hne.
    pose proof (forallb_zrange
                  (fun i => (get (immutable board_T1_open5) i =? 0)
                            || ((get (known board_T1_open5) i =? get (zrange 16) i)
                                && (get (mask board_T1_open5) i
                                    =? get (zrange 16) i)))
                  16 i eq_refl Hi) as H.
    cbn beta in H. apply orb_true_iff in H as [H | H].
    + apply Z.eqb_eq in H. contradiction.
    + apply andb_true_iff in H as [H1 H2].
      apply Z.eqb_eq in H1, H2. split; assumption.
  - exact E.
  - split; [exact Hb |]. now apply Hc.
Defined.

(** ** Numbers written by [sprintf] and read back *)

Lemma digits_value_append (s t : string) :
  all_chars is_digit s = true ->
  forall a, digits_value (s +++ t) a = digits_value t (digits_value s a).
Proof.
  intros Hs. induction s as [|c s IH]; intros a; cbn; [reflexivity |].
  cbn in Hs. apply andb_true_iff in Hs as [Hc Hs]. rewrite Hc. now apply IH.
Qed.

Lemma all_chars_append (P : ascii -> bool) (s t : string) :
  all_chars P (s +++ t) = all_chars P s && all_chars P t.
Proof.
  induction s as [|c s IH]; cbn; [reflexivity |].
  now rewrite IH, andb_assoc.
Qed.

Lemma digit_char (k : Z) :
  0 <= k <= 9 ->
  is_digit (ascii_of_nat (Z.to_nat (48 + k))) = true
  /\ Z.of_nat (nat_of_ascii (ascii_of_nat (Z.to_nat (48 + k)))) - 48 = k.
Proof.
  intros Hk.
  assert (E : nat_of_ascii (ascii_of_nat (Z.to_nat (48 + k)))
              = Z.to_nat (48 + k)) by (apply nat_ascii_embedding; lia).
  unfold is_digit. rewrite E. split; [| lia].
  apply andb_true_iff. rewrite !Nat.leb_le. lia.
Qed.

(** [print_digits] writes the decimal digits of [v] in front of [acc]. *)
Lemma print_digits_spec (fuel : nat) :
  forall v acc,
    0 <= v < 10 ^ Z.of_nat (S fuel) ->
    exists c r,
      print_digits (S fuel) v acc = String c r +++ acc
      /\ all_chars is_digit (String c r) = true
      /\ forall a,
           digits_value (String c r) a
           = a * 10 ^ Z.of_nat (String.length (String c r)) + v.
Proof.
  induction fuel as [|fuel IH]; intros v acc Hv.
  - cbn [print_digits].
    assert (Hm : 0 <= v mod 10 <= 9) by (pose proof (Z.mod_pos_bound v 10); lia).
    destruct (digit_char _ Hm) as [Hd Hval].
    set (d := ascii_of_nat (Z.to_nat (48 + v mod 10))) in *.
    change (10 ^ Z.of_nat 1) with 10 in Hv.
    assert (E0 : v / 10 = 0) by (apply Z.div_small; lia).
    rewrite E0. cbn [Z.eqb].
    exists d, EmptyString. split; [reflexivity |]. split.
    + cbn. now rewrite Hd.
    + intros a. cbn [digits_value String.length]. rewrite Hd, Hval.
      change (10 ^ Z.of_nat 1) with 10.
      pose proof (Z.div_mod v 10). lia.
  - remember (S fuel) as f eqn:Ef. cbn [print_digits].
    assert (Hm : 0 <= v mod 10 <= 9) by (pose proof (Z.mod_pos_bound v 10); lia).
    destruct (digit_char _ Hm) as [Hd Hval].
    set (d := ascii_of_nat (Z.to_nat (48 + v mod 10))) in *.
    destruct (Z.eqb_spec (v / 10) 0) as [E0 | E0].
    + exists d, EmptyString. split; [reflexivity |]. split.
      * cbn. now rewrite Hd.
      * intros a. cbn [digits_value String.length]. rewrite Hd, Hval.
        change (10 ^ Z.of_nat 1) with 10.
        pose proof (Z.div_mod v 10). lia.
    + subst f. destruct (IH (v / 10) (String d acc)) as (c & r & E & Hall & Hdv).
      { rewrite (Nat2Z.inj_succ (S fuel)), Z.pow_succ_r in Hv by lia.
        split; [apply Z.div_pos; lia |].
        apply Z.div_lt_upper_bound; lia. }
      exists c, (r +++ String d EmptyString). split; [| split].
      * rewrite E. cbn [append]. f_equal.
        change (String d acc) with (String d EmptyString +++ acc).
        now rewrite append_assoc.
      * change (String c (r +++ String d EmptyString))
          with (String c r +++ String d EmptyString).
        rewrite all_chars_append, Hall. cbn. now rewrite Hd.
      * intros a.
        change (String c (r +++ String d EmptyString))
          with (String c r +++ String d EmptyString).
        rewrite digits_value_append by assumption. rewrite Hdv.
        cbn [digits_value]. rewrite Hd, Hval.
        rewrite string_length_append. cbn [String.length].
        rewrite Nat2Z.inj_add. change (Z.of_nat 1) with 1.
        rewrite Z.pow_add_r by lia. change (10 ^ 1) with 10.
        pose proof (Z.div_mod v 10). lia.
Qed.

(** A value of a nonnegative [int], as [%d] prints it. *)
Lemma print_int_spec (v : Z) :
  0 <= v < 2 ^ 31 ->
  exists c r,
    print_int v = String c r
    /\ all_chars is_digit (String c r) = true
    /\ digits_value (String c r) 0 = v.
Proof.
  intros Hv. unfold print_int. destruct (Z.ltb_spec v 0); [lia |].
  destruct (print_digits_spec 10 v EmptyString) as (c & r & E & Hall & Hdv).
  { change (10 ^ Z.of_nat 11) with 100000000000.
    change (2 ^ 31) with 2147483648 in Hv. lia. }
  exists c, r. rewrite E, append_empty_r. split; [reflexivity |].
  split; [exact Hall |]. rewrite Hdv. lia.
Qed.

Lemma atoi_print_int (v : Z) (rest : string) :
  0 <= v < 2 ^ 31 -> head_digit rest = false ->
  atoi (print_int v +++ rest) = v
  /\ skip_digits (print_int v +++ rest) = rest.
Proof.
  intros Hv Hr. destruct (print_int_spec v Hv) as (c & r & -> & Hall & Hdv).
  split; [| now apply skip_digits_app].
  change (String c r +++ rest) with (String c (r +++ rest)).
  rewrite atoi_digit by (cbn in Hall; now apply andb_true_iff in Hall).
  change (String c (r +++ rest)) with (String c r +++ rest).
  rewrite digits_value_app by assumption. rewrite Hdv.
  apply int_of_long_clamp_small. lia.
Qed.
(** * Parameters as text *)

(** X4.  [decode_params] reads back what [encode_params] writes: for
    parameters that are nonnegative [int]s, decoding the encoded text gives
    the same three numbers, whatever the parameters held before. *)
Theorem decode_encode_params :
  forall p0 p : game_params,
    0 <= p_w p < 2 ^ 31 -> 0 <= p_h p < 2 ^ 31 -> 0 <= p_n p < 2 ^ 31 ->
    decode_params p0 (encode_params p) = p.
Proof.
  intros p0 [pw ph pn] Hw Hh Hn. cbn [p_w p_h p_n] in *.
  unfold decode_params, encode_params. cbn [p_w p_h p_n].
  change (print_int pw +++ "x"%string +++ print_int ph +++ "n"%string
          +++ print_int pn)
    with (print_int pw +++ String "x" (print_int ph
                                        +++ String "n" (print_int pn))).
  destruct (atoi_print_int pw
              (String "x" (print_int ph +++ String "n" (print_int pn)))
              Hw eq_refl) as [-> ->].
  cbn [head_is string_tl]. change (("x" =? "x")%char) with true.
  cbn iota.
  destruct (atoi_print_int ph (String "n" (print_int pn)) Hh eq_refl)
    as [-> ->].
  cbn [head_is string_tl]. change (("n" =? "n")%char) with true.
  cbn iota. cbn [p_w p_h p_n].
  destruct (atoi_print_int pn EmptyString Hn eq_refl) as [E _].
  rewrite append_empty_r in E. now rewrite E.
Qed.

Lemma decode_encode_params_witness :
  decode_params (mkParams 9 9 9) (encode_params default_params)
  = default_params.
Proof.
  apply (decode_encode_params (mkParams 9 9 9) default_params);
    cbn; split; (discriminate || reflexivity).
Defined.

Lemma digits_value_nonneg (p : string) :
  forall acc, 0 <= acc -> 0 <= digits_value p acc.
Proof.
  induction p as [|c p IH]; intros acc Hacc; cbn [digits_value]; [exact Hacc |].
  destruct (is_digit c) eqn:Hc; [| exact Hacc].
  apply IH. apply digit_code in Hc. lia.
Qed.

Lemma atoi_digits (s rest : string) :
  all_chars is_digit s = true -> head_digit rest = false ->
  head_is rest "-" = false -> head_is rest "+" = false ->
  (match rest with String c _ => is_space c | EmptyString => false end) = false ->
  atoi (s +++ rest) = int_of_long (clamp_long (digits_value s 0)).
Proof.
  intros Hs Hr Hm Hp Hsp. destruct s as [|c s].
  - cbn [append digits_value]. unfold atoi.
    destruct rest as [|c r]; [reflexivity |].
    cbn [skip_spaces]. cbn in Hsp. rewrite Hsp. rewrite Hm, Hp.
    do 2 f_equal. now apply digits_value_stop.
  - change (String c s +++ rest) with (String c (s +++ rest)).
    rewrite atoi_digit by (cbn in Hs; now apply andb_true_iff in Hs).
    change (String c (s +++ rest)) with (String c s +++ rest).
    now rewrite digits_value_app.
Qed.

(** A run of digits that writes a number of the range of [int] is read by
    [atoi] as that number. *)
Lemma atoi_digits_small (s rest : string) :
  all_chars is_digit s = true -> head_digit rest = false ->
  head_is rest "-" = false -> head_is rest "+" = false ->
  (match rest with String c _ => is_space c | EmptyString => false end) = false ->
  digits_value s 0 < 2 ^ 31 ->
  atoi (s +++ rest) = digits_value s 0.
Proof.
  intros Hs Hr Hm Hp Hsp Hv. rewrite atoi_digits by assumption.
  apply int_of_long_clamp_small.
  pose proof (digits_value_nonneg s 0 ltac:(lia)).
  change (2 ^ 31) with 2147483648 in *. lia.
Qed.

(** A number written beyond the range of [int] is stored as the [int]
    that [atoi] returns. *)
Lemma decode_params_wraps :
  decode_params default_params "4294967300"%string = mkParams 4 4 4.
Proof. vm_compute. reflexivity. Qed.

(** X5.  What [decode_params] does with a text that lacks a part, for
    numbers that fit an [int] (below [2^31]): a bare run of digits (the
    empty text among them, which reads as 0) sets the width and the
    height to the number it writes, a text [WxH] sets both, and in either
    case the third parameter keeps the value it had. *)
Theorem decode_params_partial :
  forall (p0 : game_params) (a b : string),
    all_chars is_digit a = true -> all_chars is_digit b = true ->
    digits_value a 0 < 2 ^ 31 -> digits_value b 0 < 2 ^ 31 ->
    decode_params p0 a
    = mkParams (digits_value a 0) (digits_value a 0) (p_n p0)
    /\ decode_params p0 (a +++ "x"%string +++ b)
       = mkParams (digits_value a 0) (digits_value b 0) (p_n p0).
Proof.
  intros p0 a b Ha Hb Va Vb. unfold decode_params. split.
  - pose proof (atoi_digits_small a EmptyString Ha eq_refl eq_refl eq_refl
                  eq_refl Va) as E.
    pose proof (skip_digits_app a EmptyString Ha eq_refl) as Es.
    rewrite append_empty_r in E, Es. rewrite E, Es. reflexivity.
  - change (a +++ "x"%string +++ b) with (a +++ String "x" b).
    rewrite (atoi_digits_small a (String "x" b) Ha) by (reflexivity || exact Va).
    rewrite (skip_digits_app a (String "x" b) Ha) by reflexivity.
    cbn [head_is string_tl]. change (("x" =? "x")%char) with true.
    cbn iota. cbn [p_w p_h p_n].
    pose proof (atoi_digits_small b EmptyString Hb eq_refl eq_refl eq_refl
                  eq_refl Vb) as E.
    pose proof (skip_digits_app b EmptyString Hb eq_refl) as Es.
    rewrite append_empty_r in E, Es. rewrite E, Es. reflexivity.
Qed.

Lemma decode_params_partial_witness :
  decode_params default_params "3"%string = mkParams 3 3 4
  /\ decode_params default_params "3x5"%string = mkParams 3 5 4.
Proof.
  apply (decode_params_partial default_params "3"%string "5"%string);
    reflexivity.
Defined.
(** * The solve move *)

(** The loop of the solve move, when it stays inside the text, writes the
    bounds of the fresh copy and nothing else. *)
Lemma solve_move_cells_frame (cells : list Z) :
  forall (m : store) (y : game_state) (p : option string) (m' : store),
    solve_move_cells (m ++ [y]) (List.length m) cells p = Some m' ->
    exists y',
      m' = m ++ [y']
      /\ (w y' = w y /\ h y' = h y /\ n y' = n y /\ clues y' = clues y
          /\ immutable y' = immutable y /\ completed y' = completed y
          /\ cheated y' = cheated y)
      /\ zlen (known y') = zlen (known y) /\ zlen (mask y') = zlen (mask y).
Proof.
  induction cells as [|pos rest IH]; intros m y p m' H.
  - cbn [solve_move_cells] in H. injection H as <-. exists y. tauto.
  - cbn [solve_move_cells] in H.
    destruct p as [[|c p0] |]; [| | discriminate].
    { injection H as <-. exists y. tauto. }
    cbn zeta in H.
    destruct (ptr_next (skip_digits (String c p0))) as [q |]; [| discriminate].
    repeat first [rewrite deref_app_last in H | rewrite upd_app_last in H].
    apply IH in H. destruct H as (y' & E & F & Lk & Lm).
    exists y'. split; [exact E |].
    cbn [w h n clues immutable known mask completed cheated
         set_known set_mask] in F, Lk, Lm.
    rewrite !zlen_aset in *. tauto.
Qed.

(** X6.  A move that starts with the letter S is not refused.  The bare
    move "S" returns a copy of the input.  With a text after the
    letter, whenever the loop stays inside that text (it reads past the
    terminator when the text ends right behind a number other than the
    second number of the last cell),
    [execute_move] returns a fresh state and leaves the input state
    alone, and the new state has the size, the arrows, the fixed-cell
    flags and the [completed] and [cheated] flags of the input; only the
    bounds may differ. *)
Theorem execute_solve_move_frame :
  forall (m : store) (state : nat),
    (state < List.length m)%nat ->
    let st := deref m state in
    execute_move m state "S"%string
    = Some (m ++ [dup_game st], Some (List.length m))
    /\ forall (payload : string) (r : store * option nat),
         execute_move m state (String "S" payload) = Some r ->
         exists st',
           r = (m ++ [st'], Some (List.length m))
           /\ deref (m ++ [st']) state = st
           /\ (w st' = w st /\ h st' = h st /\ n st' = n st
               /\ clues st' = clues (dup_game st)
               /\ immutable st' = immutable (dup_game st)
               /\ completed st' = completed st /\ cheated st' = cheated st).
Proof.
  intros m state Hstate st. split.
  - unfold execute_move. cbn [head_is string_tl].
    change (("S" =? "S")%char) with true. cbn iota.
    unfold alloc_dup. fold st.
    destruct (zrange (w st * h st)); reflexivity.
  - intros payload r H. unfold execute_move in H.
    cbn [head_is string_tl] in H.
    change (("S" =? "S")%char) with true in H. cbn iota in H.
    unfold alloc_dup in H. fold st in H.
    destruct (solve_move_cells (m ++ [dup_game st]) (List.length m)
                (zrange (w st * h st)) (Some payload)) as [m' |] eqn:E;
      [| discriminate].
    injection H as <-.
    destruct (solve_move_cells_frame _ _ _ _ _ E) as (y' & -> & F & _).
    exists y'. split; [reflexivity |].
    split; [now apply deref_app_old | exact F].
Qed.

Lemma execute_solve_move_frame_witness :
  execute_move [board_T1_open5] 0 "S"%string
  = Some ([board_T1_open5; dup_game board_T1_open5], Some 1%nat)
  /\ exists st',
       execute_move [board_T1_open5] 0 "S1,2,"%string
       = Some ([board_T1_open5; st'], Some 1%nat)
       /\ clues st' = clues board_T1_open5
       /\ completed st' = false.
Proof.
  destruct (execute_solve_move_frame [board_T1_open5] 0) as [E0 H];
    [cbn; lia |].
  split; [exact E0 |].
  destruct (execute_move [board_T1_open5] 0 "S1,2,"%string) as [r |] eqn:E;
    [| vm_compute in E; discriminate].
  destruct (H "1,2,"%string r E)
    as (st' & -> & _ & (_ & _ & _ & Ec & _ & Eco & _)).
  exists st'. split; [reflexivity |]. split; [exact Ec | exact Eco].
Defined.

(** A text that ends in the middle of a cell takes the loop past the
    terminator. *)
Lemma solve_move_past_end :
  execute_move [board_T1_open5] 0 "Sxyz"%string = None
  /\ execute_move [board_T1_open5] 0 "S1,2"%string = None.
Proof. split; vm_compute; reflexivity. Qed.

Lemma concat_cons (sep x : string) (l : list string) :
  String.concat sep (x :: l)
  = x +++ match l with [] => EmptyString | _ :: _ => sep +++ String.concat sep l end.
Proof. destruct l; cbn; [now rewrite append_empty_r | reflexivity]. Qed.

Lemma to_int_small (v : Z) : 0 <= v < 2 ^ 31 -> to_int v = v.
Proof. intros H. unfold to_int. destruct (Z.ltb_spec v (2 ^ 31)); lia. Qed.

Lemma to_uint_small (v : Z) : 0 <= v < 2 ^ 31 -> to_uint v = v.
Proof. intros H. unfold to_uint. apply Z.mod_small. lia. Qed.

(** The loop of the solve move on the text that [solve_game] writes. *)
Lemma solve_move_cells_text (solved : game_state) (cells : list Z) :
  NoDup cells ->
  (forall pos, In pos cells ->
     0 <= get (known solved) pos < 2 ^ 31
     /\ 0 <= get (mask solved) pos < 2 ^ 31) ->
  forall (m : store) (y : game_state) (p : option string),
    (forall pos, In pos cells ->
       0 <= pos < zlen (known y) /\ 0 <= pos < zlen (mask y)) ->
    (cells <> [] ->
     p = Some (String.concat ","%string
                 (map (fun i => print_int (to_int (get (known solved) i))
                                +++ ","%string
                                +++ print_int (to_int (get (mask solved) i)))
                      cells))) ->
    exists y',
      solve_move_cells (m ++ [y]) (List.length m) cells p = Some (m ++ [y'])
      /\ forall i,
           (In i cells ->
              get (known y') i = get (known solved) i
              /\ get (mask y') i = get (mask solved) i)
           /\ (~ In i cells ->
              get (known y') i = get (known y) i
              /\ get (mask y') i = get (mask y) i).
Proof.
  intros Hnd. induction cells as [|pos rest IH]; intros Hval m y p Hrange Hp.
  - exists y. split; [reflexivity |]. intros i. split; [intros [] | auto].
  - inversion Hnd as [| ? ? Hnotin Hnd']. subst.
    destruct (Hval pos (or_introl eq_refl)) as [Hk Hm].
    destruct (Hrange pos (or_introl eq_refl)) as [Rk Rm].
    rewrite (Hp ltac:(discriminate)). clear Hp.
    cbn [map]. rewrite concat_cons.
    set (tail := match map _ rest with
                 | [] => EmptyString
                 | _ :: _ => ","%string +++ String.concat ","%string (map _ rest)
                 end).
    assert (Htail : head_digit tail = false
                    /\ (rest <> [] ->
                        ptr_next tail
                        = Some (String.concat ","%string
                                  (map (fun i =>
                                          print_int (to_int (get (known solved) i))
                                          +++ ","%string
                                          +++ print_int (to_int (get (mask solved) i)))
                                       rest)))).
    { subst tail. destruct rest; cbn [map]; split;
        (reflexivity || (intros; reflexivity) || (intros H; now elim H)). }
    destruct Htail as [Hdt Htl].
    rewrite !to_int_small by assumption.
    rewrite !append_assoc.
    change (","%string +++ print_int (get (mask solved) pos) +++ tail)
      with (String "," (print_int (get (mask solved) pos) +++ tail)).
    destruct (atoi_print_int (get (known solved) pos)
                (String "," (print_int (get (mask solved) pos) +++ tail))
                Hk eq_refl) as [Ea Es].
    destruct (atoi_print_int (get (mask solved) pos) tail Hm Hdt) as [Ea' Es'].
    destruct (print_int_spec _ Hk) as (c & r & Ep & _).
    cbn [solve_move_cells].
    destruct (print_int (get (known solved) pos)
              +++ String "," (print_int (get (mask solved) pos) +++ tail))
      as [|c0 p0] eqn:Etext.
    { rewrite Ep in Etext. discriminate. }
    cbn zeta. rewrite Ea, Es. cbn [ptr_next]. rewrite Ea', Es'.
    repeat first [rewrite deref_app_last | rewrite upd_app_last].
    rewrite !to_uint_small by assumption.
    set (y1 := set_mask _ _).
    destruct (IH Hnd') with (m := m) (y := y1) (p := ptr_next tail)
      as (y' & E & Hy').
    { intros q Hq. apply Hval. now right. }
    { intros q Hq. subst y1. cbn [known mask set_mask set_known].
      rewrite !zlen_aset. apply Hrange. now right. }
    { exact Htl. }
    exists y'. split; [exact E |]. intros i. split.
    + intros [<- | Hin]; [| now apply Hy'].
      destruct (Hy' pos) as [_ Hout]. destruct (Hout Hnotin) as [-> ->].
      subst y1. cbn [known mask set_mask set_known].
      rewrite !aget_aset_eq by assumption. auto.
    + intros Hni. destruct (Hy' i) as [_ Hout].
      destruct Hout as [-> ->]; [intros Hi; apply Hni; now right |].
      subst y1. cbn [known mask set_mask set_known].
      rewrite !aget_aset_neq; [auto | |]; intros ->; apply Hni; now left.
Qed.

(** X7.  Executing the move that [solve_game] returns puts the solver's
    board on the screen: when the solver's run on a copy of a well-formed
    board ends with a status other than STATUS_INVALID and bounds that
    print as nonnegative numbers (as they always are when the status is
    STATUS_COMPLETE), [solve_game] returns a move, and [execute_move]
    turns that move into a fresh state equal to the board the solver
    left.  In particular its [completed] and [cheated] flags are those
    of the input: the solve move sets neither. *)
Theorem solve_move_applies :
  forall (m : store) (state : nat) (r : status) (solved : game_state),
    (state < List.length m)%nat ->
    wf_board (deref m state) ->
    subsets_solve_game (dup_game (deref m state)) = Some (r, solved) ->
    r <> STATUS_INVALID ->
    (r = STATUS_COMPLETE
     \/ forall i, 0 <= i < w solved * h solved ->
                  get (known solved) i < 2 ^ 31) ->
    exists move,
      solve_game (deref m state) = Some (Some move, None)
      /\ execute_move m state move
         = Some (m ++ [solved], Some (List.length m))
      /\ completed solved = completed (deref m state)
      /\ cheated solved = cheated (deref m state).
Proof.
  intros m state r solved Hstate Hwf E Hr Hbound.
  set (st := deref m state) in *.
  pose proof E as E0. rewrite (dup_game_wf st Hwf) in E0.
  destruct (subsets_solve_game_total st Hwf) as (r' & s' & E' & Hwf').
  rewrite E0 in E'. injection E' as <- <-.
  assert (F : same_frame st solved).
  { eapply same_frame_trans; [apply solve_reset_frame |].
    unfold subsets_solve_game in E0.
    eapply solve_loop_tightens; [| exact E0].
    eapply sized_frame; [apply wf_board_sized, Hwf | apply solve_reset_frame]. }
  pose proof F as (Ew & Eh & En & Ec & Ei & Eco & Ech & _).
  pose proof (wf_board_unfold _ Hwf)
    as ((Hw & Hh & Hn & Hs) & (Lc & Li & Lk & Lm) & _).
  pose proof (wf_board_unfold _ Hwf')
    as (_ & (_ & _ & Lk' & Lm') & _).
  pose proof (wf_board_typed _ Hwf') as [_ Hty].
  assert (Hval : forall pos, In pos (zrange (w st * h st)) ->
                   0 <= get (known solved) pos < 2 ^ 31
                   /\ 0 <= get (mask solved) pos < 2 ^ 31).
  { intros pos Hpos. apply in_zrange in Hpos.
    destruct (Hty pos) as [Hk Hm]. rewrite En, ALL_BITS_pow in Hm by lia.
    assert (2 ^ n st <= 2 ^ 30) by (apply Z.pow_le_mono_r; lia).
    assert (Hm' : 0 <= get (mask solved) pos < 2 ^ 31) by lia.
    split; [| exact Hm']. split; [lia |].
    destruct Hbound as [-> | Hbound].
    - unfold subsets_solve_game in E0. apply solve_loop_complete in E0.
      apply validate_complete_all_resolved in E0.
      pose proof (all_resolved_cell solved pos E0) as Hres.
      rewrite Ew, Eh in Hres. specialize (Hres Hpos).
      unfold resolved in Hres. apply Z.eqb_eq in Hres. lia.
    - apply Hbound. rewrite Ew, Eh. exact Hpos. }
  exists (solve_move_text solved). split; [| split; [| split]]; auto.
  - unfold solve_game. fold st. rewrite E. destruct r; try reflexivity.
    contradiction.
  - rewrite solve_move_text_spec by (rewrite Ew, Eh; nia).
    unfold solve_move_spec, solve_move_pairs.
    change ("S"%string +++ ?x) with (String "S" x).
    unfold execute_move. cbn [head_is string_tl].
    change (("S" =? "S")%char) with true. cbn iota.
    unfold alloc_dup. fold st. rewrite (dup_game_wf st Hwf), Ew, Eh.
    destruct (solve_move_cells_text solved (zrange (w st * h st))
                (zrange_nodup _) Hval m st
                (Some (String.concat ","%string
                   (map (fun i => print_int (to_int (get (known solved) i))
                                  +++ ","%string
                                  +++ print_int (to_int (get (mask solved) i)))
                        (zrange (w st * h st))))))
      as (y' & Ey & Hy').
    { intros pos Hpos. apply in_zrange in Hpos. lia. }
    { reflexivity. }
    destruct (solve_move_cells_frame _ _ _ _ _ Ey)
      as (y2 & Ey2 & (Fw & Fh & Fn & Fc & Fi & Fco & Fch) & Fk & Fm).
    apply app_inv_head in Ey2. injection Ey2 as <-.
    rewrite Ey. do 4 f_equal.
    apply state_ext; try congruence.
    + apply list_get_ext; [congruence |]. intros i Hi.
      rewrite Fk, Lk in Hi. apply Hy'. now apply in_zrange.
    + apply list_get_ext; [congruence |]. intros i Hi.
      rewrite Fm, Lm in Hi. apply Hy'. now apply in_zrange.
Qed.

Lemma solve_move_applies_witness :
  exists move solved,
    solve_game board_T1_open5 = Some (Some move, None)
    /\ execute_move [board_T1_open5] 0 move
       = Some ([board_T1_open5; solved], Some 1%nat)
    /\ known solved = zrange 16
    /\ completed solved = false.
Proof.
  destruct (subsets_solve_game (dup_game board_T1_open5))
    as [[r solved] |] eqn:E; [| vm_compute in E; discriminate].
  assert (Er : r = STATUS_COMPLETE /\ known solved = zrange 16).
  { vm_compute in E. injection E as <- <-. split; reflexivity. }
  destruct Er as [-> Ek].
  destruct (solve_move_applies [board_T1_open5] 0 STATUS_COMPLETE solved)
    as (move & Eg & Ex & Eco & _);
    [cbn; lia | reflexivity | exact E | discriminate | now left |].
  exists move, solved. split; [exact Eg |]. split; [exact Ex |].
  split; [exact Ek | exact Eco].
Defined.

(** * Boards as the loader leaves them *)







(** * The size of a generated description *)

Lemma fold_append_length {A : Type} (f : A -> string) (l : list A) :
  forall acc,
    String.length (fold_left (fun s i => s +++ f i) l acc)
    = (String.length acc + list_sum (map (fun i => String.length (f i)) l))%nat.
Proof.
  induction l as [|a l IH]; intros acc; cbn [fold_left map].
  - cbn. lia.
  - rewrite IH, string_length_append. unfold list_sum. cbn [fold_right]. lia.
Qed.

Lemma list_sum_le {A : Type} (f g : A -> nat) (l : list A) :
  (forall a, In a l -> (f a <= g a)%nat) ->
  (list_sum (map f l) <= list_sum (map g l))%nat.
Proof.
  unfold list_sum. induction l as [|a l IH]; intros H; cbn [map fold_right];
    [lia |].
  pose proof (H a (or_introl eq_refl)).
  assert (fold_right Nat.add 0 (map f l) <= fold_right Nat.add 0 (map g l))%nat
    by (apply IH; intros; apply H; now right).
  lia.
Qed.

Lemma clue_letters_length (c : Z) :
  String.length (clue_letters c)
  = list_sum (map (fun a => if has c (adj_f a) then 1%nat else 0%nat) adjthan).
Proof.
  unfold clue_letters, adjthan. cbn [fold_left map list_sum fold_right adj_f adj_enc].
  destruct (has c F_ADJ_UP), (has c F_ADJ_RIGHT), (has c F_ADJ_DOWN),
    (has c F_ADJ_LEFT); reflexivity.
Qed.

Lemma substring_length_prefix (s : string) (k : nat) :
  (k <= String.length s)%nat -> String.length (substring 0 k s) = k.
Proof.
  revert k. induction s as [|c s IH]; intros [|k] H; cbn in *; try lia.
  rewrite IH; lia.
Qed.

Lemma print_int_short_16 :
  forallb (fun v => (String.length (print_int (to_int v)) <=? 2)%nat)
          (zrange 16) = true.
Proof. vm_compute. reflexivity. Qed.

(** The number of neighbours of a cell of the 4x4 grid, by index. *)
Lemma neighbour_room_16 :
  list_sum
    (map (fun i =>
            Nat.add 3
              (list_sum
                 (map (fun a =>
                         if (0 <=? i mod 4 + adj_dx a)
                            && (i mod 4 + adj_dx a <? 4)
                            && (0 <=? i / 4 + adj_dy a)
                            && (i / 4 + adj_dy a <? 4)
                         then 1%nat else 0%nat) adjthan)))
         (zrange 16))
  = 96%nat.
Proof. vm_compute. reflexivity. Qed.

(** The text written for a 4x4 board with values below 16 and arrows
    inside the grid takes at most 96 characters, the last comma
    included. *)
Lemma desc_cells_length (st : game_state) :
  w st = 4 -> h st = 4 -> wf_board st ->
  (forall i, 0 <= i < 16 -> 0 <= get (known st) i < 16) ->
  (String.length (fold_left (fun s i => s +++ desc_cell st i)
                            (zrange 16) EmptyString) <= 96)%nat.
Proof.
  intros Ew Eh Hwf Hv. rewrite fold_append_length. cbn [String.length].
  rewrite <- neighbour_room_16. apply list_sum_le. intros i Hi.
  apply in_zrange in Hi.
  unfold desc_cell. rewrite !string_length_append. cbn [String.length].
  assert (Hval : Nat.le (String.length
                           (if negb (get (immutable st) i =? 0)
                            then print_int (to_int (get (known st) i))
                            else "_"%string)) 2).
  { destruct (negb _); [| cbn; lia].
    pose proof (forallb_zrange _ 16 (get (known st) i) print_int_short_16
                  (Hv i Hi)) as H.
    cbn beta in H. now apply Nat.leb_le in H. }
  assert (Hlet : Nat.le (String.length (clue_letters (get (clues st) i)))
                   (list_sum
                       (map (fun a =>
                               if (0 <=? i mod 4 + adj_dx a)
                                  && (i mod 4 + adj_dx a <? 4)
                                  && (0 <=? i / 4 + adj_dy a)
                                  && (i / 4 + adj_dy a <? 4)
                               then 1%nat else 0%nat) adjthan))).
  { rewrite clue_letters_length. apply list_sum_le. intros a Ha.
    destruct (has (get (clues st) i) (adj_f a)) eqn:Hc; [| lia].
    apply wf_board_unfold in Hwf as (_ & _ & _ & Hg).
    unfold clues_in_grid in Hg. rewrite forallb_forall in Hg.
    assert (Hx : 0 <= i mod 4 < 4) by (apply Z.mod_pos_bound; lia).
    assert (Hy : 0 <= i / 4 < 4)
      by (split; [apply Z.div_pos; lia | apply Z.div_lt_upper_bound; lia]).
    specialize (Hg (i / 4, i mod 4, a)). cbn beta iota in Hg.
    rewrite Ew, Eh in Hg.
    replace (i / 4 * 4 + i mod 4) with i in Hg
      by (pose proof (Z.div_mod i 4); lia).
    rewrite Hc in Hg. cbn [negb orb] in Hg.
    rewrite Hg; [lia |]. apply in_grid_triples. auto. }
  lia.
Qed.

(** X9.  The description that [new_game_desc] returns fits the buffer of
    [w * h * 6] characters that the function allocates for it, its
    terminator included: every cell takes at most two digits and a comma
    and as many letters as it has neighbours. *)
Theorem new_game_desc_fits :
  forall (random_state : Type)
         (shuffle : list Z -> random_state -> list Z * random_state),
    (forall l rs, Permutation (fst (shuffle l rs)) l) ->
    forall (params : game_params) (rs : random_state) (desc : string),
      validate_params params = None ->
      new_game_desc random_state shuffle params rs = Some desc ->
      (String.length desc + 1
       <= Z.to_nat (p_w params * p_h params * 6))%nat.
Proof.
  intros random_state shuffle Hshuffle params rs desc Hvalid H.
  apply valid_params_default in Hvalid. subst params.
  pose proof (gen_solution_facts random_state shuffle Hshuffle rs)
    as ((Ew & Eh & En) & Hwf & Hsol & Em & Ei & Eco & Ech & Hperm & Hcr).
  cbn zeta in *. unfold new_game_desc in H.
  destruct (gen_solution random_state shuffle default_params rs) as [G rs1].
  cbn [fst] in *.
  destruct (shuffle (zrange (w G * h G)) rs1) as [spaces rs2].
  destruct (gen_minify_unfixed G spaces G) as (final & Emin & Hfinal).
  { apply unfixed_from_full; auto. rewrite Ew, Eh. reflexivity. }
  rewrite Emin in H. injection H as <-.
  destruct Hfinal as (Hwff & Ewf & Ehf & Enf & Ecf & Ekf & _).
  destruct (perm_values (known G) 16) as (_ & _ & Hr & _); [lia | exact Hperm |].
  pose proof (desc_cells_length final) as Hlen.
  unfold encode_desc. rewrite Ewf, Ehf, Ew, Eh, Ekf in *.
  change (4 * 4) with 16.
  specialize (Hlen eq_refl eq_refl Hwff Hr).
  rewrite substring_length_prefix by lia.
  change (Z.to_nat (p_w default_params * p_h default_params * 6)) with 96%nat.
  lia.
Qed.

Lemma new_game_desc_fits_witness :
  exists desc,
    new_game_desc unit (fun l rs => (l, rs)) default_params tt = Some desc
    /\ (String.length desc + 1 <= 96)%nat.
Proof.
  destruct (new_game_desc unit (fun l rs => (l, rs)) default_params tt)
    as [desc |] eqn:E; [| vm_compute in E; discriminate].
  exists desc. split; [reflexivity |].
  apply (new_game_desc_fits unit (fun l rs => (l, rs))
           (fun l rs => Permutation_refl l) default_params tt desc eq_refl E).
Defined.

(** * The board as text *)

Lemma put_length (p : string) (c : ascii) :
  Z.of_nat (String.length (put p c)) = Z.of_nat (String.length p) + 1.
Proof. unfold put. rewrite string_length_append. cbn. lia. Qed.

(** The line of a row of cells is [3 * w - 1] characters long. *)
Lemma text_cell_row_length (st : game_state) (y cy : Z) (p : string) :
  0 < w st ->
  Z.of_nat (String.length (text_cell_row st y cy p))
  = Z.of_nat (String.length p) + 3 * w st - 1.
Proof.
  intros Hw. unfold text_cell_row.
  match goal with
  | |- Z.of_nat (String.length (fold_left ?f _ _)) = _ =>
      pose proof (fold_zrange_prefix
                    (fun j q => Z.of_nat (String.length q)
                                = Z.of_nat (String.length p) + 3 * j
                                  - (if j <? w st then 0 else 1))
                    f (w st) p) as H
  end.
  cbn beta in H.
  destruct (Z.ltb_spec (w st) (w st)) as [? | _] in H; [lia |].
  rewrite H; [lia | lia | |].
  - destruct (Z.ltb_spec 0 (w st)); lia.
  - intros j q Hj Hq. cbn [CELL_WIDTH zrange fold_left]. cbn zeta.
    change (zrange CELL_WIDTH) with [0; 1]. cbn [fold_left].
    destruct (Z.ltb_spec j (w st)); [| lia].
    destruct (Z.ltb_spec j (w st - 1)), (Z.ltb_spec (j + 1) (w st)); try lia;
      rewrite ?put_length; lia.
Qed.

Lemma text_gap_row_length (st : game_state) (y : Z) (p : string) :
  0 < w st ->
  Z.of_nat (String.length (text_gap_row st y p))
  = Z.of_nat (String.length p) + 3 * w st - 1.
Proof.
  intros Hw. unfold text_gap_row.
  match goal with
  | |- Z.of_nat (String.length (fold_left ?f _ _)) = _ =>
      pose proof (fold_zrange_prefix
                    (fun j q => Z.of_nat (String.length q)
                                = Z.of_nat (String.length p) + 3 * j
                                  - (if j <? w st then 0 else 1))
                    f (w st) p) as H
  end.
  cbn beta in H.
  destruct (Z.ltb_spec (w st) (w st)) as [? | _] in H; [lia |].
  rewrite H; [lia | lia | |].
  - destruct (Z.ltb_spec 0 (w st)); lia.
  - intros j q Hj Hq. cbn zeta.
    change (map (Z.add 1) (zrange (CELL_WIDTH - 1))) with [1]. cbn [fold_left].
    destruct (Z.ltb_spec j (w st)); [| lia].
    destruct (Z.ltb_spec j (w st - 1)), (Z.ltb_spec (j + 1) (w st)); try lia;
      rewrite ?put_length; lia.
Qed.

(** X10.  On a board with at least one row and one column,
    [game_text_format] writes [3 * w * (3 * h - 1)] characters, which with
    the terminator is exactly the size it allocates: three lines of
    [3 * w] characters for every row of cells but the last, which has
    two. *)
Theorem game_text_format_length :
  forall st : game_state,
    0 < w st -> 0 < h st ->
    Z.of_nat (String.length (game_text_format st)) + 1 = text_format_size st.
Proof.
  intros st Hw Hh. unfold text_format_size, game_text_format.
  change CELL_WIDTH with 2. change CELL_HEIGHT with 2.
  assert (H : Z.of_nat (String.length
                (fold_left (fun p y =>
                   let p := fold_left (fun p cy =>
                              put (text_cell_row st y cy p) "010"%char)
                              (zrange 2) p in
                   if y <? h st - 1
                   then put (text_gap_row st y p) "010"%char else p)
                   (zrange (h st)) EmptyString))
              = 9 * w st * h st - 3 * w st).
  { match goal with
    | |- Z.of_nat (String.length (fold_left ?f _ _)) = _ =>
        pose proof (fold_zrange_prefix
                      (fun j q => Z.of_nat (String.length q)
                                  = 9 * w st * j
                                    - (if j <? h st then 0 else 3 * w st))
                      f (h st) EmptyString) as H
    end.
    cbn beta in H.
    destruct (Z.ltb_spec (h st) (h st)) as [? | _] in H; [lia |].
    rewrite H; [lia | lia | |].
    - destruct (Z.ltb_spec 0 (h st)); cbn; lia.
    - intros j q Hj Hq. cbn zeta. change (zrange 2) with [0; 1].
      cbn [fold_left].
      destruct (Z.ltb_spec j (h st)); [| lia].
      destruct (Z.ltb_spec j (h st - 1)), (Z.ltb_spec (j + 1) (h st));
        try lia;
        rewrite ?put_length, ?text_gap_row_length, ?put_length,
                ?text_cell_row_length, ?put_length, ?text_cell_row_length
          by assumption; lia. }
  cbv zeta in H. rewrite H. ring.
Qed.

Lemma game_text_format_length_witness :
  Z.of_nat (String.length (game_text_format board_T1_open5)) + 1 = 133.
Proof.
  apply (game_text_format_length board_T1_open5); reflexivity.
Defined.

(** * The arrow rule at rest *)

Lemma lor_absorb (a b : Z) : Z.lor a b = a <-> subset b a.
Proof.
  rewrite subset_spec. split; intros H.
  - intros k Hk Hb. rewrite <- H, Z.lor_spec, Hb. apply orb_true_r.
  - apply Z.bits_inj'. intros k Hk. rewrite Z.lor_spec.
    destruct (Z.testbit b k) eqn:Eb; [| apply orb_false_r].
    rewrite (H k Hk Eb). reflexivity.
Qed.

Lemma set_known_same (st : game_state) : set_known st (known st) = st.
Proof. now destruct st. Qed.

Lemma set_mask_same (st : game_state) : set_mask st (mask st) = st.
Proof. now destruct st. Qed.

(** One arrow of the rule: the count stays as it is exactly when the
    bounds of the neighbour are already included, and then the board
    stays as it is. *)
Lemma apply_arrows_step_rest (x y ret : Z) (st : game_state) (a : adj) :
  0 <= y * w st + x < zlen (known st) ->
  0 <= (y + adj_dy a) * w st + (x + adj_dx a) < zlen (mask st) ->
  let i1 := y * w st + x in
  let i2 := (y + adj_dy a) * w st + (x + adj_dx a) in
  let r := apply_arrows_step x y (ret, st) a in
  ret <= fst r
  /\ (fst r = ret <->
      (has (get (clues st) i1) (adj_f a) = true ->
       subset (get (known st) i2) (get (known st) i1)
       /\ subset (get (mask st) i2) (get (mask st) i1)))
  /\ (fst r = ret -> r = (ret, st)).
Proof.
  intros H1 H2 i1 i2 r. subst r. rewrite apply_arrows_step_eq. cbn zeta.
  replace (y * w st + x + adj_dy a * w st + adj_dx a) with i2
    by (subst i2; ring).
  fold i1.
  destruct (has (get (clues st) i1) (adj_f a)); cbn [negb fst].
  - unfold or_known, and_mask, changed.
    cbn [known mask set_known set_mask].
    rewrite aget_aset_eq by assumption.
    rewrite (aget_aset_eq 0 (mask st)) by assumption.
    rewrite <- lor_absorb. unfold subset.
    destruct (Z.eqb_spec (get (known st) i1)
                (Z.lor (get (known st) i1) (get (known st) i2))) as [Ek | Ek];
      destruct (Z.eqb_spec (get (mask st) i2)
                  (Z.land (get (mask st) i2) (get (mask st) i1))) as [Em | Em];
      cbn [negb]; (split; [lia |]); split;
      try (split; [intros _ _; split; congruence | intros _; lia]);
      try (split; [lia | intros H; destruct (H eq_refl); congruence]);
      try lia.
    intros _. rewrite <- Ek, <- Em, !aset_same.
    now rewrite set_known_same, set_mask_same, Z.add_0_r, Z.add_0_r.
  - split; [lia |]. split; [| reflexivity]. split; [discriminate | reflexivity].
Qed.

Lemma apply_arrows_fold_mono (l : list (Z * Z * adj)) :
  forall acc,
    fst acc
    <= fst (fold_left (fun s (t : Z * Z * adj) =>
                         apply_arrows_step (snd (fst t)) (fst (fst t)) s (snd t))
                      l acc).
Proof.
  induction l as [|t l IH]; intros acc; cbn [fold_left]; [lia |].
  specialize (IH (apply_arrows_step (snd (fst t)) (fst (fst t)) acc (snd t))).
  destruct (apply_arrows_step_effect (snd (fst t)) (fst (fst t)) acc (snd t))
    as [_ [[E _] | [E _]]]; lia.
Qed.

Lemma apply_arrows_fold_rest (st : game_state) (ret : Z)
    (l : list (Z * Z * adj)) :
  wf_board st ->
  (forall y x a, In (y, x, a) l ->
                 0 <= y < h st /\ 0 <= x < w st /\ In a adjthan) ->
  let r := fold_left (fun s (t : Z * Z * adj) =>
                        apply_arrows_step (snd (fst t)) (fst (fst t)) s (snd t))
                     l (ret, st) in
  (fst r = ret ->
   r = (ret, st)
   /\ forall y x a, In (y, x, a) l ->
        has (get (clues st) (y * w st + x)) (adj_f a) = true ->
        subset (get (known st) ((y + adj_dy a) * w st + (x + adj_dx a)))
               (get (known st) (y * w st + x))
        /\ subset (get (mask st) ((y + adj_dy a) * w st + (x + adj_dx a)))
                  (get (mask st) (y * w st + x)))
  /\ ((forall y x a, In (y, x, a) l ->
         has (get (clues st) (y * w st + x)) (adj_f a) = true ->
         subset (get (known st) ((y + adj_dy a) * w st + (x + adj_dx a)))
                (get (known st) (y * w st + x))
         /\ subset (get (mask st) ((y + adj_dy a) * w st + (x + adj_dx a)))
                   (get (mask st) (y * w st + x))) ->
      r = (ret, st)).
Proof.
  intros Hwf.
  pose proof (wf_board_unfold st Hwf) as (_ & (_ & _ & Lk & Lm) & _ & Hg).
  assert (Hstep : forall y x a,
            0 <= y < h st -> 0 <= x < w st -> In a adjthan ->
            let r := apply_arrows_step x y (ret, st) a in
            ret <= fst r
            /\ (fst r = ret <->
                (has (get (clues st) (y * w st + x)) (adj_f a) = true ->
                 subset (get (known st) ((y + adj_dy a) * w st + (x + adj_dx a)))
                        (get (known st) (y * w st + x))
                 /\ subset (get (mask st) ((y + adj_dy a) * w st + (x + adj_dx a)))
                           (get (mask st) (y * w st + x))))
            /\ (fst r = ret -> r = (ret, st))).
  { intros y x a Hy Hx Ha.
    destruct (has (get (clues st) (y * w st + x)) (adj_f a)) eqn:Hc.
    - unfold clues_in_grid in Hg. rewrite forallb_forall in Hg.
      specialize (Hg (y, x, a) (proj2 (in_grid_triples _ _ y x a)
                                      (conj Hy (conj Hx Ha)))).
      cbn beta iota in Hg. rewrite Hc in Hg. cbn [negb orb] in Hg.
      rewrite !andb_true_iff, !Z.leb_le, !Z.ltb_lt in Hg.
      pose proof (apply_arrows_step_rest x y ret st a) as H.
      cbn zeta in H. rewrite Hc in H. apply H.
      + rewrite Lk. apply cell_index_range; lia.
      + rewrite Lm. apply cell_index_range; lia.
    - cbn zeta. rewrite apply_arrows_step_eq. cbn zeta. rewrite Hc.
      cbn [negb fst]. split; [lia |]. split; [| reflexivity].
      split; [discriminate | reflexivity]. }
  induction l as [|[[y x] a] l IH]; intros Hin.
  - cbn. split; [intros _; split; [reflexivity | intros ? ? ? []] | reflexivity].
  - destruct (Hin y x a (or_introl eq_refl)) as (Hy & Hx & Ha).
    destruct (Hstep y x a Hy Hx Ha) as (Hle & Hiff & Hsame).
    assert (Hin' : forall y' x' a', In (y', x', a') l ->
                     0 <= y' < h st /\ 0 <= x' < w st /\ In a' adjthan)
      by (intros; apply Hin; now right).
    destruct (IH Hin') as [IH1 IH2].
    cbn [fold_left fst snd]. split.
    + intros E.
      pose proof (apply_arrows_fold_mono l (apply_arrows_step x y (ret, st) a))
        as Hm.
      assert (E1 : fst (apply_arrows_step x y (ret, st) a) = ret) by lia.
      rewrite (Hsame E1) in *.
      destruct (IH1 E) as [Er Hall]. split; [exact Er |].
      intros y' x' a' [[= <- <- <-] | Hrest]; [now apply Hiff | now apply Hall].
    + intros Hall.
      assert (E1 : fst (apply_arrows_step x y (ret, st) a) = ret)
        by (apply Hiff; apply Hall; now left).
      rewrite (Hsame E1). apply IH2. intros; apply Hall; auto. now right.
Qed.

(** X11.  On a well-formed board [subsets_solve_apply_arrows] reports no
    change exactly when, along every arrow, the bounds of the cell pointed
    at are already included in those of the cell that carries the arrow;
    and then it leaves the board as it is. *)
Theorem apply_arrows_at_rest :
  forall st : game_state,
    wf_board st ->
    (fst (subsets_solve_apply_arrows st) = 0 <-> arrows_closed st)
    /\ (fst (subsets_solve_apply_arrows st) = 0 ->
        snd (subsets_solve_apply_arrows st) = st).
Proof.
  intros st Hwf. unfold subsets_solve_apply_arrows.
  rewrite for_grid_triples.
  destruct (apply_arrows_fold_rest st 0 (grid_triples (w st) (h st)) Hwf)
    as [H1 H2].
  { intros y x a H. now apply in_grid_triples in H. }
  cbn zeta in *. split; [split |].
  - intros E x y a Hx Hy Ha Hc. destruct (H1 E) as [_ Hall].
    apply Hall; [apply in_grid_triples; auto | exact Hc].
  - intros Hcl. rewrite H2; [reflexivity |].
    intros y x a Ht Hc. apply in_grid_triples in Ht as (Hy & Hx & Ha).
    now apply Hcl.
  - intros E. destruct (H1 E) as [-> _]. reflexivity.
Qed.

Lemma apply_arrows_at_rest_witness :
  arrows_closed board_T1
  /\ snd (subsets_solve_apply_arrows board_T1) = board_T1.
Proof.
  destruct (apply_arrows_at_rest board_T1) as [Hiff Hsame]; [reflexivity |].
  split; [apply Hiff | apply Hsame]; vm_compute; reflexivity.
Defined.

(** * The cube rules, candidate by candidate *)

(** A loop whose rounds each clear at most the candidate [key b], and
    clear it unless [g b] holds. *)
Lemma fold_clear_spec {B : Type} (f : list bool -> B -> list bool)
    (key : B -> Z) (g : B -> bool) (l : list B) :
  (forall c b j,
     bget (f c b) j = if j =? key b then bget c j && g b else bget c j) ->
  forall c j,
    bget (fold_left f l c) j
    = bget c j && forallb (fun b => negb (j =? key b) || g b) l.
Proof.
  intros Hstep. induction l as [|b l IH]; intros c j; cbn [fold_left forallb].
  - now rewrite andb_true_r.
  - rewrite IH, Hstep. destruct (j =? key b); cbn [negb orb andb].
    + now rewrite andb_assoc.
    + reflexivity.
Qed.

Lemma sync_cell_get (st : game_state) (n2 : Z) (cube : list bool)
    (i nj j : Z) :
  bget (sync_cell st n2 cube i nj) j
  = if j =? i * n2 + nj
    then bget cube j
         && ((Z.land (get (mask st) i) nj =? nj)
             && (Z.land (get (known st) i) nj =? get (known st) i))
    else bget cube j.
Proof.
  unfold sync_cell.
  destruct (Z.eqb_spec j (i * n2 + nj)) as [-> | Hne].
  - destruct (bget cube (i * n2 + nj)) eqn:Eb; cbn [negb andb];
      [| exact Eb].
    assert (Hin : 0 <= i * n2 + nj < zlen cube).
    { destruct (Z_lt_dec (i * n2 + nj) 0);
        [rewrite aget_out in Eb by lia; discriminate |].
      destruct (Z_lt_dec (i * n2 + nj) (zlen cube)); [lia |].
      rewrite aget_out in Eb by lia. discriminate. }
    destruct (Z.land (get (mask st) i) nj =? nj),
      (Z.land (get (known st) i) nj =? get (known st) i); cbn [negb andb];
      rewrite ?aget_aset_eq by (rewrite ?zlen_aset; lia); auto.
  - destruct (bget cube (i * n2 + nj)); cbn [negb]; [| reflexivity].
    destruct (Z.land (get (mask st) i) nj =? nj),
      (Z.land (get (known st) i) nj =? get (known st) i); cbn [negb];
      rewrite ?aget_aset_neq by lia; reflexivity.
Qed.

Lemma forallb_other_keys {B : Type} (key : B -> Z) (g : B -> bool)
    (l : list B) (j : Z) (b0 : B) :
  In b0 l -> key b0 = j ->
  (forall b, In b l -> key b = j -> b = b0) ->
  forallb (fun b => negb (j =? key b) || g b) l = g b0.
Proof.
  intros Hin Hk Huniq.
  destruct (g b0) eqn:Eg.
  - apply forallb_forall. intros b Hb.
    destruct (Z.eqb_spec j (key b)) as [E | E]; [| reflexivity].
    cbn [negb orb]. now rewrite (Huniq b Hb (eq_sym E)).
  - apply not_true_iff_false. intros H. rewrite forallb_forall in H.
    specialize (H b0 Hin). rewrite Hk, Z.eqb_refl, Eg in H. discriminate.
Qed.

Lemma forallb_no_key {B : Type} (key : B -> Z) (g : B -> bool)
    (l : list B) (j : Z) :
  (forall b, In b l -> key b <> j) ->
  forallb (fun b => negb (j =? key b) || g b) l = true.
Proof.
  intros H. apply forallb_forall. intros b Hb.
  destruct (Z.eqb_spec j (key b)) as [E | E]; [| reflexivity].
  exfalso. apply (H b Hb). auto.
Qed.

(** X12.  [subsets_sync_cube] keeps a candidate [nj] of the cell [i]
    exactly when it was in the cube and lies between the bounds of the
    cell, [known[i]] included in [nj] and [nj] in [mask[i]]; it changes
    nothing outside the [w * h] rows of [2^n] candidates. *)
Theorem subsets_sync_cube_exact :
  forall (st : game_state) (cube : list bool) (i nj : Z),
    0 <= i < w st * h st -> 0 <= nj < Z.shiftl 1 (n st) ->
    bget (subsets_sync_cube st cube) (i * Z.shiftl 1 (n st) + nj)
    = bget cube (i * Z.shiftl 1 (n st) + nj)
      && ((Z.land (get (mask st) i) nj =? nj)
          && (Z.land (get (known st) i) nj =? get (known st) i)).
Proof.
  intros st cube i nj Hi Hnj. unfold subsets_sync_cube. cbn zeta.
  set (n2 := Z.shiftl 1 (n st)) in *.
  set (pairs := flat_map (fun i => map (fun nj => (i, nj)) (zrange n2))
                         (zrange (w st * h st))).
  assert (E : fold_left (fun cube i =>
                fold_left (fun cube nj => sync_cell st n2 cube i nj)
                          (zrange n2) cube) (zrange (w st * h st)) cube
              = fold_left (fun c (p : Z * Z) =>
                             sync_cell st n2 c (fst p) (snd p)) pairs cube).
  { subst pairs. rewrite fold_left_flat_map.
    apply fold_left_ext_in. intros c i0 _. now rewrite fold_left_map. }
  rewrite E.
  rewrite (fold_clear_spec _ (fun p : Z * Z => fst p * n2 + snd p)
             (fun p : Z * Z =>
                (Z.land (get (mask st) (fst p)) (snd p) =? snd p)
                && (Z.land (get (known st) (fst p)) (snd p)
                    =? get (known st) (fst p))))
    by (intros; apply sync_cell_get).
  f_equal.
  apply (forallb_other_keys
           (fun p : Z * Z => fst p * n2 + snd p)
           (fun p : Z * Z =>
              (Z.land (get (mask st) (fst p)) (snd p) =? snd p)
              && (Z.land (get (known st) (fst p)) (snd p)
                  =? get (known st) (fst p)))
           pairs _ (i, nj)); [| reflexivity |].
  - subst pairs. apply in_flat_map. exists i. split; [now apply in_zrange |].
    apply in_map. now apply in_zrange.
  - intros [i' nj'] Hin Hk. subst pairs.
    apply in_flat_map in Hin as (i0 & _ & Hin).
    apply in_map_iff in Hin as (nj0 & [= <- <-] & Hnj0).
    apply in_zrange in Hnj0. cbn [fst snd] in Hk.
    destruct (row_index_inj n2 i0 nj0 i nj Hnj0 Hnj Hk) as [-> ->].
    reflexivity.
Qed.

Lemma subsets_sync_cube_exact_witness :
  bget (subsets_sync_cube board_T3 (repeat true 256)) (0 * 16 + 12) = true
  /\ bget (subsets_sync_cube board_T3 (repeat true 256)) (0 * 16 + 4) = false.
Proof.
  split.
  - etransitivity;
      [apply (subsets_sync_cube_exact board_T3 (repeat true 256) 0 12);
       cbn; lia | reflexivity].
  - etransitivity;
      [apply (subsets_sync_cube_exact board_T3 (repeat true 256) 0 4);
       cbn; lia | reflexivity].
Defined.

Lemma single_count_cell_get (st : game_state) (n2 ni : Z) (cube : list bool)
    (j0 j : Z) :
  bget (single_count_cell st n2 ni cube j0) j
  = if j =? j0 * n2 + ni
    then bget cube j && (get (mask st) j0 =? get (known st) j0)
    else bget cube j.
Proof.
  unfold single_count_cell.
  destruct (get (mask st) j0 =? get (known st) j0).
  - destruct (j =? j0 * n2 + ni); [now rewrite andb_true_r | reflexivity].
  - destruct (Z.eqb_spec j (j0 * n2 + ni)) as [-> | Hne].
    + destruct (bget cube (j0 * n2 + ni)) eqn:Eb; cbn [negb andb];
        [| exact Eb].
      apply aget_aset_eq.
      destruct (Z_lt_dec (j0 * n2 + ni) 0);
        [rewrite aget_out in Eb by lia; discriminate |].
      destruct (Z_lt_dec (j0 * n2 + ni) (zlen cube)); [lia |].
      rewrite aget_out in Eb by lia. discriminate.
    + destruct (bget cube (j0 * n2 + ni)); cbn [negb]; [| reflexivity].
      now rewrite aget_aset_neq by lia.
Qed.

(** X13.  [subsets_cube_single_count] removes the candidate [ni] from the
    cell [j] exactly when the value [ni] is counted once and the cell is
    not resolved; every other candidate stays as it was. *)
Theorem subsets_cube_single_count_exact :
  forall (st : game_state) (counts : list Z) (cube : list bool) (j ni : Z),
    0 <= j < w st * h st -> 0 <= ni < Z.shiftl 1 (n st) ->
    bget (subsets_cube_single_count st counts cube)
         (j * Z.shiftl 1 (n st) + ni)
    = bget cube (j * Z.shiftl 1 (n st) + ni)
      && (negb (get counts ni =? 1) || (get (mask st) j =? get (known st) j)).
Proof.
  intros st counts cube j ni Hj Hni. unfold subsets_cube_single_count.
  cbn zeta. set (n2 := Z.shiftl 1 (n st)) in *.
  set (pairs := flat_map (fun ni => map (fun j => (ni, j))
                                        (zrange (w st * h st)))
                         (zrange n2)).
  assert (E : fold_left (fun cube ni =>
                if negb (get counts ni =? 1) then cube
                else fold_left (single_count_cell st n2 ni)
                               (zrange (w st * h st)) cube) (zrange n2) cube
              = fold_left (fun c (p : Z * Z) =>
                             if negb (get counts (fst p) =? 1) then c
                             else single_count_cell st n2 (fst p) c (snd p))
                          pairs cube).
  { subst pairs. rewrite fold_left_flat_map.
    apply fold_left_ext_in. intros c ni0 _. rewrite fold_left_map.
    cbn [fst snd]. destruct (negb (get counts ni0 =? 1)); [| reflexivity].
    symmetry. apply (fold_left_inv (fun s => s = c)); auto. }
  rewrite E.
  rewrite (fold_clear_spec _ (fun p : Z * Z => snd p * n2 + fst p)
             (fun p : Z * Z =>
                negb (get counts (fst p) =? 1)
                || (get (mask st) (snd p) =? get (known st) (snd p)))).
  - f_equal.
    apply (forallb_other_keys
             (fun p : Z * Z => snd p * n2 + fst p)
             (fun p : Z * Z =>
                negb (get counts (fst p) =? 1)
                || (get (mask st) (snd p) =? get (known st) (snd p)))
             pairs _ (ni, j)); [| reflexivity |].
    + subst pairs. apply in_flat_map. exists ni. split; [now apply in_zrange |].
      apply in_map. now apply in_zrange.
    + intros [ni' j'] Hin Hk. subst pairs.
      apply in_flat_map in Hin as (ni0 & Hni0 & Hin).
      apply in_map_iff in Hin as (j0 & [= <- <-] & _).
      apply in_zrange in Hni0. cbn [fst snd] in Hk.
      destruct (row_index_inj n2 j0 ni0 j ni Hni0 Hni Hk) as [-> ->].
      reflexivity.
  - intros c [ni0 j0] j1. cbn [fst snd].
    destruct (negb (get counts ni0 =? 1)); cbn [orb].
    + destruct (j1 =? j0 * n2 + ni0); [now rewrite andb_true_r | reflexivity].
    + apply single_count_cell_get.
Qed.

Lemma subsets_cube_single_count_exact_witness :
  bget (subsets_cube_single_count board_T3
          (counts_of (subsets_validate board_T3 None (Some [])))
          (repeat true 256)) (1 * 16 + 12) = false.
Proof.
  etransitivity;
    [apply (subsets_cube_single_count_exact board_T3
              (counts_of (subsets_validate board_T3 None (Some [])))
              (repeat true 256) 1 12); cbn; lia
    | reflexivity].
Defined.


Lemma cube_bounds_fold_bits (cube : list bool) (n2 i b : Z) (l : list Z) :
  forall acc,
    let res := fold_left (fun (acc : Z * Z) nj =>
                 if bget cube (i * n2 + nj)
                 then (Z.lor (fst acc) nj, Z.land (snd acc) nj) else acc)
                 l acc in
    Z.testbit (fst res) b
    = Z.testbit (fst acc) b
      || existsb (fun nj => bget cube (i * n2 + nj) && Z.testbit nj b) l
    /\ Z.testbit (snd res) b
       = Z.testbit (snd acc) b
         && forallb (fun nj => negb (bget cube (i * n2 + nj))
                               || Z.testbit nj b) l.
Proof.
  induction l as [|x l IH]; intros acc; cbn zeta; cbn [fold_left existsb forallb].
  - now rewrite orb_false_r, andb_true_r.
  - destruct (bget cube (i * n2 + x)); cbn [negb andb orb].
    + destruct (IH (Z.lor (fst acc) x, Z.land (snd acc) x)) as [-> ->].
      cbn [fst snd]. rewrite Z.lor_spec, Z.land_spec.
      now rewrite orb_assoc, andb_assoc.
    + apply IH.
Qed.

Lemma bits_from_cube_cells (st : game_state) (cube : list bool) :
  sized st ->
  forall i, 0 <= i < w st * h st ->
    get (known (snd (subsets_bits_from_cube st cube))) i
    = Z.lor (get (known st) i)
            (to_uint (snd (cube_bounds cube (Z.shiftl 1 (n st)) i)))
    /\ get (mask (snd (subsets_bits_from_cube st cube))) i
       = Z.land (get (mask st) i)
                (to_uint (fst (cube_bounds cube (Z.shiftl 1 (n st)) i))).
Proof.
  intros [Lk Lm].
  assert (Hs : 0 <= w st * h st) by (rewrite <- Lk; unfold zlen; lia).
  unfold subsets_bits_from_cube.
  pose proof (fold_zrange_prefix
    (fun (j : Z) (acc : Z * game_state) =>
       (n (snd acc) = n st /\ zlen (known (snd acc)) = w st * h st
        /\ zlen (mask (snd acc)) = w st * h st)
       /\ forall i, 0 <= i < w st * h st ->
            get (known (snd acc)) i
            = (if i <? j
               then Z.lor (get (known st) i)
                      (to_uint (snd (cube_bounds cube (Z.shiftl 1 (n st)) i)))
               else get (known st) i)
            /\ get (mask (snd acc)) i
               = (if i <? j
                  then Z.land (get (mask st) i)
                         (to_uint (fst (cube_bounds cube (Z.shiftl 1 (n st)) i)))
                  else get (mask st) i))
    (bits_from_cube_step cube) (w st * h st) (0, st) Hs) as H.
  cbn beta in H. destruct H as [_ H].
  - cbn [snd]. split; [auto |]. intros i Hi.
    destruct (Z.ltb_spec i 0); [lia | auto].
  - intros j [ret s] Hj [(En & Lk' & Lm') Hp]. cbn [snd] in *.
    rewrite bits_from_cube_step_eq. cbn zeta. cbn [snd].
    unfold or_known, and_mask. cbn [n known mask set_known set_mask].
    rewrite !zlen_aset, En. split; [auto |]. intros i Hi.
    destruct (Hp i Hi) as [Hk Hm].
    destruct (Z.eq_dec i j) as [-> | Hne].
    + rewrite !aget_aset_eq by lia.
      destruct (Hp j Hj) as [Hk' Hm'].
      destruct (Z.ltb_spec j j); [lia |].
      destruct (Z.ltb_spec j (j + 1)); [| lia]. now rewrite Hk', Hm'.
    + rewrite !aget_aset_neq by lia. rewrite Hk, Hm.
      destruct (Z.ltb_spec i j), (Z.ltb_spec i (j + 1)); try lia; auto.
  - intros i Hi. destruct (H i Hi) as [Hk Hm].
    destruct (Z.ltb_spec i (w st * h st)); [auto | lia].
Qed.

(** X14.  What [subsets_bits_from_cube] writes, bit by bit: bit [b] of
    [known[i]] is set afterwards when it was set before or when it is one
    of the 32 bits of a word and every candidate left for the cell has it;
    bit [b] of [mask[i]] stays set only when it is one of those 32 bits
    and some candidate left for the cell has it.  A cell with no candidate
    left thus gets every bit in [known] and none in [mask]. *)
Theorem subsets_bits_from_cube_exact :
  forall (st : game_state) (cube : list bool) (i b : Z),
    sized st -> 0 <= i < w st * h st -> 0 <= b ->
    let st' := snd (subsets_bits_from_cube st cube) in
    let n2 := Z.shiftl 1 (n st) in
    Z.testbit (get (known st') i) b
    = Z.testbit (get (known st) i) b
      || ((b <? 32)
          && forallb (fun nj => negb (bget cube (i * n2 + nj))
                                || Z.testbit nj b) (zrange n2))
    /\ Z.testbit (get (mask st') i) b
       = Z.testbit (get (mask st) i) b
         && ((b <? 32)
             && existsb (fun nj => bget cube (i * n2 + nj) && Z.testbit nj b)
                        (zrange n2)).
Proof.
  intros st cube i b Hs Hi Hb. cbn zeta.
  destruct (bits_from_cube_cells st cube Hs i Hi) as [-> ->].
  rewrite Z.lor_spec, Z.land_spec, !testbit_to_uint by assumption.
  unfold cube_bounds.
  destruct (cube_bounds_fold_bits cube (Z.shiftl 1 (n st)) i b
              (zrange (Z.shiftl 1 (n st))) (0, Z.lnot 0)) as [E1 E2].
  cbn zeta in E1, E2. rewrite E1, E2. cbn [fst snd].
  rewrite Z.bits_0. change (Z.lnot 0) with (-1). rewrite Z.bits_m1 by assumption.
  cbn [orb andb]. split; reflexivity.
Qed.

Lemma subsets_bits_from_cube_exact_witness :
  Z.testbit (get (known (snd (subsets_bits_from_cube board_T3
                                (repeat false 256)))) 1) 31 = true
  /\ Z.testbit (get (mask (snd (subsets_bits_from_cube board_T3
                                  (repeat false 256)))) 1) 0 = false.
Proof.
  destruct (subsets_bits_from_cube_exact board_T3 (repeat false 256) 1 31)
    as [E1 _]; [split; reflexivity | cbn; lia | lia |].
  destruct (subsets_bits_from_cube_exact board_T3 (repeat false 256) 1 0)
    as [_ E2]; [split; reflexivity | cbn; lia | lia |].
  cbn zeta in E1, E2. rewrite E1, E2. split; reflexivity.
Defined.

(** * From a click to a move *)

Lemma scan_int_print (v : Z) (rest : string) :
  0 <= v < 2 ^ 31 -> head_digit rest = false ->
  scan_int (print_int v +++ rest) = Some (v, rest).
Proof.
  intros Hv Hr. destruct (print_int_spec v Hv) as (c & r & E & Hall & Hdv).
  rewrite E. change (String c r +++ rest) with (String c (r +++ rest)).
  assert (Hc : is_digit c = true)
    by (cbn in Hall; now apply andb_true_iff in Hall).
  pose proof (digit_code c Hc) as Hcode.
  unfold scan_int.
  assert (Hs : is_space c = false).
  { unfold is_space. apply orb_false_iff. split.
    - apply Nat.eqb_neq. lia.
    - apply andb_false_iff. right. apply Nat.leb_gt. lia. }
  cbn [skip_spaces]. rewrite Hs. cbn [head_is].
  destruct (Ascii.eqb_spec c "-") as [-> | _]; [cbn in Hcode; lia |].
  destruct (Ascii.eqb_spec c "+") as [-> | _]; [cbn in Hcode; lia |].
  cbn [orb]. rewrite Hc.
  change (String c (r +++ rest)) with (String c r +++ rest).
  rewrite digits_value_app, skip_digits_app, Hdv by assumption.
  rewrite int_of_long_clamp_small by lia. reflexivity.
Qed.

Lemma sscanf_move_print (op : ascii) (pos bit : Z) :
  0 <= pos < 2 ^ 31 -> 0 <= bit < 2 ^ 31 ->
  sscanf_move (String op (print_int pos +++ ","%string +++ print_int bit))
  = Some (op, pos, bit).
Proof.
  intros Hp Hb. unfold sscanf_move.
  change (print_int pos +++ ","%string +++ print_int bit)
    with (print_int pos +++ String "," (print_int bit)).
  rewrite (scan_int_print pos (String "," (print_int bit)) Hp eq_refl).
  cbn [head_is string_tl]. change (("," =? ",")%char) with true. cbn iota.
  pose proof (scan_int_print bit EmptyString Hb eq_refl) as E.
  rewrite append_empty_r in E. now rewrite E.
Qed.

Lemma bit_type_cases (st : game_state) (pos num : Z) :
  bit_type st pos num = "K"%char \/ bit_type st pos num = "C"%char
  \/ bit_type st pos num = "U"%char.
Proof.
  unfold bit_type. destruct (has _ _); [auto |]. destruct (has _ _); auto.
Qed.

Lemma new_type_cases (lb mb rb s1 s2 button : Z) (old : ascii) :
  old = "K"%char \/ old = "C"%char \/ old = "U"%char ->
  new_type lb mb rb s1 s2 button old = "K"%char
  \/ new_type lb mb rb s1 s2 button old = "C"%char
  \/ new_type lb mb rb s1 s2 button old = "U"%char.
Proof.
  intros H. unfold new_type.
  destruct ((button =? lb) || (button =? s1));
    [destruct H as [-> | [-> | ->]]; cbn; auto |].
  destruct ((button =? rb) || (button =? s2));
    [destruct H as [-> | [-> | ->]]; cbn; auto |].
  destruct ((button =? mb) || (button =? 8)); auto.
Qed.

Lemma quot_rem_cell (g k : Z) :
  0 <= g -> 0 < k -> 0 <= Z.quot g k /\ 0 <= Z.rem g k < k.
Proof.
  intros Hg Hk. rewrite Z.quot_div_nonneg, Z.rem_mod_nonneg by lia.
  split; [apply Z.div_pos; lia | apply Z.mod_pos_bound; lia].
Qed.

Section ClickToMove.

Variables LEFT_BUTTON MIDDLE_BUTTON RIGHT_BUTTON CURSOR_SELECT CURSOR_SELECT2 : Z.
Variables IS_CURSOR_MOVE IS_CURSOR_SELECT IS_MOUSE_DOWN : Z -> bool.
Variable move_cursor : Z -> game_ui -> Z -> Z -> move_result * game_ui.

(** What it takes for [interpret_move] to return a move text. *)
Lemma interpret_move_text (fuel : nat) (st : game_state) (ui ui' : game_ui)
    (tilesize ox oy button : Z) (s : string) :
  IS_CURSOR_MOVE button = false ->
  0 < tilesize -> 0 <= cx ui -> 0 <= cy ui -> 0 < w st ->
  interpret_move LEFT_BUTTON MIDDLE_BUTTON RIGHT_BUTTON CURSOR_SELECT
    CURSOR_SELECT2 IS_CURSOR_MOVE IS_CURSOR_SELECT IS_MOUSE_DOWN move_cursor
    fuel st ui tilesize ox oy button = Some (MOVE_TEXT s, ui') ->
  exists pos bit,
    0 <= pos < w st * h st /\ 0 <= bit < 4
    /\ has (get (immutable st) pos) (Z.shiftl 1 bit) = false
    /\ new_type LEFT_BUTTON MIDDLE_BUTTON RIGHT_BUTTON CURSOR_SELECT
         CURSOR_SELECT2 button (bit_type st pos bit)
       <> bit_type st pos bit
    /\ s = String (new_type LEFT_BUTTON MIDDLE_BUTTON RIGHT_BUTTON
                     CURSOR_SELECT CURSOR_SELECT2 button (bit_type st pos bit))
                  (print_int pos +++ ","%string +++ print_int bit).
Proof.
  intros Hcm Hts Hcx Hcy Hw H. unfold interpret_move in H. rewrite Hcm in H.
  cbn zeta in H.
  set (coords := if (IS_CURSOR_SELECT button || (button =? 8)) && cshow ui
                 then Some (cx ui, cy ui)
                 else if negb (IS_MOUSE_DOWN button)
                         || (ox <? Z.quot tilesize 2)
                         || (oy <? Z.quot tilesize 2)
                      then None
                 else Some (Z.quot (ox - Z.quot tilesize 2) tilesize,
                            Z.quot (oy - Z.quot tilesize 2) tilesize)) in *.
  assert (Hco : match coords with
                | Some (gx, gy) => 0 <= gx /\ 0 <= gy
                | None => True
                end).
  { subst coords. destruct (_ && _); [auto |].
    destruct (negb (IS_MOUSE_DOWN button)); cbn [orb]; [exact I |].
    destruct (Z.ltb_spec ox (Z.quot tilesize 2)); cbn [orb]; [exact I |].
    destruct (Z.ltb_spec oy (Z.quot tilesize 2)); [exact I |].
    split; (rewrite Z.quot_div_nonneg by lia; apply Z.div_pos; lia). }
  destruct coords as [[gx gy] |]; [| discriminate].
  destruct Hco as [Hgx Hgy].
  change (CELL_WIDTH + 1) with 3 in H. change (CELL_HEIGHT + 1) with 3 in H.
  change CELL_WIDTH with 2 in H. change CELL_HEIGHT with 2 in H.
  destruct (quot_rem_cell gx 3 Hgx) as [Hqx Hrx]; [lia |].
  destruct (quot_rem_cell gy 3 Hgy) as [Hqy Hry]; [lia |].
  destruct (Z.geb_spec (Z.quot gx 3) (w st)); cbn [orb] in H; [discriminate |].
  destruct (Z.geb_spec (Z.quot gy 3) (h st)); [discriminate |].
  destruct (Z.geb_spec (Z.rem gx 3) 2); cbn [orb] in H; [discriminate |].
  destruct (Z.geb_spec (Z.rem gy 3) 2); [discriminate |].
  set (pos := Z.quot gy 3 * w st + Z.quot gx 3) in *.
  set (bit := Z.rem gy 3 * 2 + Z.rem gx 3) in *.
  destruct (has (get (immutable st) pos) (Z.shiftl 1 bit)) eqn:Himm;
    [discriminate |].
  destruct (Ascii.eqb_spec (bit_type st pos bit)
              (new_type LEFT_BUTTON MIDDLE_BUTTON RIGHT_BUTTON CURSOR_SELECT
                 CURSOR_SELECT2 button (bit_type st pos bit))) as [E | E];
    [discriminate |].
  injection H as <- _. exists pos, bit.
  split; [subst pos; apply cell_index_range; lia |].
  split; [subst bit; lia |]. split; [exact Himm |].
  split; [congruence | reflexivity].
Qed.

(** X15.  From a click to a move.  On a well-formed board with at least
    four bits per cell, every move text that [interpret_move] returns for
    a click or a cursor selection is one that [execute_move] accepts on
    the same state: it names a cell of the grid and a bit of it that is
    not fixed, and in the state that [execute_move] returns that bit is
    in the state ([K], [C] or [U]) the text names, which is not the one
    it was in. *)
Theorem interpret_move_accepted :
  forall (m : store) (state : nat) (fuel : nat) (ui ui' : game_ui)
         (tilesize ox oy button : Z) (s : string),
    (state < List.length m)%nat ->
    wf_board (deref m state) ->
    CELL_WIDTH * CELL_HEIGHT <= n (deref m state) ->
    IS_CURSOR_MOVE button = false ->
    0 < tilesize -> 0 <= cx ui -> 0 <= cy ui ->
    interpret_move LEFT_BUTTON MIDDLE_BUTTON RIGHT_BUTTON CURSOR_SELECT
      CURSOR_SELECT2 IS_CURSOR_MOVE IS_CURSOR_SELECT IS_MOUSE_DOWN move_cursor
      fuel (deref m state) ui tilesize ox oy button = Some (MOVE_TEXT s, ui') ->
    exists (op : ascii) (pos bit : Z) (st' : game_state),
      s = String op (print_int pos +++ ","%string +++ print_int bit)
      /\ 0 <= pos < w (deref m state) * h (deref m state)
      /\ 0 <= bit < n (deref m state)
      /\ execute_move m state s = Some (m ++ [st'], Some (List.length m))
      /\ bit_type (deref m state) pos bit <> op
      /\ bit_type st' pos bit = op.
Proof.
  intros m state fuel ui ui' tilesize ox oy button s Hstate Hwf Hn Hcm Hts
         Hcx Hcy H.
  set (st := deref m state) in *.
  pose proof (wf_board_unfold st Hwf)
    as ((Hw & Hh & Hn30 & Hs) & (Lc & Li & Lk & Lm) & _).
  pose proof (wf_board_typed st Hwf) as [_ Hty].
  destruct (interpret_move_text fuel st ui ui' tilesize ox oy button s
              Hcm Hts Hcx Hcy Hw H) as (pos & bit & Hpos & Hbit & Himm & Hne & ->).
  set (op := new_type _ _ _ _ _ _ _) in *.
  assert (Hop : op = "K"%char \/ op = "C"%char \/ op = "U"%char)
    by (apply new_type_cases, bit_type_cases).
  change (CELL_WIDTH * CELL_HEIGHT) with 4 in Hn.
  assert (Hp31 : 0 <= pos < 2 ^ 31).
  { assert (2 ^ n st <= 2 ^ 30) by (apply Z.pow_le_mono_r; lia).
    change (2 ^ 31) with (2 * 2 ^ 30). lia. }
  assert (Hb31 : 0 <= bit < 2 ^ 31) by (change (2 ^ 31) with 2147483648; lia).
  pose proof (sscanf_move_print op pos bit Hp31 Hb31) as Hscan.
  rewrite has_bit in Himm by lia.
  pose proof (execute_move_accepted m state _ op pos bit Hscan Hop Hpos
                ltac:(fold st; lia) Himm) as E.
  fold st in E. rewrite (dup_game_wf st Hwf) in E.
  rewrite (move_bit_player op bit st pos Hop) in E.
  eexists op, pos, bit, _. split; [reflexivity |]. split; [exact Hpos |].
  split; [lia |]. split; [exact E |]. split; [congruence |].
  unfold latch_completed, bit_type.
  assert (Hbits : forall r,
            known r = set (known st) pos (moved_known op bit (get (known st) pos)) ->
            mask r = set (mask st) pos (moved_mask op bit (get (mask st) pos)) ->
            (if has (get (known r) pos) (Z.shiftl 1 bit) then "K"%char
             else if has (get (mask r) pos) (Z.shiftl 1 bit) then "U"%char
             else "C"%char) = op).
  { intros r -> ->. rewrite !aget_aset_eq, !has_bit by lia.
    destruct (Hty pos) as [Hk Hm].
    assert (Hm32 : 0 <= get (mask st) pos < 2 ^ 32).
    { rewrite ALL_BITS_pow in Hm by lia.
      assert (2 ^ n st <= 2 ^ 30) by (apply Z.pow_le_mono_r; lia).
      change (2 ^ 32) with (4 * 2 ^ 30). lia. }
    destruct (moved_bits op bit (get (known st) pos) (get (mask st) pos) bit
                Hop Hk Hm32) as [-> ->]; try lia.
    rewrite Z.eqb_refl.
    destruct Hop as [-> | [-> | ->]]; reflexivity. }
  destruct (status_eqb _ _); apply Hbits; reflexivity.
Qed.

End ClickToMove.

Lemma interpret_move_accepted_witness :
  interpret_move 512 513 514 525 526
    (fun b => (521 <=? b) && (b <=? 524))
    (fun b => (b =? 525) || (b =? 526))
    (fun b => (512 <=? b) && (b <=? 514))
    (fun _ ui _ _ => (MOVE_FRAMEWORK 0, ui))
    1 board_T1_open5 new_ui 10 35 35 512
  = Some (MOVE_TEXT "K5,0"%string, new_ui)
  /\ exists (op : ascii) (pos bit : Z) (st' : game_state),
       "K5,0"%string = String op (print_int pos +++ ","%string +++ print_int bit)
       /\ 0 <= pos < w board_T1_open5 * h board_T1_open5
       /\ 0 <= bit < n board_T1_open5
       /\ execute_move [board_T1_open5] 0 "K5,0"%string
          = Some ([board_T1_open5] ++ [st'], Some 1%nat)
       /\ bit_type board_T1_open5 pos bit <> op
       /\ bit_type st' pos bit = op.
Proof.
  split; [reflexivity |].
  apply (interpret_move_accepted 512 513 514 525 526
           (fun b => (521 <=? b) && (b <=? 524))
           (fun b => (b =? 525) || (b =? 526))
           (fun b => (512 <=? b) && (b <=? 514))
           (fun _ ui _ _ => (MOVE_FRAMEWORK 0, ui))
           [board_T1_open5] 0%nat 1%nat new_ui new_ui 10 35 35 512
           "K5,0"%string);
    [cbn; lia | reflexivity | cbn; lia | reflexivity | lia | cbn; lia
    | cbn; lia | reflexivity].
Defined.

(** * The board as text, character by character *)

(** A loop that only appends writes the concatenation of its pieces. *)
Lemma fold_append_flat {A : Type} (g : A -> string) (l : list A) :
  forall p,
    fold_left (fun p x => p +++ g x) l p
    = p +++ fold_right (fun x s => g x +++ s) EmptyString l.
Proof.
  induction l as [|a l IH]; intros p; cbn [fold_left fold_right].
  - now rewrite append_empty_r.
  - rewrite IH. apply append_assoc.
Qed.

Lemma fold_append_flat_empty {A : Type} (g : A -> string) (l : list A) :
  fold_left (fun p x => p +++ g x) l EmptyString
  = fold_right (fun x s => g x +++ s) EmptyString l.
Proof. exact (fold_append_flat g l EmptyString). Qed.

Lemma get_append_l (s1 s2 : string) (k : nat) :
  (k < String.length s1)%nat -> String.get k (s1 +++ s2) = String.get k s1.
Proof. intros H. symmetry. now apply append_correct1. Qed.

Lemma get_append_r (s1 s2 : string) (k : nat) :
  String.get (String.length s1 + k) (s1 +++ s2) = String.get k s2.
Proof. rewrite Nat.add_comm. symmetry. apply append_correct2. Qed.

Lemma flat_get {A : Type} (g : A -> string) (c : nat) (l1 : list A) (x : A)
    (l2 : list A) (k : nat) :
  (forall i, In i l1 -> String.length (g i) = c) ->
  (k < String.length (g x))%nat ->
  String.get (c * List.length l1 + k)
             (fold_right (fun x s => g x +++ s) EmptyString (l1 ++ x :: l2))
  = String.get k (g x).
Proof.
  induction l1 as [|a l1 IH]; intros Hc Hk; cbn [app fold_right List.length].
  - rewrite Nat.mul_0_r. cbn [Nat.add]. now apply get_append_l.
  - replace (c * S (List.length l1) + k)%nat
      with (String.length (g a) + (c * List.length l1 + k))%nat
      by (rewrite (Hc a) by (now left); lia).
    rewrite get_append_r. apply IH; [| exact Hk].
    intros i Hi. apply Hc. now right.
Qed.

Lemma zrange_split (m j : Z) :
  0 <= j < m -> exists rest, zrange m = zrange j ++ j :: rest.
Proof.
  intros H. unfold zrange.
  replace (Z.to_nat m) with (Z.to_nat j + S (Z.to_nat (m - j - 1)))%nat by lia.
  rewrite seq_app, map_app. cbn [seq map Nat.add].
  rewrite Z2Nat.id by lia. eauto.
Qed.

(** The character [k] of the piece [j], when the pieces before it are [c]
    characters long. *)
Lemma flat_zrange_get (g : Z -> string) (c m j k : Z) :
  0 <= j < m -> 0 <= c -> 0 <= k < Z.of_nat (String.length (g j)) ->
  (forall i, 0 <= i < j -> Z.of_nat (String.length (g i)) = c) ->
  String.get (Z.to_nat (c * j + k))
             (fold_right (fun x s => g x +++ s) EmptyString (zrange m))
  = String.get (Z.to_nat k) (g j).
Proof.
  intros Hj Hc Hk Hlen. destruct (zrange_split m j Hj) as [rest ->].
  replace (Z.to_nat (c * j + k))
    with (Z.to_nat c * List.length (zrange j) + Z.to_nat k)%nat
    by (rewrite zrange_length, Z2Nat.inj_add, Z2Nat.inj_mul by nia; reflexivity).
  apply flat_get; [| lia].
  intros i Hi. apply in_zrange in Hi. specialize (Hlen i Hi). lia.
Qed.

(** What the [x] loop of a line of cells writes for the cell [x]. *)
Lemma text_cell_row_flat (st : game_state) (y cy : Z) (p : string) :
  text_cell_row st y cy p
  = p +++ fold_right (fun x s =>
            String (text_bit st (y * w st + x) (cy * CELL_WIDTH + 0))
              (String (text_bit st (y * w st + x) (cy * CELL_WIDTH + 1))
                 (if x <? w st - 1
                  then String
                         (if negb (cy =? 0) then " "%char
                          else if has (get (clues st) (y * w st + x)) F_ADJ_RIGHT
                               then ">"%char
                          else if has (get (clues st) (y * w st + x + 1))
                                      F_ADJ_LEFT
                               then "<"%char
                          else " "%char) EmptyString
                  else EmptyString)) +++ s)
          EmptyString (zrange (w st)).
Proof.
  unfold text_cell_row. rewrite <- fold_append_flat.
  apply fold_left_ext_in. intros s x _. cbn zeta.
  change (zrange CELL_WIDTH) with [0; 1]. cbn [fold_left]. unfold put.
  destruct (x <? w st - 1); rewrite !append_assoc; reflexivity.
Qed.

(** What the [x] loop of a line between two rows writes for the cell [x]. *)
Lemma text_gap_row_flat (st : game_state) (y : Z) (p : string) :
  text_gap_row st y p
  = p +++ fold_right (fun x s =>
            String (if has (get (clues st) (y * w st + x)) F_ADJ_DOWN
                    then "v"%char
                    else if has (get (clues st) ((y + 1) * w st + x)) F_ADJ_UP
                         then "^"%char
                    else " "%char)
              (String " "%char
                 (if x <? w st - 1 then String " "%char EmptyString
                  else EmptyString)) +++ s)
          EmptyString (zrange (w st)).
Proof.
  unfold text_gap_row. rewrite <- fold_append_flat.
  apply fold_left_ext_in. intros s x _. cbn zeta.
  change (map (Z.add 1) (zrange (CELL_WIDTH - 1))) with [1].
  cbn [fold_left]. unfold put.
  destruct (x <? w st - 1); rewrite !append_assoc; reflexivity.
Qed.

Lemma text_cell_row_app (st : game_state) (y cy : Z) (p : string) :
  text_cell_row st y cy p = p +++ text_cell_row st y cy EmptyString.
Proof. now rewrite (text_cell_row_flat st y cy p), (text_cell_row_flat st y cy EmptyString). Qed.

Lemma text_gap_row_app (st : game_state) (y : Z) (p : string) :
  text_gap_row st y p = p +++ text_gap_row st y EmptyString.
Proof. now rewrite (text_gap_row_flat st y p), (text_gap_row_flat st y EmptyString). Qed.

(** The text, one block of lines for each row of cells. *)
Lemma game_text_format_flat (st : game_state) :
  game_text_format st
  = fold_right (fun y s =>
      (text_cell_row st y 0 EmptyString
       +++ String "010"%char
             (text_cell_row st y 1 EmptyString
              +++ String "010"%char
                    (if y <? h st - 1
                     then text_gap_row st y EmptyString
                          +++ String "010"%char EmptyString
                     else EmptyString))) +++ s)
      EmptyString (zrange (h st)).
Proof.
  unfold game_text_format.
  rewrite <- fold_append_flat_empty.
  apply fold_left_ext_in. intros p y _. cbn zeta.
  change (zrange CELL_HEIGHT) with [0; 1]. cbn [fold_left]. unfold put.
  rewrite (text_cell_row_app st y 1), (text_cell_row_app st y 0).
  destruct (y <? h st - 1).
  - rewrite (text_gap_row_app st y). rewrite !append_assoc. reflexivity.
  - rewrite !append_assoc. reflexivity.
Qed.

Lemma append_empty_l (s : string) : EmptyString +++ s = s.
Proof. reflexivity. Qed.

Lemma get_cons (c : ascii) (s : string) (k : nat) :
  String.get (S k) (String c s) = String.get k s.
Proof. reflexivity. Qed.

(** The character [k] of the line [cy] of the row [y] of cells is at
    the offset [(3 * y + cy) * (3 * w) + k] of the text. *)
Lemma text_cell_line_get (st : game_state) (y cy k : Z) :
  0 < w st -> 0 <= y < h st -> 0 <= cy < 2 -> 0 <= k < 3 * w st - 1 ->
  String.get (Z.to_nat ((3 * y + cy) * (3 * w st) + k)) (game_text_format st)
  = String.get (Z.to_nat k) (text_cell_row st y cy EmptyString).
Proof.
  intros Hw Hy Hcy Hk. rewrite game_text_format_flat.
  pose proof (fun y cy => text_cell_row_length st y cy EmptyString Hw) as Lc.
  pose proof (fun y => text_gap_row_length st y EmptyString Hw) as Lg.
  cbn [String.length] in Lc, Lg.
  replace ((3 * y + cy) * (3 * w st) + k)
    with (9 * w st * y + (cy * (3 * w st) + k)) by ring.
  rewrite flat_zrange_get; try lia.
  - assert (E : cy = 0 \/ cy = 1) by lia. destruct E as [-> | ->].
    + rewrite get_append_l by (specialize (Lc y 0); lia).
      f_equal.
    + replace (Z.to_nat (1 * (3 * w st) + k))
        with (String.length (text_cell_row st y 0 EmptyString)
              + S (Z.to_nat k))%nat by (specialize (Lc y 0); lia).
      rewrite get_append_r, get_cons.
      apply get_append_l. specialize (Lc y 1). lia.
  - rewrite !string_length_append. cbn [String.length].
    rewrite string_length_append. cbn [String.length].
    pose proof (Lc y 0). pose proof (Lc y 1). nia.
  - intros i Hi. destruct (Z.ltb_spec i (h st - 1)); [| lia].
    rewrite !string_length_append. cbn [String.length].
    rewrite !string_length_append. cbn [String.length].
    rewrite !string_length_append. cbn [String.length].
    pose proof (Lc i 0). pose proof (Lc i 1). pose proof (Lg i). lia.
Qed.

(** The character [k] of the line between the rows [y] and [y + 1]. *)
Lemma text_gap_line_get (st : game_state) (y k : Z) :
  0 < w st -> 0 <= y < h st - 1 -> 0 <= k < 3 * w st - 1 ->
  String.get (Z.to_nat ((3 * y + 2) * (3 * w st) + k)) (game_text_format st)
  = String.get (Z.to_nat k) (text_gap_row st y EmptyString).
Proof.
  intros Hw Hy Hk. rewrite game_text_format_flat.
  pose proof (fun y cy => text_cell_row_length st y cy EmptyString Hw) as Lc.
  pose proof (fun y => text_gap_row_length st y EmptyString Hw) as Lg.
  cbn [String.length] in Lc, Lg.
  replace ((3 * y + 2) * (3 * w st) + k)
    with (9 * w st * y + (6 * w st + k)) by ring.
  rewrite flat_zrange_get; try lia.
  - destruct (Z.ltb_spec y (h st - 1)); [| lia].
    replace (Z.to_nat (6 * w st + k))
      with (String.length (text_cell_row st y 0 EmptyString)
            + S (String.length (text_cell_row st y 1 EmptyString)
                 + S (Z.to_nat k)))%nat
      by (pose proof (Lc y 0); pose proof (Lc y 1); lia).
    rewrite get_append_r, get_cons, get_append_r, get_cons.
    apply get_append_l. specialize (Lg y). lia.
  - destruct (Z.ltb_spec y (h st - 1)); [| lia].
    rewrite !string_length_append. cbn [String.length].
    rewrite !string_length_append. cbn [String.length].
    rewrite !string_length_append. cbn [String.length].
    pose proof (Lc y 0). pose proof (Lc y 1). pose proof (Lg y). lia.
  - intros i Hi. destruct (Z.ltb_spec i (h st - 1)); [| lia].
    rewrite !string_length_append. cbn [String.length].
    rewrite !string_length_append. cbn [String.length].
    rewrite !string_length_append. cbn [String.length].
    pose proof (Lc i 0). pose proof (Lc i 1). pose proof (Lg i). lia.
Qed.



(** X17.  Where [game_text_format] shows the arrows: after the first line
    of a cell that has a right neighbour comes [>] when the cell points
    right, else [<] when the neighbour points left, else a space; on the
    line under a row that is not the last, under the first column of a
    cell, comes [v] when the cell points down, else [^] when the cell
    below points up, else a space. *)
Theorem game_text_format_arrows :
  forall (st : game_state) (x y : Z),
    0 <= x < w st -> 0 <= y < h st ->
    (x < w st - 1 ->
     String.get (Z.to_nat ((CELL_HEIGHT + 1) * y * (w st * (CELL_WIDTH + 1))
                           + (CELL_WIDTH + 1) * x + CELL_WIDTH))
                (game_text_format st)
     = Some (if has (get (clues st) (y * w st + x)) F_ADJ_RIGHT then ">"%char
             else if has (get (clues st) (y * w st + x + 1)) F_ADJ_LEFT
                  then "<"%char
             else " "%char))
    /\ (y < h st - 1 ->
        String.get (Z.to_nat (((CELL_HEIGHT + 1) * y + CELL_HEIGHT)
                              * (w st * (CELL_WIDTH + 1))
                              + (CELL_WIDTH + 1) * x))
                   (game_text_format st)
        = Some (if has (get (clues st) (y * w st + x)) F_ADJ_DOWN then "v"%char
                else if has (get (clues st) ((y + 1) * w st + x)) F_ADJ_UP
                     then "^"%char
                else " "%char)).
Proof.
  intros st x y Hx Hy.
  change (CELL_WIDTH + 1) with 3. change (CELL_HEIGHT + 1) with 3.
  change CELL_WIDTH with 2. change CELL_HEIGHT with 2.
  split.
  - intros Hx1.
    replace (3 * y * (w st * 3) + 3 * x + 2)
      with ((3 * y + 0) * (3 * w st) + (3 * x + 2)) by ring.
    rewrite text_cell_line_get by lia.
    rewrite text_cell_row_flat, append_empty_l.
    rewrite flat_zrange_get; try lia.
    + destruct (Z.ltb_spec x (w st - 1)); [reflexivity | lia].
    + destruct (Z.ltb_spec x (w st - 1)); [cbn [String.length]; lia | lia].
    + intros i Hi. destruct (Z.ltb_spec i (w st - 1)); [reflexivity | lia].
  - intros Hy1.
    replace ((3 * y + 2) * (w st * 3) + 3 * x)
      with ((3 * y + 2) * (3 * w st) + (3 * x + 0)) by ring.
    rewrite text_gap_line_get by lia.
    rewrite text_gap_row_flat, append_empty_l.
    rewrite flat_zrange_get; try lia.
    + reflexivity.
    + cbn [String.length]. lia.
    + intros i Hi. destruct (Z.ltb_spec i (w st - 1)); [reflexivity | lia].
Qed.

Lemma game_text_format_arrows_witness :
  String.get 5 (game_text_format board_T1_open5)
  = Some (if has (get (clues board_T1_open5) 1) F_ADJ_RIGHT then ">"%char
          else if has (get (clues board_T1_open5) 2) F_ADJ_LEFT then "<"%char
          else " "%char)
  /\ String.get 27 (game_text_format board_T1_open5)
     = Some (if has (get (clues board_T1_open5) 1) F_ADJ_DOWN then "v"%char
             else if has (get (clues board_T1_open5) 5) F_ADJ_UP then "^"%char
             else " "%char).
Proof.
  destruct (game_text_format_arrows board_T1_open5 1 0) as [H1 H2];
    [cbn; lia | cbn; lia |].
  split; [apply H1 | apply H2]; cbn; lia.
Defined.
